(** * Indoor navigation core: room index, graph builder, A* search,
      path enhancer and directions generator.

    A shallow embedding of [src/utils/pathfinding.js] and of the
    directions generator (the module imported as
    [utils/directionsGenerator]), with the properties of the
    specification stated and proved over it.

    Conventions of the embedding.
    - A JavaScript number is a real number ([R]): rounding, [NaN] and
      overflow are outside the model.  [Infinity], which the search uses
      as a default score, is the extra point of [ext].
    - Floor indices are integers ([Z]); an absent or [null] property is
      [None].
    - Strings are [string]s of 8-bit characters (the UTF-8 bytes of the
      text).  [toLowerCase] folds the ASCII letters only: it is
      [String.prototype.toLowerCase] on ASCII text, and differs from it
      on cased letters outside ASCII.  The pattern tests, whose patterns
      are ASCII, read the folded name; the statements that compare
      folded names with each other are made for ASCII names
      ([asciiName]).
    - A JavaScript [Map] is an association list in insertion order
      ([JsMap]), a [Set] of keys is a duplicate-free list in insertion
      order ([JsSet]).
    - A call either returns, throws (a [TypeError] on reading a property
      of [undefined]) or, for the loops that the model runs on fuel,
      runs out of fuel: [result]. *)

From Stdlib Require Import Reals Lra Lia List String Ascii ZArith Bool.
From Stdlib Require Import DecimalString DecimalZ Rgeom Ratan Permutation.
From Stdlib Require Import Sorted.
Import ListNotations.

Open Scope string_scope.
Open Scope R_scope.

(** ** Outcomes of a call *)

Inductive result (A : Type) : Type :=
| Ok (a : A)
| Throw
| OutOfFuel.

Arguments Ok {A} a.
Arguments Throw {A}.
Arguments OutOfFuel {A}.

Definition bind {A B : Type} (r : result A) (k : A -> result B) : result B :=
  match r with
  | Ok a => k a
  | Throw => Throw
  | OutOfFuel => OutOfFuel
  end.

Notation "x <- r ;; k" := (bind r (fun x => k))
  (at level 61, r at next level, right associativity).

(** [Array.prototype.map] with a callback that may throw. *)
Fixpoint mapM {A B : Type} (f : A -> result B) (l : list A) : result (list B) :=
  match l with
  | [] => Ok []
  | a :: l' => b <- f a ;; bs <- mapM f l' ;; Ok (b :: bs)
  end.

(** ** Numbers with [Infinity] *)

Inductive ext : Type :=
| Fin (r : R)
| Infinity.

Definition Rltb (a b : R) : bool := if Rlt_dec a b then true else false.
Definition Reqb (a b : R) : bool := if Req_dec_T a b then true else false.

(** [a < b] on numbers that may be [Infinity]. *)
Definition ext_ltb (a b : ext) : bool :=
  match a, b with
  | Fin x, Fin y => Rltb x y
  | Fin _, Infinity => true
  | Infinity, _ => false
  end.

Definition ext_add (a : ext) (w : R) : ext :=
  match a with
  | Fin x => Fin (x + w)
  | Infinity => Infinity
  end.

(** ** Strings *)

Module JsString.

Definition lowerChar (c : ascii) : ascii :=
  let n := nat_of_ascii c in
  if ((65 <=? n) && (n <=? 90))%nat then ascii_of_nat (n + 32) else c.

(** [s.toLowerCase()] for a string of ASCII characters: the letters
    [A] to [Z] are folded, every other byte is kept. *)
Fixpoint toLowerCase (s : string) : string :=
  match s with
  | EmptyString => EmptyString
  | String c r => String (lowerChar c) (toLowerCase r)
  end.

(** [hay.includes(needle)] *)
Fixpoint includes (needle hay : string) : bool :=
  String.prefix needle hay ||
  match hay with
  | EmptyString => false
  | String _ r => includes needle r
  end.

(** A string is falsy exactly when it is empty. *)
Definition truthy (s : string) : bool :=
  match s with
  | EmptyString => false
  | String _ _ => true
  end.

(** [`${z}`] for an integer. *)
Definition ofZ (z : Z) : string := NilZero.string_of_int (Z.to_int z).

End JsString.

(** ** Maps and sets in insertion order *)

Module JsMap.

Definition t (V : Type) : Type := list (string * V).

Fixpoint get {V : Type} (k : string) (m : t V) : option V :=
  match m with
  | [] => None
  | (k', v) :: r => if String.eqb k k' then Some v else get k r
  end.

Definition has {V : Type} (k : string) (m : t V) : bool :=
  match get k m with
  | Some _ => true
  | None => false
  end.

(** An existing key keeps its position, a new key goes last. *)
Fixpoint set {V : Type} (k : string) (v : V) (m : t V) : t V :=
  match m with
  | [] => [(k, v)]
  | (k', v') :: r =>
      if String.eqb k k' then (k, v) :: r else (k', v') :: set k v r
  end.

Definition keys {V : Type} (m : t V) : list string := map fst m.
Definition values {V : Type} (m : t V) : list V := map snd m.

End JsMap.

Module JsSet.

Definition t : Type := list string.

Definition has (k : string) (s : t) : bool :=
  existsb (String.eqb k) s.

Definition add (k : string) (s : t) : t :=
  if has k s then s else (s ++ [k])%list.

Definition delete (k : string) (s : t) : t :=
  filter (fun k' => negb (String.eqb k k')) s.

End JsSet.

(** ** Features *)

(** A position [[lon, lat]] (a third component, when present, is never
    read). *)
Definition coord : Type := (R * R)%type.

Inductive geometry : Type :=
| Polygon (coordinates : list (list coord))
| MultiPolygon (coordinates : list (list (list coord)))
| LineString (coordinates : list coord)
| OtherGeometry.

Record properties : Type := mkProperties {
  p_name : option string;
  p_id : option string;
  p_room_id : option string;
  p_floor : option Z;
  p_nivel : option Z;
  p_level : option Z
}.

Record feature : Type := mkFeature {
  f_properties : option properties;
  f_geometry : geometry
}.

(** [a || b] where [a] is an optional string: absent and empty are falsy. *)
Definition orString (a : option string) (b : string) : string :=
  match a with
  | Some s => if JsString.truthy s then s else b
  | None => b
  end.

(** [a || b] where [a] is an optional integer: absent and [0] are falsy. *)
Definition orNumber (a : option Z) (b : Z) : Z :=
  match a with
  | Some z => if Z.eqb z 0 then b else z
  | None => b
  end.

(** [room.properties?.field] *)
Definition prop {A : Type} (field : properties -> option A) (room : feature)
  : option A :=
  match f_properties room with
  | Some p => field p
  | None => None
  end.

Module Pathfinding.

(** Euclidean distance between two points. *)
Definition distance (p1 p2 : coord) : R :=
  let dx := fst p1 - fst p2 in
  let dy := snd p1 - snd p2 in
  sqrt (dx * dx + dy * dy).

(** The ring [getCentroid] and the boundary scans read:
    [coordinates[0]] of a polygon, [coordinates[0][0]] of a
    multi-polygon, the line itself.  [None] stands for the two ways
    the read fails once the ring is used: [coordinates[0]] is
    [undefined], or indexing it already throws. *)
Definition ringCoords (g : geometry) : option (list coord) :=
  match g with
  | Polygon cs => nth_error cs 0
  | MultiPolygon cs =>
      match nth_error cs 0 with
      | Some poly => nth_error poly 0
      | None => None
      end
  | LineString cs => Some cs
  | OtherGeometry => Some []
  end.

Definition sumCoords (coords : list coord) : coord :=
  fold_left (fun acc c => (fst acc + fst c, snd acc + snd c)) coords (0, 0).

(** Centroid of a feature. *)
Definition getCentroid (room : feature) : result coord :=
  match ringCoords (f_geometry room) with
  | None => Throw
  | Some [] => Ok (0, 0)
  | Some coords =>
      let sum := sumCoords coords in
      let n := INR (List.length coords) in
      Ok (fst sum / n, snd sum / n)
  end.

Definition getRoomFloor (room : feature) : Z :=
  orNumber (prop p_floor room)
    (orNumber (prop p_nivel room)
       (orNumber (prop p_level room) 0%Z)).

Definition getRoomName (room : feature) : string :=
  orString (prop p_name room)
    (orString (prop p_id room)
       (orString (prop p_room_id room) "")).

Definition isVerticalConnector (roomName : string) : bool :=
  let name := JsString.toLowerCase roomName in
  JsString.includes "stair" name ||
  JsString.includes "escada" name ||
  JsString.includes "elevador" name ||
  JsString.includes "elevator" name ||
  JsString.includes "corredor" name ||
  JsString.includes "corridor" name ||
  JsString.includes "hallway" name ||
  JsString.includes "lobby" name.

Definition isCorridor (roomName : string) : bool :=
  let name := JsString.toLowerCase roomName in
  JsString.includes "hall" name ||
  JsString.includes "corridor" name ||
  JsString.includes "corredor" name ||
  JsString.includes "hallway" name ||
  JsString.includes "lobby" name ||
  JsString.includes "passage" name ||
  JsString.includes "passagem" name.

Definition isNavigableRoom (roomName : string) : bool :=
  let name := JsString.toLowerCase roomName in
  if String.eqb name "floor" || String.eqb name "structure" ||
     String.eqb name "void" || String.eqb name "exterior"
  then false
  else true.

(** [`${name}_F${floor}`] *)
Definition roomKey (name : string) (floor : Z) : string :=
  name ++ "_F" ++ JsString.ofZ floor.

(** A room group while the features are being collected (its centroid
    is still [null]). *)
Record group : Type := mkGroup {
  g_name : string;
  g_floor : Z;
  g_features : list feature
}.

(** A room group with its centroid. *)
Record room : Type := mkRoom {
  room_name : string;
  room_floor : Z;
  room_features : list feature;
  room_centroid : coord
}.

(** One round of the first [forEach] of [groupRoomsByName]. *)
Definition addFeature (roomGroups : JsMap.t group) (f : feature)
  : JsMap.t group :=
  let name := getRoomName f in
  let floor := getRoomFloor f in
  let key := roomKey name floor in
  let roomGroups1 :=
    if JsMap.has key roomGroups then roomGroups
    else JsMap.set key (mkGroup name floor []) roomGroups in
  match JsMap.get key roomGroups1 with
  | Some g =>
      JsMap.set key
        (mkGroup (g_name g) (g_floor g) (g_features g ++ [f])%list)
        roomGroups1
  | None => roomGroups1
  end.

Definition collectGroups (features : list feature) : JsMap.t group :=
  fold_left addFeature features [].

Definition sumFirst (centroids : list coord) : R :=
  fold_left (fun sum c => sum + fst c) centroids 0.

Definition sumSecond (centroids : list coord) : R :=
  fold_left (fun sum c => sum + snd c) centroids 0.

(** One round of the second [forEach] of [groupRoomsByName]. *)
Definition withCentroid (g : group) : result room :=
  centroids <- mapM getCentroid (g_features g) ;;
  let n := INR (List.length centroids) in
  Ok (mkRoom (g_name g) (g_floor g) (g_features g)
        (sumFirst centroids / n, sumSecond centroids / n)).

Definition groupRoomsByName (features : list feature)
  : result (JsMap.t room) :=
  mapM (fun kv => r <- withCentroid (snd kv) ;; Ok (fst kv, r))
    (collectGroups features).

(** *** Graph builder *)

Record neighbor : Type := mkNeighbor {
  nb_key : string;
  nb_name : string;
  nb_floor : Z;
  nb_distance : R;
  nb_isCorridor : bool
}.

Record node : Type := mkNode {
  n_room : room;
  n_neighbors : list neighbor;
  n_centroid : coord;
  n_isCorridor : bool
}.

Definition graph : Type := JsMap.t node.

(** Threshold and weight multiplier of a same-floor pair. *)
Definition sameFloorRule (isRoomCorridor isOtherCorridor : bool) : R * R :=
  if isRoomCorridor && isOtherCorridor then (0.05, 0.8)
  else if isRoomCorridor || isOtherCorridor then (0.03, 0.9)
  else (0.015, 1.2).

(** The inner [forEach] callback of [buildRoomGraph]: the neighbour
    that [room] gets from [otherRoom], if any. *)
Definition connect (room otherRoom : room) : option neighbor :=
  if String.eqb (room_name room) (room_name otherRoom) &&
     Z.eqb (room_floor room) (room_floor otherRoom)
  then None
  else if Z.eqb (room_floor room) (room_floor otherRoom) then
    let dist := distance (room_centroid room) (room_centroid otherRoom) in
    let isOtherCorridor := isCorridor (room_name otherRoom) in
    let rule := sameFloorRule (isCorridor (room_name room)) isOtherCorridor in
    let threshold := fst rule in
    let distanceWeight := dist * snd rule in
    if Rltb dist threshold && Rltb 0 dist then
      Some (mkNeighbor
              (roomKey (room_name otherRoom) (room_floor otherRoom))
              (room_name otherRoom) (room_floor otherRoom)
              distanceWeight isOtherCorridor)
    else None
  else if Z.eqb (Z.abs (room_floor room - room_floor otherRoom)) 1 then
    if isVerticalConnector (room_name room) ||
       isVerticalConnector (room_name otherRoom)
    then
      let dist := distance (room_centroid room) (room_centroid otherRoom) in
      let threshold := 0.02 in
      if Rltb dist threshold && Rltb 0 dist then
        Some (mkNeighbor
                (roomKey (room_name otherRoom) (room_floor otherRoom))
                (room_name otherRoom) (room_floor otherRoom)
                (dist * 2) (isCorridor (room_name otherRoom)))
      else None
    else None
  else None.

Definition neighborsOf (filteredRooms : list room) (room : room)
  : list neighbor :=
  flat_map (fun otherRoom =>
              match connect room otherRoom with
              | Some n => [n]
              | None => []
              end) filteredRooms.

Definition filterRooms (rooms : list room) (targetFloor : option Z)
  : list room :=
  let filteredRooms :=
    match targetFloor with
    | Some fl => filter (fun r => Z.eqb (room_floor r) fl) rooms
    | None => rooms
    end in
  filter (fun r => isNavigableRoom (room_name r)) filteredRooms.

Definition buildRoomGraph (roomGroups : JsMap.t room)
  (targetFloor : option Z) : graph :=
  let filteredRooms := filterRooms (JsMap.values roomGroups) targetFloor in
  fold_left
    (fun (g : graph) room =>
       JsMap.set (roomKey (room_name room) (room_floor room))
         (mkNode room (neighborsOf filteredRooms room)
            (room_centroid room) (isCorridor (room_name room))) g)
    filteredRooms [].

(** *** A* search *)

Record astate : Type := mkState {
  openSet : JsSet.t;
  closedSet : JsSet.t;
  cameFrom : JsMap.t string;
  gScore : JsMap.t R;
  fScore : JsMap.t R
}.

(** [fScore.get(key) || Infinity]: a missing score and the score [0]
    both read as [Infinity]. *)
Definition fOrInfinity (fScore : JsMap.t R) (key : string) : ext :=
  match JsMap.get key fScore with
  | Some f => if Reqb f 0 then Infinity else Fin f
  | None => Infinity
  end.

(** [gScore.has(key) ? gScore.get(key) : Infinity] *)
Definition gOrInfinity (gScore : JsMap.t R) (key : string) : ext :=
  match JsMap.get key gScore with
  | Some g => Fin g
  | None => Infinity
  end.

(** The scan of the open set for the lowest f-score. *)
Definition pickLowest (fScore : JsMap.t R) (openSet : JsSet.t)
  : option string * ext :=
  fold_left
    (fun (acc : option string * ext) key =>
       let f := fOrInfinity fScore key in
       if ext_ltb f (snd acc) then (Some key, f) else acc)
    openSet (None, Infinity).

(** The path reconstruction loop; [fuel] bounds its rounds. *)
Fixpoint reconstruct (fuel : nat) (cameFrom : JsMap.t string)
  (current : string) (path : list string) : result (list string) :=
  match JsMap.get current cameFrom with
  | None => Ok path
  | Some prev =>
      match fuel with
      | O => OutOfFuel
      | S fuel' => reconstruct fuel' cameFrom prev (prev :: path)
      end
  end.

(** The callback run on every neighbour of the current node.  A
    tentative score of [Infinity] is below no score, so only finite
    scores are stored. *)
Definition relax (g : graph) (endNode : node) (current : string)
  (currentG : ext) (st : astate) (nb : neighbor) : astate :=
  if JsSet.has (nb_key nb) (closedSet st) then st
  else
    match ext_add currentG (nb_distance nb) with
    | Infinity => st
    | Fin tentativeGScore =>
        if ext_ltb (Fin tentativeGScore) (gOrInfinity (gScore st) (nb_key nb))
        then
          let cameFrom1 := JsMap.set (nb_key nb) current (cameFrom st) in
          let gScore1 := JsMap.set (nb_key nb) tentativeGScore (gScore st) in
          match JsMap.get (nb_key nb) g with
          | None =>
              mkState (openSet st) (closedSet st) cameFrom1 gScore1
                (fScore st)
          | Some neighborNode =>
              let h := distance (n_centroid neighborNode)
                         (n_centroid endNode) in
              mkState (JsSet.add (nb_key nb) (openSet st)) (closedSet st)
                cameFrom1 gScore1
                (JsMap.set (nb_key nb) (tentativeGScore + h) (fScore st))
          end
        else st
    end.

(** The main loop; [fuel] bounds its rounds. *)
Fixpoint aStarLoop (fuel : nat) (g : graph) (endKey : string)
  (endNode : node) (st : astate) : result (option (list string)) :=
  match fuel with
  | O => OutOfFuel
  | S fuel' =>
      match openSet st with
      | [] => Ok None
      | _ :: _ =>
          match fst (pickLowest (fScore st) (openSet st)) with
          | None => Ok None
          | Some current =>
              if negb (JsString.truthy current) then Ok None
              else if String.eqb current endKey then
                path <- reconstruct (S (List.length (closedSet st)))
                          (cameFrom st) current [current] ;;
                Ok (Some path)
              else
                let st1 :=
                  mkState (JsSet.delete current (openSet st))
                    (JsSet.add current (closedSet st))
                    (cameFrom st) (gScore st) (fScore st) in
                match JsMap.get current g with
                | None => aStarLoop fuel' g endKey endNode st1
                | Some currentNode =>
                    let currentG := gOrInfinity (gScore st1) current in
                    aStarLoop fuel' g endKey endNode
                      (fold_left (relax g endNode current currentG)
                         (n_neighbors currentNode) st1)
                end
          end
      end
  end.

(** [Ok None] is the [null] of "no path". *)
Definition aStar (g : graph) (startKey endKey : string)
  : result (option (list string)) :=
  match JsMap.get startKey g, JsMap.get endKey g with
  | Some startNode, Some endNode =>
      let heuristic := distance (n_centroid startNode)
                         (n_centroid endNode) in
      aStarLoop (S (List.length g)) g endKey endNode
        (mkState [startKey] [] [] [(startKey, 0)] [(startKey, heuristic)])
  | _, _ => Ok None
  end.

(** *** Path enhancer *)

(** One step of a resolved path.  [findRoute] builds the steps with an
    [isCorridor] field and no [isWaypoint] field; the enhancer inserts
    steps with [isWaypoint: true] and no [isCorridor] field. *)
Record routePoint : Type := mkRoutePoint {
  rp_coords : coord;
  rp_floor : Z;
  rp_name : string;
  rp_features : list feature;
  rp_isCorridor : option bool;
  rp_isWaypoint : option bool
}.

Definition waypoint (coords : coord) (floor : Z) (name : string)
  (features : list feature) : routePoint :=
  mkRoutePoint coords floor name features None (Some true).

(** The vertices gathered from the features of a room: the spread of
    an [undefined] ring throws. *)
Definition boundaryCoords (features : list feature) : result (list coord) :=
  rings <- mapM (fun f => match ringCoords (f_geometry f) with
                          | Some ring => Ok ring
                          | None => Throw
                          end) features ;;
  Ok (List.concat rings).

(** The vertex closest to [targetPoint], the first one among equals;
    [None] is [null]. *)
Definition getRoomBoundaryPoints (features : list feature)
  (targetPoint : coord) : result (option coord) :=
  coords <- boundaryCoords features ;;
  match coords with
  | [] => Ok None
  | c0 :: _ =>
      Ok (Some (fst (fold_left
                       (fun (acc : coord * R) c =>
                          let dist := distance c targetPoint in
                          if Rltb dist (snd acc) then (c, dist) else acc)
                       coords (c0, distance c0 targetPoint))))
  end.

(** The values of [i] in [for (let i = 1; i <= n; i++)]. *)
Definition fromOneTo (n : Z) : list Z :=
  map Z.of_nat (seq 1 (Z.to_nat n)).

Definition interpolate (a b : coord) (t : R) : coord :=
  (fst a + (fst b - fst a) * t, snd a + (snd b - snd a) * t).

Definition getCorridorPathPoints (features : list feature)
  (fromPoint toPoint : coord) (numPoints : Z) : result (list coord) :=
  coords <- boundaryCoords features ;;
  if (List.length coords <? 3)%nat then Ok []
  else
    entryPoint <- getRoomBoundaryPoints features fromPoint ;;
    exitPoint <- getRoomBoundaryPoints features toPoint ;;
    match entryPoint, exitPoint with
    | Some entry, Some exit =>
        Ok (map (fun i => interpolate entry exit
                            (IZR i / (IZR numPoints + 1)))
              (fromOneTo numPoints))
    | _, _ => Ok []
    end.

(** The points pushed after [pathCoords[i]] in round [i] of the loop
    of [addCorridorWaypoints]. *)
Definition waypointsAfter (pathCoords : list routePoint) (i : nat)
  : result (list routePoint) :=
  match nth_error pathCoords i, nth_error pathCoords (i + 1) with
  | Some current, Some next =>
      let dist := distance (rp_coords current) (rp_coords next) in
      if Rltb 0.008 dist then
        let currentIsCorridor := isCorridor (rp_name current) in
        let nextIsCorridor := isCorridor (rp_name next) in
        if negb (Bool.eqb currentIsCorridor nextIsCorridor) then
          waypointCoord <-
            (if currentIsCorridor
             then getRoomBoundaryPoints (rp_features current)
                    (rp_coords next)
             else getRoomBoundaryPoints (rp_features next)
                    (rp_coords current)) ;;
          match waypointCoord with
          | Some c =>
              Ok [waypoint c (rp_floor current)
                    (if currentIsCorridor then rp_name current
                     else rp_name next)
                    (if currentIsCorridor then rp_features current
                     else rp_features next)]
          | None => Ok []
          end
        else if currentIsCorridor && nextIsCorridor && Rltb 0.015 dist then
          let numWaypoints := Z.min (Int_part (dist / 0.01)) 5 in
          let prevCoords :=
            match i with
            | O => rp_coords current
            | S j => match nth_error pathCoords j with
                     | Some prev => rp_coords prev
                     | None => rp_coords current
                     end
            end in
          let nextNextCoords :=
            match nth_error pathCoords (i + 2) with
            | Some nextNext => rp_coords nextNext
            | None => rp_coords next
            end in
          corridorPoints <-
            getCorridorPathPoints (rp_features current) prevCoords
              nextNextCoords numWaypoints ;;
          match corridorPoints with
          | _ :: _ =>
              Ok (map (fun point =>
                         waypoint point (rp_floor current)
                           (rp_name current) (rp_features current))
                    corridorPoints)
          | [] =>
              Ok (map (fun j =>
                         waypoint
                           (interpolate (rp_coords current) (rp_coords next)
                              (IZR j / (IZR numWaypoints + 1)))
                           (rp_floor current) (rp_name current)
                           (rp_features current))
                    (fromOneTo numWaypoints))
          end
        else if negb currentIsCorridor && negb nextIsCorridor &&
                Rltb 0.012 dist then
          Ok [waypoint
                ((fst (rp_coords current) + fst (rp_coords next)) / 2,
                 (snd (rp_coords current) + snd (rp_coords next)) / 2)
                (rp_floor current) "transition" (rp_features current)]
        else Ok []
      else Ok []
  | _, _ => Ok []
  end.

Definition addCorridorWaypoints (pathCoords : list routePoint)
  : result (list routePoint) :=
  if (List.length pathCoords <? 2)%nat then Ok pathCoords
  else
    rounds <- mapM (fun i =>
                      match nth_error pathCoords i with
                      | Some current =>
                          inserted <- waypointsAfter pathCoords i ;;
                          Ok (current :: inserted)
                      | None => Ok []
                      end)
                (seq 0 (List.length pathCoords)) ;;
    Ok (List.concat rounds).

(** *** Route query *)

(** The scan of the graph for the start and end names: the last node
    whose lower-cased name matches wins. *)
Definition findKey (g : graph) (name : string) : option string :=
  fold_left
    (fun found kv =>
       if String.eqb (JsString.toLowerCase (room_name (n_room (snd kv))))
            name
       then Some (fst kv) else found)
    g None.

(** [!key] for a key that is [null] or a string. *)
Definition noKey (key : option string) : bool :=
  match key with
  | Some k => negb (JsString.truthy k)
  | None => true
  end.

Definition toRoutePoint (g : graph) (key : string) : result routePoint :=
  match JsMap.get key g with
  | Some nd =>
      Ok (mkRoutePoint (n_centroid nd) (room_floor (n_room nd))
            (room_name (n_room nd)) (room_features (n_room nd))
            (Some (n_isCorridor nd)) None)
  | None => Throw
  end.

(** [Ok None] is the [null] return. *)
Definition findRoute (rooms : list feature) (startRoom endRoom : feature)
  (targetFloor : option Z) : result (option (list routePoint)) :=
  let startName := JsString.toLowerCase (getRoomName startRoom) in
  let endName := JsString.toLowerCase (getRoomName endRoom) in
  if negb (JsString.truthy startName) || negb (JsString.truthy endName)
  then Ok None
  else
    roomGroups <- groupRoomsByName rooms ;;
    let g := buildRoomGraph roomGroups targetFloor in
    let startKey := findKey g startName in
    let endKey := findKey g endName in
    if noKey startKey || noKey endKey then Ok None
    else
      match startKey, endKey with
      | Some sk, Some ek =>
          pathKeys <- aStar g sk ek ;;
          match pathKeys with
          | None => Ok None
          | Some keys =>
              pathCoords <- mapM (toRoutePoint g) keys ;;
              enhancedPath <- addCorridorWaypoints pathCoords ;;
              Ok (Some enhancedPath)
          end
      | _, _ => Ok None
      end.

(** Total route distance in coordinate units. *)
Definition calculateRouteDistance (pathCoords : list routePoint) : R :=
  match pathCoords with
  | [] => 0
  | p0 :: rest =>
      fst (fold_left
             (fun (acc : R * routePoint) p =>
                (fst acc + distance (rp_coords (snd acc)) (rp_coords p), p))
             rest (0, p0))
  end.

End Pathfinding.

(** ** Directions generator *)

Module Directions.

Import Pathfinding.

(** [Math.atan2(y, x)] on the reals. *)
Definition atan2 (y x : R) : R :=
  if Rlt_dec 0 x then atan (y / x)
  else if Rlt_dec x 0 then
    if Rle_dec 0 y then atan (y / x) + PI else atan (y / x) - PI
  else if Rlt_dec 0 y then PI / 2
  else if Rlt_dec y 0 then - (PI / 2)
  else 0.

(** [Math.trunc] and the remainder operator [a % n]. *)
Definition truncate (r : R) : Z :=
  if Rle_dec 0 r then Int_part r else (- Int_part (- r))%Z.

Definition remainder (a n : R) : R := a - n * IZR (truncate (a / n)).

(** Haversine distance in metres between two [[lon, lat]] positions. *)
Definition calculateDistance (coord1 coord2 : coord) : R :=
  let lon1 := fst coord1 in
  let lat1 := snd coord1 in
  let lon2 := fst coord2 in
  let lat2 := snd coord2 in
  let R0 := 6371000 in
  let phi1 := lat1 * PI / 180 in
  let phi2 := lat2 * PI / 180 in
  let dphi := (lat2 - lat1) * PI / 180 in
  let dlambda := (lon2 - lon1) * PI / 180 in
  let a := sin (dphi / 2) * sin (dphi / 2) +
           cos phi1 * cos phi2 * sin (dlambda / 2) * sin (dlambda / 2) in
  let c := 2 * atan2 (sqrt a) (sqrt (1 - a)) in
  R0 * c.

(** Forward bearing in degrees, in [0, 360). *)
Definition calculateBearing (coord1 coord2 : coord) : R :=
  let lon1 := fst coord1 in
  let lat1 := snd coord1 in
  let lon2 := fst coord2 in
  let lat2 := snd coord2 in
  let phi1 := lat1 * PI / 180 in
  let phi2 := lat2 * PI / 180 in
  let dlambda := (lon2 - lon1) * PI / 180 in
  let y := sin dlambda * cos phi2 in
  let x := cos phi1 * sin phi2 - sin phi1 * cos phi2 * cos dlambda in
  let bearing := atan2 y x * 180 / PI in
  remainder (bearing + 360) 360.

Definition bearingToDirection (bearing : R) : string :=
  if Rle_dec 337.5 bearing then "north"
  else if Rlt_dec bearing 22.5 then "north"
  else if Rlt_dec bearing 67.5 then "northeast"
  else if Rlt_dec bearing 112.5 then "east"
  else if Rlt_dec bearing 157.5 then "southeast"
  else if Rlt_dec bearing 202.5 then "south"
  else if Rlt_dec bearing 247.5 then "southwest"
  else if Rlt_dec bearing 292.5 then "west"
  else "northwest".

(** [while (diff > 180) diff -= 360], at most [fuel] rounds. *)
Fixpoint lower (fuel : nat) (diff : R) : R :=
  match fuel with
  | O => diff
  | S fuel' => if Rlt_dec 180 diff then lower fuel' (diff - 360) else diff
  end.

(** [while (diff < -180) diff += 360], at most [fuel] rounds. *)
Fixpoint raise (fuel : nat) (diff : R) : R :=
  match fuel with
  | O => diff
  | S fuel' => if Rlt_dec diff (-180) then raise fuel' (diff + 360) else diff
  end.

(** A number of rounds that lets both loops run to their exit. *)
Definition rounds (diff : R) : nat := Z.to_nat (up (Rabs diff / 360)).

Definition normalize (diff : R) : R :=
  raise (rounds diff) (lower (rounds diff) diff).

Definition calculateTurn (bearing1 bearing2 : R) : string :=
  let diff := normalize (bearing2 - bearing1) in
  let absDiff := Rabs diff in
  if Rlt_dec absDiff 20 then "straight"
  else if Rlt_dec absDiff 60 then
    if Rlt_dec 0 diff then "slight right" else "slight left"
  else if Rlt_dec absDiff 120 then
    if Rlt_dec 0 diff then "right" else "left"
  else if Rlt_dec absDiff 160 then
    if Rlt_dec 0 diff then "sharp right" else "sharp left"
  else "back".

Definition isStairwell (name : string) : bool :=
  let lower := JsString.toLowerCase name in
  JsString.includes "stair" lower || JsString.includes "escada" lower.

Definition isElevator (name : string) : bool :=
  let lower := JsString.toLowerCase name in
  JsString.includes "elevator" lower ||
  JsString.includes "elevador" lower ||
  JsString.includes "lift" lower.

Definition isCorridor (name : string) : bool :=
  let lower := JsString.toLowerCase name in
  JsString.includes "corridor" lower ||
  JsString.includes "corredor" lower ||
  JsString.includes "hallway" lower ||
  JsString.includes "hall" lower ||
  JsString.includes "lobby" lower ||
  JsString.includes "passage" lower.

(** The pictograms of the [icon] field. *)
Inductive icon : Type :=
| IconElevator
| IconLadder
| IconLeftArrow
| IconRightArrow
| IconUpArrow
| IconPin
| IconTarget.

Record direction : Type := mkDirection {
  d_id : nat;
  d_type : string;
  d_instruction : string;
  d_floor : Z;
  d_targetFloor : option Z;
  d_distance : R;
  d_cumulativeDistance : R;
  d_location : string;
  d_coords : coord;
  d_turn : option string;
  d_icon : option icon
}.

(** The variables of the loop of [generateDirections]. *)
Record dstate : Type := mkDState {
  directions : list direction;
  cumulativeDistance : R;
  previousBearing : option R;
  segmentDistance : R
}.

Definition floorChangeStep (st : dstate) (previous current : routePoint)
  (segment cumulative : R) : dstate :=
  let floorDiff := (rp_floor current - rp_floor previous)%Z in
  let floorChangeType :=
    if isStairwell (rp_name previous) then "stairs"
    else if isElevator (rp_name previous) then "elevator"
    else "stairs/elevator" in
  let dir := if (0 <? floorDiff)%Z then "up" else "down" in
  let floorText := "Floor " ++ JsString.ofZ (rp_floor current) in
  mkDState
    (directions st ++
     [mkDirection (List.length (directions st)) "floor_change"
        ("Take " ++ floorChangeType ++ " " ++ dir ++ " to " ++ floorText)
        (rp_floor previous) (Some (rp_floor current)) segment cumulative
        (rp_name previous) (rp_coords previous) None
        (Some (if String.eqb floorChangeType "elevator"
               then IconElevator else IconLadder))])%list
    cumulative None 0.

Definition turnDirection (id : nat) (current : routePoint) (turn : string)
  (segment cumulative : R) : direction :=
  let turnInstruction :=
    if String.eqb turn "back" then "Turn around"
    else if JsString.includes "slight" turn then "Continue " ++ turn
    else "Turn " ++ turn in
  let locationContext :=
    if isCorridor (rp_name current) then ""
    else " at " ++ rp_name current in
  mkDirection id "turn" (turnInstruction ++ locationContext)
    (rp_floor current) None segment cumulative (rp_name current)
    (rp_coords current) (Some turn)
    (Some (if JsString.includes "left" turn then IconLeftArrow
           else if JsString.includes "right" turn then IconRightArrow
           else IconUpArrow)).

Definition waypointDirection (id : nat) (current : routePoint)
  (segment cumulative : R) : direction :=
  mkDirection id "waypoint" ("Pass through " ++ rp_name current)
    (rp_floor current) None segment cumulative (rp_name current)
    (rp_coords current) None (Some IconPin).

(** Round [i] of the loop of [generateDirections]. *)
Definition directionStep (routePath : list routePoint) (st : dstate)
  (i : nat) : dstate :=
  match nth_error routePath i, nth_error routePath (i - 1) with
  | Some current, Some previous =>
      let distanceToNext :=
        calculateDistance (rp_coords previous) (rp_coords current) in
      let segment := segmentDistance st + distanceToNext in
      let cumulative := cumulativeDistance st + distanceToNext in
      if negb (Z.eqb (rp_floor current) (rp_floor previous)) then
        floorChangeStep st previous current segment cumulative
      else
        let currentBearing :=
          calculateBearing (rp_coords previous) (rp_coords current) in
        let afterTurn :=
          match previousBearing st with
          | Some previousB =>
              let turn := calculateTurn previousB currentBearing in
              if negb (String.eqb turn "straight") && Rltb 3 segment then
                ((directions st ++
                  [turnDirection (List.length (directions st)) current turn
                     segment cumulative])%list, 0)
              else (directions st, segment)
          | None => (directions st, segment)
          end in
        let afterWaypoint :=
          if negb (isCorridor (rp_name current)) &&
             (i <? List.length routePath - 1)%nat
          then
            if (i <? List.length routePath - 2)%nat &&
               Rltb 5 (snd afterTurn)
            then
              ((fst afterTurn ++
                [waypointDirection (List.length (fst afterTurn)) current
                   (snd afterTurn) cumulative])%list, 0)
            else afterTurn
          else afterTurn in
        mkDState (fst afterWaypoint) cumulative (Some currentBearing)
          (snd afterWaypoint)
  | _, _ => st
  end.

Definition generateDirections (routePath : list routePoint)
  : list direction :=
  match routePath with
  | first :: _ :: _ =>
      let start :=
        mkDirection 0 "start" ("Start at " ++ rp_name first)
          (rp_floor first) None 0 0 (rp_name first) (rp_coords first)
          None None in
      let st :=
        fold_left (directionStep routePath)
          (seq 1 (List.length routePath - 1))
          (mkDState [start] 0 None 0) in
      let lastPoint := last routePath first in
      (directions st ++
       [mkDirection (List.length (directions st)) "destination"
          ("Arrive at " ++ rp_name lastPoint) (rp_floor lastPoint) None
          (segmentDistance st) (cumulativeDistance st) (rp_name lastPoint)
          (rp_coords lastPoint) None (Some IconTarget)])%list
  | _ => []
  end.

(** *** Route statistics *)

Record routeStats : Type := mkStats {
  totalDistance : R;
  estimatedTime : R;
  floors : list Z;
  floorChanges : nat
}.

(** A [Set] of numbers in insertion order. *)
Definition addFloor (fl : Z) (s : list Z) : list Z :=
  if existsb (Z.eqb fl) s then s else (s ++ [fl])%list.

(** [sort((a, b) => a - b)] on integers. *)
Fixpoint insertAscending (x : Z) (l : list Z) : list Z :=
  match l with
  | [] => [x]
  | y :: r => if (x <=? y)%Z then x :: y :: r else y :: insertAscending x r
  end.

Definition sortAscending (l : list Z) : list Z :=
  fold_right insertAscending [] l.

(** The variables of the loop of [calculateRouteStats]. *)
Record sstate : Type := mkSState {
  s_total : R;
  s_floors : list Z;
  s_changes : nat
}.

Definition statsStep (routePath : list routePoint) (st : sstate) (i : nat)
  : sstate :=
  match nth_error routePath i, nth_error routePath (i - 1) with
  | Some current, Some previous =>
      mkSState
        (s_total st +
         calculateDistance (rp_coords previous) (rp_coords current))
        (addFloor (rp_floor current) (s_floors st))
        (if negb (Z.eqb (rp_floor current) (rp_floor previous))
         then S (s_changes st) else s_changes st)
  | _, _ => st
  end.

Definition calculateRouteStats (routePath : list routePoint) : routeStats :=
  match routePath with
  | first :: _ :: _ =>
      let st :=
        fold_left (statsStep routePath)
          (seq 1 (List.length routePath - 1)) (mkSState 0 [] 0) in
      let floorsSet := addFloor (rp_floor first) (s_floors st) in
      mkStats (s_total st)
        (s_total st / 1.4 + INR (s_changes st) * 30)
        (sortAscending floorsSet) (s_changes st)
  | _ => mkStats 0 0 [] 0
  end.

End Directions.

(** * Definitions used by the statements *)

Open Scope list_scope.

Import Pathfinding.

(** ** The specification's reading of the floor of a feature *)

(** The floor as the specification words it: the first non-null value
    among [floor], [level] and [nivel], in that order, and [0] when
    there is none. *)
Definition floorAsSpecified (room : feature) : Z :=
  match prop p_floor room, prop p_level room, prop p_nivel room with
  | Some z, _, _ => z
  | None, Some z, _ => z
  | None, None, Some z => z
  | None, None, None => 0%Z
  end.

(** A property value that [||] keeps: present and not [0]. *)
Definition keptByOr (v : option Z) : bool :=
  match v with
  | Some z => negb (Z.eqb z 0)
  | None => false
  end.

(** ** Means and the specification's reading of a room centroid *)

Definition total (l : list R) : R := fold_right Rplus 0 l.

Definition mean (l : list R) : R := total l / INR (List.length l).

Definition meanPoint (l : list coord) : coord :=
  (mean (map fst l), mean (map snd l)).

(** The centroid of one ring: the mean of its vertices, the origin for
    an empty ring. *)
Definition ringCentroid (ring : list coord) : coord :=
  match ring with
  | [] => (0, 0)
  | _ :: _ => meanPoint ring
  end.

Definition ringOrEmpty (f : feature) : list coord :=
  match ringCoords (f_geometry f) with
  | Some ring => ring
  | None => []
  end.

(** The centroid as the specification words it: the mean of all the
    vertices of the rings of the member features, every vertex weighted
    equally. *)
Definition meanOfAllVertices (features : list feature) : coord :=
  meanPoint (flat_map ringOrEmpty features).

(** The key under which a feature is grouped. *)
Definition featureKey (f : feature) : string :=
  roomKey (getRoomName f) (getRoomFloor f).

(** The state of the first pass of [groupRoomsByName] after the
    features [done]. *)
Definition groupsInvariant (done : list feature) (groups : JsMap.t group)
  : Prop :=
  NoDup (JsMap.keys groups) /\
  (forall k g, In (k, g) groups ->
     g_features g = filter (fun f => String.eqb k (featureKey f)) done /\
     g_features g <> [] /\
     k = roomKey (g_name g) (g_floor g)) /\
  (forall f, In f done -> In (featureKey f) (JsMap.keys groups)) /\
  Permutation (flat_map g_features (JsMap.values groups)) done.

(** [c] occurs in [s]. *)
Fixpoint occurs (c : ascii) (s : string) : bool :=
  match s with
  | EmptyString => false
  | String c' r => Ascii.eqb c c' || occurs c r
  end.

(** ** Graph builder *)

Definition roomKeyOf (r : room) : string :=
  roomKey (room_name r) (room_floor r).

(** No two rooms of the index share a key. *)
Definition distinctRooms (groups : JsMap.t room) : Prop :=
  NoDup (map roomKeyOf (JsMap.values groups)).

(** The vertical-connector pattern as the specification words it:
    stairs, escada, elevador, elevator, lift. *)
Definition connectorAsSpecified (roomName : string) : bool :=
  let name := JsString.toLowerCase roomName in
  JsString.includes "stairs" name ||
  JsString.includes "escada" name ||
  JsString.includes "elevador" name ||
  JsString.includes "elevator" name ||
  JsString.includes "lift" name.

(** ** A* search *)

(** Closing the current node: the first half of a round of the main
    loop. *)
Definition closeCurrent (st : astate) (current : string) : astate :=
  mkState (JsSet.delete current (openSet st))
    (JsSet.add current (closedSet st))
    (cameFrom st) (gScore st) (fScore st).

(** A round of the main loop that neither stops nor returns: the
    current node is closed and its neighbours are relaxed. *)
Definition expand (g : graph) (endNode : node) (st : astate)
  (current : string) : astate :=
  let st1 := closeCurrent st current in
  match JsMap.get current g with
  | None => st1
  | Some currentNode =>
      fold_left (relax g endNode current (gOrInfinity (gScore st1) current))
        (n_neighbors currentNode) st1
  end.

(** [u] stands before [v] in [l]. *)
Definition before {A : Type} (u v : A) (l : list A) : Prop :=
  exists l1 l2 l3, l = l1 ++ u :: l2 ++ v :: l3.

(** What every state of the search satisfies, whatever the graph: the
    open nodes are nodes of the graph that are not closed, the closed
    nodes are distinct nodes of the graph, and a predecessor is closed,
    and closed before its successor. *)
Definition searchInvariant (g : graph) (st : astate) : Prop :=
  (forall x, In x (openSet st) ->
     JsMap.get x g <> None /\ ~ In x (closedSet st)) /\
  NoDup (closedSet st) /\
  (forall u, In u (closedSet st) -> JsMap.get u g <> None) /\
  (forall v u, JsMap.get v (cameFrom st) = Some u ->
     In u (closedSet st) /\
     (In v (closedSet st) -> before u v (closedSet st))).

(** An edge of the graph: [v] is a neighbour of [u] at distance [w]. *)
Definition edge (g : graph) (u v : string) (w : R) : Prop :=
  exists nu nb,
    JsMap.get u g = Some nu /\ In nb (n_neighbors nu) /\
    nb_key nb = v /\ nb_distance nb = w.

(** A path along edges of the graph, with its total edge weight. *)
Inductive route (g : graph) : list string -> R -> Prop :=
| route_one (k : string) : route g [k] 0
| route_step (u v : string) (rest : list string) (w c : R) :
    edge g u v w -> route g (v :: rest) c ->
    route g (u :: v :: rest) (w + c).

(** [p] leads from [s] to [e]. *)
Definition fromTo (p : list string) (s e : string) : Prop :=
  hd_error p = Some s /\ last p s = e.

(** Every edge ends at a node of the graph and weighs at least the
    Euclidean distance between the centroids of its two nodes. *)
Definition consistentWeights (g : graph) : Prop :=
  forall u nu nb,
    JsMap.get u g = Some nu -> In nb (n_neighbors nu) ->
    exists nv,
      JsMap.get (nb_key nb) g = Some nv /\
      distance (n_centroid nu) (n_centroid nv) <= nb_distance nb.

(** The heuristic of a node: the Euclidean distance from its centroid
    to the centroid of the goal. *)
Definition heuristic (endNode nd : node) : R :=
  distance (n_centroid nd) (n_centroid endNode).

(** What the states of the search satisfy on a graph with consistent
    weights.  [pending u nb] holds of the edges of the node being
    expanded that are still to be relaxed. *)
Definition optimalInvariant (g : graph) (startKey : string) (endNode : node)
  (pending : string -> neighbor -> Prop) (st : astate) : Prop :=
  searchInvariant g st /\
  JsMap.get startKey (gScore st) = Some 0 /\
  JsMap.get startKey (cameFrom st) = None /\
  (In startKey (closedSet st) \/ openSet st = [startKey]) /\
  (In startKey (closedSet st) ->
   forall ns, JsMap.get startKey g = Some ns -> 0 < heuristic endNode ns) /\
  (forall x, In x (openSet st) ->
     exists nx gx,
       JsMap.get x g = Some nx /\ JsMap.get x (gScore st) = Some gx /\
       JsMap.get x (fScore st) = Some (gx + heuristic endNode nx)) /\
  (forall u, In u (closedSet st) ->
     exists gu, JsMap.get u (gScore st) = Some gu) /\
  (forall x gx, JsMap.get x (gScore st) = Some gx ->
     (exists p, route g p gx /\ fromTo p startKey x) /\
     (In x (openSet st) \/ In x (closedSet st)) /\
     (x = startKey \/ exists u, JsMap.get x (cameFrom st) = Some u)) /\
  (forall v u, JsMap.get v (cameFrom st) = Some u ->
     exists gu gv w,
       JsMap.get u (gScore st) = Some gu /\
       JsMap.get v (gScore st) = Some gv /\
       edge g u v w /\ gv = gu + w) /\
  (forall u gu, In u (closedSet st) ->
     JsMap.get u (gScore st) = Some gu ->
     forall p c, route g p c -> fromTo p startKey u -> gu <= c) /\
  (forall u nu nb gu, In u (closedSet st) ->
     JsMap.get u g = Some nu -> In nb (n_neighbors nu) ->
     JsMap.get u (gScore st) = Some gu ->
     pending u nb \/
     exists gv,
       JsMap.get (nb_key nb) (gScore st) = Some gv /\
       gv <= gu + nb_distance nb).

(** No edge is waiting to be relaxed: the invariant between rounds. *)
Definition settled : string -> neighbor -> Prop := fun _ _ => False.

(** The edges of [current] that are still to be relaxed. *)
Definition pendingOf (current : string) (rest : list neighbor)
  : string -> neighbor -> Prop :=
  fun u nb => u = current /\ In nb rest.

(** ** Path enhancer *)

(** The input points, each followed by the points inserted after it. *)
Definition interleave (points : list routePoint)
  (inserted : list (list routePoint)) : list routePoint :=
  List.concat (map (fun pi => fst pi :: snd pi) (combine points inserted)).

(** Every feature carried by the path has the ring that the boundary
    scans read. *)
Definition ringsPresent (pathCoords : list routePoint) : Prop :=
  forall p f, In p pathCoords -> In f (rp_features p) ->
    ringCoords (f_geometry f) <> None.

(** ** Directions generator *)

(** The consecutive pairs of a path. *)
Definition pairs (routePath : list routePoint)
  : list (routePoint * routePoint) :=
  combine routePath (tl routePath).

Definition segmentLengths (routePath : list routePoint) : list R :=
  map (fun pq => Directions.calculateDistance (rp_coords (fst pq))
                   (rp_coords (snd pq)))
    (pairs routePath).

(** The Haversine formula as the specification names it: on a sphere
    of radius 6371000 metres, the distance between two positions
    [[lon, lat]] given in degrees is twice the radius times the arcsine
    of the square root of [hav dphi + cos phi1 * cos phi2 * hav dlambda],
    where [hav x] is the square of the sine of [x / 2]. *)
Definition haversine (coord1 coord2 : coord) : R :=
  let phi1 := snd coord1 * PI / 180 in
  let phi2 := snd coord2 * PI / 180 in
  let dphi := phi2 - phi1 in
  let dlambda := (fst coord2 - fst coord1) * PI / 180 in
  2 * 6371000 *
  asin (sqrt (Rsqr (sin (dphi / 2)) +
              cos phi1 * cos phi2 * Rsqr (sin (dlambda / 2)))).

(** The Haversine lengths of the legs of a path. *)
Definition haversineLengths (routePath : list routePoint) : list R :=
  map (fun pq => haversine (rp_coords (fst pq)) (rp_coords (snd pq)))
    (pairs routePath).

(** The number of consecutive pairs whose floors differ. *)
Definition countChanges (routePath : list routePoint) : nat :=
  List.length
    (filter (fun pq => negb (Z.eqb (rp_floor (snd pq)) (rp_floor (fst pq))))
       (pairs routePath)).

(** The first instruction. *)
Definition startDirection (first : routePoint) : Directions.direction :=
  Directions.mkDirection 0 "start" ("Start at " ++ rp_name first)%string
    (rp_floor first) None 0 0 (rp_name first) (rp_coords first) None None.

(** The variables of the loop of [generateDirections] when round [i]
    begins. *)
Definition stateBefore (routePath : list routePoint) (i : nat)
  : Directions.dstate :=
  match routePath with
  | first :: _ =>
      fold_left (Directions.directionStep routePath) (seq 1 (i - 1))
        (Directions.mkDState [startDirection first] 0 None 0)
  | [] => Directions.mkDState [] 0 None 0
  end.

(** The instructions that round [i] emits. *)
Definition emittedAt (routePath : list routePoint) (i : nat)
  : list Directions.direction :=
  skipn (List.length (Directions.directions (stateBefore routePath i)))
    (Directions.directions
       (Directions.directionStep routePath (stateBefore routePath i) i)).

(** The length of leg [j] of a path, from point [j - 1] to point [j]. *)
Definition legLength (routePath : list routePoint) (j : nat) : R :=
  match nth_error routePath j, nth_error routePath (j - 1) with
  | Some current, Some previous =>
      Directions.calculateDistance (rp_coords previous) (rp_coords current)
  | _, _ => 0
  end.

(** Whether round [j] emits an instruction. *)
Definition emits (routePath : list routePoint) (j : nat) : bool :=
  negb (Nat.eqb (List.length (emittedAt routePath j)) 0).

(** The last round before round [i] that emitted an instruction, and
    [0], the round of the start instruction, when there is none. *)
Definition lastInstruction (routePath : list routePoint) (i : nat) : nat :=
  match find (emits routePath) (rev (seq 1 (i - 1))) with
  | Some j => j
  | None => 0%nat
  end.

(** The distance walked from point [j] to point [i]: the lengths of
    the legs in between, added in path order. *)
Definition walkedBetween (routePath : list routePoint) (j i : nat) : R :=
  fold_left Rplus (map (legLength routePath) (seq (j + 1) (i - j))) 0.

(** The distance walked from the point of the last instruction to point
    [i]. *)
Definition walkedSinceInstruction (routePath : list routePoint) (i : nat)
  : R :=
  walkedBetween routePath (lastInstruction routePath i) i.

(** ** Sample inputs *)

Definition namedLine (name : string) (fl : option Z) (line : list coord)
  : feature :=
  mkFeature (Some (mkProperties (Some name) None None fl None None))
    (LineString line).

(** Two features of one room, with one and with two vertices. *)
Definition unevenRoom : list feature :=
  [namedLine "A" None [(0, 0)]; namedLine "A" None [(6, 0); (6, 0)]].

(** Three features of two rooms. *)
Definition threeFeatures : list feature :=
  [namedLine "A" (Some 1%Z) [(0, 0)]; namedLine "B" (Some 1%Z) [(1, 0)];
   namedLine "A" (Some 1%Z) [(2, 0)]].

Definition roomAt (name : string) (fl : Z) (centroid : coord) : room :=
  mkRoom name fl [] centroid.

(** A corridor on floor 0 and an office on floor 1, 0.01 apart. *)
Definition corridorBelowOffice : JsMap.t room :=
  [("Corridor_F0", roomAt "Corridor" 0 (0, 0));
   ("Office_F1", roomAt "Office" 1 (0.01, 0))].

(** Two rooms of one floor with the same centroid. *)
Definition coincidentRooms : JsMap.t room :=
  [("A_F0", roomAt "A" 0 (0, 0)); ("B_F0", roomAt "B" 0 (0, 0))].

(** An office on floor 0, the archive right above it on floor 1, with
    the same centroid, and the stairs of floor 0, 0.01 away from both. *)
Definition stackedRooms : JsMap.t room :=
  [("Office_F0", roomAt "Office" 0 (0, 0));
   ("Stairs_F0", roomAt "Stairs" 0 (0.01, 0));
   ("Archive_F1", roomAt "Archive" 1 (0, 0))].

(** Two rooms of one floor, 0.01 apart. *)
Definition adjacentRooms : JsMap.t room :=
  [("A_F0", roomAt "A" 0 (0, 0)); ("B_F0", roomAt "B" 0 (0.01, 0))].

Definition pointAt (name : string) (c : coord) : routePoint :=
  mkRoutePoint c 0 name [] (Some false) None.

(** Two regular rooms 0.02 apart. *)
Definition twoRooms : list routePoint :=
  [pointAt "A" (0, 0); pointAt "B" (0.02, 0)].

(** The latitude difference, in degrees, of [m] metres along a
    meridian. *)
Definition degreesOfMetres (m : R) : R := m * 180 / (6371000 * PI).

(** Two points of floor 2, 10 metres apart on a meridian. *)
Definition tenMetres : list routePoint :=
  [mkRoutePoint (0, 0) 2 "A" [] None None;
   mkRoutePoint (0, degreesOfMetres 10) 2 "B" [] None None].

(** Ten metres east along the equator, then ten metres north. *)
Definition eastThenNorth : list routePoint :=
  [mkRoutePoint (0, 0) 1 "A" [] None None;
   mkRoutePoint (degreesOfMetres 10, 0) 1 "B" [] None None;
   mkRoutePoint (degreesOfMetres 10, 0 + degreesOfMetres 10) 1 "C" []
     None None].

(** A named polygon without any ring: [coordinates: []]. *)
Definition hollow : feature :=
  mkFeature (Some (mkProperties (Some "A") None None None None None))
    (Polygon []).

Definition nodeAt (name : string) (c : coord) (neighbors : list neighbor)
  : node :=
  mkNode (roomAt name 0 c) neighbors c false.

(** Two nodes one unit apart and an edge of weight 1 from the first to
    the second. *)
Definition oneEdge : graph :=
  [("A", nodeAt "A" (0, 0) [mkNeighbor "B" "B" 0 1 false]);
   ("B", nodeAt "B" (1, 0) [])].



(** * Further definitions used by the statements *)

(** The vertices of the rings that the boundary scans read from the
    features of a room. *)
Definition vertexOf (features : list feature) (c : coord) : Prop :=
  exists f ring,
    In f features /\ ringCoords (f_geometry f) = Some ring /\ In c ring.

(** [c] lies in the box spanned by the two longitudes and the two
    latitudes. *)
Definition inBox (west east south north : R) (c : coord) : Prop :=
  west <= fst c <= east /\ south <= snd c <= north.

(** What the states of the search satisfy on every graph: the start
    has no predecessor and is closed as soon as the first round is
    over, every other node that has been opened has a predecessor, and
    a node is joined to its predecessor by an edge. *)
Definition pathInvariant (g : graph) (startKey : string) (st : astate)
  : Prop :=
  searchInvariant g st /\
  JsMap.get startKey (cameFrom st) = None /\
  (In startKey (closedSet st) \/ openSet st = [startKey]) /\
  (forall x, In x (openSet st) \/ In x (closedSet st) ->
     x = startKey \/ exists u, JsMap.get x (cameFrom st) = Some u) /\
  (forall v u, JsMap.get v (cameFrom st) = Some u -> exists w, edge g u v w).

(** Every edge has a positive weight and ends at a node of the graph. *)
Definition positiveWeights (g : graph) : Prop :=
  forall u nu nb,
    JsMap.get u g = Some nu -> In nb (n_neighbors nu) ->
    0 < nb_distance nb /\ JsMap.get (nb_key nb) g <> None.

(** What the states of the search satisfy on a graph with positive
    weights: the open nodes carry a positive f-score, the scores are
    not negative, and an edge from a closed node leads to a node that
    is open or closed, unless it is still [pending]. *)
Definition reachInvariant (g : graph) (startKey : string)
  (pending : string -> neighbor -> Prop) (st : astate) : Prop :=
  searchInvariant g st /\
  (In startKey (openSet st) \/ In startKey (closedSet st)) /\
  (forall x, In x (openSet st) ->
     (exists f, JsMap.get x (fScore st) = Some f /\ 0 < f) /\
     exists gx, JsMap.get x (gScore st) = Some gx) /\
  (forall x gx, JsMap.get x (gScore st) = Some gx ->
     0 <= gx /\ (In x (openSet st) \/ In x (closedSet st))) /\
  (forall u, In u (closedSet st) ->
     exists gu, JsMap.get u (gScore st) = Some gu) /\
  (forall u nu nb,
     In u (closedSet st) -> JsMap.get u g = Some nu ->
     In nb (n_neighbors nu) ->
     pending u nb \/
     In (nb_key nb) (openSet st) \/ In (nb_key nb) (closedSet st)).

(** A corridor drawn as a line of three points. *)
Definition straightHall : list feature :=
  [namedLine "Hall" None [(0, 0); (1, 0); (2, 0)]].

(** The inserted points after each point of a path: at most five, all
    on the floor of the point that they follow. *)
Definition boundedBlocks (pathCoords : list routePoint)
  (inserted : list (list routePoint)) : Prop :=
  Forall2 (fun p w =>
             (List.length w <= 5)%nat /\
             Forall (fun q => rp_floor q = rp_floor p) w)
    pathCoords inserted.

(** The point that [findRoute] makes of a node of the graph: the
    centroid, floor, name and features of a navigable room of the
    index (of the target floor, when one is given). *)
Definition roomPoint (groups : JsMap.t room) (targetFloor : option Z)
  (p : routePoint) : Prop :=
  exists r,
    In r (filterRooms (JsMap.values groups) targetFloor) /\
    p = mkRoutePoint (room_centroid r) (room_floor r) (room_name r)
          (room_features r) (Some (Pathfinding.isCorridor (room_name r)))
          None.

(** Two offices drawn as one point each, 0.01 apart, and the room index
    made of them. *)
Definition twoOffices : list feature :=
  [namedLine "A" None [(0, 0)]; namedLine "B" None [(0.01, 0)]].

Definition officeIndex : JsMap.t room :=
  [("A_F0", mkRoom "A" 0 [namedLine "A" None [(0, 0)]] (0, 0));
   ("B_F0", mkRoom "B" 0 [namedLine "B" None [(0.01, 0)]] (0.01, 0))].

(** The cosine of the angle that two positions [[lon, lat]], given in
    degrees, span at the centre of the sphere (spherical law of
    cosines). *)
Definition cosCentralAngle (coord1 coord2 : coord) : R :=
  let phi1 := snd coord1 * PI / 180 in
  let phi2 := snd coord2 * PI / 180 in
  let dlambda := (fst coord2 - fst coord1) * PI / 180 in
  sin phi1 * sin phi2 + cos phi1 * cos phi2 * cos dlambda.


(** The running totals of a list of numbers, starting from [acc]. *)
Fixpoint runningTotals (acc : R) (l : list R) : list R :=
  match l with
  | [] => []
  | x :: r => (acc + x) :: runningTotals (acc + x) r
  end.

Definition isFloorChange (d : Directions.direction) : bool :=
  String.eqb (Directions.d_type d) "floor_change".

(** The floor that a floor change leaves and the floor it leads to. *)
Definition floorsOfChange (d : Directions.direction) : Z * option Z :=
  (Directions.d_floor d, Directions.d_targetFloor d).

(** The floors of the consecutive pairs of a path whose floors
    differ. *)
Definition floorMoves (routePath : list routePoint) : list (Z * option Z) :=
  map (fun pq => (rp_floor (fst pq), Some (rp_floor (snd pq))))
    (filter (fun pq => negb (Z.eqb (rp_floor (snd pq)) (rp_floor (fst pq))))
       (pairs routePath)).

(** The instructions between the first and the last are floor changes,
    turns and waypoints. *)
Definition betweenInstruction (d : Directions.direction) : Prop :=
  Directions.d_type d = "floor_change" \/ Directions.d_type d = "turn" \/
  Directions.d_type d = "waypoint".

(** What the variables of the loop of [generateDirections] satisfy
    after the points [done] that follow the first point. *)
Definition directionsInvariant (first : routePoint) (done : list routePoint)
  (st : Directions.dstate) : Prop :=
  exists middle,
    Directions.directions st = startDirection first :: middle /\
    map Directions.d_id (Directions.directions st)
    = seq 0 (List.length (Directions.directions st)) /\
    Forall betweenInstruction middle /\
    (List.length middle <= List.length done)%nat /\
    map Directions.d_cumulativeDistance (Directions.directions st)
    = runningTotals 0 (map Directions.d_distance (Directions.directions st)) /\
    total (map Directions.d_distance (Directions.directions st)) +
    Directions.segmentDistance st = Directions.cumulativeDistance st /\
    Directions.cumulativeDistance st = total (segmentLengths (first :: done)) /\
    map floorsOfChange (filter isFloorChange (Directions.directions st))
    = floorMoves (first :: done).

(** Every edge ends at a node of the graph and weighs at least the
    Euclidean distance between the centroids of its two nodes divided
    by [eps]. *)
Definition scaledWeights (eps : R) (g : graph) : Prop :=
  forall u nu nb,
    JsMap.get u g = Some nu -> In nb (n_neighbors nu) ->
    exists nv,
      JsMap.get (nb_key nb) g = Some nv /\
      distance (n_centroid nu) (n_centroid nv) <= eps * nb_distance nb.

(** What the states of the search satisfy on a graph with such
    weights: as [optimalInvariant], but the score of a closed node is
    at most [eps] times the weight of any route to it, and an edge from
    a closed node that is not [pending] leads to a closed node or has
    been relaxed. *)
Definition boundedInvariant (eps : R) (g : graph) (startKey : string)
  (endNode : node) (pending : string -> neighbor -> Prop) (st : astate)
  : Prop :=
  searchInvariant g st /\
  JsMap.get startKey (gScore st) = Some 0 /\
  JsMap.get startKey (cameFrom st) = None /\
  (In startKey (closedSet st) \/ openSet st = [startKey]) /\
  (In startKey (closedSet st) ->
   forall ns, JsMap.get startKey g = Some ns -> 0 < heuristic endNode ns) /\
  (forall x, In x (openSet st) ->
     exists nx gx,
       JsMap.get x g = Some nx /\ JsMap.get x (gScore st) = Some gx /\
       JsMap.get x (fScore st) = Some (gx + heuristic endNode nx)) /\
  (forall u, In u (closedSet st) ->
     exists gu, JsMap.get u (gScore st) = Some gu) /\
  (forall x gx, JsMap.get x (gScore st) = Some gx ->
     (exists p, route g p gx /\ fromTo p startKey x) /\
     (In x (openSet st) \/ In x (closedSet st)) /\
     (x = startKey \/ exists u, JsMap.get x (cameFrom st) = Some u)) /\
  (forall v u, JsMap.get v (cameFrom st) = Some u ->
     exists gu gv w,
       JsMap.get u (gScore st) = Some gu /\
       JsMap.get v (gScore st) = Some gv /\
       edge g u v w /\ gv = gu + w) /\
  (forall u gu, In u (closedSet st) ->
     JsMap.get u (gScore st) = Some gu ->
     forall p c, route g p c -> fromTo p startKey u -> gu <= eps * c) /\
  (forall u nu nb gu, In u (closedSet st) ->
     JsMap.get u g = Some nu -> In nb (n_neighbors nu) ->
     JsMap.get u (gScore st) = Some gu ->
     pending u nb \/
     In (nb_key nb) (closedSet st) \/
     exists gv,
       JsMap.get (nb_key nb) (gScore st) = Some gv /\
       gv <= gu + nb_distance nb).

(** A name of ASCII characters only, on which [JsString.toLowerCase] is
    the folding of JavaScript. *)
Definition asciiName (s : string) : bool :=
  forallb (fun c => (nat_of_ascii c <? 128)%nat) (list_ascii_of_string s).

(** Features with ASCII names. *)
Definition asciiNames (rooms : list feature) : Prop :=
  forall f, In f rooms -> asciiName (getRoomName f) = true.

(** A graph whose rooms have ASCII names. *)
Definition asciiNodes (g : graph) : Prop :=
  forall k nd, In (k, nd) g -> asciiName (room_name (n_room nd)) = true.

(** * Properties *)

(** ** Maps in insertion order *)

Lemma get_set_same {V : Type} (k : string) (v : V) (m : JsMap.t V) :
  JsMap.get k (JsMap.set k v m) = Some v.
Proof.
  induction m as [|[k' v'] m IH]; cbn.
  - now rewrite String.eqb_refl.
  - destruct (String.eqb k k') eqn:E; cbn; rewrite ?String.eqb_refl, ?E; auto.
Qed.

Lemma get_set_other {V : Type} (k k' : string) (v : V) (m : JsMap.t V) :
  k <> k' -> JsMap.get k' (JsMap.set k v m) = JsMap.get k' m.
Proof.
  intros Hne. induction m as [|[k0 v0] m IH]; cbn.
  - destruct (String.eqb k' k) eqn:E; auto.
    apply String.eqb_eq in E. congruence.
  - destruct (String.eqb k k0) eqn:E; cbn.
    + apply String.eqb_eq in E. subst k0.
      destruct (String.eqb k' k) eqn:E'; auto.
      apply String.eqb_eq in E'. congruence.
    + now rewrite IH.
Qed.

Lemma get_None_not_In {V : Type} (k : string) (m : JsMap.t V) :
  JsMap.get k m = None <-> ~ In k (JsMap.keys m).
Proof.
  induction m as [|[k' v'] m IH]; cbn.
  - tauto.
  - destruct (String.eqb k k') eqn:E.
    + apply String.eqb_eq in E. subst. split; [discriminate | tauto].
    + apply String.eqb_neq in E. rewrite IH. intuition congruence.
Qed.

Lemma get_Some_In {V : Type} (k : string) (v : V) (m : JsMap.t V) :
  JsMap.get k m = Some v -> In (k, v) m.
Proof.
  induction m as [|[k' v'] m IH]; cbn; [discriminate|].
  destruct (String.eqb k k') eqn:E.
  - apply String.eqb_eq in E. intros [= ->]. subst. now left.
  - auto.
Qed.

Lemma In_get_Some {V : Type} (k : string) (v : V) (m : JsMap.t V) :
  NoDup (JsMap.keys m) -> In (k, v) m -> JsMap.get k m = Some v.
Proof.
  induction m as [|[k' v'] m IH]; cbn; [tauto|].
  intros Hnd [Heq|Hin].
  - injection Heq as -> ->. now rewrite String.eqb_refl.
  - inversion Hnd as [|? ? Hnot Hnd']; subst.
    destruct (String.eqb k k') eqn:E.
    + apply String.eqb_eq in E. subst k'. exfalso. apply Hnot.
      change (In (fst (k, v)) (map fst m)). now apply in_map.
    + auto.
Qed.

Lemma set_absent {V : Type} (k : string) (v : V) (m : JsMap.t V) :
  JsMap.get k m = None -> JsMap.set k v m = m ++ [(k, v)].
Proof.
  induction m as [|[k' v'] m IH]; cbn; [reflexivity|].
  destruct (String.eqb k k'); [discriminate|].
  intros H. now rewrite IH.
Qed.

Lemma set_last_absent {V : Type} (k : string) (v v' : V) (m : JsMap.t V) :
  JsMap.get k m = None ->
  JsMap.set k v' (m ++ [(k, v)]) = m ++ [(k, v')].
Proof.
  induction m as [|[k0 v0] m IH]; cbn.
  - now rewrite String.eqb_refl.
  - destruct (String.eqb k k0); [discriminate|].
    intros H. now rewrite IH.
Qed.

Lemma set_present {V : Type} (k : string) (v v0 : V) (m : JsMap.t V) :
  JsMap.get k m = Some v0 ->
  exists m1 m2,
    m = m1 ++ (k, v0) :: m2 /\ JsMap.set k v m = m1 ++ (k, v) :: m2 /\
    ~ In k (JsMap.keys m1).
Proof.
  induction m as [|[k' v'] m IH]; cbn; [discriminate|].
  destruct (String.eqb k k') eqn:E.
  - apply String.eqb_eq in E. subst k'. intros [= ->].
    exists [], m. cbn. auto.
  - intros H. destruct (IH H) as (m1 & m2 & -> & Hs & Hn).
    exists ((k', v') :: m1), m2. cbn. rewrite Hs. repeat split; auto.
    apply String.eqb_neq in E. intros [?|?]; [congruence | tauto].
Qed.

Lemma keys_set_present {V : Type} (k : string) (v v0 : V) (m : JsMap.t V) :
  JsMap.get k m = Some v0 -> JsMap.keys (JsMap.set k v m) = JsMap.keys m.
Proof.
  intros H. destruct (set_present k v v0 m H) as (m1 & m2 & -> & -> & _).
  unfold JsMap.keys. now rewrite !map_app.
Qed.

(** ** Outcomes *)

Lemma mapM_Ok {A B : Type} (f : A -> result B) (l : list A) (l' : list B) :
  mapM f l = Ok l' -> Forall2 (fun a b => f a = Ok b) l l'.
Proof.
  revert l'. induction l as [|a l IH]; cbn; intros l' H.
  - injection H as <-. constructor.
  - destruct (f a) as [b| |] eqn:Ea; cbn in H; try discriminate.
    destruct (mapM f l) as [bs| |]; cbn in H; try discriminate.
    injection H as <-. constructor; auto.
Qed.

Lemma mapM_all_Ok {A B : Type} (f : A -> result B) (l : list A) :
  (forall a, In a l -> exists b, f a = Ok b) -> exists l', mapM f l = Ok l'.
Proof.
  induction l as [|a l IH]; cbn; intros H.
  - eauto.
  - destruct (H a (or_introl eq_refl)) as [b ->]. cbn.
    destruct IH as [bs ->]; [intros; apply H; auto|]. cbn. eauto.
Qed.

(** ** Room index *)

Lemma filter_snoc {A : Type} (p : A -> bool) (l : list A) (a : A) :
  filter p (l ++ [a]) = filter p l ++ (if p a then [a] else []).
Proof.
  rewrite filter_app. cbn. now destruct (p a).
Qed.

Lemma filter_none {A : Type} (p : A -> bool) (l : list A) :
  (forall a, In a l -> p a = false) -> filter p l = [].
Proof.
  induction l as [|a l IH]; cbn; intros H; [reflexivity|].
  rewrite (H a (or_introl eq_refl)). apply IH. intros; apply H; auto.
Qed.

Lemma addFeature_invariant (done : list feature) (groups : JsMap.t group)
  (f : feature) :
  groupsInvariant done groups ->
  groupsInvariant (done ++ [f]) (addFeature groups f).
Proof.
  intros (Hnd & Hgrp & Hcov & Hperm).
  unfold addFeature. fold (featureKey f).
  set (k := featureKey f). unfold JsMap.has.
  destruct (JsMap.get k groups) as [g|] eqn:Eg.
  - (* the key is there: the feature joins its group *)
    rewrite Eg.
    destruct (set_present k
                (mkGroup (g_name g) (g_floor g) (g_features g ++ [f]))
                g groups Eg) as (m1 & m2 & Hm & Hs & Hn).
    rewrite Hs. subst groups.
    assert (Hkeys : JsMap.keys (m1 ++ (k, mkGroup (g_name g) (g_floor g)
                                            (g_features g ++ [f])) :: m2) =
                    JsMap.keys (m1 ++ (k, g) :: m2)).
    { unfold JsMap.keys. now rewrite !map_app. }
    split; [now rewrite Hkeys|]. split; [|split].
    + intros k' g' Hin. apply in_app_or in Hin.
      assert (Hother : In (k', g') (m1 ++ (k, g) :: m2) -> k' <> k ->
                g_features g' =
                filter (fun f0 => String.eqb k' (featureKey f0)) (done ++ [f])
                /\ g_features g' <> [] /\
                k' = roomKey (g_name g') (g_floor g')).
      { intros Hin' Hne. destruct (Hgrp k' g' Hin') as (Hf & Hne' & Hk).
        repeat split; auto. rewrite filter_snoc. fold k.
        destruct (String.eqb k' k) eqn:E.
        - apply String.eqb_eq in E. congruence.
        - now rewrite app_nil_r. }
      assert (Hkm1 : forall k0 g0, In (k0, g0) m1 -> k0 <> k).
      { intros k0 g0 H0 ->. apply Hn.
        change (In (fst (k, g0)) (map fst m1)). now apply in_map. }
      assert (Hkm2 : forall k0 g0, In (k0, g0) m2 -> k0 <> k).
      { intros k0 g0 H0 ->. unfold JsMap.keys in Hnd.
        rewrite map_app in Hnd. cbn in Hnd.
        apply NoDup_remove_2 in Hnd. apply Hnd. apply in_or_app. right.
        change (In (fst (k, g0)) (map fst m2)). now apply in_map. }
      destruct Hin as [Hin|[Heq|Hin]].
      * apply Hother; [apply in_or_app; now left | eapply Hkm1; eauto].
      * injection Heq as <- <-. cbn.
        destruct (Hgrp k g) as (Hf & Hne' & Hk);
          [apply in_or_app; right; now left|].
        repeat split; auto.
        -- rewrite filter_snoc. fold k. rewrite String.eqb_refl.
           now rewrite Hf.
        -- intros H. now apply app_eq_nil in H as [_ [=]].
      * apply Hother; [apply in_or_app; right; now right | eapply Hkm2; eauto].
    + intros f0 Hin. rewrite Hkeys. apply in_app_or in Hin as [Hin|[<-|[]]].
      * now apply Hcov.
      * unfold JsMap.keys. rewrite map_app. apply in_or_app. right. now left.
    + revert Hperm. unfold JsMap.values. rewrite !map_app, !flat_map_app. cbn.
      intros Hperm. rewrite <- app_assoc. cbn.
      etransitivity; [|apply Permutation_app_tail; exact Hperm].
      rewrite <- !app_assoc. apply Permutation_app_head.
      apply Permutation_app_head. apply Permutation_cons_append.
  - (* a new key: a new group, last in the map *)
    rewrite get_set_same.
    rewrite (set_absent k _ groups Eg).
    cbn [g_name g_floor g_features app].
    rewrite (set_last_absent k _ _ groups Eg).
    apply get_None_not_In in Eg.
    split; [|split; [|split]].
    + unfold JsMap.keys. rewrite map_app. cbn.
      apply NoDup_app_remove_l with (l := []). cbn.
      apply Permutation_NoDup with (l := k :: map fst groups).
      * apply Permutation_cons_append.
      * constructor; auto.
    + intros k' g' Hin. apply in_app_or in Hin as [Hin|[Heq|[]]].
      * destruct (Hgrp k' g' Hin) as (Hf & Hne' & Hk).
        repeat split; auto. rewrite filter_snoc. fold k.
        destruct (String.eqb k' k) eqn:E.
        -- apply String.eqb_eq in E. exfalso. apply Eg. rewrite <- E.
           apply (in_map fst) in Hin. exact Hin.
        -- now rewrite app_nil_r.
      * injection Heq as <- <-. cbn. repeat split; [|discriminate].
        rewrite filter_snoc. fold k. rewrite String.eqb_refl.
        replace (filter (fun f0 => String.eqb k (featureKey f0)) done)
          with (@nil feature); [reflexivity|].
        symmetry. apply filter_none. intros f0 Hf0.
        destruct (String.eqb k (featureKey f0)) eqn:E; [|reflexivity].
        apply String.eqb_eq in E. exfalso. apply Eg. rewrite E.
        now apply Hcov.
    + intros f0 Hin. unfold JsMap.keys. rewrite map_app. apply in_or_app.
      apply in_app_or in Hin as [Hin|[<-|[]]]; [left; now apply Hcov|].
      right. now left.
    + unfold JsMap.values. rewrite map_app, flat_map_app. cbn.
      now apply Permutation_app_tail.
Qed.

Lemma collectGroups_invariant (features : list feature) :
  groupsInvariant features (collectGroups features).
Proof.
  unfold collectGroups.
  assert (H : forall done groups,
             groupsInvariant done groups ->
             groupsInvariant (done ++ features)
               (fold_left addFeature features groups)).
  { induction features as [|f fs IH]; cbn; intros done groups Hinv.
    - now rewrite app_nil_r.
    - replace (done ++ f :: fs) with ((done ++ [f]) ++ fs)
        by now rewrite <- app_assoc.
      apply IH. now apply addFeature_invariant. }
  apply (H [] []). repeat split; cbn; try tauto; constructor.
Qed.

Lemma withCentroid_fields (g : group) (r : room) :
  withCentroid g = Ok r ->
  room_name r = g_name g /\ room_floor r = g_floor g /\
  room_features r = g_features g.
Proof.
  unfold withCentroid.
  destruct (mapM getCentroid (g_features g)); cbn; try discriminate.
  intros [= <-]. cbn. auto.
Qed.

Lemma groupRoomsByName_groups (features : list feature)
  (rooms : JsMap.t room) :
  groupRoomsByName features = Ok rooms ->
  Forall2 (fun kg kr => fst kr = fst kg /\ withCentroid (snd kg) = Ok (snd kr))
    (collectGroups features) rooms.
Proof.
  unfold groupRoomsByName. intros H. apply mapM_Ok in H.
  induction H as [|[k g] [k' r] l l' Hh Ht IH]; constructor; auto.
  cbn in *. destruct (withCentroid g); cbn in Hh; try discriminate.
  injection Hh as <- <-. auto.
Qed.

Lemma Forall2_keys (gs : JsMap.t group) (rs : JsMap.t room) :
  Forall2 (fun kg kr => fst kr = fst kg /\ withCentroid (snd kg) = Ok (snd kr))
    gs rs ->
  JsMap.keys rs = JsMap.keys gs /\
  map room_features (JsMap.values rs) = map g_features (JsMap.values gs) /\
  (forall k r, In (k, r) rs ->
     exists g, In (k, g) gs /\ withCentroid g = Ok r).
Proof.
  induction 1 as [|[k g] [k' r] l l' [Hk Hw] Ht (IHk & IHf & IHin)]; cbn.
  - repeat split; tauto.
  - cbn in Hk, Hw. subst k'.
    destruct (withCentroid_fields g r Hw) as (_ & _ & Hf).
    unfold JsMap.keys, JsMap.values in *. cbn.
    rewrite IHk, IHf, Hf. repeat split.
    intros k0 r0 [Heq|Hin].
    + injection Heq as <- <-. exists g. auto.
    + destruct (IHin k0 r0 Hin) as (g0 & ? & ?). exists g0. auto.
Qed.

Lemma groupRoomsByName_returns (features : list feature) :
  (forall f, In f features -> ringCoords (f_geometry f) <> None) ->
  exists groups, groupRoomsByName features = Ok groups.
Proof.
  intros Hr. unfold groupRoomsByName. apply mapM_all_Ok.
  intros [k g] Hkg. cbn [fst snd].
  destruct (collectGroups_invariant features) as (_ & Hgrp & _ & _).
  destruct (Hgrp k g Hkg) as (Hfeat & _ & _).
  unfold withCentroid.
  destruct (mapM_all_Ok getCentroid (g_features g)) as [cs ->].
  - intros f Hf. rewrite Hfeat in Hf. apply filter_In in Hf.
    specialize (Hr f (proj1 Hf)). unfold getCentroid.
    destruct (ringCoords (f_geometry f)) as [[|? ?]|]; eauto. congruence.
  - cbn. eauto.
Qed.

(** *** Room keys determine name and floor *)

Lemma occurs_append (c : ascii) (a b : string) :
  occurs c (a ++ b)%string = occurs c a || occurs c b.
Proof.
  induction a as [|x a IH]; cbn; [reflexivity|].
  now rewrite IH, orb_assoc.
Qed.

Lemma split_at_last (c : ascii) (a b s t : string) :
  occurs c s = false -> occurs c t = false ->
  (a ++ String c s)%string = (b ++ String c t)%string -> a = b /\ s = t.
Proof.
  intros Hs Ht. revert b.
  induction a as [|x a IH]; intros [|y b] H; cbn in H.
  - injection H as ->. auto.
  - injection H as <- ->. rewrite occurs_append in Hs. cbn in Hs.
    rewrite Ascii.eqb_refl in Hs. cbn in Hs.
    now rewrite orb_true_r in Hs.
  - injection H as -> <-. rewrite occurs_append in Ht. cbn in Ht.
    rewrite Ascii.eqb_refl in Ht. cbn in Ht.
    now rewrite orb_true_r in Ht.
  - injection H as -> H. destruct (IH b H) as [-> ->]. auto.
Qed.

Lemma string_of_uint_digits (c : ascii) (d : Decimal.uint) :
  (c = "F" \/ c = "_")%char ->
  occurs c (NilEmpty.string_of_uint d) = false.
Proof.
  intros Hc. induction d; cbn; rewrite ?IHd; auto;
    destruct Hc as [-> | ->]; reflexivity.
Qed.

Lemma ofZ_digits (c : ascii) (z : Z) :
  (c = "F" \/ c = "_")%char -> occurs c (JsString.ofZ z) = false.
Proof.
  intros Hc. unfold JsString.ofZ, NilZero.string_of_int.
  assert (Hu : forall d, occurs c (NilZero.string_of_uint d) = false).
  { intros d. unfold NilZero.string_of_uint.
    destruct d; try apply (string_of_uint_digits c _ Hc).
    destruct Hc as [-> | ->]; reflexivity. }
  destruct (Z.to_int z); cbn; rewrite ?Hu; auto.
  destruct Hc as [-> | ->]; reflexivity.
Qed.

Lemma ofZ_inj (a b : Z) : JsString.ofZ a = JsString.ofZ b -> a = b.
Proof.
  unfold JsString.ofZ. intros H.
  assert (Hn : forall z, Z.to_int z <> Decimal.Pos Decimal.Nil /\
                         Z.to_int z <> Decimal.Neg Decimal.Nil).
  { intros z. split; intros E;
      pose proof (DecimalZ.to_of (Z.to_int z)) as Hto;
      rewrite DecimalZ.of_to in Hto; rewrite E in Hto; discriminate. }
  apply DecimalZ.to_int_inj.
  assert (Hs : Some (Z.to_int a) = Some (Z.to_int b)).
  { rewrite <- (NilZero.isi (Z.to_int a)) by apply Hn.
    rewrite <- (NilZero.isi (Z.to_int b)) by apply Hn.
    now rewrite H. }
  now injection Hs.
Qed.

Lemma append_String (a : string) (c : ascii) (s : string) :
  (a ++ String c s)%string = ((a ++ String c "") ++ s)%string.
Proof.
  induction a as [|x a IH]; cbn; [reflexivity|]. now rewrite IH.
Qed.

Lemma roomKey_inj (n1 n2 : string) (f1 f2 : Z) :
  roomKey n1 f1 = roomKey n2 f2 -> n1 = n2 /\ f1 = f2.
Proof.
  unfold roomKey. cbn. intros H.
  rewrite (append_String n1), (append_String n2) in H.
  apply split_at_last in H; try (apply ofZ_digits; now left).
  destruct H as [Hn Hf]. apply ofZ_inj in Hf.
  apply split_at_last in Hn; try reflexivity. tauto.
Qed.

(** * Properties *)

(** ** The floor of a feature *)

(** C5, counterexample: with [level: 1] and [nivel: 2] (and no [floor])
    the code answers 2, the first non-null value in the order floor,
    level, nivel is 1. *)
Lemma getRoomFloor_not_as_specified :
  let room :=
    mkFeature
      (Some (mkProperties (Some "A") None None None (Some 2%Z) (Some 1%Z)))
      OtherGeometry in
  getRoomFloor room = 2%Z /\ floorAsSpecified room = 1%Z /\
  getRoomFloor room <> floorAsSpecified room.
Proof.
  cbn. repeat split. discriminate.
Qed.

(** C5, amended: the floor of a feature is the first value that is
    present and not zero among its [floor], [nivel] and [level]
    properties, in that order, and 0 when there is none. *)
Theorem getRoomFloor_first_kept :
  forall room : feature,
    getRoomFloor room =
    match find keptByOr [prop p_floor room; prop p_nivel room;
                         prop p_level room] with
    | Some (Some z) => z
    | _ => 0%Z
    end.
Proof.
  intros room. unfold getRoomFloor, orNumber. cbn [find].
  destruct (prop p_floor room) as [a|]; cbn [keptByOr].
  - destruct (Z.eqb a 0); cbn [negb]; [|reflexivity].
    destruct (prop p_nivel room) as [b|]; cbn [keptByOr].
    + destruct (Z.eqb b 0); cbn [negb]; [|reflexivity].
      destruct (prop p_level room) as [c|]; cbn [keptByOr]; [|reflexivity].
      destruct (Z.eqb c 0); reflexivity.
    + destruct (prop p_level room) as [c|]; cbn [keptByOr]; [|reflexivity].
      destruct (Z.eqb c 0); reflexivity.
  - destruct (prop p_nivel room) as [b|]; cbn [keptByOr].
    + destruct (Z.eqb b 0); cbn [negb]; [|reflexivity].
      destruct (prop p_level room) as [c|]; cbn [keptByOr]; [|reflexivity].
      destruct (Z.eqb c 0); reflexivity.
    + destruct (prop p_level room) as [c|]; cbn [keptByOr]; [|reflexivity].
      destruct (Z.eqb c 0); reflexivity.
Qed.

(** ** Grouping is a partition *)

Lemma grouping_partitions_features_aux (features : list feature)
  (groups : JsMap.t room) :
  groupRoomsByName features = Ok groups ->
  NoDup (JsMap.keys groups) /\
  (forall k r, In (k, r) groups -> k = roomKeyOf r).
Proof.
  intros H. apply groupRoomsByName_groups in H.
  destruct (Forall2_keys _ _ H) as (Hk & _ & Hin).
  destruct (collectGroups_invariant features) as (Hnd & Hgrp & _ & _).
  split; [now rewrite Hk|].
  intros k r Hkr. destruct (Hin k r Hkr) as (g & Hg & Hw).
  destruct (withCentroid_fields g r Hw) as (Hn & Hf & _).
  destruct (Hgrp k g Hg) as (_ & _ & ->). unfold roomKeyOf.
  now rewrite Hn, Hf.
Qed.

(** What holds of C6: grouping returns whenever every feature has the
    ring that [getCentroid] reads, and its result places every feature
    in exactly one room group, none lost and none duplicated, under keys
    that are unique in the map; a room holds exactly the features of its
    name and floor, in input order. *)
Theorem grouping_partitions_features (features : list feature) :
  ((forall f, In f features -> ringCoords (f_geometry f) <> None) ->
   exists groups, groupRoomsByName features = Ok groups) /\
  forall groups : JsMap.t room,
    groupRoomsByName features = Ok groups ->
    NoDup (JsMap.keys groups) /\
    Permutation (flat_map room_features (JsMap.values groups)) features /\
    (forall f, In f features ->
       exists r, JsMap.get (featureKey f) groups = Some r /\
                 In f (room_features r)) /\
    (forall k r f, In (k, r) groups -> In f (room_features r) ->
       k = featureKey f) /\
    (forall k r, In (k, r) groups ->
       k = roomKey (room_name r) (room_floor r) /\
       room_features r =
       filter (fun f => String.eqb (getRoomName f) (room_name r) &&
                        Z.eqb (getRoomFloor f) (room_floor r)) features).
Proof.
  split; [apply groupRoomsByName_returns|].
  intros groups H. apply groupRoomsByName_groups in H.
  destruct (Forall2_keys _ _ H) as (Hk & Hf & Hin).
  destruct (collectGroups_invariant features) as (Hnd & Hgrp & Hcov & Hperm).
  assert (Hroom : forall k r, In (k, r) groups ->
            k = roomKey (room_name r) (room_floor r) /\
            room_features r =
            filter (fun f => String.eqb k (featureKey f)) features).
  { intros k r Hkr. destruct (Hin k r Hkr) as (g & Hg & Hw).
    destruct (withCentroid_fields g r Hw) as (-> & -> & ->).
    destruct (Hgrp k g Hg) as (? & _ & ?). auto. }
  assert (Hnd' : NoDup (JsMap.keys groups)) by now rewrite Hk.
  split; [exact Hnd'|]. split; [|split; [|split]].
  - rewrite flat_map_concat_map, Hf, <- flat_map_concat_map. exact Hperm.
  - intros f Hf0. specialize (Hcov f Hf0). rewrite <- Hk in Hcov.
    unfold JsMap.keys in Hcov. apply in_map_iff in Hcov.
    destruct Hcov as ([k r] & Hfst & Hkr). cbn in Hfst. subst k.
    exists r. split; [now apply In_get_Some|].
    destruct (Hroom _ _ Hkr) as [_ ->]. apply filter_In.
    split; [assumption | apply String.eqb_refl].
  - intros k r f Hkr Hfr. destruct (Hroom _ _ Hkr) as [_ Hfeat].
    rewrite Hfeat in Hfr. apply filter_In in Hfr.
    now apply String.eqb_eq.
  - intros k r Hkr. destruct (Hroom _ _ Hkr) as [Hkey Hfeat].
    split; [exact Hkey|]. rewrite Hfeat. apply filter_ext. intros f.
    unfold featureKey.
    destruct (String.eqb (getRoomName f) (room_name r)) eqn:En;
      destruct (Z.eqb (getRoomFloor f) (room_floor r)) eqn:Ef; cbn.
    + apply String.eqb_eq in En. apply Z.eqb_eq in Ef.
      rewrite Hkey, En, Ef. apply String.eqb_refl.
    + apply String.eqb_neq. intros E. rewrite Hkey in E.
      apply roomKey_inj in E. apply Z.eqb_neq in Ef. intuition congruence.
    + apply String.eqb_neq. intros E. rewrite Hkey in E.
      apply roomKey_inj in E. apply String.eqb_neq in En.
      intuition congruence.
    + apply String.eqb_neq. intros E. rewrite Hkey in E.
      apply roomKey_inj in E. apply String.eqb_neq in En.
      intuition congruence.
Qed.

Lemma grouping_partitions_features_witness :
  exists groups,
    groupRoomsByName threeFeatures = Ok groups /\
    JsMap.keys groups = ["A_F1"; "B_F1"] /\
    NoDup (JsMap.keys groups) /\
    Permutation (flat_map room_features (JsMap.values groups)) threeFeatures.
Proof.
  eexists. split; [reflexivity|]. split; [reflexivity|].
  split; eapply (proj2 (grouping_partitions_features threeFeatures));
    reflexivity.
Defined.

(** C6, failing input: a feature list holding a polygon whose
    [coordinates] array is empty.  [getCentroid] reads
    [coordinates[0].length] of it, so that grouping throws and places
    the feature in no room. *)
Theorem groupRoomsByName_throws_on_polygon_without_ring :
  ringCoords (f_geometry hollow) = None /\
  getCentroid hollow = Throw /\
  groupRoomsByName [hollow] = Throw /\
  ~ exists groups, groupRoomsByName [hollow] = Ok groups.
Proof.
  split; [reflexivity|]. split; [reflexivity|].
  assert (H : groupRoomsByName [hollow] = Throw) by reflexivity.
  split; [exact H|]. intros (groups & Hg). rewrite H in Hg. discriminate.
Qed.

(** ** Room centroids *)

Lemma fold_left_sum {A : Type} (f : A -> R) (l : list A) (a : R) :
  fold_left (fun s c => s + f c) l a = a + total (map f l).
Proof.
  unfold total. revert a. induction l as [|x l IH]; cbn; intros a.
  - lra.
  - rewrite IH. lra.
Qed.

Lemma sumFirst_total (l : list coord) : sumFirst l = total (map fst l).
Proof. unfold sumFirst. rewrite fold_left_sum. lra. Qed.

Lemma sumSecond_total (l : list coord) : sumSecond l = total (map snd l).
Proof. unfold sumSecond. rewrite fold_left_sum. lra. Qed.

Lemma sumCoords_total (l : list coord) :
  sumCoords l = (total (map fst l), total (map snd l)).
Proof.
  unfold sumCoords.
  assert (H : forall a,
             fold_left (fun acc c : coord => (fst acc + fst c, snd acc + snd c))
               l a = (fst a + total (map fst l), snd a + total (map snd l))).
  { unfold total. induction l as [|x l IH]; cbn; intros a.
    - destruct a; cbn; f_equal; lra.
    - rewrite IH. cbn. f_equal; lra. }
  rewrite H. cbn. f_equal; lra.
Qed.

Lemma getCentroid_ring (f : feature) (c : coord) :
  getCentroid f = Ok c ->
  exists ring, ringCoords (f_geometry f) = Some ring /\ c = ringCentroid ring.
Proof.
  unfold getCentroid.
  destruct (ringCoords (f_geometry f)) as [[|v ring]|]; try discriminate.
  - intros [= <-]. exists []. auto.
  - intros H. exists (v :: ring). split; [reflexivity|].
    rewrite sumCoords_total in H. cbn [fst snd] in H.
    unfold ringCentroid, meanPoint, mean. rewrite !length_map.
    now injection H as <-.
Qed.

(** C3, counterexample: a room of two features, one with the vertex
    (0,0) and one with the vertex (6,0) twice.  The code averages the
    two feature centroids, (3,0); the mean of the three vertices is
    (4,0). *)
Lemma room_centroid_not_vertex_mean :
  exists r,
    groupRoomsByName unevenRoom = Ok [("A_F0", r)] /\
    room_centroid r = (3, 0) /\
    meanOfAllVertices (room_features r) = (4, 0) /\
    room_centroid r <> meanOfAllVertices (room_features r).
Proof.
  eexists. split; [reflexivity|].
  assert (H1 : room_centroid
                 (mkRoom "A" 0 unevenRoom
                    (sumFirst [(fst (sumCoords [(0, 0)]) / INR 1,
                                snd (sumCoords [(0, 0)]) / INR 1);
                               (fst (sumCoords [(6, 0); (6, 0)]) / INR 2,
                                snd (sumCoords [(6, 0); (6, 0)]) / INR 2)]
                     / INR 2,
                     sumSecond [(fst (sumCoords [(0, 0)]) / INR 1,
                                 snd (sumCoords [(0, 0)]) / INR 1);
                                (fst (sumCoords [(6, 0); (6, 0)]) / INR 2,
                                 snd (sumCoords [(6, 0); (6, 0)]) / INR 2)]
                     / INR 2)) = (3, 0)).
  { cbn. f_equal; lra. }
  assert (H2 : meanOfAllVertices unevenRoom = (4, 0)).
  { unfold meanOfAllVertices, meanPoint, mean. cbn. f_equal; lra. }
  split; [exact H1|]. split; [exact H2|].
  match goal with
  | |- ?a <> ?b =>
      assert (Ha : a = (3, 0)) by exact H1;
      assert (Hb : b = (4, 0)) by exact H2;
      rewrite Ha, Hb
  end.
  intros [= E]. lra.
Qed.

(** C3, amended: the centroid of a room is the arithmetic mean of the
    centroids of its member features, every feature weighted equally;
    the centroid of a feature is the mean of the vertices of the one
    ring read from it, and (0,0) when that ring is empty. *)
Theorem room_centroid_mean_of_feature_centroids (features : list feature)
  (groups : JsMap.t room) (k : string) (r : room) :
  groupRoomsByName features = Ok groups ->
  In (k, r) groups ->
  exists rings,
    Forall2 (fun f ring => ringCoords (f_geometry f) = Some ring)
      (room_features r) rings /\
    room_centroid r = meanPoint (map ringCentroid rings).
Proof.
  intros H Hin. apply groupRoomsByName_groups in H.
  destruct (Forall2_keys _ _ H) as (_ & _ & Hg).
  destruct (Hg k r Hin) as (g & _ & Hw). clear - Hw.
  unfold withCentroid in Hw.
  destruct (mapM getCentroid (g_features g)) as [cs| |] eqn:Ec;
    cbn in Hw; try discriminate.
  injection Hw as <-. cbn. apply mapM_Ok in Ec.
  assert (Hr : exists rings,
             Forall2 (fun f ring => ringCoords (f_geometry f) = Some ring)
               (g_features g) rings /\ cs = map ringCentroid rings).
  { induction Ec as [|f c fs cs' Hc _ (rings & Hf & ->)].
    - exists []. split; constructor.
    - destruct (getCentroid_ring f c Hc) as (ring & Hring & ->).
      exists (ring :: rings). split; [constructor; auto | reflexivity]. }
  destruct Hr as (rings & Hf & ->). exists rings. split; [exact Hf|].
  rewrite sumFirst_total, sumSecond_total. unfold meanPoint, mean.
  now rewrite !length_map.
Qed.

Lemma room_centroid_mean_of_feature_centroids_witness :
  exists r rings,
    groupRoomsByName unevenRoom = Ok [("A_F0", r)] /\
    In ("A_F0", r) [("A_F0", r)] /\
    Forall2 (fun f ring => ringCoords (f_geometry f) = Some ring)
      (room_features r) rings /\
    room_centroid r = meanPoint (map ringCentroid rings).
Proof.
  eexists.
  destruct (room_centroid_mean_of_feature_centroids unevenRoom _ "A_F0" _
              eq_refl (or_introl eq_refl)) as (rings & Hf & Hc).
  exists rings. repeat split; [now left | exact Hf | exact Hc].
Defined.

(** ** Graph builder *)

Lemma Rltb_true (a b : R) : Rltb a b = true <-> a < b.
Proof. unfold Rltb. destruct (Rlt_dec a b); intuition discriminate. Qed.

Lemma Rltb_false (a b : R) : Rltb a b = false <-> ~ a < b.
Proof. unfold Rltb. destruct (Rlt_dec a b); intuition discriminate. Qed.

Lemma get_fold_set_other {A V : Type} (kf : A -> string) (vf : A -> V)
  (l : list A) (init : JsMap.t V) (k : string) :
  ~ In k (map kf l) ->
  JsMap.get k (fold_left (fun g x => JsMap.set (kf x) (vf x) g) l init) =
  JsMap.get k init.
Proof.
  revert init. induction l as [|a l IH]; cbn; intros init Hn; [reflexivity|].
  rewrite IH by tauto. apply get_set_other. tauto.
Qed.

Lemma get_fold_set {A V : Type} (kf : A -> string) (vf : A -> V)
  (l : list A) (init : JsMap.t V) (x : A) :
  NoDup (map kf l) -> In x l ->
  JsMap.get (kf x) (fold_left (fun g x => JsMap.set (kf x) (vf x) g) l init) =
  Some (vf x).
Proof.
  revert init. induction l as [|a l IH]; cbn; intros init Hnd Hin; [tauto|].
  inversion Hnd as [|? ? Hnot Hnd']; subst. destruct Hin as [->|Hin].
  - rewrite get_fold_set_other by assumption. apply get_set_same.
  - now apply IH.
Qed.

Lemma distinct_after_filter (keep : room -> bool) (rooms : list room) :
  NoDup (map roomKeyOf rooms) -> NoDup (map roomKeyOf (filter keep rooms)).
Proof.
  induction rooms as [|r rooms IH]; cbn; intros Hnd; [constructor|].
  inversion Hnd as [|? ? Hnot Hnd']; subst.
  destruct (keep r); cbn; auto. constructor; auto.
  intros Hin. apply Hnot. apply in_map_iff in Hin.
  destruct Hin as (x & Hx & Hin). apply filter_In in Hin.
  apply in_map_iff. exists x. tauto.
Qed.

Lemma NoDup_map_inj {A B : Type} (f : A -> B) (l : list A) (x y : A) :
  NoDup (map f l) -> In x l -> In y l -> f x = f y -> x = y.
Proof.
  induction l as [|a l IH]; cbn; intros Hnd Hx Hy E; [tauto|].
  inversion Hnd as [|? ? Hnot Hnd']; subst.
  destruct Hx as [->|Hx], Hy as [->|Hy]; auto.
  - exfalso. apply Hnot. rewrite E. now apply in_map.
  - exfalso. apply Hnot. rewrite <- E. now apply in_map.
Qed.

Lemma filterRooms_distinct (groups : JsMap.t room) (targetFloor : option Z) :
  distinctRooms groups ->
  NoDup (map roomKeyOf (filterRooms (JsMap.values groups) targetFloor)).
Proof.
  intros H. unfold filterRooms. apply distinct_after_filter.
  destruct targetFloor; [now apply distinct_after_filter | exact H].
Qed.

Lemma groupRoomsByName_distinct (features : list feature)
  (groups : JsMap.t room) :
  groupRoomsByName features = Ok groups -> distinctRooms groups.
Proof.
  intros H.
  destruct (grouping_partitions_features_aux features groups H)
    as (Hnd & Hkey).
  unfold distinctRooms, JsMap.values.
  replace (map roomKeyOf (map snd groups)) with (JsMap.keys groups);
    [exact Hnd|].
  unfold JsMap.keys. rewrite map_map. apply map_ext_in.
  intros [k r] Hin. cbn. now apply Hkey.
Qed.

Lemma graph_node (groups : JsMap.t room) (targetFloor : option Z) (r : room) :
  distinctRooms groups ->
  In r (filterRooms (JsMap.values groups) targetFloor) ->
  JsMap.get (roomKeyOf r) (buildRoomGraph groups targetFloor) =
  Some (mkNode r
          (neighborsOf (filterRooms (JsMap.values groups) targetFloor) r)
          (room_centroid r) (isCorridor (room_name r))).
Proof.
  intros Hd Hin. unfold buildRoomGraph.
  apply (get_fold_set roomKeyOf
           (fun room =>
              mkNode room
                (neighborsOf (filterRooms (JsMap.values groups) targetFloor)
                   room)
                (room_centroid room) (isCorridor (room_name room)))).
  - now apply filterRooms_distinct.
  - exact Hin.
Qed.

Lemma neighborsOf_In (rooms : list room) (r : room) (nb : neighbor) :
  In nb (neighborsOf rooms r) <->
  exists o, In o rooms /\ connect r o = Some nb.
Proof.
  unfold neighborsOf. rewrite in_flat_map. split.
  - intros (o & Ho & Hnb). exists o. split; [exact Ho|].
    destruct (connect r o); cbn in Hnb; [|tauto].
    destruct Hnb as [->|[]]. reflexivity.
  - intros (o & Ho & Hc). exists o. rewrite Hc. cbn. auto.
Qed.

Lemma connect_key (r o : room) (nb : neighbor) :
  connect r o = Some nb -> nb_key nb = roomKeyOf o.
Proof.
  unfold connect.
  repeat match goal with
         | |- context [if ?b then _ else _] => destruct b
         end; try discriminate; now intros [= <-].
Qed.

Lemma connect_cross_floor (r o : room) :
  Z.abs (room_floor r - room_floor o) = 1%Z ->
  connect r o =
  if isVerticalConnector (room_name r) || isVerticalConnector (room_name o)
  then
    if Rltb (distance (room_centroid r) (room_centroid o)) 0.02 &&
       Rltb 0 (distance (room_centroid r) (room_centroid o))
    then Some (mkNeighbor (roomKeyOf o) (room_name o) (room_floor o)
                 (distance (room_centroid r) (room_centroid o) * 2)
                 (isCorridor (room_name o)))
    else None
  else None.
Proof.
  intros Habs. unfold connect.
  assert (E : Z.eqb (room_floor r) (room_floor o) = false)
    by (apply Z.eqb_neq; lia).
  rewrite E, andb_false_r.
  apply Z.eqb_eq in Habs. now rewrite Habs.
Qed.

Lemma connect_same_floor (r o : room) :
  room_floor r = room_floor o -> roomKeyOf r <> roomKeyOf o ->
  connect r o =
  let dist := distance (room_centroid r) (room_centroid o) in
  let rule := sameFloorRule (isCorridor (room_name r))
                (isCorridor (room_name o)) in
  if Rltb dist (fst rule) && Rltb 0 dist
  then Some (mkNeighbor (roomKeyOf o) (room_name o) (room_floor o)
               (dist * snd rule) (isCorridor (room_name o)))
  else None.
Proof.
  intros Hf Hk. unfold connect.
  assert (En : String.eqb (room_name r) (room_name o) = false).
  { apply String.eqb_neq. intros E. apply Hk. unfold roomKeyOf.
    now rewrite E, Hf. }
  rewrite En. cbn [andb]. rewrite Hf, Z.eqb_refl. reflexivity.
Qed.

Lemma distance_horizontal (a b y : R) : distance (a, y) (b, y) = Rabs (a - b).
Proof.
  unfold distance. cbn.
  replace ((a - b) * (a - b) + (y - y) * (y - y)) with ((a - b)²)
    by (unfold Rsqr; ring).
  apply sqrt_Rsqr_abs.
Qed.

Lemma distance_nonneg (p q : coord) : 0 <= distance p q.
Proof. unfold distance. apply sqrt_pos. Qed.

Lemma filterRooms_In (rooms : list room) (targetFloor : option Z) (r : room) :
  In r (filterRooms rooms targetFloor) <->
  In r rooms /\ isNavigableRoom (room_name r) = true /\
  (forall fl, targetFloor = Some fl -> room_floor r = fl).
Proof.
  unfold filterRooms. rewrite filter_In. destruct targetFloor as [fl|].
  - rewrite filter_In, Z.eqb_eq. split.
    + intros [[? ?] ?]. repeat split; auto. now intros ? [= <-].
    + intros (? & ? & H). auto.
  - split; [intros [? ?]; repeat split; auto; discriminate | tauto].
Qed.

Ltac in_all_floors :=
  apply filterRooms_In; split; [cbn; auto | split; [reflexivity|discriminate]].

Ltac distinct_keys :=
  unfold distinctRooms; cbn;
  repeat (constructor; [cbn; intuition discriminate|]); constructor.

(** C2, counterexample: a room named "Corridor" on floor 0 and a room
    named "Office" on floor 1, 0.01 apart.  The corridor gets an edge to
    the office, though neither name contains stairs, escada, elevador,
    elevator or lift. *)
Lemma cross_floor_edge_without_specified_connector :
  exists nd nb,
    JsMap.get "Corridor_F0" (buildRoomGraph corridorBelowOffice None)
    = Some nd /\
    In nb (n_neighbors nd) /\ nb_key nb = "Office_F1" /\
    connectorAsSpecified "Corridor" = false /\
    connectorAsSpecified "Office" = false.
Proof.
  eexists. eexists. split.
  - apply (graph_node corridorBelowOffice None (roomAt "Corridor" 0 (0, 0))).
    + distinct_keys.
    + in_all_floors.
  - cbn [n_neighbors]. split.
    { apply neighborsOf_In. exists (roomAt "Office" 1 (0.01, 0)).
      split; [in_all_floors|].
      rewrite connect_cross_floor by reflexivity.
      cbn [roomAt room_name room_centroid room_floor].
      rewrite distance_horizontal.
      replace (Rabs (0 - 0.01)) with 0.01
        by (rewrite Rabs_left; lra).
      assert (H1 : Rltb 0.01 0.02 = true) by (apply Rltb_true; lra).
      assert (H2 : Rltb 0 0.01 = true) by (apply Rltb_true; lra).
      rewrite H1, H2. reflexivity. }
    split; [reflexivity|split; reflexivity].
Qed.

(** C2, amended: in a room index without two rooms of one key (as
    [groupRoomsByName] builds it), between two navigable rooms whose
    floors differ by exactly 1 an edge is created exactly when the name of at least one
    of them contains (in any letter case) stair, escada, elevador,
    elevator, corredor, corridor, hallway or lobby and their centroid
    distance is above 0 and below 0.02; the weight of the edge is twice
    the centroid distance. *)
Theorem cross_floor_edges (groups : JsMap.t room) (targetFloor : option Z)
  (r o : room) :
  distinctRooms groups ->
  In r (filterRooms (JsMap.values groups) targetFloor) ->
  In o (filterRooms (JsMap.values groups) targetFloor) ->
  Z.abs (room_floor r - room_floor o) = 1%Z ->
  exists nd,
    JsMap.get (roomKeyOf r) (buildRoomGraph groups targetFloor) = Some nd /\
    ((exists nb, In nb (n_neighbors nd) /\ nb_key nb = roomKeyOf o) <->
     (isVerticalConnector (room_name r) || isVerticalConnector (room_name o)
      = true /\
      0 < distance (room_centroid r) (room_centroid o) < 0.02)) /\
    (forall nb, In nb (n_neighbors nd) -> nb_key nb = roomKeyOf o ->
       nb_distance nb = distance (room_centroid r) (room_centroid o) * 2).
Proof.
  intros Hd Hr Ho Habs. eexists. split; [now apply graph_node|].
  cbn [n_neighbors].
  pose proof (filterRooms_distinct groups targetFloor Hd) as Hnd.
  assert (Hfrom : forall nb,
            In nb (neighborsOf (filterRooms (JsMap.values groups) targetFloor)
                     r) ->
            nb_key nb = roomKeyOf o -> connect r o = Some nb).
  { intros nb Hin Hkey. apply neighborsOf_In in Hin.
    destruct Hin as (o' & Ho' & Hc). pose proof (connect_key _ _ _ Hc) as Hk.
    rewrite Hkey in Hk.
    now rewrite (NoDup_map_inj roomKeyOf _ o o' Hnd Ho Ho' Hk). }
  pose proof (connect_cross_floor r o Habs) as Hc.
  split; [split|].
  - intros (nb & Hin & Hkey). rewrite (Hfrom nb Hin Hkey) in Hc.
    destruct (isVerticalConnector (room_name r) ||
              isVerticalConnector (room_name o)); [|discriminate].
    split; [reflexivity|].
    destruct (Rltb _ 0.02) eqn:E1; [|discriminate].
    destruct (Rltb 0 _) eqn:E2; [|discriminate].
    apply Rltb_true in E1, E2. auto.
  - intros (Hvc & Hpos & Hlt). rewrite Hvc in Hc.
    apply Rltb_true in Hpos, Hlt. rewrite Hpos, Hlt in Hc. cbn in Hc.
    eexists. split; [apply neighborsOf_In; exists o; split; eauto|].
    reflexivity.
  - intros nb Hin Hkey. rewrite (Hfrom nb Hin Hkey) in Hc.
    destruct (isVerticalConnector (room_name r) ||
              isVerticalConnector (room_name o)); [|discriminate].
    destruct (_ && _); [|discriminate]. now injection Hc as ->.
Qed.

Lemma cross_floor_edges_witness :
  distinctRooms corridorBelowOffice /\
  Z.abs (0 - 1) = 1%Z /\
  exists nd,
    JsMap.get "Corridor_F0" (buildRoomGraph corridorBelowOffice None)
    = Some nd /\
    forall nb, In nb (n_neighbors nd) -> nb_key nb = "Office_F1" ->
      nb_distance nb = distance (0, 0) (0.01, 0) * 2.
Proof.
  assert (Hd : distinctRooms corridorBelowOffice) by distinct_keys.
  split; [exact Hd|]. split; [reflexivity|].
  destruct (cross_floor_edges corridorBelowOffice None
              (roomAt "Corridor" 0 (0, 0)) (roomAt "Office" 1 (0.01, 0)) Hd)
    as (nd & Hnd & _ & Hw).
  - in_all_floors.
  - in_all_floors.
  - reflexivity.
  - exists nd. split; [exact Hnd | exact Hw].
Defined.

(** C4, counterexample: two rooms of one floor with the same centroid.
    Their distance, 0, is below the tightest threshold, and no edge is
    created. *)
Lemma coincident_rooms_not_connected :
  exists nd,
    JsMap.get "A_F0" (buildRoomGraph coincidentRooms None) = Some nd /\
    distance (0, 0) (0, 0) < 0.015 /\
    ~ exists nb, In nb (n_neighbors nd) /\ nb_key nb = "B_F0".
Proof.
  eexists. split.
  - apply (graph_node coincidentRooms None (roomAt "A" 0 (0, 0))).
    + distinct_keys.
    + in_all_floors.
  - assert (Hz : distance (0, 0) (0, 0) = 0).
    { rewrite distance_horizontal, Rminus_diag. apply Rabs_R0. }
    split; [rewrite Hz; lra|].
    cbn [n_neighbors]. intros (nb & Hin & Hkey).
    apply neighborsOf_In in Hin. destruct Hin as (o & Ho & Hc).
    cbn in Ho. destruct Ho as [<-|[<-|[]]].
    + discriminate Hc.
    + rewrite connect_same_floor in Hc; [|reflexivity|discriminate].
      cbn [roomAt room_name room_centroid room_floor] in Hc.
      cbv zeta in Hc. rewrite Hz in Hc.
      assert (H0 : Rltb 0 0 = false) by (apply Rltb_false; lra).
      rewrite H0, andb_false_r in Hc. discriminate.
Qed.

(** C4, amended: in a room index without two rooms of one key (as
    [groupRoomsByName] builds it), between two distinct navigable rooms
    of one floor an edge is created exactly when their centroid distance is above 0 and
    below the threshold of the pair: 0.05 with weight 0.8 times the
    distance for two corridors, 0.03 with weight 0.9 times the distance
    for a corridor and a regular room, 0.015 with weight 1.2 times the
    distance for two regular rooms. *)
Theorem same_floor_edges (groups : JsMap.t room) (targetFloor : option Z)
  (r o : room) :
  distinctRooms groups ->
  In r (filterRooms (JsMap.values groups) targetFloor) ->
  In o (filterRooms (JsMap.values groups) targetFloor) ->
  room_floor r = room_floor o ->
  roomKeyOf r <> roomKeyOf o ->
  let dist := distance (room_centroid r) (room_centroid o) in
  let rule :=
    sameFloorRule (isCorridor (room_name r)) (isCorridor (room_name o)) in
  (exists nd,
     JsMap.get (roomKeyOf r) (buildRoomGraph groups targetFloor) = Some nd /\
     ((exists nb, In nb (n_neighbors nd) /\ nb_key nb = roomKeyOf o) <->
      0 < dist < fst rule) /\
     (forall nb, In nb (n_neighbors nd) -> nb_key nb = roomKeyOf o ->
        nb_distance nb = dist * snd rule)) /\
  sameFloorRule true true = (0.05, 0.8) /\
  sameFloorRule true false = (0.03, 0.9) /\
  sameFloorRule false true = (0.03, 0.9) /\
  sameFloorRule false false = (0.015, 1.2) /\
  0.015 < 0.03 < 0.05.
Proof.
  intros Hd Hr Ho Hfl Hkeys dist rule.
  split; [|repeat split; lra].
  eexists. split; [now apply graph_node|]. cbn [n_neighbors].
  pose proof (filterRooms_distinct groups targetFloor Hd) as Hnd.
  assert (Hfrom : forall nb,
            In nb (neighborsOf (filterRooms (JsMap.values groups) targetFloor)
                     r) ->
            nb_key nb = roomKeyOf o -> connect r o = Some nb).
  { intros nb Hin Hkey. apply neighborsOf_In in Hin.
    destruct Hin as (o' & Ho' & Hc). pose proof (connect_key _ _ _ Hc) as Hk.
    rewrite Hkey in Hk.
    now rewrite (NoDup_map_inj roomKeyOf _ o o' Hnd Ho Ho' Hk). }
  pose proof (connect_same_floor r o Hfl Hkeys) as Hc.
  cbv zeta in Hc. fold dist in Hc. fold rule in Hc.
  split; [split|].
  - intros (nb & Hin & Hkey). rewrite (Hfrom nb Hin Hkey) in Hc.
    destruct (Rltb dist (fst rule)) eqn:E1; [|discriminate].
    destruct (Rltb 0 dist) eqn:E2; [|discriminate].
    apply Rltb_true in E1, E2. auto.
  - intros (Hpos & Hlt).
    apply Rltb_true in Hpos, Hlt. rewrite Hpos, Hlt in Hc. cbn in Hc.
    eexists. split; [apply neighborsOf_In; exists o; split; eauto|].
    reflexivity.
  - intros nb Hin Hkey. rewrite (Hfrom nb Hin Hkey) in Hc.
    destruct (_ && _); [|discriminate]. now injection Hc as ->.
Qed.

Lemma same_floor_edges_witness :
  distinctRooms adjacentRooms /\
  exists nd,
    JsMap.get "A_F0" (buildRoomGraph adjacentRooms None) = Some nd /\
    ((exists nb, In nb (n_neighbors nd) /\ nb_key nb = "B_F0") <->
     0 < distance (0, 0) (0.01, 0) < 0.015).
Proof.
  assert (Hd : distinctRooms adjacentRooms) by distinct_keys.
  split; [exact Hd|].
  destruct (same_floor_edges adjacentRooms None
              (roomAt "A" 0 (0, 0)) (roomAt "B" 0 (0.01, 0)) Hd)
    as ((nd & Hnd & Hiff & _) & _).
  - in_all_floors.
  - in_all_floors.
  - reflexivity.
  - discriminate.
  - exists nd. split; [exact Hnd | exact Hiff].
Defined.

(** ** Path enhancer *)

Lemma boundaryCoords_Ok (features : list feature) :
  (forall f, In f features -> ringCoords (f_geometry f) <> None) ->
  exists coords, boundaryCoords features = Ok coords.
Proof.
  intros H. unfold boundaryCoords.
  destruct (mapM_all_Ok
              (fun f => match ringCoords (f_geometry f) with
                        | Some ring => Ok ring
                        | None => Throw
                        end) features) as [rings ->].
  - intros f Hf. specialize (H f Hf).
    destruct (ringCoords (f_geometry f)); [eauto | congruence].
  - cbn. eauto.
Qed.

Lemma getRoomBoundaryPoints_Ok (features : list feature) (target : coord) :
  (forall f, In f features -> ringCoords (f_geometry f) <> None) ->
  exists c, getRoomBoundaryPoints features target = Ok c.
Proof.
  intros H. unfold getRoomBoundaryPoints.
  destruct (boundaryCoords_Ok features H) as [coords ->]. cbn.
  destruct coords; eauto.
Qed.

Lemma getCorridorPathPoints_Ok (features : list feature) (a b : coord)
  (n : Z) :
  (forall f, In f features -> ringCoords (f_geometry f) <> None) ->
  exists cs, getCorridorPathPoints features a b n = Ok cs.
Proof.
  intros H. unfold getCorridorPathPoints.
  destruct (boundaryCoords_Ok features H) as [coords ->]. cbn [bind].
  destruct (List.length coords <? 3)%nat; [eauto|].
  destruct (getRoomBoundaryPoints_Ok features a H) as [ea ->].
  destruct (getRoomBoundaryPoints_Ok features b H) as [eb ->]. cbn [bind].
  destruct ea, eb; eauto.
Qed.

Lemma waypointsAfter_Ok (pathCoords : list routePoint) (i : nat) :
  ringsPresent pathCoords ->
  exists w, waypointsAfter pathCoords i = Ok w.
Proof.
  intros H. unfold waypointsAfter.
  destruct (nth_error pathCoords i) as [current|] eqn:Ec; [|eauto].
  destruct (nth_error pathCoords (i + 1)) as [next|] eqn:En; [|eauto].
  assert (Hc : forall f, In f (rp_features current) ->
                 ringCoords (f_geometry f) <> None)
    by (intros f; apply H; eapply nth_error_In; eauto).
  assert (Hn : forall f, In f (rp_features next) ->
                 ringCoords (f_geometry f) <> None)
    by (intros f; apply H; eapply nth_error_In; eauto).
  destruct (Rltb 0.008 _); [|eauto].
  destruct (negb (Bool.eqb _ _)).
  - destruct (isCorridor (rp_name current)).
    + destruct (getRoomBoundaryPoints_Ok (rp_features current)
                  (rp_coords next) Hc) as [[c|] ->]; cbn; eauto.
    + destruct (getRoomBoundaryPoints_Ok (rp_features next)
                  (rp_coords current) Hn) as [[c|] ->]; cbn; eauto.
  - destruct (_ && _ && Rltb 0.015 _).
    + match goal with
      | |- context [getCorridorPathPoints ?fs ?a ?b ?n] =>
          destruct (getCorridorPathPoints_Ok fs a b n Hc) as [cs ->]
      end.
      cbn. destruct cs; eauto.
    + destruct (_ && _ && _); eauto.
Qed.

Lemma waypointsAfter_flagged (pathCoords : list routePoint) (i : nat)
  (w : list routePoint) :
  waypointsAfter pathCoords i = Ok w ->
  Forall (fun p => rp_isWaypoint p = Some true) w.
Proof.
  assert (Hmap : forall (A : Type) (f : A -> routePoint) (l : list A),
             (forall a, rp_isWaypoint (f a) = Some true) ->
             Forall (fun p => rp_isWaypoint p = Some true) (map f l)).
  { intros A f l Hf. apply Forall_forall. intros p Hp.
    apply in_map_iff in Hp. destruct Hp as (a & <- & _). apply Hf. }
  unfold waypointsAfter.
  destruct (nth_error pathCoords i) as [current|];
    [|intros [= <-]; constructor].
  destruct (nth_error pathCoords (i + 1)) as [next|];
    [|intros [= <-]; constructor].
  destruct (Rltb 0.008 _); [|intros [= <-]; constructor].
  destruct (negb (Bool.eqb _ _)).
  - match goal with
    | |- bind ?r _ = _ -> _ => destruct r as [[c|]| |]
    end; cbn [bind]; try discriminate; intros [= <-]; repeat constructor.
  - destruct (_ && _ && Rltb 0.015 _).
    + match goal with
      | |- bind ?r _ = _ -> _ => destruct r as [cs| |]
      end; cbn [bind]; try discriminate.
      destruct cs; intros H; injection H as <-;
        first [apply Hmap; reflexivity
              |constructor; [reflexivity | apply Hmap; reflexivity]].
    + destruct (_ && _ && _); intros [= <-]; repeat constructor.
Qed.

Lemma waypointsAfter_last (pathCoords : list routePoint) (i : nat) :
  (List.length pathCoords <= i + 1)%nat ->
  waypointsAfter pathCoords i = Ok [].
Proof.
  intros H. unfold waypointsAfter.
  apply nth_error_None in H. rewrite H.
  now destruct (nth_error pathCoords i).
Qed.

Lemma interleave_nothing (points : list routePoint) :
  interleave points (map (fun _ => []) points) = points.
Proof.
  unfold interleave. induction points as [|p ps IH]; cbn; [reflexivity|].
  now rewrite IH.
Qed.

Lemma rounds_interleave (pathCoords pre suf : list routePoint)
  (rounds : list (list routePoint)) :
  pathCoords = pre ++ suf ->
  mapM (fun i =>
          match nth_error pathCoords i with
          | Some current =>
              inserted <- waypointsAfter pathCoords i ;;
              Ok (current :: inserted)
          | None => Ok []
          end) (seq (List.length pre) (List.length suf)) = Ok rounds ->
  exists inserted,
    List.length inserted = List.length suf /\
    List.concat rounds = interleave suf inserted /\
    (forall j, (j < List.length suf)%nat ->
       waypointsAfter pathCoords (List.length pre + j)
       = Ok (nth j inserted [])).
Proof.
  revert pre rounds. induction suf as [|p suf IH]; intros pre rounds Hp H.
  - cbn in H. injection H as <-. exists []. cbn. repeat split. lia.
  - cbn [List.length seq mapM] in H.
    assert (Hnth : nth_error pathCoords (List.length pre) = Some p).
    { rewrite Hp, nth_error_app2, Nat.sub_diag by lia. reflexivity. }
    rewrite Hnth in H.
    destruct (waypointsAfter pathCoords (List.length pre)) as [w| |] eqn:Ew;
      cbn in H; try discriminate.
    match type of H with
    | bind ?m _ = _ => destruct m as [rs| |] eqn:Er
    end; cbn in H; try discriminate.
    injection H as <-.
    destruct (IH (pre ++ [p]) rs) as (ins & Hlen & Hcat & Hall).
    + now rewrite <- app_assoc.
    + rewrite length_app. cbn. now rewrite Nat.add_1_r.
    + exists (w :: ins). cbn. repeat split.
      * now rewrite Hlen.
      * unfold interleave in *. cbn. now rewrite Hcat.
      * intros [|j] Hj.
        -- now rewrite Nat.add_0_r.
        -- specialize (Hall j). rewrite length_app in Hall. cbn in Hall.
           replace (List.length pre + S j)%nat
             with (List.length pre + 1 + j)%nat by lia.
           apply Hall. lia.
Qed.

Lemma addCorridorWaypoints_returns (pathCoords : list routePoint) :
  ringsPresent pathCoords ->
  exists out, addCorridorWaypoints pathCoords = Ok out.
Proof.
  unfold addCorridorWaypoints.
  intros Hr. destruct (List.length pathCoords <? 2)%nat; [eauto|].
  match goal with
  | |- exists out, bind (mapM ?f ?l) _ = _ =>
      destruct (mapM_all_Ok f l) as [rounds ->]
  end; [|cbn; eauto].
  intros i _. destruct (nth_error pathCoords i); [|eauto].
  destruct (waypointsAfter_Ok pathCoords i Hr) as [w ->]. cbn. eauto.
Qed.

(** C10: the result of the enhancer is the input path with, after each
    input point, the points derived from that point and its successor;
    the input points are kept unmodified and in order, every inserted
    point carries [isWaypoint = true], nothing follows the last point,
    and a path of fewer than two points is returned unchanged.  The
    call returns whenever every feature on the path has the ring that
    the boundary scans read. *)
Theorem addCorridorWaypoints_keeps_path (pathCoords : list routePoint) :
  (ringsPresent pathCoords ->
   exists out, addCorridorWaypoints pathCoords = Ok out) /\
  (forall out, addCorridorWaypoints pathCoords = Ok out ->
     exists inserted,
       List.length inserted = List.length pathCoords /\
       out = interleave pathCoords inserted /\
       Forall (Forall (fun p => rp_isWaypoint p = Some true)) inserted /\
       last inserted [] = [] /\
       (forall i, (1 < List.length pathCoords)%nat ->
          (i < List.length pathCoords)%nat ->
          waypointsAfter pathCoords i = Ok (nth i inserted [])) /\
       ((List.length pathCoords < 2)%nat -> out = pathCoords)).
Proof.
  split; [apply addCorridorWaypoints_returns|].
  unfold addCorridorWaypoints. intros out.
    destruct (List.length pathCoords <? 2)%nat eqn:Elen.
    + intros [= <-]. apply Nat.ltb_lt in Elen.
      exists (map (fun _ => []) pathCoords).
      rewrite length_map, interleave_nothing. repeat split; auto.
      * apply Forall_forall. intros w Hw. apply in_map_iff in Hw.
        destruct Hw as (? & <- & _). constructor.
      * clear. induction pathCoords as [|p [|q ps] IH]; auto.
      * intros; lia.
    + apply Nat.ltb_ge in Elen.
      match goal with
      | |- bind ?m _ = _ -> _ => destruct m as [rounds| |] eqn:Er
      end; cbn; try discriminate.
      intros [= <-].
      destruct (rounds_interleave pathCoords [] pathCoords rounds eq_refl Er)
        as (ins & Hlen & Hcat & Hall).
      cbn in Hall. exists ins. repeat split; auto.
      * apply Forall_forall. intros w Hw.
        apply (In_nth _ _ []) in Hw. destruct Hw as (j & Hj & <-).
        rewrite Hlen in Hj.
        apply (waypointsAfter_flagged pathCoords j). now apply Hall.
      * assert (Hlast : waypointsAfter pathCoords
                          (List.length pathCoords - 1) = Ok []).
        { apply waypointsAfter_last. lia. }
        rewrite Hall in Hlast by lia. injection Hlast as Hlast.
        rewrite <- Hlen in Hlast.
        destruct ins as [|w ins] using rev_ind; [reflexivity|].
        rewrite last_last. rewrite length_app in Hlast. cbn in Hlast.
        rewrite app_nth2 in Hlast by lia.
        replace (List.length ins + 1 - 1 - List.length ins)%nat with 0%nat
          in Hlast by lia.
        exact Hlast.
      * intros; lia.
Qed.

Lemma addCorridorWaypoints_keeps_path_witness :
  ringsPresent twoRooms /\
  exists out inserted,
    addCorridorWaypoints twoRooms = Ok out /\
    out = interleave twoRooms inserted /\
    Forall (Forall (fun p => rp_isWaypoint p = Some true)) inserted.
Proof.
  assert (Hr : ringsPresent twoRooms).
  { intros p f Hp Hf. destruct Hp as [<-|[<-|[]]]; destruct Hf. }
  split; [exact Hr|].
  destruct (addCorridorWaypoints_keeps_path twoRooms) as [Hret Hshape].
  destruct (Hret Hr) as [out Hout].
  destruct (Hshape out Hout) as (ins & _ & Hil & Hfl & _).
  exists out, ins. auto.
Defined.

(** ** Haversine distance and bearings *)

Import Directions.

Lemma atan2_right (y x : R) : 0 < x -> atan2 y x = atan (y / x).
Proof. intros H. unfold atan2. destruct (Rlt_dec 0 x); tauto. Qed.

Lemma atan2_up (y : R) : 0 < y -> atan2 y 0 = PI / 2.
Proof.
  intros H. unfold atan2.
  destruct (Rlt_dec 0 0); [lra|]. destruct (Rlt_dec 0 y); tauto.
Qed.

Lemma atan2_nonneg (y x : R) : 0 <= y -> 0 <= x -> 0 <= atan2 y x.
Proof.
  intros Hy Hx. unfold atan2.
  destruct (Rlt_dec 0 x) as [Hpos|_].
  - destruct (Req_dec y 0) as [->|Hne].
    + unfold Rdiv. rewrite Rmult_0_l, atan_0. lra.
    + left. rewrite <- atan_0. apply atan_increasing.
      apply Rdiv_lt_0_compat; lra.
  - destruct (Rlt_dec x 0); [lra|].
    destruct (Rlt_dec 0 y); [pose proof PI2_RGT_0; lra|].
    destruct (Rlt_dec y 0); lra.
Qed.

Lemma calculateDistance_nonneg (p q : coord) : 0 <= calculateDistance p q.
Proof.
  unfold calculateDistance. cbv zeta.
  apply Rmult_le_pos; [lra|]. apply Rmult_le_pos; [lra|].
  apply atan2_nonneg; apply sqrt_pos.
Qed.

(** Along a meridian the distance is the arc of the latitude
    difference. *)
Lemma calculateDistance_meridian (lon lat1 lat2 : R) :
  0 <= (lat2 - lat1) * PI / 180 < PI ->
  calculateDistance (lon, lat1) (lon, lat2)
  = 6371000 * ((lat2 - lat1) * PI / 180).
Proof.
  intros Hd. unfold calculateDistance. cbn [fst snd]. cbv zeta.
  set (d := (lat2 - lat1) * PI / 180) in *.
  replace ((lon - lon) * PI / 180 / 2) with 0 by lra.
  rewrite sin_0, !Rmult_0_r, Rplus_0_r.
  assert (Hs : 0 <= sin (d / 2)) by (apply sin_ge_0; lra).
  assert (Hc : 0 < cos (d / 2)) by (apply cos_gt_0; lra).
  replace (sin (d / 2) * sin (d / 2)) with ((sin (d / 2))²) by reflexivity.
  replace (1 - (sin (d / 2))²) with ((cos (d / 2))²)
    by (pose proof (sin2_cos2 (d / 2)); lra).
  rewrite !sqrt_Rsqr by lra.
  rewrite atan2_right by assumption.
  change (sin (d / 2) / cos (d / 2)) with (tan (d / 2)).
  rewrite atan_tan by lra. lra.
Qed.

Lemma degreesOfMetres_arc (m : R) :
  degreesOfMetres m * PI / 180 = m / 6371000.
Proof.
  unfold degreesOfMetres. pose proof PI_RGT_0. field. lra.
Qed.

Lemma calculateDistance_north (lon lat m : R) :
  0 <= m <= 6371000 ->
  calculateDistance (lon, lat) (lon, lat + degreesOfMetres m) = m.
Proof.
  intros Hm.
  assert (E : (lat + degreesOfMetres m - lat) * PI / 180 = m / 6371000).
  { rewrite <- degreesOfMetres_arc. lra. }
  rewrite calculateDistance_meridian; rewrite E.
  - field.
  - pose proof PI2_3_2. lra.
Qed.

(** ** Route statistics *)

Lemma addFloor_In (fl z : Z) (s : list Z) :
  In z (addFloor fl s) <-> z = fl \/ In z s.
Proof.
  unfold addFloor. destruct (existsb (Z.eqb fl) s) eqn:E.
  - apply existsb_exists in E. destruct E as (x & Hx & Hfx).
    apply Z.eqb_eq in Hfx. subst x. intuition congruence.
  - rewrite in_app_iff. cbn. intuition congruence.
Qed.

Lemma addFloor_NoDup (fl : Z) (s : list Z) : NoDup s -> NoDup (addFloor fl s).
Proof.
  intros H. unfold addFloor. destruct (existsb (Z.eqb fl) s) eqn:E; auto.
  apply NoDup_app_remove_l with (l := []). cbn.
  apply Permutation_NoDup with (l := fl :: s).
  - apply Permutation_cons_append.
  - constructor; auto. intros Hin.
    assert (Ht : existsb (Z.eqb fl) s = true)
      by (apply existsb_exists; exists fl; split; auto; apply Z.eqb_refl).
    congruence.
Qed.

Lemma insertAscending_In (x z : Z) (l : list Z) :
  In z (insertAscending x l) <-> z = x \/ In z l.
Proof.
  induction l as [|y l IH]; cbn; [intuition congruence|].
  destruct (x <=? y)%Z; cbn; [intuition congruence|].
  rewrite IH. intuition congruence.
Qed.

Lemma insertAscending_sorted (x : Z) (l : list Z) :
  StronglySorted Z.lt l -> ~ In x l ->
  StronglySorted Z.lt (insertAscending x l).
Proof.
  induction l as [|y l IH]; cbn; intros Hs Hn.
  - repeat constructor.
  - inversion Hs as [|? ? Hs' Hall]; subst.
    destruct (x <=? y)%Z eqn:E.
    + apply Z.leb_le in E. assert (x < y)%Z by lia.
      constructor; [exact Hs|]. constructor; [assumption|].
      eapply Forall_impl; [|exact Hall]. cbn. intros; lia.
    + apply Z.leb_gt in E. constructor; [apply IH; tauto|].
      apply Forall_forall. intros z Hz. apply insertAscending_In in Hz.
      destruct Hz as [->|Hz]; [assumption|].
      rewrite Forall_forall in Hall. now apply Hall.
Qed.

Lemma sortAscending_In (z : Z) (l : list Z) :
  In z (sortAscending l) <-> In z l.
Proof.
  induction l as [|x l IH]; cbn; [tauto|].
  rewrite insertAscending_In, IH. intuition congruence.
Qed.

Lemma sortAscending_sorted (l : list Z) :
  NoDup l -> StronglySorted Z.lt (sortAscending l).
Proof.
  induction 1 as [|x l Hn Hnd IH]; cbn; [constructor|].
  apply insertAscending_sorted; [assumption|]. now rewrite sortAscending_In.
Qed.

Lemma nth_error_middle {A : Type} (pre suf : list A) (a : A) :
  nth_error (pre ++ a :: suf) (List.length pre) = Some a.
Proof.
  rewrite nth_error_app2, Nat.sub_diag by lia. reflexivity.
Qed.

(** The loop of [calculateRouteStats] from the point after [prev] on. *)
Lemma statsStep_fold (routePath : list routePoint) (suf pre : list routePoint)
  (prev : routePoint) (st : sstate) :
  routePath = pre ++ prev :: suf ->
  let st' := fold_left (statsStep routePath)
               (seq (List.length pre + 1) (List.length suf)) st in
  s_total st' = s_total st + total (segmentLengths (prev :: suf)) /\
  s_changes st' = (s_changes st + countChanges (prev :: suf))%nat /\
  s_floors st' =
  fold_left (fun s p => addFloor (rp_floor p) s) suf (s_floors st).
Proof.
  revert pre prev st.
  induction suf as [|c suf IH]; intros pre prev st Hp; cbv zeta;
    cbn [List.length seq].
  - cbn. repeat split; [lra | lia].
  - cbn [fold_left].
    assert (Hc : nth_error routePath (List.length pre + 1) = Some c).
    { rewrite Hp. replace (pre ++ prev :: c :: suf)
        with ((pre ++ [prev]) ++ c :: suf) by now rewrite <- app_assoc.
      replace (List.length pre + 1)%nat with (List.length (pre ++ [prev]))
        by (rewrite length_app; reflexivity).
      apply nth_error_middle. }
    assert (Hv : nth_error routePath (List.length pre + 1 - 1) = Some prev).
    { rewrite Hp, Nat.add_sub. apply nth_error_middle. }
    assert (Hstep : statsStep routePath st (List.length pre + 1) =
              mkSState
                (s_total st +
                 calculateDistance (rp_coords prev) (rp_coords c))
                (addFloor (rp_floor c) (s_floors st))
                (if negb (Z.eqb (rp_floor c) (rp_floor prev))
                 then S (s_changes st) else s_changes st))
      by (unfold statsStep; now rewrite Hc, Hv).
    rewrite Hstep.
    replace (S (List.length pre + 1)) with (List.length pre + 1 + 1)%nat
      by lia.
    specialize (IH (pre ++ [prev]) c).
    rewrite length_app in IH. cbn [List.length] in IH.
    match goal with
    | |- context [fold_left _ _ ?s] => specialize (IH s)
    end.
    cbv zeta in IH.
    destruct IH as (Ht & Hch & Hfl); [now rewrite <- app_assoc|].
    rewrite Ht, Hch, Hfl. cbn [s_total s_changes s_floors].
    unfold segmentLengths, countChanges, pairs, total. cbn.
    destruct (negb (rp_floor c =? rp_floor prev)%Z); cbn;
      repeat split; try lra; lia.
Qed.

Lemma floors_fold_In (z : Z) (suf : list routePoint) (s : list Z) :
  In z (fold_left (fun s p => addFloor (rp_floor p) s) suf s) <->
  In z s \/ In z (map rp_floor suf).
Proof.
  revert s. induction suf as [|c suf IH]; cbn; intros s; [tauto|].
  rewrite IH, addFloor_In. intuition congruence.
Qed.

Lemma floors_fold_NoDup (suf : list routePoint) (s : list Z) :
  NoDup s -> NoDup (fold_left (fun s p => addFloor (rp_floor p) s) suf s).
Proof.
  revert s. induction suf as [|c suf IH]; cbn; intros s H; [assumption|].
  apply IH. now apply addFloor_NoDup.
Qed.

(** The statistics of a path of at least two points, and of two points
    of one floor whose distance is 10. *)
Lemma calculateRouteStats_sums :
  (forall (a b : routePoint) (rest : list routePoint),
     let routePath := a :: b :: rest in
     let stats := calculateRouteStats routePath in
     totalDistance stats = total (segmentLengths routePath) /\
     estimatedTime stats
     = totalDistance stats / 1.4 + INR (floorChanges stats) * 30 /\
     floorChanges stats = countChanges routePath /\
     StronglySorted Z.lt (floors stats) /\
     (forall z, In z (floors stats) <-> In z (map rp_floor routePath))) /\
  (forall a b : routePoint,
     rp_floor a = rp_floor b ->
     calculateDistance (rp_coords a) (rp_coords b) = 10 ->
     let stats := calculateRouteStats [a; b] in
     estimatedTime stats = 10 / 1.4 /\
     Rabs (estimatedTime stats - 7.14) < 0.01 /\
     floorChanges stats = 0%nat /\
     floors stats = [rp_floor a]).
Proof.
  assert (Hgen : forall (a b : routePoint) (rest : list routePoint),
             let routePath := a :: b :: rest in
             let stats := calculateRouteStats routePath in
             totalDistance stats = total (segmentLengths routePath) /\
             estimatedTime stats
             = totalDistance stats / 1.4 + INR (floorChanges stats) * 30 /\
             floorChanges stats = countChanges routePath /\
             StronglySorted Z.lt (floors stats) /\
             (forall z, In z (floors stats) <->
                        In z (map rp_floor routePath))).
  { intros a b rest routePath stats.
    destruct (statsStep_fold routePath (b :: rest) [] a (mkSState 0 [] 0)
                eq_refl) as (Ht & Hc & Hf).
    cbn [List.length Nat.add] in Ht, Hc, Hf.
    cbn [s_total s_changes s_floors] in Ht, Hc, Hf.
    assert (Hlen : (List.length routePath - 1 = S (List.length rest))%nat)
      by (cbn; lia).
    unfold stats, calculateRouteStats. subst routePath.
    cbv zeta. rewrite Hlen.
    cbn [totalDistance estimatedTime floorChanges floors].
    rewrite Ht, Hc, Hf. repeat split; try lra.
    - apply sortAscending_sorted, addFloor_NoDup, floors_fold_NoDup.
      constructor.
    - rewrite sortAscending_In, addFloor_In, floors_fold_In. cbn.
      intuition congruence.
    - rewrite sortAscending_In, addFloor_In, floors_fold_In. cbn.
      intuition congruence. }
  split; [exact Hgen|].
  intros a b Hfl Hd stats.
  destruct (Hgen a b []) as (Ht & He & Hc & _).
  fold stats in Ht, He, Hc.
  assert (Hch : floorChanges stats = 0%nat).
  { rewrite Hc. unfold countChanges, pairs. cbn.
    now rewrite Hfl, Z.eqb_refl. }
  assert (Htime : estimatedTime stats = 10 / 1.4).
  { rewrite He, Ht, Hch. unfold segmentLengths, pairs, total. cbn.
    rewrite Hd. lra. }
  repeat split; auto.
  - rewrite Htime. unfold Rabs. destruct (Rcase_abs _); lra.
  - unfold stats, calculateRouteStats, statsStep, addFloor. cbn.
    now rewrite Hfl, Z.eqb_refl.
Qed.

(** ** Turn classification *)

Lemma lower_spec (n : nat) (d : R) :
  d <= 180 + 360 * INR n ->
  lower n d <= 180 /\
  (d <= 180 -> lower n d = d) /\
  (180 < d -> -180 < lower n d) /\
  exists k : nat, lower n d = d - 360 * INR k.
Proof.
  revert d. induction n as [|n IH]; intros d Hd.
  - cbn in *. repeat split; try lra. exists 0%nat. cbn. lra.
  - rewrite S_INR in Hd. cbn [lower].
    destruct (Rlt_dec 180 d) as [Hgt|Hle].
    + destruct (IH (d - 360)) as (H1 & H2 & H3 & k & Hk); [lra|].
      split; [exact H1|]. split; [intros; lra|]. split.
      * intros _. destruct (Rle_dec (d - 360) 180) as [Hs|Hs].
        -- rewrite H2 by assumption. lra.
        -- apply H3. lra.
      * exists (S k). rewrite S_INR, Hk. lra.
    + repeat split; try lra. exists 0%nat. cbn. lra.
Qed.

Lemma raise_spec (n : nat) (d : R) :
  -180 - 360 * INR n <= d ->
  -180 <= raise n d /\
  (-180 <= d -> raise n d = d) /\
  (d < -180 -> raise n d < 180) /\
  exists k : nat, raise n d = d + 360 * INR k.
Proof.
  revert d. induction n as [|n IH]; intros d Hd.
  - cbn in *. repeat split; try lra. exists 0%nat. cbn. lra.
  - rewrite S_INR in Hd. cbn [raise].
    destruct (Rlt_dec d (-180)) as [Hlt|Hge].
    + destruct (IH (d + 360)) as (H1 & H2 & H3 & k & Hk); [lra|].
      split; [exact H1|]. split; [intros; lra|]. split.
      * intros _. destruct (Rle_dec (-180) (d + 360)) as [Hs|Hs].
        -- rewrite H2 by assumption. lra.
        -- apply H3. lra.
      * exists (S k). rewrite S_INR, Hk. lra.
    + repeat split; try lra. exists 0%nat. cbn. lra.
Qed.

Lemma rounds_enough (d : R) : Rabs d < 360 * INR (rounds d).
Proof.
  unfold rounds.
  assert (Hpos : 0 <= Rabs d / 360)
    by (pose proof (Rabs_pos d); lra).
  destruct (archimed (Rabs d / 360)) as [Hup _].
  rewrite INR_IZR_INZ, Z2Nat.id.
  - lra.
  - apply le_IZR. lra.
Qed.

(** Both normalisation loops run to their exit: the result lies in
    [-180, 180] and differs from the input by a multiple of 360. *)
Lemma normalize_spec (d : R) :
  -180 <= normalize d <= 180 /\
  (-180 <= d <= 180 -> normalize d = d) /\
  exists k : Z, normalize d = d + 360 * IZR k.
Proof.
  pose proof (rounds_enough d) as Hr. unfold normalize.
  assert (Habs : - Rabs d <= d <= Rabs d).
  { unfold Rabs. destruct (Rcase_abs d); lra. }
  destruct (lower_spec (rounds d) d) as (L1 & L2 & L3 & kl & Hkl); [lra|].
  destruct (Rle_dec d 180) as [Hle|Hgt].
  - rewrite L2 by assumption.
    destruct (raise_spec (rounds d) d) as (R1 & R2 & R3 & kr & Hkr); [lra|].
    repeat split; auto.
    + destruct (Rle_dec (-180) d); [rewrite R2; lra|].
      assert (raise (rounds d) d < 180) by (apply R3; lra). lra.
    + intros [? ?]. now apply R2.
    + exists (Z.of_nat kr). now rewrite <- INR_IZR_INZ.
  - assert (Hl : -180 < lower (rounds d) d) by (apply L3; lra).
    destruct (raise_spec (rounds d) (lower (rounds d) d))
      as (_ & R2 & _); [pose proof (pos_INR (rounds d)); lra|].
    rewrite R2 by lra. repeat split; try lra.
    exists (- Z.of_nat kl)%Z. rewrite opp_IZR, <- INR_IZR_INZ, Hkl. lra.
Qed.

Lemma calculateTurn_classes (b1 b2 : R) :
  let diff := normalize (b2 - b1) in
  (calculateTurn b1 b2 = "straight" <-> Rabs diff < 20) /\
  (calculateTurn b1 b2 = "slight right" \/
   calculateTurn b1 b2 = "slight left" <-> 20 <= Rabs diff < 60) /\
  (calculateTurn b1 b2 = "right" \/
   calculateTurn b1 b2 = "left" <-> 60 <= Rabs diff < 120) /\
  (calculateTurn b1 b2 = "sharp right" \/
   calculateTurn b1 b2 = "sharp left" <-> 120 <= Rabs diff < 160) /\
  (calculateTurn b1 b2 = "back" <-> 160 <= Rabs diff).
Proof.
  intros diff. unfold calculateTurn. fold diff.
  destruct (Rlt_dec (Rabs diff) 20);
    [|destruct (Rlt_dec (Rabs diff) 60);
      [|destruct (Rlt_dec (Rabs diff) 120);
        [|destruct (Rlt_dec (Rabs diff) 160)]]];
    try destruct (Rlt_dec 0 diff);
    repeat split;
    try (intros [H|H]; try discriminate H; lra);
    try (intros H; try discriminate H; lra);
    try (intros; try lra;
         first [reflexivity | left; reflexivity | right; reflexivity]);
    try (match goal with
         | H : _ \/ _ |- _ => destruct H as [H|H]; discriminate H
         | H : @eq string _ _ |- _ => discriminate H
         end).
Qed.

(** The wrap-around of the two loops: a difference within [-180, 180]
    is kept, a larger one is lowered and a smaller one raised by whole
    turns until it is. *)
Lemma normalize_wraps (d : R) :
  (180 < d -> -180 < normalize d) /\
  (d < -180 -> normalize d < 180) /\
  (180 < d <= 540 -> normalize d = d - 360) /\
  (-540 <= d < -180 -> normalize d = d + 360).
Proof.
  destruct (normalize_spec d) as (Hrange & _ & k & Hk).
  pose proof (rounds_enough d) as Hr.
  assert (Habs : - Rabs d <= d <= Rabs d).
  { unfold Rabs. destruct (Rcase_abs d); lra. }
  assert (Hup : 180 < d -> -180 < normalize d).
  { intros Hd. unfold normalize.
    destruct (lower_spec (rounds d) d) as (L1 & _ & L3 & _); [lra|].
    specialize (L3 Hd).
    destruct (raise_spec (rounds d) (lower (rounds d) d))
      as (_ & R2 & _); [pose proof (pos_INR (rounds d)); lra|].
    rewrite R2; lra. }
  assert (Hdown : d < -180 -> normalize d < 180).
  { intros Hd. unfold normalize.
    destruct (lower_spec (rounds d) d) as (_ & L2 & _); [lra|].
    rewrite L2 by lra.
    destruct (raise_spec (rounds d) d) as (_ & _ & R3 & _); [lra|].
    now apply R3. }
  split; [exact Hup|]. split; [exact Hdown|]. split; intros Hd.
  - specialize (Hup ltac:(lra)).
    assert (Hlo : (-2 < k)%Z) by (apply lt_IZR; lra).
    assert (Hhi : (k < 0)%Z) by (apply lt_IZR; lra).
    replace k with (-1)%Z in Hk by lia. lra.
  - specialize (Hdown ltac:(lra)).
    assert (Hlo : (0 < k)%Z) by (apply lt_IZR; lra).
    assert (Hhi : (k < 2)%Z) by (apply lt_IZR; lra).
    replace k with 1%Z in Hk by lia. lra.
Qed.

(** The side of a turn is the sign of the normalised difference. *)
Lemma calculateTurn_sides (b1 b2 : R) :
  let diff := normalize (b2 - b1) in
  (calculateTurn b1 b2 = "slight right" <-> 20 <= diff < 60) /\
  (calculateTurn b1 b2 = "slight left" <-> -60 < diff <= -20) /\
  (calculateTurn b1 b2 = "right" <-> 60 <= diff < 120) /\
  (calculateTurn b1 b2 = "left" <-> -120 < diff <= -60) /\
  (calculateTurn b1 b2 = "sharp right" <-> 120 <= diff < 160) /\
  (calculateTurn b1 b2 = "sharp left" <-> -160 < diff <= -120).
Proof.
  intros diff. unfold calculateTurn. fold diff. unfold Rabs.
  destruct (Rcase_abs diff);
    repeat (match goal with
            | |- context [Rlt_dec ?a ?b] => destruct (Rlt_dec a b)
            end);
    repeat split; intros; try lra; try reflexivity; try congruence.
Qed.

(** ** Turn instructions *)

Lemma skipn_exact {A : Type} (l e : list A) :
  skipn (List.length l) (l ++ e) = e.
Proof. induction l as [|a l IH]; cbn; auto. Qed.

Lemma stateBefore_next (routePath : list routePoint) (i : nat) :
  (1 <= i)%nat ->
  stateBefore routePath (i + 1)
  = directionStep routePath (stateBefore routePath i) i
  \/ routePath = [].
Proof.
  intros Hi. destruct routePath as [|first rest]; [now right|]. left.
  unfold stateBefore. rewrite Nat.add_sub.
  replace i with (S (i - 1)) at 1 by lia.
  rewrite seq_S, fold_left_app. cbn [fold_left].
  now replace (1 + (i - 1))%nat with i by lia.
Qed.

(** What a round does to the instruction list when the two points are
    on one floor. *)
Lemma directionStep_same_floor (routePath : list routePoint) (st : dstate)
  (i : nat) (current previous : routePoint) :
  nth_error routePath i = Some current ->
  nth_error routePath (i - 1) = Some previous ->
  rp_floor current = rp_floor previous ->
  let segment :=
    segmentDistance st +
    calculateDistance (rp_coords previous) (rp_coords current) in
  let cumulative :=
    cumulativeDistance st +
    calculateDistance (rp_coords previous) (rp_coords current) in
  let bearing := calculateBearing (rp_coords previous) (rp_coords current) in
  let turned :=
    match previousBearing st with
    | Some previousB =>
        negb (String.eqb (calculateTurn previousB bearing) "straight") &&
        Rltb 3 segment
    | None => false
    end in
  exists passing : list direction,
    Forall (fun d => d_type d = "waypoint") passing /\
    previousBearing (directionStep routePath st i) = Some bearing /\
    directions (directionStep routePath st i) =
    directions st ++
    (if turned
     then [turnDirection (List.length (directions st)) current
             (match previousBearing st with
              | Some previousB => calculateTurn previousB bearing
              | None => ""
              end) segment cumulative]
     else []) ++ passing /\
    ((i <? List.length routePath - 2)%nat = false -> passing = []) /\
    segmentDistance (directionStep routePath st i) =
    match passing with
    | [] => if turned then 0 else segment
    | _ :: _ => 0
    end /\
    cumulativeDistance (directionStep routePath st i) = cumulative.
Proof.
  intros Hc Hp Hfl segment cumulative bearing turned.
  unfold directionStep. rewrite Hc, Hp, Hfl, Z.eqb_refl. cbn [negb].
  fold segment cumulative bearing.
  assert (Hlt : (i <? List.length routePath - 2)%nat = true ->
                (i <? List.length routePath - 1)%nat = true).
  { rewrite !Nat.ltb_lt. lia. }
  subst turned.
  destruct (previousBearing st) as [pb|]; cbn [fst snd];
    try destruct (negb (String.eqb (calculateTurn pb bearing) "straight") &&
                  Rltb 3 segment);
    cbn [fst snd];
    destruct (negb (isCorridor (rp_name current)));
    destruct ((i <? List.length routePath - 1)%nat);
    destruct ((i <? List.length routePath - 2)%nat);
    cbn [andb fst snd];
    try destruct (Rltb 5 0); try destruct (Rltb 5 segment);
    cbn [fst snd directions previousBearing segmentDistance
           cumulativeDistance];
    first [ match goal with
            | |- context [waypointDirection ?n ?c ?s ?u] =>
                exists [waypointDirection n c s u]
            end
          | exists [] ];
    rewrite <- ?app_assoc, ?app_nil_r; cbn [app];
    repeat split; try discriminate; try (intros; congruence);
    repeat constructor.
Qed.

Lemma directionStep_floor_change (routePath : list routePoint) (st : dstate)
  (i : nat) (current previous : routePoint) :
  nth_error routePath i = Some current ->
  nth_error routePath (i - 1) = Some previous ->
  rp_floor current <> rp_floor previous ->
  exists change,
    d_type change = "floor_change" /\
    directions (directionStep routePath st i) = directions st ++ [change] /\
    previousBearing (directionStep routePath st i) = None /\
    segmentDistance (directionStep routePath st i) = 0.
Proof.
  intros Hc Hp Hfl. unfold directionStep. rewrite Hc, Hp.
  apply Z.eqb_neq in Hfl. rewrite Hfl. cbn [negb].
  unfold floorChangeStep. cbn [directions previousBearing segmentDistance].
  eexists. split; [|split; [reflexivity|split; reflexivity]]. reflexivity.
Qed.

Lemma directionStep_extends (routePath : list routePoint) (st : dstate)
  (i : nat) :
  exists emitted,
    directions (directionStep routePath st i) = directions st ++ emitted.
Proof.
  destruct (nth_error routePath i) as [current|] eqn:Hc.
  - destruct (nth_error routePath (i - 1)) as [previous|] eqn:Hp.
    + destruct (Z.eq_dec (rp_floor current) (rp_floor previous)) as [E|E].
      * destruct (directionStep_same_floor routePath st i _ _ Hc Hp E)
          as (passing & _ & _ & Hd & _).
        rewrite Hd. eauto.
      * destruct (directionStep_floor_change routePath st i _ _ Hc Hp E)
          as (change & _ & Hd & _).
        rewrite Hd. eauto.
    + exists []. unfold directionStep. rewrite Hc, Hp. now rewrite app_nil_r.
  - exists []. unfold directionStep. rewrite Hc. now rewrite app_nil_r.
Qed.

Lemma directionStep_emitted (routePath : list routePoint) (i : nat) :
  directions (directionStep routePath (stateBefore routePath i) i)
  = directions (stateBefore routePath i) ++ emittedAt routePath i.
Proof.
  unfold emittedAt.
  destruct (directionStep_extends routePath (stateBefore routePath i) i)
    as [emitted ->].
  now rewrite skipn_exact.
Qed.

Lemma directions_before (first : routePoint) (rest : list routePoint)
  (k : nat) :
  directions (stateBefore (first :: rest) (k + 1))
  = startDirection first ::
    List.concat (map (emittedAt (first :: rest)) (seq 1 k)).
Proof.
  induction k as [|k IH].
  - reflexivity.
  - destruct (stateBefore_next (first :: rest) (k + 1)) as [E|E];
      [lia | | discriminate].
    replace (S k + 1)%nat with (k + 1 + 1)%nat by lia.
    rewrite E, directionStep_emitted, IH, seq_S, map_app, concat_app.
    cbn [map List.concat]. rewrite app_nil_r.
    now replace (1 + k)%nat with (k + 1)%nat by lia.
Qed.

Lemma generateDirections_final (first second : routePoint)
  (rest : list routePoint) :
  let routePath := first :: second :: rest in
  let st := stateBefore routePath (List.length routePath) in
  let lastPoint := last routePath first in
  generateDirections routePath
  = directions st ++
    [mkDirection (List.length (directions st)) "destination"
       ("Arrive at " ++ rp_name lastPoint)%string (rp_floor lastPoint) None
       (segmentDistance st) (cumulativeDistance st) (rp_name lastPoint)
       (rp_coords lastPoint) None (Some IconTarget)].
Proof. reflexivity. Qed.

Lemma generateDirections_rounds (first second : routePoint)
  (rest : list routePoint) :
  let routePath := first :: second :: rest in
  exists destination,
    d_type destination = "destination" /\
    generateDirections routePath
    = startDirection first ::
      List.concat (map (emittedAt routePath)
                     (seq 1 (List.length routePath - 1))) ++
      [destination].
Proof.
  intros routePath. unfold routePath.
  rewrite generateDirections_final. cbv zeta.
  pose proof (directions_before first (second :: rest)
                (List.length (first :: second :: rest) - 1)) as Hd.
  replace (List.length (first :: second :: rest) - 1 + 1)%nat
    with (List.length (first :: second :: rest)) in Hd by (cbn; lia).
  rewrite Hd.
  eexists. split; [|reflexivity]. reflexivity.
Qed.

(** No turn is announced in the first round. *)
Lemma first_round_no_turn (routePath : list routePoint) :
  ~ exists d, In d (emittedAt routePath 1) /\ d_type d = "turn".
Proof.
  intros (d & Hin & Ht).
  destruct (nth_error routePath 1) as [current|] eqn:Hc;
    [destruct (nth_error routePath (1 - 1)) as [previous|] eqn:Hp|].
  - assert (Hnone : previousBearing (stateBefore routePath 1) = None)
      by (destruct routePath; reflexivity).
    destruct (Z.eq_dec (rp_floor current) (rp_floor previous)) as [E|E].
    + destruct (directionStep_same_floor routePath
                  (stateBefore routePath 1) 1 _ _ Hc Hp E)
        as (passing & Hw & _ & Hd & _).
      rewrite directionStep_emitted, Hnone in Hd.
      apply app_inv_head in Hd. cbn [app] in Hd. rewrite Hd in Hin.
      rewrite Forall_forall in Hw. rewrite (Hw d Hin) in Ht. discriminate.
    + destruct (directionStep_floor_change routePath
                  (stateBefore routePath 1) 1 _ _ Hc Hp E)
        as (change & Hty & Hd & _).
      rewrite directionStep_emitted in Hd. apply app_inv_head in Hd.
      rewrite Hd in Hin. destruct Hin as [<-|[]]. congruence.
  - unfold emittedAt, directionStep in Hin. rewrite Hc, Hp in Hin.
    rewrite skipn_all in Hin. destruct Hin.
  - unfold emittedAt, directionStep in Hin. rewrite Hc in Hin.
    rewrite skipn_all in Hin. destruct Hin.
Qed.

(** A later round announces a turn exactly when the two segments that
    meet at its previous point lie on one floor, the turn between their
    bearings is not straight, and more than 3 units were walked since
    the last instruction. *)
Lemma later_round_turn (pre suf : list routePoint) (a b c : routePoint) :
  let routePath := pre ++ a :: b :: c :: suf in
  let i := (List.length pre + 2)%nat in
  (exists d, In d (emittedAt routePath i) /\ d_type d = "turn") <->
  (rp_floor a = rp_floor b /\ rp_floor b = rp_floor c /\
   calculateTurn (calculateBearing (rp_coords a) (rp_coords b))
     (calculateBearing (rp_coords b) (rp_coords c)) <> "straight" /\
   3 < segmentDistance (stateBefore routePath i) +
       calculateDistance (rp_coords b) (rp_coords c)).
Proof.
  intros routePath i.
  assert (Ha : nth_error routePath (List.length pre) = Some a)
    by apply nth_error_middle.
  assert (Hb : nth_error routePath (List.length pre + 1) = Some b).
  { unfold routePath.
    replace (pre ++ a :: b :: c :: suf) with ((pre ++ [a]) ++ b :: c :: suf)
      by now rewrite <- app_assoc.
    replace (List.length pre + 1)%nat with (List.length (pre ++ [a]))
      by (rewrite length_app; reflexivity).
    apply nth_error_middle. }
  assert (Hc : nth_error routePath i = Some c).
  { unfold routePath, i.
    replace (pre ++ a :: b :: c :: suf) with ((pre ++ [a; b]) ++ c :: suf)
      by now rewrite <- app_assoc.
    replace (List.length pre + 2)%nat with (List.length (pre ++ [a; b]))
      by (rewrite length_app; reflexivity).
    apply nth_error_middle. }
  assert (Hb' : nth_error routePath (i - 1) = Some b).
  { unfold i. now replace (List.length pre + 2 - 1)%nat
      with (List.length pre + 1)%nat by lia. }
  assert (Ha' : nth_error routePath (List.length pre + 1 - 1) = Some a)
    by now rewrite Nat.add_sub.
  assert (Hst : stateBefore routePath i
                = directionStep routePath
                    (stateBefore routePath (List.length pre + 1))
                    (List.length pre + 1)).
  { destruct (stateBefore_next routePath (List.length pre + 1)) as [E|E];
      [lia | | ].
    - unfold i. now replace (List.length pre + 2)%nat
        with (List.length pre + 1 + 1)%nat by lia.
    - unfold routePath in E. now destruct pre. }
  (* the bearing left by the round before *)
  assert (Hprev : previousBearing (stateBefore routePath i)
                  = if Z.eq_dec (rp_floor b) (rp_floor a)
                    then Some (calculateBearing (rp_coords a) (rp_coords b))
                    else None).
  { rewrite Hst. destruct (Z.eq_dec (rp_floor b) (rp_floor a)) as [E|E].
    - destruct (directionStep_same_floor routePath
                  (stateBefore routePath (List.length pre + 1))
                  (List.length pre + 1) _ _ Hb Ha' E) as (_ & _ & Hpb & _).
      exact Hpb.
    - destruct (directionStep_floor_change routePath
                  (stateBefore routePath (List.length pre + 1))
                  (List.length pre + 1) _ _ Hb Ha' E) as (_ & _ & _ & Hpb & _).
      exact Hpb. }
  destruct (Z.eq_dec (rp_floor c) (rp_floor b)) as [Ecb|Ecb].
  - destruct (directionStep_same_floor routePath (stateBefore routePath i)
                i _ _ Hc Hb' Ecb) as (passing & Hw & _ & Hd & _).
    rewrite directionStep_emitted in Hd. apply app_inv_head in Hd.
    rewrite Hd, Hprev. clear Hd.
    assert (Hpass : forall d, In d passing -> d_type d <> "turn").
    { intros d Hin. rewrite Forall_forall in Hw. rewrite (Hw d Hin).
      discriminate. }
    destruct (Z.eq_dec (rp_floor b) (rp_floor a)) as [Eba|Eba].
    + destruct (negb (String.eqb _ "straight")) eqn:Es; cbn [andb].
      * apply negb_true_iff, String.eqb_neq in Es.
        destruct (Rltb 3 _) eqn:E3.
        -- apply Rltb_true in E3. split; [intros _; repeat split; auto|].
           intros _. eexists. split; [left; reflexivity | reflexivity].
        -- apply Rltb_false in E3. split.
           ++ intros (d & Hin & Ht). cbn [app] in Hin.
              now apply Hpass in Hin.
           ++ tauto.
      * apply negb_false_iff, String.eqb_eq in Es. split.
        -- intros (d & Hin & Ht). cbn [app] in Hin. now apply Hpass in Hin.
        -- tauto.
    + split.
      * intros (d & Hin & Ht). cbn [app] in Hin. now apply Hpass in Hin.
      * intros (E & _). congruence.
  - destruct (directionStep_floor_change routePath (stateBefore routePath i)
                i _ _ Hc Hb' Ecb) as (change & Hty & Hd & _).
    rewrite directionStep_emitted in Hd. apply app_inv_head in Hd.
    rewrite Hd. split.
    + intros (d & [<-|[]] & Ht). congruence.
    + intros (_ & E & _). congruence.
Qed.

(** What a round emits, and what it does to the two distances. *)
Lemma directionStep_emits (routePath : list routePoint) (st : dstate)
  (i : nat) (current previous : routePoint) :
  nth_error routePath i = Some current ->
  nth_error routePath (i - 1) = Some previous ->
  let leg := calculateDistance (rp_coords previous) (rp_coords current) in
  let st' := directionStep routePath st i in
  cumulativeDistance st' = cumulativeDistance st + leg /\
  ((directions st' = directions st /\
    segmentDistance st' = segmentDistance st + leg /\
    rp_floor current = rp_floor previous) \/
   exists d,
     directions st' = directions st ++ [d] /\
     segmentDistance st' = 0 /\
     d_id d = List.length (directions st) /\
     d_distance d = segmentDistance st + leg /\
     d_cumulativeDistance d = cumulativeDistance st + leg /\
     ((rp_floor current <> rp_floor previous /\
       d_type d = "floor_change" /\ d_floor d = rp_floor previous /\
       d_targetFloor d = Some (rp_floor current)) \/
      (rp_floor current = rp_floor previous /\
       (d_type d = "turn" \/ d_type d = "waypoint") /\
       isFloorChange d = false))).
Proof.
  intros Hc Hp leg st'. unfold st', directionStep. rewrite Hc, Hp.
  cbv zeta. fold leg.
  assert (H50 : Rltb 5 0 = false) by (apply Rltb_false; lra).
  destruct (Z.eqb (rp_floor current) (rp_floor previous)) eqn:Ef;
    cbn [negb].
  2: { apply Z.eqb_neq in Ef. unfold floorChangeStep.
       cbn [cumulativeDistance directions segmentDistance].
       split; [reflexivity|]. right. eexists. split; [reflexivity|].
       cbn. repeat split; auto. }
  apply Z.eqb_eq in Ef.
  cbn [cumulativeDistance directions segmentDistance].
  split; [reflexivity|].
  destruct (previousBearing st) as [previousB|].
  - destruct (negb (String.eqb _ "straight") && Rltb 3 _); cbn [fst snd].
    + rewrite H50, andb_false_r.
      destruct (negb (Directions.isCorridor (rp_name current)) && _);
        right; eexists; (split; [reflexivity|]); cbn;
        repeat split; auto.
    + destruct (negb (Directions.isCorridor (rp_name current)) && _).
      * destruct ((i <? _)%nat && Rltb 5 _); cbn [fst snd].
        -- right. eexists. split; [reflexivity|]. cbn. repeat split; auto.
        -- left. auto.
      * left. auto.
  - cbn [fst snd].
    destruct (negb (Directions.isCorridor (rp_name current)) && _).
    + destruct ((i <? _)%nat && Rltb 5 _); cbn [fst snd].
      * right. eexists. split; [reflexivity|]. cbn. repeat split; auto.
      * left. auto.
    + left. auto.
Qed.

Lemma lastInstruction_next (routePath : list routePoint) (i : nat) :
  (1 <= i)%nat ->
  lastInstruction routePath (i + 1)
  = if emits routePath i then i else lastInstruction routePath i.
Proof.
  intros Hi. unfold lastInstruction. rewrite Nat.add_sub.
  replace i with (S (i - 1)) at 1 by lia.
  rewrite seq_S, rev_app_distr. cbn [rev app find].
  replace (1 + (i - 1))%nat with i by lia.
  now destruct (emits routePath i).
Qed.

Lemma lastInstruction_before (routePath : list routePoint) (i : nat) :
  (1 <= i)%nat -> (lastInstruction routePath i < i)%nat.
Proof.
  intros Hi. unfold lastInstruction.
  destruct (find _ _) as [j|] eqn:E; [|lia].
  apply find_some in E as (Hin & _). apply in_rev, in_seq in Hin. lia.
Qed.

Lemma sum_snoc (l : list R) (x : R) :
  fold_left Rplus (l ++ [x]) 0 = fold_left Rplus l 0 + x.
Proof. now rewrite fold_left_app. Qed.

(** The segment distance when a round begins is the length of the legs
    walked since the last instruction. *)
Lemma segment_since_instruction (first : routePoint)
  (rest : list routePoint) (i : nat) :
  let routePath := first :: rest in
  (1 <= i)%nat ->
  segmentDistance (stateBefore routePath i)
  = walkedBetween routePath (lastInstruction routePath i) (i - 1).
Proof.
  intros routePath Hi. unfold walkedBetween.
  replace i with (S (i - 1)) by lia. generalize (i - 1)%nat as k. clear.
  induction k as [|k IH].
  - reflexivity.
  - destruct (stateBefore_next routePath (S k)) as [E|E];
      [lia | | discriminate].
    replace (S k + 1)%nat with (S (S k)) in E by lia. rewrite E.
    pose proof (lastInstruction_next routePath (S k) ltac:(lia)) as HL.
    replace (S k + 1)%nat with (S (S k)) in HL by lia.
    pose proof (lastInstruction_before routePath (S k) ltac:(lia)) as Hlt.
    pose proof (directionStep_emitted routePath (S k)) as Hem.
    unfold emits in HL.
    destruct (nth_error routePath (S k)) as [current|] eqn:Hc;
      [destruct (nth_error routePath (S k - 1)) as [previous|] eqn:Hp|].
    + destruct (directionStep_emits routePath (stateBefore routePath (S k))
                  (S k) current previous Hc Hp)
        as (_ & [(Hd & Hs & _)|(d & Hd & Hs & _)]).
      * rewrite Hd in Hem. rewrite <- (app_nil_r (directions _)) in Hem at 1.
        apply app_inv_head in Hem. rewrite <- Hem in HL. cbn in HL.
        rewrite HL, Hs, IH.
        replace (S (S k) - 1 - lastInstruction routePath (S k))%nat
          with (S (S k - 1 - lastInstruction routePath (S k))) by lia.
        rewrite seq_S, map_app. cbn [map]. rewrite sum_snoc. f_equal.
        replace (lastInstruction routePath (S k) + 1 +
                 (S k - 1 - lastInstruction routePath (S k)))%nat
          with (S k) by lia.
        unfold legLength. now rewrite Hc, Hp.
      * rewrite Hd in Hem. apply app_inv_head in Hem.
        rewrite <- Hem in HL. cbn in HL. rewrite HL, Hs.
        now replace (S (S k) - 1 - S k)%nat with 0%nat by lia.
    + assert (Hst : directionStep routePath (stateBefore routePath (S k)) (S k)
                    = stateBefore routePath (S k))
        by (unfold directionStep; now rewrite Hc, Hp).
      rewrite Hst in Hem |- *.
      rewrite <- (app_nil_r (directions _)) in Hem at 1.
      apply app_inv_head in Hem. rewrite <- Hem in HL. cbn in HL.
      rewrite HL, IH.
      replace (S (S k) - 1 - lastInstruction routePath (S k))%nat
        with (S (S k - 1 - lastInstruction routePath (S k))) by lia.
      rewrite seq_S, map_app. cbn [map]. rewrite sum_snoc.
      replace (lastInstruction routePath (S k) + 1 +
               (S k - 1 - lastInstruction routePath (S k)))%nat
        with (S k) by lia.
      assert (Hleg : legLength routePath (S k) = 0)
        by (unfold legLength; now rewrite Hc, Hp).
      rewrite Hleg. lra.
    + assert (Hst : directionStep routePath (stateBefore routePath (S k)) (S k)
                    = stateBefore routePath (S k))
        by (unfold directionStep; now rewrite Hc).
      rewrite Hst in Hem |- *.
      rewrite <- (app_nil_r (directions _)) in Hem at 1.
      apply app_inv_head in Hem. rewrite <- Hem in HL. cbn in HL.
      rewrite HL, IH.
      replace (S (S k) - 1 - lastInstruction routePath (S k))%nat
        with (S (S k - 1 - lastInstruction routePath (S k))) by lia.
      rewrite seq_S, map_app. cbn [map]. rewrite sum_snoc.
      replace (lastInstruction routePath (S k) + 1 +
               (S k - 1 - lastInstruction routePath (S k)))%nat
        with (S k) by lia.
      assert (Hleg : legLength routePath (S k) = 0)
        by (unfold legLength; now rewrite Hc).
      rewrite Hleg. lra.
Qed.

Lemma walked_since_instruction (first : routePoint) (rest : list routePoint)
  (i : nat) :
  let routePath := first :: rest in
  (1 <= i)%nat ->
  walkedSinceInstruction routePath i
  = segmentDistance (stateBefore routePath i) + legLength routePath i.
Proof.
  intros routePath Hi. unfold walkedSinceInstruction.
  pose proof (lastInstruction_before routePath i Hi) as Hlt.
  pose proof (segment_since_instruction first rest i Hi) as Hs.
  cbv zeta in Hs. fold routePath in Hs. rewrite Hs. unfold walkedBetween.
  replace (i - lastInstruction routePath i)%nat
    with (S (i - 1 - lastInstruction routePath i)) by lia.
  rewrite seq_S, map_app. cbn [map]. rewrite sum_snoc. do 2 f_equal. lia.
Qed.

Lemma nth_error_run (pre suf : list routePoint) (a b c : routePoint) :
  let routePath := pre ++ a :: b :: c :: suf in
  nth_error routePath (List.length pre) = Some a /\
  nth_error routePath (List.length pre + 1) = Some b /\
  nth_error routePath (List.length pre + 2) = Some c.
Proof.
  intros routePath. split; [apply nth_error_middle|]. split.
  - unfold routePath.
    replace (pre ++ a :: b :: c :: suf) with ((pre ++ [a]) ++ b :: c :: suf)
      by now rewrite <- app_assoc.
    replace (List.length pre + 1)%nat with (List.length (pre ++ [a]))
      by (rewrite length_app; reflexivity).
    apply nth_error_middle.
  - unfold routePath.
    replace (pre ++ a :: b :: c :: suf) with ((pre ++ [a; b]) ++ c :: suf)
      by now rewrite <- app_assoc.
    replace (List.length pre + 2)%nat with (List.length (pre ++ [a; b]))
      by (rewrite length_app; reflexivity).
    apply nth_error_middle.
Qed.

(** The distance that round [i] compares with 3 is the distance walked
    since the last instruction. *)
Lemma walked_at_round (pre suf : list routePoint) (a b c : routePoint) :
  let routePath := pre ++ a :: b :: c :: suf in
  let i := (List.length pre + 2)%nat in
  walkedSinceInstruction routePath i
  = segmentDistance (stateBefore routePath i) +
    calculateDistance (rp_coords b) (rp_coords c).
Proof.
  intros routePath i.
  destruct (nth_error_run pre suf a b c) as (_ & Hb & Hc).
  fold routePath i in Hb, Hc.
  assert (Hleg : legLength routePath i
                 = calculateDistance (rp_coords b) (rp_coords c)).
  { unfold legLength. rewrite Hc.
    replace (i - 1)%nat with (List.length pre + 1)%nat by (unfold i; lia).
    now rewrite Hb. }
  rewrite <- Hleg.
  assert (Hne : exists first rest, routePath = first :: rest)
    by (unfold routePath; destruct pre; cbn; eauto).
  destruct Hne as (first & rest & E). rewrite E.
  apply (walked_since_instruction first rest i). unfold i. lia.
Qed.

(** What a turn instruction says. *)
Lemma later_round_turn_fields (pre suf : list routePoint)
  (a b c : routePoint) (d : direction) :
  let routePath := pre ++ a :: b :: c :: suf in
  let i := (List.length pre + 2)%nat in
  In d (emittedAt routePath i) -> d_type d = "turn" ->
  d_turn d = Some (calculateTurn
                     (calculateBearing (rp_coords a) (rp_coords b))
                     (calculateBearing (rp_coords b) (rp_coords c))) /\
  d_distance d = walkedSinceInstruction routePath i /\
  d_location d = rp_name c /\ d_floor d = rp_floor c /\
  d_coords d = rp_coords c.
Proof.
  intros routePath i Hin Hty.
  destruct (proj1 (later_round_turn pre suf a b c)) as (Hab & Hbc & _);
    [exists d; auto|].
  destruct (nth_error_run pre suf a b c) as (Ha & Hb & Hc).
  fold routePath i in Ha, Hb, Hc.
  assert (Hb' : nth_error routePath (i - 1) = Some b).
  { unfold i. now replace (List.length pre + 2 - 1)%nat
      with (List.length pre + 1)%nat by lia. }
  assert (Ha' : nth_error routePath (List.length pre + 1 - 1) = Some a)
    by now rewrite Nat.add_sub.
  assert (Hst : stateBefore routePath i
                = directionStep routePath
                    (stateBefore routePath (List.length pre + 1))
                    (List.length pre + 1)).
  { destruct (stateBefore_next routePath (List.length pre + 1)) as [E|E];
      [lia | | ].
    - unfold i. now replace (List.length pre + 2)%nat
        with (List.length pre + 1 + 1)%nat by lia.
    - unfold routePath in E. now destruct pre. }
  assert (Hprev : previousBearing (stateBefore routePath i)
                  = Some (calculateBearing (rp_coords a) (rp_coords b))).
  { rewrite Hst.
    destruct (directionStep_same_floor routePath
                (stateBefore routePath (List.length pre + 1))
                (List.length pre + 1) _ _ Hb Ha' (eq_sym Hab))
      as (_ & _ & Hpb & _).
    exact Hpb. }
  destruct (directionStep_same_floor routePath (stateBefore routePath i)
              i _ _ Hc Hb' (eq_sym Hbc)) as (passing & Hw & _ & Hd & _).
  rewrite directionStep_emitted in Hd. apply app_inv_head in Hd.
  rewrite Hd, Hprev in Hin. clear Hd.
  pose proof (walked_at_round pre suf a b c) as Hwalk.
  cbv zeta in Hwalk. fold routePath i in Hwalk.
  apply in_app_or in Hin as [Hin|Hin].
  - destruct (negb _ && Rltb 3 _); [|destruct Hin].
    destruct Hin as [<-|[]]. cbn [turnDirection d_turn d_distance d_location
                                   d_floor d_coords].
    rewrite Hwalk. auto.
  - rewrite Forall_forall in Hw. rewrite (Hw d Hin) in Hty. discriminate.
Qed.

(** C8: the turn between two bearings is classified by their signed
    difference, brought into [-180, 180] by whole turns (a difference
    above 180 is lowered by 360, one below -180 raised by 360): straight
    when its absolute value is below 20, slight from 20 to below 60, a
    plain turn from 60 to below 120, sharp from 120 to below 160, back
    from 160 on, to the right when the difference is positive and to
    the left otherwise.  The instruction list is the start, the
    instructions of the rounds in order, and the destination.  The
    first round announces no turn; a later round announces one exactly
    when the two segments meeting at its previous point lie on one
    floor, their turn is not straight and the distance walked since the
    last instruction, the legs from the point of that instruction
    added up, exceeds 3; the instruction then names that turn and that
    distance.  A three-point path on one floor with a 90 degree change
    of bearing and more than 3 units of length yields the start, one
    plain turn and the destination. *)
Theorem turn_instructions :
  (forall b1 b2 : R,
     let diff := normalize (b2 - b1) in
     -180 <= diff <= 180 /\
     (calculateTurn b1 b2 = "straight" <-> Rabs diff < 20) /\
     (calculateTurn b1 b2 = "slight right" \/
      calculateTurn b1 b2 = "slight left" <-> 20 <= Rabs diff < 60) /\
     (calculateTurn b1 b2 = "right" \/
      calculateTurn b1 b2 = "left" <-> 60 <= Rabs diff < 120) /\
     (calculateTurn b1 b2 = "sharp right" \/
      calculateTurn b1 b2 = "sharp left" <-> 120 <= Rabs diff < 160) /\
     (calculateTurn b1 b2 = "back" <-> 160 <= Rabs diff)) /\
  (forall b1 b2 : R,
     let delta := b2 - b1 in
     let diff := normalize delta in
     (exists k : Z, diff = delta + 360 * IZR k) /\
     (-180 <= delta <= 180 -> diff = delta) /\
     (180 < delta -> -180 < diff) /\
     (delta < -180 -> diff < 180) /\
     (180 < delta <= 540 -> diff = delta - 360) /\
     (-540 <= delta < -180 -> diff = delta + 360) /\
     (calculateTurn b1 b2 = "slight right" <-> 20 <= diff < 60) /\
     (calculateTurn b1 b2 = "slight left" <-> -60 < diff <= -20) /\
     (calculateTurn b1 b2 = "right" <-> 60 <= diff < 120) /\
     (calculateTurn b1 b2 = "left" <-> -120 < diff <= -60) /\
     (calculateTurn b1 b2 = "sharp right" <-> 120 <= diff < 160) /\
     (calculateTurn b1 b2 = "sharp left" <-> -160 < diff <= -120)) /\
  (forall (first second : routePoint) (rest : list routePoint),
     let routePath := first :: second :: rest in
     exists destination,
       d_type destination = "destination" /\
       generateDirections routePath
       = startDirection first ::
         List.concat (map (emittedAt routePath)
                        (seq 1 (List.length routePath - 1))) ++
         [destination]) /\
  (forall routePath : list routePoint,
     ~ exists d, In d (emittedAt routePath 1) /\ d_type d = "turn") /\
  (forall (pre suf : list routePoint) (a b c : routePoint),
     let routePath := pre ++ a :: b :: c :: suf in
     let i := (List.length pre + 2)%nat in
     let turn :=
       calculateTurn (calculateBearing (rp_coords a) (rp_coords b))
         (calculateBearing (rp_coords b) (rp_coords c)) in
     ((exists d, In d (emittedAt routePath i) /\ d_type d = "turn") <->
      (rp_floor a = rp_floor b /\ rp_floor b = rp_floor c /\
       turn <> "straight" /\
       3 < walkedSinceInstruction routePath i)) /\
     (forall d, In d (emittedAt routePath i) -> d_type d = "turn" ->
        d_turn d = Some turn /\
        d_distance d = walkedSinceInstruction routePath i /\
        d_location d = rp_name c /\ d_floor d = rp_floor c /\
        d_coords d = rp_coords c)) /\
  (forall a b c : routePoint,
     rp_floor a = rp_floor b -> rp_floor b = rp_floor c ->
     Rabs (normalize (calculateBearing (rp_coords b) (rp_coords c) -
                      calculateBearing (rp_coords a) (rp_coords b))) = 90 ->
     3 < calculateDistance (rp_coords a) (rp_coords b) +
         calculateDistance (rp_coords b) (rp_coords c) ->
     exists turn destination,
       generateDirections [a; b; c] = [startDirection a; turn; destination] /\
       d_type turn = "turn" /\ d_type destination = "destination" /\
       (d_turn turn = Some "right" \/ d_turn turn = Some "left")).
Proof.
  split; [|split; [|split; [|split; [|split]]]].
  - intros b1 b2 diff. split; [apply normalize_spec|].
    apply calculateTurn_classes.
  - intros b1 b2 delta diff.
    destruct (normalize_spec delta) as (_ & Hid & Hk).
    destruct (normalize_wraps delta) as (Hup & Hdown & Hlow & Hraise).
    split; [exact Hk|]. split; [exact Hid|]. split; [exact Hup|].
    split; [exact Hdown|]. split; [exact Hlow|]. split; [exact Hraise|].
    apply calculateTurn_sides.
  - apply generateDirections_rounds.
  - apply first_round_no_turn.
  - intros pre suf a b c routePath i turn. split.
    + unfold routePath, i. rewrite walked_at_round. apply later_round_turn.
    + intros d. apply later_round_turn_fields.
  - intros a b c Hab Hbc Hangle Hlen.
    destruct (generateDirections_rounds a b [c]) as (dest & Hdest & Hgen).
    cbv zeta in Hgen. cbn [List.length Nat.sub seq map List.concat] in Hgen.
    rewrite app_nil_r in Hgen.
    set (routePath := [a; b; c]) in *.
    (* round 1 *)
    assert (H1 : stateBefore routePath 1
                 = mkDState [startDirection a] 0 None 0) by reflexivity.
    destruct (directionStep_same_floor routePath (stateBefore routePath 1) 1
                b a eq_refl eq_refl (eq_sym Hab))
      as (pass1 & _ & Hpb1 & Hd1 & Hp1 & Hs1 & _).
    specialize (Hp1 eq_refl). subst pass1.
    rewrite H1 in Hd1, Hs1. cbn [previousBearing directions segmentDistance]
      in Hd1, Hs1.
    rewrite <- H1 in Hd1, Hs1.
    assert (He1 : emittedAt routePath 1 = []).
    { unfold emittedAt. rewrite Hd1, H1. reflexivity. }
    (* round 2 *)
    assert (H2 : stateBefore routePath 2
                 = directionStep routePath (stateBefore routePath 1) 1)
      by reflexivity.
    destruct (directionStep_same_floor routePath (stateBefore routePath 2) 2
                c b eq_refl eq_refl (eq_sym Hbc))
      as (pass2 & _ & _ & Hd2 & Hp2 & _).
    specialize (Hp2 eq_refl). subst pass2.
    rewrite directionStep_emitted in Hd2. apply app_inv_head in Hd2.
    rewrite app_nil_r in Hd2.
    assert (Hpb2 : previousBearing (stateBefore routePath 2)
                   = Some (calculateBearing (rp_coords a) (rp_coords b)))
      by (rewrite H2; exact Hpb1).
    assert (Hs2 : segmentDistance (stateBefore routePath 2)
                  = 0 + calculateDistance (rp_coords a) (rp_coords b))
      by (rewrite H2; exact Hs1).
    rewrite Hpb2, Hs2 in Hd2.
    destruct (calculateTurn_classes
                (calculateBearing (rp_coords a) (rp_coords b))
                (calculateBearing (rp_coords b) (rp_coords c)))
      as (Hstraight & _ & Hplain & _).
    assert (Hturn : calculateTurn
                      (calculateBearing (rp_coords a) (rp_coords b))
                      (calculateBearing (rp_coords b) (rp_coords c))
                    = "right" \/
                    calculateTurn
                      (calculateBearing (rp_coords a) (rp_coords b))
                      (calculateBearing (rp_coords b) (rp_coords c))
                    = "left")
      by (apply Hplain; rewrite Hangle; lra).
    assert (Hns : negb (String.eqb
                          (calculateTurn
                             (calculateBearing (rp_coords a) (rp_coords b))
                             (calculateBearing (rp_coords b) (rp_coords c)))
                          "straight") = true)
      by (destruct Hturn as [-> | ->]; reflexivity).
    assert (H3 : Rltb 3 (0 + calculateDistance (rp_coords a) (rp_coords b) +
                         calculateDistance (rp_coords b) (rp_coords c))
                 = true) by (apply Rltb_true; lra).
    rewrite Hns, H3 in Hd2. cbn [andb] in Hd2.
    rewrite He1, Hd2 in Hgen. cbn [app] in Hgen.
    eexists. exists dest. split; [exact Hgen|].
    split; [reflexivity|]. split; [exact Hdest|].
    cbn [turnDirection d_turn]. destruct Hturn as [-> | ->]; auto.
Qed.

Lemma truncate_between (r : R) (z : Z) :
  0 <= r -> IZR z <= r < IZR z + 1 -> truncate r = z.
Proof.
  intros Hr Hz. unfold truncate.
  destruct (Rle_dec 0 r); [|tauto].
  symmetry. apply Int_part_spec. lra.
Qed.

Lemma remainder_360 : remainder 360 360 = 0.
Proof.
  unfold remainder. rewrite (truncate_between (360 / 360) 1); lra.
Qed.

Lemma remainder_450 : remainder 450 360 = 90.
Proof.
  unfold remainder. rewrite (truncate_between (450 / 360) 1); lra.
Qed.

(** Eastwards along the equator the bearing is 90 degrees. *)
Lemma calculateBearing_east (c : R) :
  0 < c * PI / 180 < PI -> calculateBearing (0, 0) (c, 0) = 90.
Proof.
  intros Hc. unfold calculateBearing. cbn [fst snd]. cbv zeta.
  replace (0 * PI / 180) with 0 by lra.
  replace ((c - 0) * PI / 180) with (c * PI / 180) by lra.
  rewrite sin_0, cos_0.
  replace (1 * 0 - 0 * 1 * cos (c * PI / 180)) with 0 by lra.
  assert (Hs : 0 < sin (c * PI / 180)) by (apply sin_gt_0; lra).
  rewrite atan2_up by lra.
  replace (PI / 2 * 180 / PI + 360) with 450
    by (pose proof PI_RGT_0; field; lra).
  apply remainder_450.
Qed.

(** Northwards from the equator the bearing is 0 degrees. *)
Lemma calculateBearing_north (lon lat : R) :
  0 < lat * PI / 180 < PI -> calculateBearing (lon, 0) (lon, lat) = 0.
Proof.
  intros Hl. unfold calculateBearing. cbn [fst snd]. cbv zeta.
  replace (0 * PI / 180) with 0 by lra.
  replace ((lon - lon) * PI / 180) with 0 by lra.
  rewrite sin_0, cos_0.
  replace (1 * sin (lat * PI / 180) - 0 * cos (lat * PI / 180) * 1)
    with (sin (lat * PI / 180)) by lra.
  replace (0 * cos (lat * PI / 180)) with 0 by lra.
  assert (Hs : 0 < sin (lat * PI / 180)) by (apply sin_gt_0; lra).
  rewrite atan2_right by assumption.
  replace (0 / sin (lat * PI / 180)) with 0 by (field; lra).
  rewrite atan_0.
  replace (0 * 180 / PI + 360) with 360
    by (pose proof PI_RGT_0; field; lra).
  apply remainder_360.
Qed.

Lemma turn_instructions_witness :
  exists turn destination,
    generateDirections eastThenNorth
    = [startDirection (mkRoutePoint (0, 0) 1 "A" [] None None); turn;
       destination] /\
    d_type turn = "turn" /\ d_type destination = "destination" /\
    (d_turn turn = Some "right" \/ d_turn turn = Some "left").
Proof.
  assert (Harc : 0 < degreesOfMetres 10 * PI / 180 < PI).
  { rewrite degreesOfMetres_arc. pose proof PI2_3_2. lra. }
  assert (Hb1 : calculateBearing (0, 0) (degreesOfMetres 10, 0) = 90)
    by (apply calculateBearing_east; exact Harc).
  assert (Hb2 : calculateBearing (degreesOfMetres 10, 0)
                  (degreesOfMetres 10, 0 + degreesOfMetres 10) = 0).
  { apply calculateBearing_north. now rewrite Rplus_0_l. }
  assert (Hd2 : calculateDistance (degreesOfMetres 10, 0)
                  (degreesOfMetres 10, 0 + degreesOfMetres 10) = 10)
    by (apply calculateDistance_north; lra).
  apply (proj2 (proj2 (proj2 (proj2 (proj2 turn_instructions))))).
  - reflexivity.
  - reflexivity.
  - cbn [rp_coords]. rewrite Hb1, Hb2.
    destruct (normalize_spec (0 - 90)) as (_ & Hid & _).
    rewrite Hid by lra. rewrite Rabs_left; lra.
  - cbn [rp_coords]. rewrite Hd2.
    pose proof (calculateDistance_nonneg (0, 0) (degreesOfMetres 10, 0)).
    lra.
Defined.

(** ** A* search: termination *)

Lemma set_has_In (k : string) (s : JsSet.t) :
  JsSet.has k s = true <-> In k s.
Proof.
  unfold JsSet.has. rewrite existsb_exists. split.
  - intros (x & Hx & E). apply String.eqb_eq in E. now subst.
  - intros H. exists k. split; [assumption | apply String.eqb_refl].
Qed.

Lemma set_has_false (k : string) (s : JsSet.t) :
  JsSet.has k s = false <-> ~ In k s.
Proof.
  rewrite <- set_has_In. destruct (JsSet.has k s); intuition congruence.
Qed.

Lemma set_add_In (k x : string) (s : JsSet.t) :
  In x (JsSet.add k s) <-> x = k \/ In x s.
Proof.
  unfold JsSet.add. destruct (JsSet.has k s) eqn:E.
  - apply set_has_In in E. intuition congruence.
  - rewrite in_app_iff. cbn. intuition congruence.
Qed.

Lemma set_add_new (k : string) (s : JsSet.t) :
  ~ In k s -> JsSet.add k s = s ++ [k].
Proof.
  intros H. apply set_has_false in H. unfold JsSet.add. now rewrite H.
Qed.

Lemma set_delete_In (k x : string) (s : JsSet.t) :
  In x (JsSet.delete k s) <-> In x s /\ x <> k.
Proof.
  unfold JsSet.delete. rewrite filter_In, negb_true_iff, String.eqb_neq.
  intuition congruence.
Qed.

Lemma before_snoc {A : Type} (u v c : A) (l : list A) :
  before u v l -> before u v (l ++ [c]).
Proof.
  intros (l1 & l2 & l3 & ->). exists l1, l2, (l3 ++ [c]).
  repeat (rewrite <- app_assoc; cbn [app]). reflexivity.
Qed.

Lemma before_last {A : Type} (u c : A) (l : list A) :
  In u l -> before u c (l ++ [c]).
Proof.
  intros H. apply in_split in H. destruct H as (l1 & l2 & ->).
  exists l1, l2, []. repeat (rewrite <- app_assoc; cbn [app]). reflexivity.
Qed.

Lemma NoDup_position {A : Type} (v : A) (l1 l2 m1 m2 : list A) :
  NoDup (l1 ++ v :: l2) -> l1 ++ v :: l2 = m1 ++ v :: m2 -> l1 = m1.
Proof.
  revert m1. induction l1 as [|a l1 IH]; intros [|b m1] Hnd E; cbn in *.
  - reflexivity.
  - injection E as -> E. exfalso. inversion Hnd as [|? ? Hn _]; subst.
    apply Hn. apply in_or_app. right. now left.
  - injection E as <- E. exfalso. inversion Hnd as [|? ? Hn _]; subst.
    apply Hn. apply in_or_app. right. now left.
  - injection E as <- E. inversion Hnd; subst. f_equal. now apply IH.
Qed.

(** The scan for the lowest f-score returns an open node whose score is
    finite and not above any other. *)
Lemma pickLowest_spec (scores : JsMap.t R) (open : JsSet.t) :
  match pickLowest scores open with
  | (None, low) =>
      low = Infinity /\
      forall k, In k open -> fOrInfinity scores k = Infinity
  | (Some c, low) =>
      In c open /\ low = fOrInfinity scores c /\
      (exists r, low = Fin r) /\
      forall k, In k open -> ext_ltb (fOrInfinity scores k) low = false
  end.
Proof.
  unfold pickLowest.
  set (good := fun (seen : list string) (acc : option string * ext) =>
                 match acc with
                 | (None, low) =>
                     low = Infinity /\
                     forall k, In k seen -> fOrInfinity scores k = Infinity
                 | (Some c, low) =>
                     In c seen /\ low = fOrInfinity scores c /\
                     (exists r, low = Fin r) /\
                     forall k, In k seen ->
                       ext_ltb (fOrInfinity scores k) low = false
                 end).
  assert (H : forall rest seen acc,
             good seen acc ->
             good (seen ++ rest)
               (fold_left
                  (fun (acc : option string * ext) key =>
                     let f := fOrInfinity scores key in
                     if ext_ltb f (snd acc) then (Some key, f) else acc)
                  rest acc)).
  { induction rest as [|k rest IH]; intros seen acc Hg; cbn [fold_left].
    - now rewrite app_nil_r.
    - replace (seen ++ k :: rest) with ((seen ++ [k]) ++ rest)
        by now rewrite <- app_assoc.
      apply IH. cbv zeta.
      destruct acc as [[c|] low]; cbn [snd]; unfold good in *.
      + destruct Hg as (Hin & Hlow & (r & Hr) & Hmin).
        destruct (ext_ltb (fOrInfinity scores k) low) eqn:E.
        * subst low. rewrite Hr in E.
          destruct (fOrInfinity scores k) as [rk|] eqn:Ek; [|discriminate].
          cbn in E. apply Rltb_true in E.
          repeat split; eauto.
          -- apply in_or_app. right. now left.
          -- intros k' Hk'. apply in_app_or in Hk' as [Hk'|[<-|[]]].
             ++ specialize (Hmin k' Hk'). rewrite Hr in Hmin.
                destruct (fOrInfinity scores k'); [|reflexivity].
                cbn in *. apply Rltb_false in Hmin. apply Rltb_false. lra.
             ++ rewrite Ek. cbn. apply Rltb_false. lra.
        * repeat split; eauto.
          -- apply in_or_app. now left.
          -- intros k' Hk'. apply in_app_or in Hk' as [Hk'|[<-|[]]]; auto.
      + destruct Hg as (-> & Hall).
        destruct (fOrInfinity scores k) as [rk|] eqn:Ek; cbn.
        * repeat split; eauto.
          -- apply in_or_app. right. now left.
          -- intros k' Hk'. apply in_app_or in Hk' as [Hk'|[<-|[]]].
             ++ now rewrite (Hall k' Hk').
             ++ rewrite Ek. cbn. apply Rltb_false. lra.
        * split; [reflexivity|].
          intros k' Hk'. apply in_app_or in Hk' as [Hk'|[<-|[]]]; auto. }
  apply (H open [] (None, Infinity)). cbn. split; [reflexivity|tauto].
Qed.

(** What one relaxation does to the state. *)
Lemma relax_cases (g : graph) (endNode : node) (current : string)
  (currentG : ext) (st : astate) (nb : neighbor) :
  let st' := relax g endNode current currentG st nb in
  closedSet st' = closedSet st /\
  (st' = st /\
   (In (nb_key nb) (closedSet st) \/ currentG = Infinity \/
    exists c,
      currentG = Fin c /\
      ext_ltb (Fin (c + nb_distance nb))
        (gOrInfinity (gScore st) (nb_key nb)) = false) \/
   exists c,
     currentG = Fin c /\
     ~ In (nb_key nb) (closedSet st) /\
     ext_ltb (Fin (c + nb_distance nb))
       (gOrInfinity (gScore st) (nb_key nb)) = true /\
     cameFrom st' = JsMap.set (nb_key nb) current (cameFrom st) /\
     gScore st' = JsMap.set (nb_key nb) (c + nb_distance nb) (gScore st) /\
     ((JsMap.get (nb_key nb) g = None /\
       openSet st' = openSet st /\ fScore st' = fScore st) \/
      (exists nn,
         JsMap.get (nb_key nb) g = Some nn /\
         openSet st' = JsSet.add (nb_key nb) (openSet st) /\
         fScore st'
         = JsMap.set (nb_key nb)
             (c + nb_distance nb +
              distance (n_centroid nn) (n_centroid endNode))
             (fScore st)))).
Proof.
  cbv zeta. unfold relax.
  destruct (JsSet.has (nb_key nb) (closedSet st)) eqn:Hc.
  { apply set_has_In in Hc. auto. }
  apply set_has_false in Hc.
  destruct currentG as [c|]; cbn [ext_add].
  2: { split; [reflexivity|]. left. split; [reflexivity|].
       right. left. reflexivity. }
  destruct (ext_ltb _ _) eqn:Hlt.
  2: { split; [reflexivity|]. left. split; [reflexivity|].
       right. right. exists c. auto. }
  destruct (JsMap.get (nb_key nb) g) as [nn|] eqn:Hn; cbn.
  - split; [reflexivity|]. right. exists c. repeat split; auto.
    right. exists nn. auto.
  - split; [reflexivity|]. right. exists c. repeat split; auto.
Qed.

Lemma relax_invariant (g : graph) (endNode : node) (current : string)
  (currentG : ext) (st : astate) (nb : neighbor) :
  searchInvariant g st -> In current (closedSet st) ->
  searchInvariant g (relax g endNode current currentG st nb).
Proof.
  intros Hinv Hcur. pose proof Hinv as (Hopen & Hnd & Hcl & Hcf).
  destruct (relax_cases g endNode current currentG st nb)
    as (Eclosed & [(E & _) | (c & _ & Hnc & _ & Ecf & _ & Hrest)]).
  { now rewrite E. }
  unfold searchInvariant. rewrite Eclosed, Ecf.
  split; [|split; [exact Hnd|split; [exact Hcl|]]].
  - intros x Hx. destruct Hrest as [(_ & Eo & _) | (nn & Hnn & Eo & _)];
      rewrite Eo in Hx.
    + now apply Hopen.
    + apply set_add_In in Hx. destruct Hx as [->|Hx]; [|now apply Hopen].
      split; [congruence | exact Hnc].
  - intros v u Hv.
    destruct (String.eqb (nb_key nb) v) eqn:E.
    + apply String.eqb_eq in E. subst v. rewrite get_set_same in Hv.
      injection Hv as <-. split; [exact Hcur | tauto].
    + apply String.eqb_neq in E. rewrite get_set_other in Hv by assumption.
      now apply Hcf.
Qed.

Lemma relax_fold_invariant (g : graph) (endNode : node) (current : string)
  (currentG : ext) (nbs : list neighbor) (st : astate) :
  searchInvariant g st -> In current (closedSet st) ->
  searchInvariant g (fold_left (relax g endNode current currentG) nbs st) /\
  closedSet (fold_left (relax g endNode current currentG) nbs st)
  = closedSet st.
Proof.
  revert st. induction nbs as [|nb nbs IH]; intros st Hinv Hcur; cbn.
  - auto.
  - destruct (relax_cases g endNode current currentG st nb) as (Ec & _).
    destruct (IH (relax g endNode current currentG st nb)) as (Hi & Hc).
    + now apply relax_invariant.
    + cbv zeta in Ec. now rewrite Ec.
    + split; [exact Hi|]. cbv zeta in Ec. now rewrite Hc, Ec.
Qed.

Lemma closeCurrent_invariant (g : graph) (st : astate) (current : string) :
  searchInvariant g st -> In current (openSet st) ->
  searchInvariant g (closeCurrent st current) /\
  closedSet (closeCurrent st current) = closedSet st ++ [current].
Proof.
  intros (Hopen & Hnd & Hcl & Hcf) Hcur.
  destruct (Hopen current Hcur) as (Hg & Hnc).
  assert (Ec : closedSet (closeCurrent st current)
               = closedSet st ++ [current])
    by (cbn; now apply set_add_new).
  split; [|exact Ec]. unfold searchInvariant. rewrite Ec.
  cbn [closeCurrent openSet cameFrom].
  split; [|split; [|split]].
  - intros x Hx. apply set_delete_In in Hx. destruct Hx as (Hx & Hne).
    destruct (Hopen x Hx) as (? & ?). split; [assumption|].
    intros Hin. apply in_app_or in Hin as [?|[?|[]]]; congruence.
  - apply NoDup_app_remove_l with (l := []). cbn.
    apply Permutation_NoDup with (l := current :: closedSet st).
    + apply Permutation_cons_append.
    + now constructor.
  - intros u Hu. apply in_app_or in Hu as [?|[<-|[]]]; auto.
  - intros v u Hv. destruct (Hcf v u Hv) as (Hu & Hbefore).
    split; [apply in_or_app; now left|].
    intros Hin. apply in_app_or in Hin as [Hin|[<-|[]]].
    + now apply before_snoc, Hbefore.
    + now apply before_last.
Qed.

Lemma expand_invariant (g : graph) (endNode : node) (st : astate)
  (current : string) :
  searchInvariant g st -> In current (openSet st) ->
  searchInvariant g (expand g endNode st current) /\
  closedSet (expand g endNode st current) = closedSet st ++ [current].
Proof.
  intros Hinv Hcur.
  destruct (closeCurrent_invariant g st current Hinv Hcur) as (Hi & Ec).
  unfold expand. cbv zeta.
  destruct (JsMap.get current g) as [nd|]; [|auto].
  destruct (relax_fold_invariant g endNode current
              (gOrInfinity (gScore (closeCurrent st current)) current)
              (n_neighbors nd) (closeCurrent st current) Hi) as (Hf & Ecf).
  - rewrite Ec. apply in_or_app. right. now left.
  - split; [exact Hf|]. now rewrite Ecf.
Qed.

(** The reconstruction loop runs to its exit, and walks closed nodes
    only. *)
Lemma reconstruct_from_closed (cf : JsMap.t string) (closed : list string) :
  NoDup closed ->
  (forall v u, JsMap.get v cf = Some u ->
     In u closed /\ (In v closed -> before u v closed)) ->
  forall (n : nat) (l1 : list string) (v : string) (l2 path : list string),
    closed = l1 ++ v :: l2 -> (List.length l1 <= n)%nat ->
    exists p,
      reconstruct n cf v path = Ok p /\
      forall k, In k p -> In k path \/ In k closed.
Proof.
  intros Hnd Hcf. induction n as [|n IH]; intros l1 v l2 path Hsplit Hlen.
  - destruct (JsMap.get v cf) as [u|] eqn:Hv; cbn; rewrite Hv; [|eauto].
    exfalso. destruct (Hcf v u Hv) as (_ & Hb).
    destruct Hb as (a & b & c & Hb);
      [rewrite Hsplit; apply in_or_app; right; now left|].
    rewrite Hsplit in Hb, Hnd.
    replace (a ++ u :: b ++ v :: c) with ((a ++ u :: b) ++ v :: c) in Hb
      by (repeat (rewrite <- app_assoc; cbn [app]); reflexivity).
    apply NoDup_position in Hb; [|assumption]. subst l1.
    rewrite length_app in Hlen. cbn in Hlen. lia.
  - cbn [reconstruct]. destruct (JsMap.get v cf) as [u|] eqn:Hv; [|eauto].
    destruct (Hcf v u Hv) as (Hu & Hb).
    destruct Hb as (a & b & c & Hb);
      [rewrite Hsplit; apply in_or_app; right; now left|].
    assert (Hl1 : l1 = a ++ u :: b).
    { rewrite Hsplit in Hb, Hnd.
      replace (a ++ u :: b ++ v :: c) with ((a ++ u :: b) ++ v :: c) in Hb
        by (repeat (rewrite <- app_assoc; cbn [app]); reflexivity).
      now apply NoDup_position in Hb. }
    destruct (IH a u (b ++ v :: c) (u :: path)) as (p & Hp & Hk).
    + exact Hb.
    + subst l1. rewrite length_app in Hlen. cbn in Hlen. lia.
    + exists p. split; [exact Hp|]. intros k Hin.
      destruct (Hk k Hin) as [[<-|?]|?]; auto.
Qed.

Lemma reconstruct_total (g : graph) (st : astate) (current : string) :
  searchInvariant g st ->
  exists p,
    reconstruct (S (List.length (closedSet st))) (cameFrom st) current
      [current] = Ok p /\
    forall k, In k p -> k = current \/ In k (closedSet st).
Proof.
  intros (_ & Hnd & _ & Hcf). cbn [reconstruct].
  destruct (JsMap.get current (cameFrom st)) as [u|] eqn:Hc.
  - destruct (Hcf current u Hc) as (Hu & _).
    destruct (in_split _ _ Hu) as (l1 & l2 & Hsplit).
    destruct (reconstruct_from_closed (cameFrom st) (closedSet st) Hnd Hcf
                (List.length (closedSet st)) l1 u l2 [u; current] Hsplit)
      as (p & Hp & Hk).
    + rewrite Hsplit, length_app. lia.
    + exists p. split; [exact Hp|]. intros k Hin.
      destruct (Hk k Hin) as [[<-|[<-|[]]]|?]; auto.
  - exists [current]. split; [reflexivity|].
    intros k [<-|[]]. now left.
Qed.

(** The main loop returns: every round that goes on closes one more
    node of the graph. *)
Lemma aStarLoop_total (g : graph) (endKey : string) (endNode : node) :
  JsMap.get endKey g <> None ->
  forall (fuel : nat) (st : astate),
    searchInvariant g st ->
    (List.length g < fuel + List.length (closedSet st))%nat ->
    exists r,
      aStarLoop fuel g endKey endNode st = Ok r /\
      forall p, r = Some p -> forall k, In k p -> JsMap.get k g <> None.
Proof.
  intros Hend. induction fuel as [|fuel IH]; intros st Hinv Hfuel.
  - exfalso. destruct Hinv as (_ & Hnd & Hcl & _).
    assert (Hle : (List.length (closedSet st) <= List.length (JsMap.keys g))
                  %nat).
    { apply NoDup_incl_length; [exact Hnd|]. intros u Hu.
      specialize (Hcl u Hu). destruct (JsMap.get u g) eqn:E; [|congruence].
      apply get_Some_In in E. apply (in_map fst) in E. exact E. }
    unfold JsMap.keys in Hle. rewrite length_map in Hle. lia.
  - cbn [aStarLoop].
    destruct (openSet st) as [|o os] eqn:Eo;
      [exists None; split; [reflexivity | discriminate]|].
    rewrite <- Eo.
    pose proof (pickLowest_spec (fScore st) (openSet st)) as Hpick.
    destruct (pickLowest (fScore st) (openSet st)) as [[current|] low];
      cbn [fst]; [|exists None; split; [reflexivity | discriminate]].
    destruct Hpick as (Hcur & _).
    destruct (negb (JsString.truthy current));
      [exists None; split; [reflexivity | discriminate]|].
    destruct (String.eqb current endKey) eqn:Ee.
    + apply String.eqb_eq in Ee. subst current.
      destruct (reconstruct_total g st endKey Hinv) as (p & -> & Hk).
      cbn. exists (Some p). split; [reflexivity|].
      intros p' [= <-] k Hin. destruct (Hk k Hin) as [->|Hc]; auto.
      destruct Hinv as (_ & _ & Hcl & _). now apply Hcl.
    + destruct (expand_invariant g endNode st current Hinv Hcur) as (Hi & Ec).
      assert (Hstep : match JsMap.get current g with
                      | Some currentNode =>
                          aStarLoop fuel g endKey endNode
                            (fold_left
                               (relax g endNode current
                                  (gOrInfinity
                                     (gScore (closeCurrent st current))
                                     current))
                               (n_neighbors currentNode)
                               (closeCurrent st current))
                      | None =>
                          aStarLoop fuel g endKey endNode
                            (closeCurrent st current)
                      end
                      = aStarLoop fuel g endKey endNode
                          (expand g endNode st current)).
      { unfold expand. cbv zeta. now destruct (JsMap.get current g). }
      unfold closeCurrent in Hstep at 1 2 3. cbn [gScore] in Hstep.
      cbn [gScore]. rewrite Hstep.
      apply IH; [exact Hi|]. rewrite Ec, length_app. cbn. lia.
Qed.

(** [aStar] returns on every graph, and a path it returns runs over
    nodes of the graph. *)
Lemma aStar_total (g : graph) (startKey endKey : string) :
  exists r,
    aStar g startKey endKey = Ok r /\
    forall p, r = Some p -> forall k, In k p -> JsMap.get k g <> None.
Proof.
  unfold aStar.
  destruct (JsMap.get startKey g) as [startNode|] eqn:Es;
    [|exists None; split; [reflexivity | discriminate]].
  destruct (JsMap.get endKey g) as [endNode|] eqn:Ee;
    [|exists None; split; [reflexivity | discriminate]].
  apply aStarLoop_total.
  - congruence.
  - unfold searchInvariant. cbn. repeat split; try tauto; try discriminate.
    + destruct H as [<-|[]]. congruence.
    + constructor.
  - cbn. lia.
Qed.

(** ** Route query *)

Lemma truthy_toLowerCase (s : string) :
  JsString.truthy (JsString.toLowerCase s) = JsString.truthy s.
Proof. now destruct s. Qed.

Lemma findKey_Some (g : graph) (name k : string) :
  findKey g name = Some k ->
  exists nd,
    In (k, nd) g /\ JsString.toLowerCase (room_name (n_room nd)) = name.
Proof.
  unfold findKey.
  assert (H : forall (l : graph) (init : option string),
             fold_left
               (fun found kv =>
                  if String.eqb
                       (JsString.toLowerCase (room_name (n_room (snd kv))))
                       name
                  then Some (fst kv) else found) l init = Some k ->
             init = Some k \/
             exists nd,
               In (k, nd) l /\
               JsString.toLowerCase (room_name (n_room nd)) = name).
  { induction l as [|[k' nd'] l IH]; cbn [fold_left]; intros init Hf.
    - now left.
    - apply IH in Hf. destruct Hf as [Hf|(nd & Hin & Hn)].
      + cbn [fst snd] in Hf.
        destruct (String.eqb _ name) eqn:E; [|now left].
        apply String.eqb_eq in E. injection Hf as <-. right.
        exists nd'. split; [now left | exact E].
      + right. exists nd. split; [now right | exact Hn]. }
  intros Hf. apply H in Hf. destruct Hf as [Hf|Hf]; [discriminate | exact Hf].
Qed.

Lemma fold_set_from {A V : Type} (kf : A -> string) (vf : A -> V)
  (l : list A) (init : JsMap.t V) (k : string) (v : V) :
  In (k, v) (fold_left (fun g x => JsMap.set (kf x) (vf x) g) l init) ->
  In (k, v) init \/ exists x, In x l /\ v = vf x.
Proof.
  revert init. induction l as [|a l IH]; cbn [fold_left]; intros init H.
  - now left.
  - apply IH in H. destruct H as [H|(x & Hx & ->)].
    + assert (Hs : forall m, In (k, v) (JsMap.set (kf a) (vf a) m) ->
                     In (k, v) m \/ v = vf a).
      { induction m as [|[k0 v0] m IHm]; cbn.
        - intros [[= _ <-]|[]]. now right.
        - destruct (String.eqb (kf a) k0); cbn.
          + intros [[= _ <-]|?]; auto.
          + intros [?|Hm]; auto. destruct (IHm Hm); auto. }
      destruct (Hs init H) as [?| ->]; [now left|].
      right. exists a. split; [now left | reflexivity].
    + right. exists x. split; [now right | reflexivity].
Qed.

Lemma graph_node_filtered (groups : JsMap.t room) (targetFloor : option Z)
  (k : string) (nd : node) :
  In (k, nd) (buildRoomGraph groups targetFloor) ->
  In (n_room nd) (filterRooms (JsMap.values groups) targetFloor).
Proof.
  intros H. unfold buildRoomGraph in H.
  apply (fold_set_from roomKeyOf) in H. destruct H as [[]|(r & Hr & ->)].
  exact Hr.
Qed.

Lemma graph_node_room (groups : JsMap.t room) (targetFloor : option Z)
  (k : string) (nd : node) :
  In (k, nd) (buildRoomGraph groups targetFloor) ->
  In (n_room nd) (JsMap.values groups).
Proof.
  intros H. apply graph_node_filtered in H. apply filterRooms_In in H. tauto.
Qed.

Lemma groupRoomsByName_members (features : list feature)
  (groups : JsMap.t room) (r : room) :
  groupRoomsByName features = Ok groups ->
  In r (JsMap.values groups) ->
  room_features r <> [] /\
  forall f, In f (room_features r) ->
    In f features /\ getRoomName f = room_name r.
Proof.
  intros H Hr. apply groupRoomsByName_groups in H.
  destruct (Forall2_keys _ _ H) as (_ & _ & Hin).
  destruct (collectGroups_invariant features) as (_ & Hgrp & _ & _).
  unfold JsMap.values in Hr. apply in_map_iff in Hr.
  destruct Hr as ([k r'] & Hsnd & Hkr). cbn in Hsnd. subst r'.
  destruct (Hin k r Hkr) as (g & Hg & Hw).
  destruct (withCentroid_fields g r Hw) as (Hn & _ & Hf).
  destruct (Hgrp k g Hg) as (Hfeat & Hne & Hk).
  rewrite Hf, Hn. split; [exact Hne|].
  intros f Hfin. rewrite Hfeat in Hfin. apply filter_In in Hfin.
  destruct Hfin as (Hfin & E). apply String.eqb_eq in E.
  split; [exact Hfin|]. rewrite Hk in E. unfold featureKey in E.
  apply roomKey_inj in E. now destruct E.
Qed.

Lemma groupRoomsByName_throws (features : list feature) (f : feature) :
  In f features -> ringCoords (f_geometry f) = None ->
  groupRoomsByName features = Throw.
Proof.
  intros Hf Hr.
  destruct (groupRoomsByName features) as [groups| |] eqn:E; auto.
  - exfalso. pose proof E as E'. apply groupRoomsByName_groups in E.
    destruct (Forall2_keys _ _ E) as (Hk & _ & Hin).
    destruct (collectGroups_invariant features) as (_ & Hgrp & Hcov & _).
    specialize (Hcov f Hf). rewrite <- Hk in Hcov.
    unfold JsMap.keys in Hcov. apply in_map_iff in Hcov.
    destruct Hcov as ([k r] & Hfst & Hkr). cbn in Hfst. subst k.
    destruct (Hin _ r Hkr) as (g & Hg & Hw).
    destruct (Hgrp _ g Hg) as (Hfeat & _ & _).
    unfold withCentroid in Hw.
    destruct (mapM getCentroid (g_features g)) as [cs| |] eqn:Em;
      cbn in Hw; try discriminate.
    apply mapM_Ok in Em.
    assert (Hfg : In f (g_features g)).
    { rewrite Hfeat. apply filter_In. split; [exact Hf|].
      apply String.eqb_refl. }
    clear - Em Hfg Hr. induction Em as [|x c xs cs' Hx _ IH]; [destruct Hfg|].
    destruct Hfg as [->|Hfg]; [|auto].
    unfold getCentroid in Hx. now rewrite Hr in Hx.
  - exfalso. unfold groupRoomsByName in E.
    assert (Hno : forall (A B : Type) (h : A -> result B) (l : list A),
               (forall a, h a <> OutOfFuel) -> mapM h l <> OutOfFuel).
    { intros A B h l Hh. induction l as [|a l IH]; cbn; [discriminate|].
      specialize (Hh a). destruct (h a); cbn; try congruence.
      destruct (mapM h l); cbn; congruence. }
    revert E. apply Hno. intros [k g]. cbn [fst snd].
    unfold withCentroid.
    assert (Hc : mapM getCentroid (g_features g) <> OutOfFuel).
    { apply Hno. intros x. unfold getCentroid.
      destruct (ringCoords (f_geometry x)) as [[|? ?]|]; discriminate. }
    destruct (mapM getCentroid (g_features g)); cbn; congruence.
Qed.

(** With named start and end rooms, one feature whose ring is missing
    makes the query throw. *)
Lemma findRoute_throws (rooms : list feature) (startRoom endRoom : feature)
  (targetFloor : option Z) (f : feature) :
  getRoomName startRoom <> "" -> getRoomName endRoom <> "" ->
  In f rooms -> ringCoords (f_geometry f) = None ->
  findRoute rooms startRoom endRoom targetFloor = Throw.
Proof.
  intros Hs He Hf Hr. unfold findRoute.
  rewrite !truthy_toLowerCase.
  destruct (getRoomName startRoom); [congruence|].
  destruct (getRoomName endRoom); [congruence|]. cbn [JsString.truthy negb orb].
  now rewrite (groupRoomsByName_throws rooms f Hf Hr).
Qed.

(** C7, failing input: a feature collection holding a polygon whose
    [coordinates] array is empty.  [getCentroid] reads
    [coordinates[0].length] and the query throws instead of returning
    [null]. *)
Theorem findRoute_throws_on_polygon_without_ring :
  getRoomName hollow = "A" /\
  getCentroid hollow = Throw /\
  findRoute [hollow] hollow hollow None = Throw.
Proof.
  split; [reflexivity|]. split; [reflexivity|].
  apply (findRoute_throws [hollow] hollow hollow None hollow);
    try discriminate; [now left | reflexivity].
Qed.

(** What holds of C7: when every feature has the ring that
    [getCentroid] reads, the query returns, and it returns [null] when
    a name is missing or empty, when a name resolves to no node of the
    graph (in particular when no feature bears it, or when every room
    that bears it is structural or on another floor than the target),
    and when the search finds no path. *)
Theorem findRoute_returns_null (rooms : list feature)
  (startRoom endRoom : feature) (targetFloor : option Z) :
  (forall f, In f rooms -> ringCoords (f_geometry f) <> None) ->
  (exists r, findRoute rooms startRoom endRoom targetFloor = Ok r) /\
  (getRoomName startRoom = "" \/ getRoomName endRoom = "" ->
   findRoute rooms startRoom endRoom targetFloor = Ok None) /\
  (forall groups,
     groupRoomsByName rooms = Ok groups ->
     let g := buildRoomGraph groups targetFloor in
     let startName := JsString.toLowerCase (getRoomName startRoom) in
     let endName := JsString.toLowerCase (getRoomName endRoom) in
     (findKey g startName = None \/ findKey g endName = None ->
      findRoute rooms startRoom endRoom targetFloor = Ok None) /\
     ((forall f, In f rooms ->
         JsString.toLowerCase (getRoomName f) <> startName) ->
      findKey g startName = None) /\
     ((forall f, In f rooms ->
         JsString.toLowerCase (getRoomName f) <> endName) ->
      findKey g endName = None) /\
     (forall name,
        (forall r, In r (JsMap.values groups) ->
           JsString.toLowerCase (room_name r) = name ->
           isNavigableRoom (room_name r) = false \/
           exists fl, targetFloor = Some fl /\ room_floor r <> fl) ->
        findKey g name = None) /\
     (forall sk ek,
        findKey g startName = Some sk -> findKey g endName = Some ek ->
        aStar g sk ek = Ok None ->
        findRoute rooms startRoom endRoom targetFloor = Ok None)).
Proof.
  intros Hrings.
  destruct (groupRoomsByName_returns rooms Hrings) as [groups Hgroups].
  assert (Habsent : forall name,
            (forall f, In f rooms ->
               JsString.toLowerCase (getRoomName f) <> name) ->
            findKey (buildRoomGraph groups targetFloor) name = None).
  { intros name Hno.
    destruct (findKey (buildRoomGraph groups targetFloor) name) as [k|] eqn:E;
      [exfalso|reflexivity].
    apply findKey_Some in E. destruct E as (nd & Hin & Hname).
    apply graph_node_room in Hin.
    destruct (groupRoomsByName_members rooms groups _ Hgroups Hin)
      as (Hne & Hmem).
    destruct (room_features (n_room nd)) as [|f fs] eqn:Ef; [congruence|].
    destruct (Hmem f (or_introl eq_refl)) as (Hf & Hn).
    apply (Hno f Hf). now rewrite Hn. }
  split; [|split].
  - unfold findRoute.
    destruct (negb _ || negb _); [eauto|].
    rewrite Hgroups. cbn [bind].
    set (g := buildRoomGraph groups targetFloor).
    destruct (noKey _ || noKey _); [eauto|].
    destruct (findKey g _) as [sk|]; [|eauto].
    destruct (findKey g _) as [ek|]; [|eauto].
    destruct (aStar_total g sk ek) as (r & -> & Hkeys). cbn [bind].
    destruct r as [keys|]; [|eauto].
    specialize (Hkeys keys eq_refl).
    assert (Hpts : exists pathCoords,
               mapM (toRoutePoint g) keys = Ok pathCoords /\
               ringsPresent pathCoords).
    { clear - Hkeys Hrings Hgroups. induction keys as [|k keys IH]; cbn.
      - exists []. split; [reflexivity|]. intros p f [].
      - destruct IH as (pts & -> & Hpts);
          [intros; apply Hkeys; now right|].
        unfold toRoutePoint at 1.
        destruct (JsMap.get k g) as [nd|] eqn:Ek;
          [|exfalso; now apply (Hkeys k (or_introl eq_refl))].
        cbn. eexists. split; [reflexivity|].
        intros p f [<-|Hp] Hf; [|eapply Hpts; eauto].
        cbn [rp_features] in Hf. apply get_Some_In in Ek.
        apply graph_node_room in Ek.
        destruct (groupRoomsByName_members rooms groups _ Hgroups Ek)
          as (_ & Hmem).
        apply Hrings. now apply Hmem. }
    destruct Hpts as (pathCoords & -> & Hpresent). cbn [bind].
    destruct (addCorridorWaypoints_returns pathCoords Hpresent)
      as [out ->].
    cbn. eauto.
  - intros Hempty. unfold findRoute. rewrite !truthy_toLowerCase.
    destruct Hempty as [-> | ->]; cbn; [reflexivity|].
    now rewrite orb_true_r.
  - intros groups' Hg'. rewrite Hgroups in Hg'. injection Hg' as <-.
    cbv zeta. split; [|split; [|split; [|split]]].
    + intros Hnone. unfold findRoute. destruct (negb _ || negb _); [auto|].
      rewrite Hgroups. cbn [bind].
      destruct Hnone as [-> | ->]; cbn [noKey orb]; [reflexivity|].
      now rewrite orb_true_r.
    + apply Habsent.
    + apply Habsent.
    + intros name Hexcl.
      destruct (findKey (buildRoomGraph groups targetFloor) name) as [k|] eqn:E;
        [exfalso|reflexivity].
      apply findKey_Some in E. destruct E as (nd & Hin & Hname).
      apply graph_node_filtered in Hin. apply filterRooms_In in Hin.
      destruct Hin as (Hin & Hnav & Hfl).
      destruct (Hexcl _ Hin Hname) as [Hno|(fl & Htf & Hne)];
        [congruence|].
      apply Hne. now apply Hfl.
    + intros sk ek Hsk Hek Hstar. unfold findRoute.
      destruct (negb _ || negb _); [auto|].
      rewrite Hgroups. cbn [bind]. rewrite Hsk, Hek.
      destruct (noKey _ || noKey _); [auto|]. now rewrite Hstar.
Qed.

(** ** A* search: optimality *)

Lemma distance_self (p : coord) : distance p p = 0.
Proof.
  unfold distance. cbv zeta.
  replace ((fst p - fst p) * (fst p - fst p) +
           (snd p - snd p) * (snd p - snd p)) with 0 by ring.
  apply sqrt_0.
Qed.

Lemma distance_triangle (p q r : coord) :
  distance p r <= distance p q + distance q r.
Proof.
  destruct p as [px py], q as [qx qy], r as [rx ry].
  exact (triangle px py rx ry qx qy).
Qed.

Lemma last_any_default {A : Type} (a d d' : A) (l : list A) :
  last (a :: l) d = last (a :: l) d'.
Proof.
  revert a. induction l as [|b l IH]; intros a; [reflexivity|].
  cbn [last] in *. apply (IH b).
Qed.

Lemma route_nonempty (g : graph) (p : list string) (c : R) :
  route g p c -> p <> [].
Proof. destruct 1; discriminate. Qed.

Lemma route_nonneg (g : graph) (p : list string) (c : R) :
  consistentWeights g -> route g p c -> 0 <= c.
Proof.
  intros Hcons. induction 1 as [k|u v rest w c He Hr IH]; [lra|].
  destruct He as (nu & nb & Hu & Hnb & _ & <-).
  destruct (Hcons u nu nb Hu Hnb) as (nv & _ & Hd).
  pose proof (distance_nonneg (n_centroid nu) (n_centroid nv)). lra.
Qed.

(** An edge weighs at least the distance between its ends, so a route
    weighs at least the distance between its ends. *)
Lemma route_distance (g : graph) (p : list string) (c : R) :
  consistentWeights g -> route g p c ->
  forall u t nu nt,
    fromTo p u t -> JsMap.get u g = Some nu -> JsMap.get t g = Some nt ->
    distance (n_centroid nu) (n_centroid nt) <= c.
Proof.
  intros Hcons. induction 1 as [k|a v rest w c He Hr IH];
    intros u t nu nt (Hhd & Hlast) Hu Ht.
  - cbn in Hhd, Hlast. injection Hhd as <-. subst t.
    rewrite Hu in Ht. injection Ht as <-. rewrite distance_self. lra.
  - cbn in Hhd. injection Hhd as <-.
    destruct He as (na & nb & Ha & Hnb & Hk & <-).
    rewrite Hu in Ha. injection Ha as <-.
    destruct (Hcons a nu nb Hu Hnb) as (nv & Hv & Hd). rewrite Hk in Hv.
    assert (Hrest : distance (n_centroid nv) (n_centroid nt) <= c).
    { apply (IH v t nv nt); auto. split; [reflexivity|].
      rewrite (last_any_default v v a). exact Hlast. }
    pose proof (distance_triangle (n_centroid nu) (n_centroid nv)
                  (n_centroid nt)). lra.
Qed.

(** A route extended by one edge at its end. *)
Lemma route_snoc (g : graph) (p : list string) (c : R) (s u v : string)
  (w : R) :
  route g p c -> fromTo p s u -> edge g u v w ->
  route g (p ++ [v]) (c + w) /\ fromTo (p ++ [v]) s v.
Proof.
  intros Hr. revert s. induction Hr as [k|a b rest w0 c He Hr IH];
    intros s (Hhd & Hlast) Hedge.
  - cbn in Hhd, Hlast. injection Hhd as <-. subst u. cbn. split.
    + replace (0 + w) with (w + 0) by lra. constructor; [exact Hedge|].
      constructor.
    + split; reflexivity.
  - cbn in Hhd. injection Hhd as <-.
    destruct (IH b) as (Hr' & _ & Hl').
    + split; [reflexivity|].
      rewrite (last_any_default b b a). exact Hlast.
    + exact Hedge.
    + cbn [app]. split.
      * replace (w0 + c + w) with (w0 + (c + w)) by lra.
        now constructor.
      * split; [reflexivity|]. cbn [app] in Hl'.
        change (last (b :: rest ++ [v]) a = v).
        rewrite (last_any_default b a b). exact Hl'.
Qed.

Lemma Reqb_true (a b : R) : Reqb a b = true <-> a = b.
Proof. unfold Reqb. destruct (Req_dec_T a b); intuition discriminate. Qed.

Lemma fOrInfinity_Fin (scores : JsMap.t R) (k : string) (r : R) :
  fOrInfinity scores k = Fin r <->
  JsMap.get k scores = Some r /\ r <> 0.
Proof.
  unfold fOrInfinity. destruct (JsMap.get k scores) as [f|].
  - destruct (Reqb f 0) eqn:E.
    + apply Reqb_true in E. split; [discriminate|].
      intros ([= ->] & ?). congruence.
    + split.
      * intros [= ->]. split; [reflexivity|]. intros ->.
        assert (Reqb 0 0 = true) by now apply Reqb_true. congruence.
      * now intros ([= ->] & _).
  - split; [discriminate | intros (? & _); discriminate].
Qed.

Section Optimality.

Variable g : graph.
Variable startKey : string.
Variable endNode : node.
Hypothesis Hcons : consistentWeights g.

(** A route that leaves a closed node and ends at a node that is not
    closed passes through an open node whose score is at most the
    weight of the route up to it. *)
Lemma frontier (st : astate) (p : list string) (c : R) :
  optimalInvariant g startKey endNode settled st ->
  route g p c ->
  forall u t gu,
    fromTo p u t -> In u (closedSet st) ->
    JsMap.get u (gScore st) = Some gu -> ~ In t (closedSet st) ->
    exists x gx c1 c2 p2,
      In x (openSet st) /\ JsMap.get x (gScore st) = Some gx /\
      gx <= gu + c1 /\ c = c1 + c2 /\ route g p2 c2 /\ fromTo p2 x t.
Proof.
  intros Hinv.
  destruct Hinv as (_ & _ & _ & _ & _ & _ & _ & Hreal & _ & _ & Hedges).
  induction 1 as [k|a v rest w c He Hr IH]; intros u t gu (Hhd & Hlast) Hu Hgu Ht.
  - cbn in Hhd, Hlast. injection Hhd as <-. subst t. tauto.
  - cbn in Hhd. injection Hhd as <-.
    pose proof He as (na & nb & Ha & Hnb & Hk & Hw).
    destruct (Hedges a na nb gu Hu Ha Hnb Hgu) as [[]|(gv & Hgv & Hle)].
    rewrite Hk, Hw in *.
    assert (Hft : fromTo (v :: rest) v t).
    { split; [reflexivity|]. rewrite (last_any_default v v a). exact Hlast. }
    destruct (Hreal v gv Hgv) as (_ & [Hopen|Hclosed] & _).
    + exists v, gv, w, c, (v :: rest). repeat split; auto; try lra.
      apply Hft.
    + destruct (IH v t gv Hft Hclosed Hgv Ht)
        as (x & gx & c1 & c2 & p2 & Hx & Hgx & Hle' & Hc & Hr2 & Hf2).
      exists x, gx, (w + c1), c2, p2. repeat split; auto; try lra.
      apply Hf2. apply Hf2.
Qed.

(** The node picked by the scan of the open set has the least weight
    of all routes from the start. *)
Lemma picked_is_optimal (st : astate) (current : string) (r : R) :
  optimalInvariant g startKey endNode settled st ->
  In current (openSet st) ->
  fOrInfinity (fScore st) current = Fin r ->
  (forall k, In k (openSet st) ->
     ext_ltb (fOrInfinity (fScore st) k) (Fin r) = false) ->
  exists gcur,
    JsMap.get current (gScore st) = Some gcur /\
    forall p c, route g p c -> fromTo p startKey current -> gcur <= c.
Proof.
  intros Hinv Hcur Hf Hmin.
  pose proof Hinv as (Hsearch & Hg0 & _ & Hstart & Hpos & Hopen & _ & Hreal
                      & _ & _ & _).
  destruct (Hopen current Hcur) as (ncur & gcur & Hncur & Hgcur & Hfcur).
  apply fOrInfinity_Fin in Hf. destruct Hf as (Hf & Hr0).
  rewrite Hfcur in Hf. injection Hf as Hr.
  exists gcur. split; [exact Hgcur|]. intros p c Hroute Hft.
  destruct (String.eqb current startKey) eqn:Es.
  - apply String.eqb_eq in Es. subst current.
    rewrite Hg0 in Hgcur. injection Hgcur as <-.
    now apply (route_nonneg g p c).
  - apply String.eqb_neq in Es.
    destruct Hstart as [Hsc|Hso];
      [|rewrite Hso in Hcur; destruct Hcur as [?|[]]; congruence].
    destruct Hsearch as (Hoc & _ & Hcg & _).
    destruct (Hoc current Hcur) as (_ & Hnc).
    destruct (frontier st p c Hinv Hroute startKey current 0 Hft Hsc Hg0 Hnc)
      as (x & gx & c1 & c2 & p2 & Hx & Hgx & Hle & Hc & Hr2 & Hf2).
    destruct (Hopen x Hx) as (nx & gx' & Hnx & Hgx' & Hfx).
    rewrite Hgx in Hgx'. injection Hgx' as <-.
    (* the start is closed, so its heuristic is positive *)
    destruct (JsMap.get startKey g) as [ns|] eqn:Ens;
      [|now apply Hcg in Hsc].
    specialize (Hpos Hsc ns eq_refl).
    destruct (Hreal x gx Hgx) as ((px & Hpx & Hfpx) & _ & _).
    pose proof (route_distance g px gx Hcons Hpx startKey x ns nx Hfpx Ens Hnx)
      as Hdx.
    pose proof (distance_triangle (n_centroid ns) (n_centroid nx)
                  (n_centroid endNode)) as Htri.
    unfold heuristic in *.
    (* the score of [x] is not [0], and not below the score picked *)
    assert (Hfx' : fOrInfinity (fScore st) x
                   = Fin (gx + distance (n_centroid nx) (n_centroid endNode))).
    { apply fOrInfinity_Fin. split; [exact Hfx | lra]. }
    specialize (Hmin x Hx). rewrite Hfx' in Hmin. cbn in Hmin.
    apply Rltb_false in Hmin.
    pose proof (route_distance g p2 c2 Hcons Hr2 x current nx ncur Hf2 Hnx
                  Hncur) as Hd2.
    pose proof (distance_triangle (n_centroid nx) (n_centroid ncur)
                  (n_centroid endNode)) as Htri2.
    lra.
Qed.


(** Closing the picked node keeps the invariant, with all its edges
    pending. *)
Lemma closeCurrent_optimal (st : astate) (current : string) (r : R)
  (currentNode : node) :
  optimalInvariant g startKey endNode settled st ->
  In current (openSet st) ->
  fOrInfinity (fScore st) current = Fin r ->
  (forall k, In k (openSet st) ->
     ext_ltb (fOrInfinity (fScore st) k) (Fin r) = false) ->
  JsMap.get current g = Some currentNode ->
  optimalInvariant g startKey endNode
    (pendingOf current (n_neighbors currentNode))
    (closeCurrent st current) /\
  In startKey (closedSet (closeCurrent st current)) /\
  In current (closedSet (closeCurrent st current)) /\
  exists gcur,
    gOrInfinity (gScore (closeCurrent st current)) current = Fin gcur.
Proof.
  intros Hinv Hcur Hf Hmin Hnode.
  destruct (picked_is_optimal st current r Hinv Hcur Hf Hmin)
    as (gcur & Hgcur & Hbest).
  pose proof Hinv as (Hs & Hg0 & Hc0 & Hstart & Hpos & Hopen & Hclosedg
                      & Hreal & Hcf & Hopt & Hedges).
  destruct (closeCurrent_invariant g st current Hs Hcur) as (Hs' & Ec).
  assert (Hnc : ~ In current (closedSet st))
    by (destruct Hs as (Hoc & _); now apply Hoc).
  assert (Hsc : In startKey (closedSet st ++ [current])).
  { destruct Hstart as [?|Ho]; [apply in_or_app; now left|].
    rewrite Ho in Hcur. destruct Hcur as [->|[]].
    apply in_or_app. right. now left. }
  split; [|split; [|split]].
  - unfold optimalInvariant. rewrite Ec.
    cbn [closeCurrent openSet gScore fScore cameFrom].
    split; [exact Hs'|]. split; [exact Hg0|]. split; [exact Hc0|].
    split; [now left|]. split; [|split; [|split; [|split; [|split; [|split]]]]].
    + intros Hin ns Hns. apply in_app_or in Hin as [Hin|[E|[]]]; [eauto|].
      subst current.
      destruct (Hopen startKey Hcur) as (ns' & gs & Hns' & Hgs & Hfs).
      rewrite Hns in Hns'. injection Hns' as <-.
      rewrite Hg0 in Hgs. injection Hgs as <-.
      apply fOrInfinity_Fin in Hf. rewrite Hfs in Hf.
      destruct Hf as ([= Hr] & Hr0).
      pose proof (distance_nonneg (n_centroid ns) (n_centroid endNode)).
      unfold heuristic in *. lra.
    + intros x Hx. apply set_delete_In in Hx. now apply Hopen.
    + intros u Hu. apply in_app_or in Hu as [Hu|[<-|[]]]; eauto.
    + intros x gx Hgx. destruct (Hreal x gx Hgx) as (Hp & Hwhere & Hfrom).
      split; [exact Hp|]. split; [|exact Hfrom].
      destruct (String.eqb x current) eqn:E.
      * apply String.eqb_eq in E. subst x. right. apply in_or_app.
        right. now left.
      * apply String.eqb_neq in E. destruct Hwhere as [Ho|Hc].
        -- left. now apply set_delete_In.
        -- right. apply in_or_app. now left.
    + exact Hcf.
    + intros u gu Hu Hgu p c Hp Hft. apply in_app_or in Hu as [Hu|[<-|[]]].
      * exact (Hopt u gu Hu Hgu p c Hp Hft).
      * rewrite Hgcur in Hgu. injection Hgu as <-.
        exact (Hbest p c Hp Hft).
    + intros u nu nb gu Hu Hnu Hnb Hgu. apply in_app_or in Hu as [Hu|[<-|[]]].
      * destruct (Hedges u nu nb gu Hu Hnu Hnb Hgu) as [[]|?]. now right.
      * left. split; [reflexivity|]. rewrite Hnode in Hnu.
        now injection Hnu as <-.
  - now rewrite Ec.
  - rewrite Ec. apply in_or_app. right. now left.
  - exists gcur. unfold gOrInfinity. cbn [closeCurrent gScore].
    now rewrite Hgcur.
Qed.

(** Relaxing one edge of the node being expanded keeps the invariant
    and takes the edge off the pending ones. *)
Lemma relax_optimal (st : astate) (current : string) (currentNode : node)
  (gcur : R) (nb : neighbor) (rest : list neighbor) :
  optimalInvariant g startKey endNode (pendingOf current (nb :: rest)) st ->
  In startKey (closedSet st) ->
  In current (closedSet st) ->
  JsMap.get current (gScore st) = Some gcur ->
  JsMap.get current g = Some currentNode ->
  In nb (n_neighbors currentNode) ->
  let st' := relax g endNode current (Fin gcur) st nb in
  optimalInvariant g startKey endNode (pendingOf current rest) st' /\
  closedSet st' = closedSet st /\
  JsMap.get current (gScore st') = Some gcur.
Proof.
  intros Hinv Hsc Hcc Hgcur Hnode Hnb st'.
  pose proof Hinv as (Hs & Hg0 & Hc0 & Hstart & Hpos & Hopen & Hclosedg
                      & Hreal & Hcf & Hopt & Hedges).
  assert (Hedge : edge g current (nb_key nb) (nb_distance nb))
    by (exists currentNode, nb; auto).
  destruct (Hcons current currentNode nb Hnode Hnb) as (nn & Hnn & _).
  (* the route to the neighbour through the current node *)
  destruct (Hreal current gcur Hgcur) as ((pc & Hpc & Hfc) & _ & _).
  destruct (route_snoc g pc gcur startKey current (nb_key nb)
              (nb_distance nb) Hpc Hfc Hedge) as (Hpv & Hfv).
  pose proof (relax_invariant g endNode current (Fin gcur) st nb Hs Hcc)
    as Hs'.
  fold st' in Hs'.
  destruct (relax_cases g endNode current (Fin gcur) st nb)
    as (Ec & [(E & Hwhy) |
              (c & Hfin & Hnc & Hlt & Ecf & Eg & Hrest)]);
    fold st' in Ec.
  - (* nothing is written *)
    fold st' in E. rewrite E. split; [|auto].
    unfold optimalInvariant.
    repeat (split; [assumption|]).
    intros u nu nb' gu Hu Hnu Hnb' Hgu.
    destruct (Hedges u nu nb' gu Hu Hnu Hnb' Hgu)
      as [(-> & [<-|Hin])|Hdone]; [|left; now split|now right].
    right. rewrite Hgcur in Hgu. injection Hgu as <-.
    destruct Hwhy as [Hclosed|[Hinf|(c & [= <-] & Hnlt)]]; [| discriminate |].
    + destruct (Hclosedg _ Hclosed) as (gv & Hgv). exists gv.
      split; [exact Hgv|]. exact (Hopt _ gv Hclosed Hgv _ _ Hpv Hfv).
    + unfold gOrInfinity in Hnlt.
      destruct (JsMap.get (nb_key nb) (gScore st)) as [gv|];
        [|discriminate].
      exists gv. split; [reflexivity|]. cbn in Hnlt.
      apply Rltb_false in Hnlt. lra.
  - (* the neighbour gets a lower score *)
    injection Hfin as <-.
    destruct Hrest as [(Hnone & _)|(nn' & Hnn' & Eo & Ef)]; [congruence|].
    rewrite Hnn in Hnn'. injection Hnn' as <-.
    fold st' in Ecf, Eg, Eo, Ef.
    assert (Hvc : nb_key nb <> current) by congruence.
    assert (Hvs : nb_key nb <> startKey) by congruence.
    assert (Hkeep : forall u, In u (closedSet st) ->
              JsMap.get u (gScore st') = JsMap.get u (gScore st)).
    { intros u Hu. rewrite Eg. apply get_set_other. congruence. }
    split; [|split; [exact Ec | now rewrite Hkeep]].
    unfold optimalInvariant. rewrite Ec.
    split; [exact Hs'|].
    split; [now rewrite Hkeep|].
    split; [rewrite Ecf; now rewrite get_set_other|].
    split; [now left|]. split; [exact Hpos|].
    split; [|split; [|split; [|split; [|split]]]].
    + intros x Hx. rewrite Eo in Hx. apply set_add_In in Hx.
      destruct (String.eqb (nb_key nb) x) eqn:E.
      * apply String.eqb_eq in E. subst x.
        exists nn, (gcur + nb_distance nb).
        rewrite Eg, Ef, !get_set_same. auto.
      * apply String.eqb_neq in E. destruct Hx as [->|Hx]; [congruence|].
        destruct (Hopen x Hx) as (nx & gx & ? & ? & ?).
        exists nx, gx. rewrite Eg, Ef, !get_set_other by assumption. auto.
    + intros u Hu. rewrite Hkeep by assumption. now apply Hclosedg.
    + intros x gx Hgx. rewrite Eg in Hgx.
      destruct (String.eqb (nb_key nb) x) eqn:E.
      * apply String.eqb_eq in E. subst x. rewrite get_set_same in Hgx.
        injection Hgx as <-. split; [eauto|]. split.
        -- left. rewrite Eo. apply set_add_In. now left.
        -- right. exists current. rewrite Ecf. apply get_set_same.
      * apply String.eqb_neq in E. rewrite get_set_other in Hgx by assumption.
        destruct (Hreal x gx Hgx) as (Hp & Hwhere & Hfrom).
        split; [exact Hp|]. split.
        -- destruct Hwhere as [Ho|?]; [left|now right].
           rewrite Eo. apply set_add_In. now right.
        -- rewrite Ecf, get_set_other by assumption. exact Hfrom.
    + intros v u Hv. rewrite Ecf in Hv.
      destruct (String.eqb (nb_key nb) v) eqn:E.
      * apply String.eqb_eq in E. subst v. rewrite get_set_same in Hv.
        injection Hv as <-.
        exists gcur, (gcur + nb_distance nb), (nb_distance nb).
        rewrite Hkeep by assumption. rewrite Eg, get_set_same. auto.
      * apply String.eqb_neq in E. rewrite get_set_other in Hv by assumption.
        destruct (Hcf v u Hv) as (gu & gv & w & Hgu & Hgv & He & Hsum).
        exists gu, gv, w. rewrite Hkeep.
        -- rewrite Eg, get_set_other by assumption. auto.
        -- destruct Hs as (_ & _ & _ & Hcfc). now apply (Hcfc v u).
    + intros u gu Hu Hgu. rewrite Hkeep in Hgu by assumption.
      now apply Hopt.
    + intros u nu nb' gu Hu Hnu Hnb' Hgu.
      rewrite Hkeep in Hgu by assumption.
      assert (Hlower : forall gv,
                JsMap.get (nb_key nb') (gScore st) = Some gv ->
                gv <= gu + nb_distance nb' ->
                exists gv',
                  JsMap.get (nb_key nb') (gScore st') = Some gv' /\
                  gv' <= gu + nb_distance nb').
      { intros gv Hgv Hle. rewrite Eg.
        destruct (String.eqb (nb_key nb) (nb_key nb')) eqn:E.
        - apply String.eqb_eq in E. rewrite <- E, get_set_same.
          exists (gcur + nb_distance nb). split; [reflexivity|].
          rewrite <- E in Hgv. unfold gOrInfinity in Hlt.
          rewrite Hgv in Hlt. cbn in Hlt. apply Rltb_true in Hlt. lra.
        - apply String.eqb_neq in E. rewrite get_set_other by assumption.
          eauto. }
      destruct (Hedges u nu nb' gu Hu Hnu Hnb' Hgu)
        as [(-> & [<-|Hin])|(gv & Hgv & Hle)].
      * right. rewrite Hgcur in Hgu. injection Hgu as <-.
        exists (gcur + nb_distance nb). rewrite Eg, get_set_same.
        split; [reflexivity | lra].
      * left. now split.
      * right. now apply (Hlower gv).
Qed.

Lemma relax_fold_optimal (current : string) (currentNode : node) (gcur : R)
  (nbs : list neighbor) (st : astate) :
  optimalInvariant g startKey endNode (pendingOf current nbs) st ->
  In startKey (closedSet st) ->
  In current (closedSet st) ->
  JsMap.get current (gScore st) = Some gcur ->
  JsMap.get current g = Some currentNode ->
  (forall nb, In nb nbs -> In nb (n_neighbors currentNode)) ->
  optimalInvariant g startKey endNode (pendingOf current [])
    (fold_left (relax g endNode current (Fin gcur)) nbs st).
Proof.
  revert st. induction nbs as [|nb nbs IH];
    intros st Hinv Hsc Hcc Hgcur Hnode Hsub; cbn [fold_left].
  - exact Hinv.
  - destruct (relax_optimal st current currentNode gcur nb nbs Hinv Hsc Hcc
                Hgcur Hnode (Hsub nb (or_introl eq_refl)))
      as (Hinv' & Ec & Hg').
    apply IH; auto.
    + now rewrite Ec.
    + now rewrite Ec.
    + intros nb' Hin. apply Hsub. now right.
Qed.

Lemma pending_none (current : string) (st : astate) :
  optimalInvariant g startKey endNode (pendingOf current []) st ->
  optimalInvariant g startKey endNode settled st.
Proof.
  intros Hinv. unfold optimalInvariant in *.
  repeat (destruct Hinv as (? & Hinv); split; [assumption|]).
  intros u nu nb gu Hu Hnu Hnb Hgu.
  destruct (Hinv u nu nb gu Hu Hnu Hnb Hgu) as [(_ & [])|?]. now right.
Qed.

(** A round of the main loop keeps the invariant. *)
Lemma expand_optimal (st : astate) (current : string) (r : R) :
  optimalInvariant g startKey endNode settled st ->
  In current (openSet st) ->
  fOrInfinity (fScore st) current = Fin r ->
  (forall k, In k (openSet st) ->
     ext_ltb (fOrInfinity (fScore st) k) (Fin r) = false) ->
  optimalInvariant g startKey endNode settled (expand g endNode st current).
Proof.
  intros Hinv Hcur Hf Hmin.
  pose proof Hinv as (_ & _ & _ & _ & _ & Hopen & _).
  destruct (Hopen current Hcur) as (nd & _ & Hnd & _).
  destruct (closeCurrent_optimal st current r nd Hinv Hcur Hf Hmin Hnd)
    as (Hinv' & Hsc & Hcc & gcur & Hgcur).
  unfold expand. cbv zeta. rewrite Hnd, Hgcur.
  apply (pending_none current).
  apply (relax_fold_optimal current nd gcur); auto.
  unfold gOrInfinity in Hgcur.
  destruct (JsMap.get current (gScore (closeCurrent st current)));
    congruence.
Qed.

(** The path rebuilt from the predecessors is a route from the start
    whose weight is the score of its last node. *)
Lemma reconstruct_route (st : astate) :
  optimalInvariant g startKey endNode settled st ->
  forall (n : nat) (v : string) (rest : list string) (cp gv gt : R)
         (t : string) (p : list string),
    JsMap.get v (gScore st) = Some gv ->
    route g (v :: rest) cp -> gv + cp = gt ->
    last (v :: rest) startKey = t ->
    reconstruct n (cameFrom st) v (v :: rest) = Ok p ->
    route g p gt /\ fromTo p startKey t.
Proof.
  intros (_ & Hg0 & Hc0 & _ & _ & _ & _ & Hreal & Hcf & _).
  induction n as [|n IH]; intros v rest cp gv gt t p Hgv Hroute Hsum Hlast Hrec.
  - cbn in Hrec. destruct (JsMap.get v (cameFrom st)) as [u|] eqn:Hv;
      [discriminate|].
    injection Hrec as <-.
    destruct (Hreal v gv Hgv) as (_ & _ & [->|(u & Hu)]); [|congruence].
    rewrite Hg0 in Hgv. injection Hgv as <-.
    replace gt with cp by lra. split; [exact Hroute|].
    split; [reflexivity | exact Hlast].
  - cbn [reconstruct] in Hrec.
    destruct (JsMap.get v (cameFrom st)) as [u|] eqn:Hv.
    + destruct (Hcf v u Hv) as (gu & gv' & w & Hgu & Hgv' & He & Hw).
      rewrite Hgv in Hgv'. injection Hgv' as <-.
      apply (IH u (v :: rest) (w + cp) gu gt t p); auto;
        first [ now constructor
              | lra
              | rewrite <- Hlast; apply last_any_default ].
    + injection Hrec as <-.
      destruct (Hreal v gv Hgv) as (_ & _ & [->|(u & Hu)]); [|congruence].
      rewrite Hg0 in Hgv. injection Hgv as <-.
      replace gt with cp by lra. split; [exact Hroute|].
      split; [reflexivity | exact Hlast].
Qed.

(** A path returned by the main loop is a route from the start to the
    goal of least weight. *)
Lemma aStarLoop_optimal (endKey : string) :
  forall (fuel : nat) (st : astate) (p : list string),
    optimalInvariant g startKey endNode settled st ->
    aStarLoop fuel g endKey endNode st = Ok (Some p) ->
    exists c,
      route g p c /\ fromTo p startKey endKey /\
      forall p' c', route g p' c' -> fromTo p' startKey endKey -> c <= c'.
Proof.
  induction fuel as [|fuel IH]; intros st p Hinv Hrun; [discriminate|].
  cbn [aStarLoop] in Hrun.
  destruct (openSet st) as [|o os] eqn:Eo; [discriminate|].
  rewrite <- Eo in Hrun.
  pose proof (pickLowest_spec (fScore st) (openSet st)) as Hpick.
  destruct (pickLowest (fScore st) (openSet st)) as [[current|] low];
    cbn [fst] in Hrun; [|discriminate].
  destruct Hpick as (Hcur & Hlow & (r & Hr) & Hmin).
  rewrite Hr in Hlow, Hmin. symmetry in Hlow.
  destruct (negb (JsString.truthy current)); [discriminate|].
  destruct (String.eqb current endKey) eqn:Ee.
  - apply String.eqb_eq in Ee. subst current.
    destruct (picked_is_optimal st endKey r Hinv Hcur Hlow Hmin)
      as (gend & Hgend & Hbest).
    destruct (reconstruct _ _ _ _) as [path| |] eqn:Hrec; cbn in Hrun;
      try discriminate.
    injection Hrun as <-.
    destruct (reconstruct_route st Hinv
                (S (List.length (closedSet st))) endKey [] 0 gend gend
                endKey path Hgend (route_one g endKey))
      as (Hroute & Hft); [lra | reflexivity | exact Hrec |].
    exists gend. auto.
  - assert (Hstep : match JsMap.get current g with
                    | Some currentNode =>
                        aStarLoop fuel g endKey endNode
                          (fold_left
                             (relax g endNode current
                                (gOrInfinity
                                   (gScore (closeCurrent st current))
                                   current))
                             (n_neighbors currentNode)
                             (closeCurrent st current))
                    | None =>
                        aStarLoop fuel g endKey endNode
                          (closeCurrent st current)
                    end
                    = aStarLoop fuel g endKey endNode
                        (expand g endNode st current)).
    { unfold expand. cbv zeta. now destruct (JsMap.get current g). }
    unfold closeCurrent in Hstep at 1 2 3. cbn [gScore] in Hstep.
    cbn [gScore] in Hrun. rewrite Hstep in Hrun.
    apply (IH _ p (expand_optimal st current r Hinv Hcur Hlow Hmin) Hrun).
Qed.

End Optimality.

Lemma initial_optimal (g : graph) (startKey : string)
  (startNode endNode : node) :
  JsMap.get startKey g = Some startNode ->
  optimalInvariant g startKey endNode settled
    (mkState [startKey] [] [] [(startKey, 0)]
       [(startKey, distance (n_centroid startNode) (n_centroid endNode))]).
Proof.
  intros Hs. unfold optimalInvariant, searchInvariant.
  cbn [openSet closedSet cameFrom gScore fScore JsMap.get In].
  rewrite String.eqb_refl.
  assert (Hx : forall (x : string) (gx : R),
             (if String.eqb x startKey then Some 0 else None) = Some gx ->
             x = startKey /\ gx = 0).
  { intros x gx H. destruct (String.eqb x startKey) eqn:E; [|discriminate].
    apply String.eqb_eq in E. injection H as <-. auto. }
  split.
  { split; [|split; [constructor|split; [tauto|discriminate]]].
    intros x [<-|[]]. split; [congruence | tauto]. }
  split; [reflexivity|]. split; [reflexivity|]. split; [now right|].
  split; [tauto|]. split; [|split; [tauto|split]].
  3: { split; [discriminate|]. split; [tauto|]. intros; tauto. }
  - intros x [<-|[]]. exists startNode, 0. rewrite String.eqb_refl.
    repeat split; auto. unfold heuristic. f_equal. lra.
  - intros x gx H. destruct (Hx x gx H) as (-> & ->). split; [|split].
    + exists [startKey]. split; [constructor | split; reflexivity].
    + left. now left.
    + now left.
Qed.

(** What holds of C1: on a graph in which every edge weighs at least
    the Euclidean distance between the centroids of its two nodes,
    [aStar] returns, and whenever it returns a path, the path leads from
    the start key to the end key along edges of the graph and its total
    edge weight does not exceed that of any path from the start key to
    the end key. *)
Theorem aStar_returns_least_weight (g : graph) (startKey endKey : string) :
  consistentWeights g ->
  (exists r, aStar g startKey endKey = Ok r) /\
  forall p,
    aStar g startKey endKey = Ok (Some p) ->
    exists c,
      route g p c /\ fromTo p startKey endKey /\
      forall p' c', route g p' c' -> fromTo p' startKey endKey -> c <= c'.
Proof.
  intros Hcons. split.
  - destruct (aStar_total g startKey endKey) as (r & Hr & _). eauto.
  - intros p Hrun. unfold aStar in Hrun.
    destruct (JsMap.get startKey g) as [startNode|] eqn:Es; [|discriminate].
    destruct (JsMap.get endKey g) as [endNode|] eqn:Ee; [|discriminate].
    cbv zeta in Hrun.
    apply (aStarLoop_optimal g startKey endNode Hcons endKey _ _ p
             (initial_optimal g startKey startNode endNode Es) Hrun).
Qed.

Lemma aStar_returns_least_weight_witness :
  consistentWeights oneEdge /\
  aStar oneEdge "A" "B" = Ok (Some ["A"; "B"]) /\
  exists c,
    route oneEdge ["A"; "B"] c /\ fromTo ["A"; "B"] "A" "B" /\
    forall p' c', route oneEdge p' c' -> fromTo p' "A" "B" -> c <= c'.
Proof.
  assert (Hcons : consistentWeights oneEdge).
  { intros u nu nb Hu Hnb. unfold oneEdge in Hu. cbn in Hu.
    destruct (String.eqb u "A").
    - injection Hu as <-. destruct Hnb as [<-|[]].
      eexists. split; [reflexivity|]. cbn. rewrite distance_horizontal.
      rewrite Rabs_left; lra.
    - destruct (String.eqb u "B"); [|discriminate].
      injection Hu as <-. destruct Hnb. }
  assert (H10 : Reqb 1 0 = false).
  { destruct (Reqb 1 0) eqn:E; [|reflexivity]. apply Reqb_true in E. lra. }
  assert (H010 : Reqb (0 + 1 + 0) 0 = false).
  { destruct (Reqb (0 + 1 + 0) 0) eqn:E; [|reflexivity].
    apply Reqb_true in E. lra. }
  assert (Hrun : aStar oneEdge "A" "B" = Ok (Some ["A"; "B"])).
  { unfold aStar, oneEdge.
    cbn [JsMap.get String.eqb Ascii.eqb Bool.eqb nodeAt n_centroid
           List.length].
    rewrite distance_horizontal.
    replace (Rabs (0 - 1)) with 1 by (rewrite Rabs_left; lra).
    cbn [aStarLoop openSet fScore closedSet cameFrom gScore pickLowest
           fold_left fOrInfinity JsMap.get String.eqb Ascii.eqb Bool.eqb].
    rewrite H10.
    cbn [ext_ltb snd fst JsString.truthy negb String.eqb Ascii.eqb Bool.eqb
           JsSet.delete JsSet.add JsSet.has existsb filter orb app
           n_neighbors nodeAt gOrInfinity JsMap.get fold_left relax
           nb_key nb_distance closedSet gScore openSet cameFrom fScore
           ext_add JsMap.set n_centroid].
    rewrite distance_self.
    cbn [pickLowest fold_left fOrInfinity JsMap.get String.eqb Ascii.eqb
           Bool.eqb].
    rewrite H010.
    cbn [ext_ltb snd fst JsString.truthy negb String.eqb Ascii.eqb Bool.eqb
           reconstruct List.length JsMap.get bind].
    reflexivity. }
  split; [exact Hcons|]. split; [exact Hrun|].
  exact (proj2 (aStar_returns_least_weight oneEdge "A" "B" Hcons)
           ["A"; "B"] Hrun).
Defined.


(** * Further properties of the room index and of the graph builder *)

(** ** Euclidean distance *)

Lemma distance_sym (p q : coord) : distance p q = distance q p.
Proof. unfold distance. f_equal. ring. Qed.

Lemma distance_zero (p q : coord) : distance p q = 0 -> p = q.
Proof.
  destruct p as [a b], q as [c d]. unfold distance. cbn [fst snd].
  cbv zeta. intros H.
  apply sqrt_eq_0 in H;
    [|pose proof (Rle_0_sqr (a - c)); pose proof (Rle_0_sqr (b - d));
      unfold Rsqr in *; lra].
  pose proof (Rle_0_sqr (a - c)) as Hc. pose proof (Rle_0_sqr (b - d)) as Hd.
  unfold Rsqr in Hc, Hd.
  assert (Ha : a - c = 0) by (apply Rsqr_0_uniq; unfold Rsqr; lra).
  assert (Hb : b - d = 0) by (apply Rsqr_0_uniq; unfold Rsqr; lra).
  f_equal; lra.
Qed.


(** ** Centroids *)










(** ** Room classes *)

Lemma prefix_trans (a b s : string) :
  String.prefix a b = true -> String.prefix b s = true ->
  String.prefix a s = true.
Proof.
  revert b s. induction a as [|c a IH]; intros b s Hab Hbs;
    [now destruct s|].
  destruct b as [|d b]; [discriminate|]. destruct s as [|e s]; [discriminate|].
  cbn in *. destruct (ascii_dec c d) as [->|]; [|discriminate].
  destruct (ascii_dec d e) as [->|]; [|discriminate]. eauto.
Qed.

Lemma includes_prefix (a b hay : string) :
  String.prefix a b = true ->
  JsString.includes b hay = true -> JsString.includes a hay = true.
Proof.
  intros Hab. induction hay as [|c hay IH]; cbn [JsString.includes]; intros H.
  - rewrite orb_false_r in *. now apply prefix_trans with b.
  - apply orb_true_iff in H as [H|H]; apply orb_true_iff.
    + left. now apply prefix_trans with b.
    + right. auto.
Qed.

(** X4: the corridor test of the graph builder and the corridor test of
    the directions generator accept the same names: a name with
    "hallway" has "hall" and a name with "passagem" has "passage", so
    both tests amount to looking for hall, corridor, corredor, lobby or
    passage in the lower-cased name. *)
Theorem isCorridor_tests_agree (name : string) :
  Pathfinding.isCorridor name = Directions.isCorridor name /\
  Pathfinding.isCorridor name =
  (let lower := JsString.toLowerCase name in
   JsString.includes "hall" lower || JsString.includes "corridor" lower ||
   JsString.includes "corredor" lower || JsString.includes "lobby" lower ||
   JsString.includes "passage" lower).
Proof.
  unfold Pathfinding.isCorridor, Directions.isCorridor. cbv zeta.
  set (l := JsString.toLowerCase name).
  pose proof (includes_prefix "hall" "hallway" l eq_refl) as Hh.
  pose proof (includes_prefix "passage" "passagem" l eq_refl) as Hp.
  destruct (JsString.includes "hall" l), (JsString.includes "hallway" l),
    (JsString.includes "passage" l), (JsString.includes "passagem" l),
    (JsString.includes "corridor" l), (JsString.includes "corredor" l),
    (JsString.includes "lobby" l); cbn; split; try reflexivity;
    try (specialize (Hh eq_refl); discriminate);
    try (specialize (Hp eq_refl); discriminate).
Qed.


(** ** The graph as a list of nodes *)

Lemma fold_set_fresh {A V : Type} (kf : A -> string) (vf : A -> V)
  (l : list A) (init : JsMap.t V) :
  NoDup (map kf l) ->
  (forall x, In x l -> ~ In (kf x) (JsMap.keys init)) ->
  fold_left (fun g x => JsMap.set (kf x) (vf x) g) l init
  = init ++ map (fun x => (kf x, vf x)) l.
Proof.
  revert init. induction l as [|a l IH]; intros init Hnd Hfresh.
  - cbn. now rewrite app_nil_r.
  - cbn [fold_left map]. inversion Hnd as [|? ? Ha Hl]; subst.
    rewrite set_absent.
    + rewrite IH; [now rewrite <- app_assoc | exact Hl |].
      intros x Hx. unfold JsMap.keys. rewrite map_app, in_app_iff.
      intros [H|[H|[]]].
      * apply (Hfresh x (or_intror Hx) H).
      * cbn in H. apply Ha. rewrite H. now apply in_map.
    + apply get_None_not_In. apply Hfresh. now left.
Qed.

Lemma buildRoomGraph_list (groups : JsMap.t room) (targetFloor : option Z) :
  distinctRooms groups ->
  let rooms := filterRooms (JsMap.values groups) targetFloor in
  buildRoomGraph groups targetFloor
  = map (fun r => (roomKeyOf r,
                   mkNode r (neighborsOf rooms r) (room_centroid r)
                     (Pathfinding.isCorridor (room_name r)))) rooms.
Proof.
  intros Hd rooms. unfold buildRoomGraph. fold rooms.
  pose proof (filterRooms_distinct groups targetFloor Hd) as Hnd.
  fold rooms in Hnd.
  apply (fold_set_fresh roomKeyOf
           (fun r => mkNode r (neighborsOf rooms r) (room_centroid r)
                       (Pathfinding.isCorridor (room_name r)))
           rooms [] Hnd).
  intros x _ [].
Qed.

Lemma get_map_node {V : Type} (l : list room) (vf : room -> V) (k : string)
  (v : V) :
  JsMap.get k (map (fun r => (roomKeyOf r, vf r)) l) = Some v ->
  exists r, In r l /\ k = roomKeyOf r /\ v = vf r.
Proof.
  induction l as [|a l IH]; cbn; [discriminate|].
  destruct (String.eqb k (roomKeyOf a)) eqn:E.
  - intros [= <-]. apply String.eqb_eq in E. exists a. auto.
  - intros H. destruct (IH H) as (r & Hr & Hk & Hv). exists r. auto.
Qed.

Lemma buildRoomGraph_nodes_aux (groups : JsMap.t room)
  (targetFloor : option Z) :
  distinctRooms groups ->
  JsMap.keys (buildRoomGraph groups targetFloor)
  = map roomKeyOf (filterRooms (JsMap.values groups) targetFloor) /\
  NoDup (JsMap.keys (buildRoomGraph groups targetFloor)) /\
  JsMap.get "" (buildRoomGraph groups targetFloor) = None.
Proof.
  intros Hd. pose proof (buildRoomGraph_list groups targetFloor Hd) as Hg.
  cbv zeta in Hg.
  pose proof (filterRooms_distinct groups targetFloor Hd) as Hnd.
  assert (Hk : JsMap.keys (buildRoomGraph groups targetFloor)
               = map roomKeyOf (filterRooms (JsMap.values groups) targetFloor)).
  { rewrite Hg. unfold JsMap.keys. rewrite map_map. reflexivity. }
  split; [exact Hk|]. split; [now rewrite Hk|].
  apply get_None_not_In. rewrite Hk. intros H.
  apply in_map_iff in H as (r & Hr & _). unfold roomKeyOf, roomKey in Hr.
  destruct (room_name r); discriminate.
Qed.

(** X5: the graph holds exactly one node for every navigable room of the
    index (of the target floor, when one is given), in the order of the
    index and under the key of the room; a node carries the centroid
    and the corridor class of its room. *)
Theorem buildRoomGraph_nodes (groups : JsMap.t room) (targetFloor : option Z) :
  distinctRooms groups ->
  let g := buildRoomGraph groups targetFloor in
  JsMap.keys g
  = map roomKeyOf (filterRooms (JsMap.values groups) targetFloor) /\
  NoDup (JsMap.keys g) /\
  (forall r, In r (JsMap.values groups) ->
     (exists nd, JsMap.get (roomKeyOf r) g = Some nd) <->
     isNavigableRoom (room_name r) = true /\
     (forall fl, targetFloor = Some fl -> room_floor r = fl)) /\
  (forall k nd, JsMap.get k g = Some nd ->
     In (n_room nd) (JsMap.values groups) /\
     k = roomKeyOf (n_room nd) /\
     n_centroid nd = room_centroid (n_room nd) /\
     n_isCorridor nd = Pathfinding.isCorridor (room_name (n_room nd))).
Proof.
  intros Hd g. pose proof (buildRoomGraph_list groups targetFloor Hd) as Hg.
  cbv zeta in Hg. fold g in Hg.
  pose proof (filterRooms_distinct groups targetFloor Hd) as Hnd.
  assert (Hk : JsMap.keys g
               = map roomKeyOf (filterRooms (JsMap.values groups) targetFloor)).
  { rewrite Hg. unfold JsMap.keys. rewrite map_map. reflexivity. }
  split; [exact Hk|]. split; [now rewrite Hk|]. split.
  - intros r Hr. split.
    + intros (nd & Hnd'). rewrite Hg in Hnd'.
      apply get_map_node in Hnd' as (r' & Hr' & Hkey & _).
      assert (r = r').
      { apply (NoDup_map_inj roomKeyOf (JsMap.values groups)); auto.
        apply filterRooms_In in Hr'. tauto. }
      subst r'. apply filterRooms_In in Hr'. tauto.
    + intros (Hnav & Hfl). eexists. apply graph_node; [exact Hd|].
      apply filterRooms_In. auto.
  - intros k nd Hget. rewrite Hg in Hget.
    apply get_map_node in Hget as (r & Hr & -> & ->). cbn.
    apply filterRooms_In in Hr. tauto.
Qed.

Lemma buildRoomGraph_nodes_witness :
  JsMap.keys (buildRoomGraph adjacentRooms None) = ["A_F0"; "B_F0"].
Proof.
  assert (Hd : distinctRooms adjacentRooms) by distinct_keys.
  rewrite (proj1 (buildRoomGraph_nodes adjacentRooms None Hd)).
  reflexivity.
Defined.


(** ** The edges of the graph *)

Lemma sameFloorRule_bounds (a b : bool) :
  0 < fst (sameFloorRule a b) <= 0.05 /\
  0.8 <= snd (sameFloorRule a b) <= 1.2 /\
  sameFloorRule a b = sameFloorRule b a.
Proof. destruct a, b; cbn; repeat split; lra. Qed.

Lemma connect_fields (r o : room) (nb : neighbor) :
  connect r o = Some nb ->
  let dist := distance (room_centroid r) (room_centroid o) in
  nb_key nb = roomKeyOf o /\ nb_name nb = room_name o /\
  nb_floor nb = room_floor o /\
  nb_isCorridor nb = Pathfinding.isCorridor (room_name o) /\
  roomKeyOf o <> roomKeyOf r /\
  (Z.abs (room_floor r - room_floor o) <= 1)%Z /\
  0 < dist < 0.05 /\
  0.8 * dist <= nb_distance nb <= 2 * dist.
Proof.
  intros H dist. unfold connect in H.
  destruct (String.eqb (room_name r) (room_name o) &&
            Z.eqb (room_floor r) (room_floor o)) eqn:Esame; [discriminate|].
  assert (Hkey : roomKeyOf o <> roomKeyOf r).
  { unfold roomKeyOf. intros E. apply roomKey_inj in E as [En Ef].
    rewrite En, Ef, String.eqb_refl, Z.eqb_refl in Esame. discriminate. }
  destruct (Z.eqb (room_floor r) (room_floor o)) eqn:Ef.
  - cbv zeta in H. fold dist in H.
    pose proof (sameFloorRule_bounds (Pathfinding.isCorridor (room_name r))
                  (Pathfinding.isCorridor (room_name o)))
      as ((Ht1 & Ht2) & (Hm1 & Hm2) & _).
    destruct (Rltb dist _ && Rltb 0 dist) eqn:Eg; [|discriminate].
    apply andb_true_iff in Eg as [E1 E2].
    apply Rltb_true in E1, E2. apply Z.eqb_eq in Ef.
    injection H as <-. cbn. repeat split; auto; try nra.
    rewrite Ef. rewrite Z.sub_diag. cbn. lia.
  - destruct (Z.eqb (Z.abs (room_floor r - room_floor o)) 1) eqn:Eabs;
      [|discriminate].
    destruct (isVerticalConnector (room_name r) ||
              isVerticalConnector (room_name o)); [|discriminate].
    cbv zeta in H. fold dist in H.
    destruct (Rltb dist 0.02 && Rltb 0 dist) eqn:Eg; [|discriminate].
    apply andb_true_iff in Eg as [E1 E2].
    apply Rltb_true in E1, E2. apply Z.eqb_eq in Eabs.
    injection H as <-. cbn. repeat split; auto; try nra. lia.
Qed.

Lemma connect_sym (r o : room) (nb : neighbor) :
  connect r o = Some nb ->
  exists nb', connect o r = Some nb' /\ nb_distance nb' = nb_distance nb.
Proof.
  unfold connect.
  rewrite (String.eqb_sym (room_name o)), (Z.eqb_sym (room_floor o)).
  rewrite (distance_sym (room_centroid o)).
  rewrite (proj2 (proj2 (sameFloorRule_bounds
                           (Pathfinding.isCorridor (room_name o))
                           (Pathfinding.isCorridor (room_name r))))).
  replace (Z.abs (room_floor o - room_floor r))
    with (Z.abs (room_floor r - room_floor o)) by lia.
  rewrite (orb_comm (isVerticalConnector (room_name o))).
  cbv zeta.
  destruct (String.eqb (room_name r) (room_name o) &&
            Z.eqb (room_floor r) (room_floor o)); [discriminate|].
  destruct (Z.eqb (room_floor r) (room_floor o)).
  - destruct (Rltb _ _ && Rltb 0 _); [|discriminate].
    intros [= <-]. eexists. split; reflexivity.
  - destruct (Z.eqb (Z.abs (room_floor r - room_floor o)) 1);
      [|discriminate].
    destruct (isVerticalConnector (room_name r) ||
              isVerticalConnector (room_name o)); [|discriminate].
    destruct (Rltb _ _ && Rltb 0 _); [|discriminate].
    intros [= <-]. eexists. split; reflexivity.
Qed.

Lemma neighborsOf_distinct (rooms : list room) (r : room) :
  NoDup (map roomKeyOf rooms) -> NoDup (map nb_key (neighborsOf rooms r)).
Proof.
  unfold neighborsOf. induction rooms as [|o rooms IH]; intros Hnd.
  - constructor.
  - cbn [flat_map map] in *. inversion Hnd as [|? ? Ho Hrest]; subst.
    destruct (connect r o) as [nb|] eqn:Ec; cbn [app map]; [|auto].
    constructor; [|auto]. intros Hin.
    apply in_map_iff in Hin as (nb' & Hk & Hin).
    apply (neighborsOf_In rooms r nb') in Hin as (o' & Ho' & Hc').
    apply connect_key in Ec, Hc'. apply Ho.
    rewrite <- Ec, <- Hk, Hc'. now apply in_map.
Qed.

Lemma graph_edge (groups : JsMap.t room) (targetFloor : option Z)
  (k : string) (nd : node) (nb : neighbor) :
  distinctRooms groups ->
  JsMap.get k (buildRoomGraph groups targetFloor) = Some nd ->
  In nb (n_neighbors nd) ->
  let rooms := filterRooms (JsMap.values groups) targetFloor in
  exists r o,
    In r rooms /\ In o rooms /\ k = roomKeyOf r /\ connect r o = Some nb /\
    nd = mkNode r (neighborsOf rooms r) (room_centroid r)
           (Pathfinding.isCorridor (room_name r)) /\
    JsMap.get (roomKeyOf o) (buildRoomGraph groups targetFloor)
    = Some (mkNode o (neighborsOf rooms o) (room_centroid o)
              (Pathfinding.isCorridor (room_name o))).
Proof.
  intros Hd Hget Hnb rooms.
  rewrite (buildRoomGraph_list groups targetFloor Hd) in Hget.
  apply get_map_node in Hget as (r & Hr & -> & ->). cbn in Hnb.
  apply neighborsOf_In in Hnb as (o & Ho & Hc).
  exists r, o. repeat split; auto. now apply graph_node.
Qed.

(** X6: every edge of the graph leads to another node of the graph, whose
    room has the name, the floor and the corridor class recorded in the
    edge; the two rooms are at most one floor and less than 0.05 apart,
    at different centroids, and the weight of the edge is between 0.8
    and 2 times their centroid distance.  A node has at most one edge
    to any other node. *)
Theorem buildRoomGraph_edges (groups : JsMap.t room) (targetFloor : option Z)
  (k : string) (nd : node) :
  distinctRooms groups ->
  JsMap.get k (buildRoomGraph groups targetFloor) = Some nd ->
  NoDup (map nb_key (n_neighbors nd)) /\
  forall nb, In nb (n_neighbors nd) ->
    nb_key nb <> k /\
    (Z.abs (room_floor (n_room nd) - nb_floor nb) <= 1)%Z /\
    exists nd',
      JsMap.get (nb_key nb) (buildRoomGraph groups targetFloor) = Some nd' /\
      nb_name nb = room_name (n_room nd') /\
      nb_floor nb = room_floor (n_room nd') /\
      nb_isCorridor nb = n_isCorridor nd' /\
      0 < distance (n_centroid nd) (n_centroid nd') < 0.05 /\
      0.8 * distance (n_centroid nd) (n_centroid nd') <= nb_distance nb
      <= 2 * distance (n_centroid nd) (n_centroid nd').
Proof.
  intros Hd Hget. split.
  - pose proof Hget as Hget'.
    rewrite (buildRoomGraph_list groups targetFloor Hd) in Hget'.
    apply get_map_node in Hget' as (r & Hr & -> & ->). cbn.
    apply neighborsOf_distinct. now apply filterRooms_distinct.
  - intros nb Hnb.
    destruct (graph_edge groups targetFloor k nd nb Hd Hget Hnb)
      as (r & o & Hr & Ho & -> & Hc & -> & Hgo).
    destruct (connect_fields r o nb Hc)
      as (Hk & Hn & Hf & Hic & Hne & Habs & Hdist & Hw).
    rewrite Hk. split; [exact Hne|]. cbn [n_room]. rewrite Hf.
    split; [exact Habs|]. eexists. split; [exact Hgo|]. cbn. auto.
Qed.

Lemma buildRoomGraph_edges_witness :
  exists nd,
    JsMap.get "A_F0" (buildRoomGraph adjacentRooms None) = Some nd /\
    NoDup (map nb_key (n_neighbors nd)).
Proof.
  assert (Hd : distinctRooms adjacentRooms) by distinct_keys.
  assert (Hin : In (roomAt "A" 0 (0, 0))
                 (filterRooms (JsMap.values adjacentRooms) None))
    by in_all_floors.
  pose proof (graph_node adjacentRooms None _ Hd Hin) as Hn.
  eexists. split; [exact Hn|].
  exact (proj1 (buildRoomGraph_edges adjacentRooms None "A_F0" _ Hd Hn)).
Defined.

(** X7: the graph is undirected: an edge from one node to another is
    matched by an edge of the same weight in the other direction. *)
Theorem buildRoomGraph_symmetric (groups : JsMap.t room)
  (targetFloor : option Z) (u v : string) (w : R) :
  distinctRooms groups ->
  edge (buildRoomGraph groups targetFloor) u v w ->
  edge (buildRoomGraph groups targetFloor) v u w.
Proof.
  intros Hd (nu & nb & Hu & Hnb & <- & <-).
  destruct (graph_edge groups targetFloor u nu nb Hd Hu Hnb)
    as (r & o & Hr & Ho & -> & Hc & -> & Hgo).
  destruct (connect_sym r o nb Hc) as (nb' & Hc' & Hw).
  rewrite (connect_key r o nb Hc).
  eexists. exists nb'. split; [exact Hgo|]. cbn [n_neighbors].
  split; [apply neighborsOf_In; eauto|].
  split; [now apply connect_key in Hc' | exact Hw].
Qed.

Lemma adjacentRooms_edge :
  edge (buildRoomGraph adjacentRooms None) "A_F0" "B_F0" (0.01 * 1.2).
Proof.
  assert (Hd : distinctRooms adjacentRooms) by distinct_keys.
  assert (Hin : In (roomAt "A" 0 (0, 0))
                  (filterRooms (JsMap.values adjacentRooms) None))
    by in_all_floors.
  pose proof (graph_node adjacentRooms None _ Hd Hin) as Hn.
  eexists. eexists. split; [exact Hn|]. cbn [n_neighbors].
  assert (Hc : connect (roomAt "A" 0 (0, 0)) (roomAt "B" 0 (0.01, 0))
               = Some (mkNeighbor "B_F0" "B" 0 (0.01 * 1.2) false)).
  { rewrite connect_same_floor; [|reflexivity|discriminate].
    cbn [roomAt room_centroid room_name room_floor]. cbv zeta.
    rewrite distance_horizontal.
    replace (Rabs (0 - 0.01)) with 0.01 by (rewrite Rabs_left; lra).
    replace (Pathfinding.isCorridor "A") with false by reflexivity.
    replace (Pathfinding.isCorridor "B") with false by reflexivity.
    cbn [sameFloorRule andb orb fst snd].
    assert (H1 : Rltb 0.01 0.015 = true) by (apply Rltb_true; lra).
    assert (H2 : Rltb 0 0.01 = true) by (apply Rltb_true; lra).
    rewrite H1, H2. reflexivity. }
  split; [apply neighborsOf_In; eexists; split; [|exact Hc]; in_all_floors|].
  split; reflexivity.
Qed.

Lemma buildRoomGraph_symmetric_witness :
  edge (buildRoomGraph adjacentRooms None) "B_F0" "A_F0" (0.01 * 1.2).
Proof.
  apply buildRoomGraph_symmetric; [distinct_keys | exact adjacentRooms_edge].
Defined.


(** ** Graphs without corridors *)

Lemma connect_weight_without_corridor (r o : room) (nb : neighbor) :
  connect r o = Some nb ->
  Pathfinding.isCorridor (room_name r) = false ->
  Pathfinding.isCorridor (room_name o) = false ->
  distance (room_centroid r) (room_centroid o) <= nb_distance nb.
Proof.
  intros H Hr Ho. unfold connect in H. rewrite Hr, Ho in H.
  pose proof (distance_nonneg (room_centroid r) (room_centroid o)) as Hd.
  destruct (String.eqb (room_name r) (room_name o) &&
            Z.eqb (room_floor r) (room_floor o)); [discriminate|].
  destruct (Z.eqb (room_floor r) (room_floor o)).
  - cbn [sameFloorRule andb orb fst snd] in H. cbv zeta in H.
    destruct (Rltb _ _ && Rltb 0 _); [|discriminate].
    injection H as <-. cbn. lra.
  - destruct (Z.eqb (Z.abs (room_floor r - room_floor o)) 1);
      [|discriminate].
    destruct (isVerticalConnector (room_name r) ||
              isVerticalConnector (room_name o)); [|discriminate].
    cbv zeta in H. destruct (Rltb _ _ && Rltb 0 _); [|discriminate].
    injection H as <-. cbn. lra.
Qed.





(** * Further properties of the search *)

(** ** Searches that end without a path *)

Lemma aStar_coincident (g : graph) (startKey endKey : string)
  (startNode endNode : node) :
  JsMap.get startKey g = Some startNode ->
  JsMap.get endKey g = Some endNode ->
  n_centroid startNode = n_centroid endNode ->
  aStar g startKey endKey = Ok None.
Proof.
  intros Hs He Hc. unfold aStar. rewrite Hs, He. cbv zeta.
  rewrite Hc, distance_self.
  cbn [aStarLoop openSet fScore pickLowest fold_left fOrInfinity JsMap.get].
  unfold fOrInfinity. cbn [JsMap.get]. rewrite String.eqb_refl.
  assert (H0 : Reqb 0 0 = true) by now apply Reqb_true.
  rewrite H0. reflexivity.
Qed.

Lemma aStar_same_key (g : graph) (key : string) : aStar g key key = Ok None.
Proof.
  destruct (JsMap.get key g) as [nd|] eqn:E.
  - now apply (aStar_coincident g key key nd nd).
  - unfold aStar. now rewrite E.
Qed.

(** X9: the search answers [null] when the start key or the end key is not
    a node of the graph, and also when the start node and the end node
    have the same centroid: the f-score of the start is then [0], which
    the scan of the open set reads as [Infinity], so that no node is
    picked.  In particular the search from a node to itself answers
    [null] and not the one-node path. *)
Theorem aStar_null_without_search (g : graph) (startKey endKey : string) :
  (JsMap.get startKey g = None \/ JsMap.get endKey g = None ->
   aStar g startKey endKey = Ok None) /\
  (forall startNode endNode,
     JsMap.get startKey g = Some startNode ->
     JsMap.get endKey g = Some endNode ->
     n_centroid startNode = n_centroid endNode ->
     aStar g startKey endKey = Ok None) /\
  aStar g startKey startKey = Ok None.
Proof.
  split; [|split].
  - unfold aStar. intros [-> | H]; [reflexivity|].
    rewrite H. now destruct (JsMap.get startKey g).
  - apply aStar_coincident.
  - apply aStar_same_key.
Qed.


(** ** The shape of a returned path *)

Lemma relax_path (g : graph) (endNode : node) (startKey current : string)
  (currentNode : node) (currentG : ext) (st : astate) (nb : neighbor) :
  pathInvariant g startKey st ->
  In startKey (closedSet st) -> In current (closedSet st) ->
  JsMap.get current g = Some currentNode ->
  In nb (n_neighbors currentNode) ->
  pathInvariant g startKey (relax g endNode current currentG st nb).
Proof.
  intros (Hinv & Hs & Hsc & Hpred & Hedge) Hstart Hcur Hnode Hnb.
  pose proof (relax_invariant g endNode current currentG st nb Hinv Hcur)
    as Hinv'.
  destruct (relax_cases g endNode current currentG st nb)
    as (Eclosed & [(E & _) | (c & _ & Hnc & _ & Ecf & _ & Hrest)]).
  { rewrite E. exact (conj Hinv (conj Hs (conj Hsc (conj Hpred Hedge)))). }
  assert (Hne : nb_key nb <> startKey) by congruence.
  split; [exact Hinv'|]. rewrite Eclosed, Ecf.
  split; [now rewrite get_set_other|]. split; [now left|]. split.
  - intros x Hx.
    destruct (String.eqb (nb_key nb) x) eqn:E.
    + apply String.eqb_eq in E. subst x. right. exists current.
      apply get_set_same.
    + apply String.eqb_neq in E. rewrite get_set_other by assumption.
      apply Hpred. destruct Hx as [Hx|Hx]; [|now right].
      destruct Hrest as [(_ & Eo & _) | (nn & _ & Eo & _)];
        rewrite Eo in Hx; [now left|].
      apply set_add_In in Hx. destruct Hx as [->|Hx]; [congruence|now left].
  - intros v u Hv.
    destruct (String.eqb (nb_key nb) v) eqn:E.
    + apply String.eqb_eq in E. subst v. rewrite get_set_same in Hv.
      injection Hv as <-. exists (nb_distance nb), currentNode, nb. auto.
    + apply String.eqb_neq in E. rewrite get_set_other in Hv by assumption.
      now apply Hedge.
Qed.

Lemma relax_fold_path (g : graph) (endNode : node)
  (startKey current : string) (currentNode : node) (currentG : ext)
  (nbs : list neighbor) (st : astate) :
  pathInvariant g startKey st ->
  In startKey (closedSet st) -> In current (closedSet st) ->
  JsMap.get current g = Some currentNode ->
  (forall nb, In nb nbs -> In nb (n_neighbors currentNode)) ->
  pathInvariant g startKey
    (fold_left (relax g endNode current currentG) nbs st).
Proof.
  revert st. induction nbs as [|nb nbs IH]; intros st Hinv Hs Hc Hn Hsub;
    [exact Hinv|].
  cbn [fold_left].
  assert (Ecl : closedSet (relax g endNode current currentG st nb)
                = closedSet st)
    by apply (relax_cases g endNode current currentG st nb).
  apply IH; try (rewrite Ecl; assumption); auto.
  - apply (relax_path g endNode startKey current currentNode); auto.
    apply Hsub. now left.
  - intros nb' H. apply Hsub. now right.
Qed.

Lemma closeCurrent_path (g : graph) (startKey : string) (st : astate)
  (current : string) :
  pathInvariant g startKey st -> In current (openSet st) ->
  pathInvariant g startKey (closeCurrent st current) /\
  In startKey (closedSet (closeCurrent st current)) /\
  In current (closedSet (closeCurrent st current)).
Proof.
  intros (Hinv & Hs & Hsc & Hpred & Hedge) Hcur.
  destruct (closeCurrent_invariant g st current Hinv Hcur) as (Hi & Ec).
  assert (Hin : In startKey (closedSet (closeCurrent st current))).
  { rewrite Ec. apply in_or_app. destruct Hsc as [H|H]; [now left|].
    rewrite H in Hcur. destruct Hcur as [<-|[]]. right. now left. }
  split; [|split; [exact Hin|rewrite Ec; apply in_or_app; right; now left]].
  split; [exact Hi|]. split; [exact Hs|]. split; [now left|].
  split; [|exact Hedge].
  intros x Hx. apply Hpred. rewrite Ec in Hx. cbn [closeCurrent openSet] in Hx.
  destruct Hx as [Hx|Hx].
  - apply set_delete_In in Hx. tauto.
  - apply in_app_or in Hx. destruct Hx as [Hx|[<-|[]]]; auto.
Qed.

Lemma expand_path (g : graph) (endNode : node) (startKey : string)
  (st : astate) (current : string) :
  pathInvariant g startKey st -> In current (openSet st) ->
  pathInvariant g startKey (expand g endNode st current).
Proof.
  intros Hinv Hcur.
  destruct (closeCurrent_path g startKey st current Hinv Hcur)
    as (Hi & Hs & Hc).
  unfold expand. cbv zeta.
  destruct (JsMap.get current g) as [nd|] eqn:E; [|exact Hi].
  apply (relax_fold_path g endNode startKey current nd); auto.
Qed.

Lemma reconstruct_simple (g : graph) (startKey : string) (st : astate) :
  pathInvariant g startKey st ->
  forall (n : nat) (l1 : list string) (v : string) (l2 rest : list string)
         (c : R) (p : list string),
    closedSet st = l1 ++ v :: l2 ->
    route g (v :: rest) c -> NoDup (v :: rest) ->
    (forall k, In k (v :: rest) -> ~ In k l1) ->
    reconstruct n (cameFrom st) v (v :: rest) = Ok p ->
    (exists c', route g p c') /\
    fromTo p startKey (last (v :: rest) startKey) /\ NoDup p.
Proof.
  intros ((_ & Hnd & _ & Hcf) & Hs & _ & Hpred & Hedge).
  assert (Hstop : forall l1 v l2 rest c p,
             closedSet st = l1 ++ v :: l2 ->
             route g (v :: rest) c -> NoDup (v :: rest) ->
             JsMap.get v (cameFrom st) = None ->
             Ok (v :: rest) = Ok p ->
             (exists c', route g p c') /\
             fromTo p startKey (last (v :: rest) startKey) /\ NoDup p).
  { intros l1 v l2 rest c p Hcl Hroute Hnodup Hv [= <-].
    assert (v = startKey) as ->.
    { destruct (Hpred v) as [->|(u & Hu)]; [|reflexivity|congruence].
      right. rewrite Hcl. apply in_or_app. right. now left. }
    split; [eauto|]. split; [split; reflexivity | exact Hnodup]. }
  induction n as [|n IH]; intros l1 v l2 rest c p Hcl Hroute Hnodup Hout Hrec.
  - cbn in Hrec. destruct (JsMap.get v (cameFrom st)) as [u|] eqn:Hv;
      [discriminate|]. eapply Hstop; eauto.
  - cbn [reconstruct] in Hrec.
    destruct (JsMap.get v (cameFrom st)) as [u|] eqn:Hv;
      [|eapply Hstop; eauto].
    destruct (Hcf v u Hv) as (_ & Hbefore).
    destruct Hbefore as (m1 & m2 & m3 & Hm).
    { rewrite Hcl. apply in_or_app. right. now left. }
    assert (Hl1 : l1 = m1 ++ u :: m2).
    { apply (NoDup_position v l1 l2 _ m3); [now rewrite <- Hcl|].
      rewrite <- Hcl, Hm, <- app_assoc. reflexivity. }
    destruct (Hedge v u Hv) as (w & Hw).
    assert (Hu1 : ~ In u m1).
    { rewrite Hm in Hnd. apply NoDup_remove_2 in Hnd. intros H. apply Hnd.
      apply in_or_app. now left. }
    destruct (IH m1 u (m2 ++ v :: m3) (v :: rest) (w + c) p) as (Hr & Hft & Hn).
    + exact Hm.
    + now constructor.
    + constructor; [|exact Hnodup]. intros Hin. apply (Hout u Hin).
      rewrite Hl1. apply in_or_app. right. now left.
    + intros k [<-|Hk]; [exact Hu1|]. intros Hin. apply (Hout k Hk).
      rewrite Hl1. apply in_or_app. now left.
    + exact Hrec.
    + split; [exact Hr|]. split; [|exact Hn].
      destruct Hft as (Hh & Hl). split; [exact Hh|]. rewrite Hl.
      reflexivity.
Qed.

Lemma aStarLoop_simple (g : graph) (startKey endKey : string)
  (endNode : node) :
  forall (fuel : nat) (st : astate) (p : list string),
    pathInvariant g startKey st ->
    aStarLoop fuel g endKey endNode st = Ok (Some p) ->
    (exists c, route g p c) /\ fromTo p startKey endKey /\ NoDup p.
Proof.
  induction fuel as [|fuel IH]; intros st p Hinv Hrun; [discriminate|].
  cbn [aStarLoop] in Hrun.
  destruct (openSet st) as [|o os] eqn:Eo; [discriminate|].
  rewrite <- Eo in Hrun.
  pose proof (pickLowest_spec (fScore st) (openSet st)) as Hpick.
  destruct (pickLowest (fScore st) (openSet st)) as [[current|] low];
    cbn [fst] in Hrun; [|discriminate].
  destruct Hpick as (Hcur & _).
  destruct (negb (JsString.truthy current)); [discriminate|].
  destruct (String.eqb current endKey) eqn:Ee.
  - apply String.eqb_eq in Ee. subst current.
    destruct (reconstruct _ _ _ _) as [path| |] eqn:Hrec; cbn in Hrun;
      try discriminate.
    injection Hrun as <-.
    pose proof Hinv as ((Hopen & Hnd & _ & Hcf) & Hs & _ & Hpred & Hedge).
    destruct (Hopen endKey Hcur) as (_ & Hnc).
    cbn [reconstruct] in Hrec.
    destruct (JsMap.get endKey (cameFrom st)) as [u|] eqn:Hv.
    + destruct (Hcf endKey u Hv) as (Hu & _).
      destruct (in_split u (closedSet st) Hu) as (l1 & l2 & Hcl).
      destruct (Hedge endKey u Hv) as (w & Hw).
      destruct (reconstruct_simple g startKey st Hinv
                  (List.length (closedSet st)) l1 u l2 [endKey] (w + 0) path
                  Hcl) as (Hr & Hft & Hn); auto.
      * constructor; [exact Hw | constructor].
      * constructor; [|constructor; [intros []|constructor]].
        intros [<-|[]]. contradiction.
      * intros k [<-|[<-|[]]] Hin.
        -- rewrite Hcl in Hnd. apply NoDup_remove_2 in Hnd. apply Hnd.
           apply in_or_app. now left.
        -- apply Hnc. rewrite Hcl. apply in_or_app. now left.
    + injection Hrec as <-.
      assert (endKey = startKey) as ->.
      { destruct (Hpred endKey) as [->|(u & Hu)]; [now left|reflexivity|].
        congruence. }
      split; [exists 0; constructor|]. split; [split; reflexivity|].
      constructor; [intros []|constructor].
  - assert (Hstep : match JsMap.get current g with
                    | Some currentNode =>
                        aStarLoop fuel g endKey endNode
                          (fold_left
                             (relax g endNode current
                                (gOrInfinity
                                   (gScore (closeCurrent st current))
                                   current))
                             (n_neighbors currentNode)
                             (closeCurrent st current))
                    | None =>
                        aStarLoop fuel g endKey endNode
                          (closeCurrent st current)
                    end
                    = aStarLoop fuel g endKey endNode
                        (expand g endNode st current)).
    { unfold expand. cbv zeta. now destruct (JsMap.get current g). }
    unfold closeCurrent in Hstep at 1 2 3. cbn [gScore] in Hstep.
    cbn [gScore] in Hrun. rewrite Hstep in Hrun.
    apply (IH _ p (expand_path g endNode startKey st current Hinv Hcur) Hrun).
Qed.

Lemma initial_path (g : graph) (startKey : string) (h : R) :
  JsMap.get startKey g <> None ->
  pathInvariant g startKey
    (mkState [startKey] [] [] [(startKey, 0)] [(startKey, h)]).
Proof.
  intros Hs. unfold pathInvariant, searchInvariant.
  cbn [openSet closedSet cameFrom gScore fScore JsMap.get In].
  split.
  { split; [|split; [constructor|split; [tauto|discriminate]]].
    intros x [<-|[]]. tauto. }
  split; [reflexivity|]. split; [now right|]. split; [|discriminate].
  intros x [[<-|[]]|[]]. now left.
Qed.

Lemma aStar_simple (g : graph) (startKey endKey : string) (p : list string) :
  aStar g startKey endKey = Ok (Some p) ->
  (exists c, route g p c) /\ fromTo p startKey endKey /\ NoDup p /\
  startKey <> endKey.
Proof.
  intros Hrun.
  assert (Hne : startKey <> endKey).
  { intros ->. rewrite aStar_same_key in Hrun. discriminate. }
  unfold aStar in Hrun.
  destruct (JsMap.get startKey g) as [startNode|] eqn:Es; [|discriminate].
  destruct (JsMap.get endKey g) as [endNode|] eqn:Ee; [|discriminate].
  cbv zeta in Hrun.
  destruct (aStarLoop_simple g startKey endKey endNode _ _ p
              (initial_path g startKey _ ltac:(congruence)) Hrun)
    as (Hr & Hft & Hn).
  auto.
Qed.

(** X10: on every graph, a path that the search returns leads from the start
    key to the end key along edges of the graph, visits no node twice,
    holds nodes of the graph only and has at least two nodes. *)
Theorem aStar_path_is_simple (g : graph) (startKey endKey : string)
  (p : list string) :
  aStar g startKey endKey = Ok (Some p) ->
  (exists c, route g p c) /\
  fromTo p startKey endKey /\
  NoDup p /\
  (forall k, In k p -> JsMap.get k g <> None) /\
  (2 <= List.length p)%nat.
Proof.
  intros Hrun.
  destruct (aStar_simple g startKey endKey p Hrun) as (Hr & Hft & Hn & Hne).
  split; [exact Hr|]. split; [exact Hft|]. split; [exact Hn|]. split.
  - destruct (aStar_total g startKey endKey) as (r & Hr' & Hk).
    rewrite Hrun in Hr'. injection Hr' as <-. now apply Hk.
  - destruct Hft as (Hh & Hl).
    destruct p as [|a [|b p]]; cbn in *; [discriminate| |lia].
    injection Hh as ->. congruence.
Qed.


(** ** Searches that must find a path *)

Lemma oneEdge_run : aStar oneEdge "A" "B" = Ok (Some ["A"; "B"]).
Proof.
  assert (H10 : Reqb 1 0 = false).
  { destruct (Reqb 1 0) eqn:E; [|reflexivity]. apply Reqb_true in E. lra. }
  assert (H010 : Reqb (0 + 1 + 0) 0 = false).
  { destruct (Reqb (0 + 1 + 0) 0) eqn:E; [|reflexivity].
    apply Reqb_true in E. lra. }
  unfold aStar, oneEdge.
  cbn [JsMap.get String.eqb Ascii.eqb Bool.eqb nodeAt n_centroid List.length].
  rewrite distance_horizontal.
  replace (Rabs (0 - 1)) with 1 by (rewrite Rabs_left; lra).
  cbn [aStarLoop openSet fScore closedSet cameFrom gScore pickLowest
         fold_left fOrInfinity JsMap.get String.eqb Ascii.eqb Bool.eqb].
  rewrite H10.
  cbn [ext_ltb snd fst JsString.truthy negb String.eqb Ascii.eqb Bool.eqb
         JsSet.delete JsSet.add JsSet.has existsb filter orb app
         n_neighbors nodeAt gOrInfinity JsMap.get fold_left relax
         nb_key nb_distance closedSet gScore openSet cameFrom fScore
         ext_add JsMap.set n_centroid].
  rewrite distance_self.
  cbn [pickLowest fold_left fOrInfinity JsMap.get String.eqb Ascii.eqb
         Bool.eqb].
  rewrite H010.
  cbn [ext_ltb snd fst JsString.truthy negb String.eqb Ascii.eqb Bool.eqb
         reconstruct List.length JsMap.get bind].
  reflexivity.
Qed.

Lemma ext_ltb_Infinity (x : R) (e : ext) :
  ext_ltb (Fin x) e = false -> exists y, e = Fin y.
Proof. destruct e; [eauto | discriminate]. Qed.

Lemma relax_reach (g : graph) (endNode : node) (startKey current : string)
  (currentNode : node) (gcur : R) (st : astate) (nb : neighbor)
  (rest : list neighbor) :
  positiveWeights g ->
  reachInvariant g startKey (pendingOf current (nb :: rest)) st ->
  In current (closedSet st) -> 0 <= gcur ->
  JsMap.get current g = Some currentNode ->
  In nb (n_neighbors currentNode) ->
  reachInvariant g startKey (pendingOf current rest)
    (relax g endNode current (Fin gcur) st nb).
Proof.
  intros Hpos (Hinv & Hs & Hopen & Hg & Hcl & Hedge) Hcur Hgcur Hnode Hnb.
  pose proof (relax_invariant g endNode current (Fin gcur) st nb Hinv Hcur)
    as Hinv'.
  destruct (Hpos current currentNode nb Hnode Hnb) as (Hw & Hin).
  destruct (relax_cases g endNode current (Fin gcur) st nb)
    as (Eclosed & [(E & Hwhy) | (c & Ec & Hnc & _ & Ecf & Egs & Hrest)]).
  - rewrite E. split; [exact Hinv|]. split; [exact Hs|].
    split; [exact Hopen|]. split; [exact Hg|]. split; [exact Hcl|].
    intros u nu nb' Hu Hnu Hnb'.
    destruct (Hedge u nu nb' Hu Hnu Hnb') as [(-> & [<-|Hr])|H]; auto.
    + right. destruct Hwhy as [Hc|[Hc|(c & Hc & Hlt)]];
        [now right|discriminate|].
      apply ext_ltb_Infinity in Hlt as (y & Hy). unfold gOrInfinity in Hy.
      destruct (JsMap.get (nb_key nb) (gScore st)) as [gv|] eqn:Egv;
        [|discriminate].
      apply (Hg _ _ Egv).
    + left. split; [reflexivity | exact Hr].
  - injection Ec as <-.
    destruct Hrest as [(Hnone & _) | (nn & Hnn & Eo & Ef)]; [contradiction|].
    split; [exact Hinv'|]. rewrite Eclosed, Eo, Egs, Ef.
    assert (Hadd : forall x, In x (openSet st) ->
                     In x (JsSet.add (nb_key nb) (openSet st))).
    { intros x Hx. apply set_add_In. now right. }
    split; [destruct Hs; auto|]. split; [|split; [|split]].
    + intros x Hx. apply set_add_In in Hx.
      destruct (String.eqb (nb_key nb) x) eqn:E.
      * apply String.eqb_eq in E. subst x. rewrite !get_set_same.
        split; [|eauto]. eexists. split; [reflexivity|].
        pose proof (distance_nonneg (n_centroid nn) (n_centroid endNode)).
        lra.
      * apply String.eqb_neq in E. rewrite !get_set_other by assumption.
        destruct Hx as [->|Hx]; [congruence|]. now apply Hopen.
    + intros x gx Hx.
      destruct (String.eqb (nb_key nb) x) eqn:E.
      * apply String.eqb_eq in E. subst x. rewrite get_set_same in Hx.
        injection Hx as <-. split; [lra|]. left. apply set_add_In. now left.
      * apply String.eqb_neq in E. rewrite get_set_other in Hx by assumption.
        destruct (Hg x gx Hx) as (H0 & [H|H]); auto.
    + intros u Hu.
      destruct (String.eqb (nb_key nb) u) eqn:E.
      * apply String.eqb_eq in E. subst u. rewrite get_set_same. eauto.
      * apply String.eqb_neq in E. rewrite get_set_other by assumption.
        now apply Hcl.
    + intros u nu nb' Hu Hnu Hnb'.
      destruct (Hedge u nu nb' Hu Hnu Hnb') as [(-> & [<-|Hr])|[H|H]]; auto.
      * right. left. apply set_add_In. now left.
      * left. split; [reflexivity | exact Hr].
Qed.

Lemma relax_fold_reach (g : graph) (endNode : node)
  (startKey current : string) (currentNode : node) (gcur : R)
  (nbs : list neighbor) (st : astate) :
  positiveWeights g ->
  reachInvariant g startKey (pendingOf current nbs) st ->
  In current (closedSet st) -> 0 <= gcur ->
  JsMap.get current g = Some currentNode ->
  (forall nb, In nb nbs -> In nb (n_neighbors currentNode)) ->
  reachInvariant g startKey (pendingOf current [])
    (fold_left (relax g endNode current (Fin gcur)) nbs st).
Proof.
  intros Hpos. revert st.
  induction nbs as [|nb nbs IH]; intros st Hinv Hc Hg Hn Hsub; [exact Hinv|].
  cbn [fold_left].
  assert (Ecl : closedSet (relax g endNode current (Fin gcur) st nb)
                = closedSet st)
    by apply (relax_cases g endNode current (Fin gcur) st nb).
  apply IH; try (rewrite Ecl; assumption); auto.
  - apply (relax_reach g endNode startKey current currentNode); auto.
    apply Hsub. now left.
  - intros nb' H. apply Hsub. now right.
Qed.

Lemma expand_reach (g : graph) (endNode : node) (startKey : string)
  (st : astate) (current : string) :
  positiveWeights g ->
  reachInvariant g startKey settled st -> In current (openSet st) ->
  reachInvariant g startKey settled (expand g endNode st current).
Proof.
  intros Hpos (Hinv & Hs & Hopen & Hg & Hcl & Hedge) Hcur.
  destruct (closeCurrent_invariant g st current Hinv Hcur) as (Hi & Ec).
  destruct (Hopen current Hcur) as (_ & (gcur & Hgcur)).
  destruct (Hg current gcur Hgcur) as (Hg0 & _).
  destruct (proj1 Hinv current Hcur) as (Hnode & Hnc).
  destruct (JsMap.get current g) as [currentNode|] eqn:En; [|congruence].
  assert (Hclose : reachInvariant g startKey
                     (pendingOf current (n_neighbors currentNode))
                     (closeCurrent st current)).
  { split; [exact Hi|]. rewrite Ec. cbn [closeCurrent openSet gScore fScore].
    split; [|split; [|split; [|split]]].
    - destruct Hs as [H|H]; [|right; apply in_or_app; now left].
      destruct (String.eqb startKey current) eqn:E.
      + apply String.eqb_eq in E. subst. right. apply in_or_app. right.
        now left.
      + apply String.eqb_neq in E. left. apply set_delete_In. auto.
    - intros x Hx. apply set_delete_In in Hx. apply Hopen. tauto.
    - intros x gx Hx. destruct (Hg x gx Hx) as (H0 & H). split; [exact H0|].
      destruct (String.eqb x current) eqn:E.
      + apply String.eqb_eq in E. subst. right. apply in_or_app. right.
        now left.
      + apply String.eqb_neq in E. destruct H as [H|H].
        * left. apply set_delete_In. auto.
        * right. apply in_or_app. now left.
    - intros u Hu. apply in_app_or in Hu. destruct Hu as [Hu|[<-|[]]]; eauto.
    - intros u nu nb Hu Hnu Hnb. apply in_app_or in Hu.
      destruct Hu as [Hu|[<-|[]]].
      + destruct (Hedge u nu nb Hu Hnu Hnb) as [[]|[H|H]].
        * destruct (String.eqb (nb_key nb) current) eqn:E.
          -- apply String.eqb_eq in E. right. right. apply in_or_app. right.
             now left.
          -- apply String.eqb_neq in E. right. left. apply set_delete_In.
             auto.
        * right. right. apply in_or_app. now left.
      + left. split; [reflexivity|]. congruence. }
  unfold expand. cbv zeta. rewrite En.
  assert (Egc : gOrInfinity (gScore (closeCurrent st current)) current
                = Fin gcur).
  { unfold gOrInfinity. cbn [closeCurrent gScore]. now rewrite Hgcur. }
  rewrite Egc.
  pose proof (relax_fold_reach g endNode startKey current currentNode gcur
                (n_neighbors currentNode) (closeCurrent st current) Hpos
                Hclose) as Hfold.
  destruct Hfold as (H1 & H2 & H3 & H4 & H5 & H6); auto.
  { rewrite Ec. apply in_or_app. right. now left. }
  split; [exact H1|]. split; [exact H2|]. split; [exact H3|].
  split; [exact H4|]. split; [exact H5|].
  intros u nu nb Hu Hnu Hnb.
  destruct (H6 u nu nb Hu Hnu Hnb) as [(_ & [])|H]; auto.
Qed.

Lemma closed_holds_routes (g : graph) (startKey : string) (st : astate) :
  reachInvariant g startKey settled st -> openSet st = [] ->
  forall p c, route g p c ->
    forall u, hd_error p = Some u -> In u (closedSet st) ->
    In (last p u) (closedSet st).
Proof.
  intros (_ & _ & _ & _ & _ & Hedge) Ho p c Hr.
  induction Hr as [k|u v rest w c He Hr IH]; intros u0 Hh Hu0.
  - injection Hh as <-. exact Hu0.
  - injection Hh as <-. destruct He as (nu & nb & Hnu & Hnb & <- & _).
    destruct (Hedge u nu nb Hu0 Hnu Hnb) as [[]|[H|H]].
    + rewrite Ho in H. destruct H.
    + specialize (IH (nb_key nb) eq_refl H).
      change (last (u :: nb_key nb :: rest) u)
        with (last (nb_key nb :: rest) u).
      rewrite (last_any_default (nb_key nb) u (nb_key nb)). exact IH.
Qed.

Lemma aStarLoop_reach (g : graph) (startKey endKey : string)
  (endNode : node) :
  positiveWeights g -> JsMap.get "" g = None ->
  forall (fuel : nat) (st : astate),
    reachInvariant g startKey settled st ->
    ~ In endKey (closedSet st) ->
    aStarLoop fuel g endKey endNode st = Ok None ->
    forall p c, route g p c -> ~ fromTo p startKey endKey.
Proof.
  intros Hpos Hempty.
  induction fuel as [|fuel IH]; intros st Hinv Hend Hrun; [discriminate|].
  cbn [aStarLoop] in Hrun.
  destruct (openSet st) as [|o os] eqn:Eo.
  - intros p c Hr (Hh & Hl).
    destruct Hinv as (Hi & [Hs|Hs] & Hrest); [rewrite Eo in Hs; destruct Hs|].
    apply Hend. rewrite <- Hl.
    apply (closed_holds_routes g startKey st
             (conj Hi (conj (or_intror Hs) Hrest)) Eo p c Hr startKey Hh Hs).
  - rewrite <- Eo in Hrun.
    pose proof (pickLowest_spec (fScore st) (openSet st)) as Hpick.
    destruct (pickLowest (fScore st) (openSet st)) as [[current|] low];
      cbn [fst] in Hrun.
    + destruct Hpick as (Hcur & _).
      destruct (proj1 (proj1 Hinv) current Hcur) as (Hnode & _).
      destruct (JsString.truthy current) eqn:Et.
      2: { destruct current; [congruence | discriminate]. }
      cbn [negb] in Hrun.
      destruct (String.eqb current endKey) eqn:Ee.
      { destruct (reconstruct _ _ _ _); discriminate. }
      assert (Hstep : match JsMap.get current g with
                      | Some currentNode =>
                          aStarLoop fuel g endKey endNode
                            (fold_left
                               (relax g endNode current
                                  (gOrInfinity
                                     (gScore (closeCurrent st current))
                                     current))
                               (n_neighbors currentNode)
                               (closeCurrent st current))
                      | None =>
                          aStarLoop fuel g endKey endNode
                            (closeCurrent st current)
                      end
                      = aStarLoop fuel g endKey endNode
                          (expand g endNode st current)).
      { unfold expand. cbv zeta. now destruct (JsMap.get current g). }
      unfold closeCurrent in Hstep at 1 2 3. cbn [gScore] in Hstep.
      cbn [gScore] in Hrun. rewrite Hstep in Hrun.
      apply (IH _ (expand_reach g endNode startKey st current Hpos Hinv Hcur));
        [|exact Hrun].
      destruct (expand_invariant g endNode st current (proj1 Hinv) Hcur)
        as (_ & ->).
      intros H. apply in_app_or in H. destruct H as [H|[H|[]]]; [auto|].
      apply String.eqb_neq in Ee. congruence.
    + exfalso. destruct Hpick as (_ & Hall).
      destruct Hinv as (_ & _ & Hopen & _).
      assert (Ho : In o (openSet st)) by (rewrite Eo; now left).
      destruct (Hopen o Ho) as ((f & Hf & Hf0) & _).
      specialize (Hall o Ho). unfold fOrInfinity in Hall. rewrite Hf in Hall.
      destruct (Reqb f 0) eqn:E; [|discriminate].
      apply Reqb_true in E. lra.
Qed.

Lemma initial_reach (g : graph) (startKey : string) (h : R) :
  JsMap.get startKey g <> None -> 0 < h ->
  reachInvariant g startKey settled
    (mkState [startKey] [] [] [(startKey, 0)] [(startKey, h)]).
Proof.
  intros Hs Hh. unfold reachInvariant, searchInvariant.
  cbn [openSet closedSet cameFrom gScore fScore JsMap.get In].
  split.
  { split; [|split; [constructor|split; [tauto|discriminate]]].
    intros x [<-|[]]. tauto. }
  split; [now left; left|]. split; [|split; [|split; [tauto|tauto]]].
  - intros x [<-|[]]. rewrite String.eqb_refl. eauto.
  - intros x gx. destruct (String.eqb x startKey) eqn:E; [|discriminate].
    apply String.eqb_eq in E. intros [= <-]. split; [lra|]. now left; left.
Qed.

Lemma aStar_reach (g : graph) (startKey endKey : string)
  (startNode endNode : node) :
  positiveWeights g -> JsMap.get "" g = None ->
  JsMap.get startKey g = Some startNode ->
  JsMap.get endKey g = Some endNode ->
  n_centroid startNode <> n_centroid endNode ->
  (exists p, aStar g startKey endKey = Ok (Some p)) <->
  (exists p c, route g p c /\ fromTo p startKey endKey).
Proof.
  intros Hpos Hempty Hs He Hc. split.
  - intros (p & Hrun).
    destruct (aStar_simple g startKey endKey p Hrun) as ((c & Hr) & Hft & _).
    eauto.
  - intros (p & c & Hr & Hft).
    destruct (aStar_total g startKey endKey) as ([q|] & Hrun & _); [eauto|].
    exfalso. unfold aStar in Hrun. rewrite Hs, He in Hrun. cbv zeta in Hrun.
    assert (Hh : 0 < distance (n_centroid startNode) (n_centroid endNode)).
    { destruct (distance_nonneg (n_centroid startNode) (n_centroid endNode))
        as [H|H]; [exact H|].
      symmetry in H. apply distance_zero in H. contradiction. }
    apply (aStarLoop_reach g startKey endKey endNode Hpos Hempty _ _
             (initial_reach g startKey _ ltac:(congruence) Hh)
             ltac:(intros []) Hrun p c Hr Hft).
Qed.

(** X11: on a graph whose edges have positive weights and end at nodes of
    the graph, and that has no node under the empty key, the search
    between two nodes with different centroids returns a path exactly
    when the graph has a path from the start to the end: [null] then
    means that the end cannot be reached. *)
Theorem aStar_finds_a_path_when_one_exists (g : graph)
  (startKey endKey : string) (startNode endNode : node) :
  positiveWeights g -> JsMap.get "" g = None ->
  JsMap.get startKey g = Some startNode ->
  JsMap.get endKey g = Some endNode ->
  n_centroid startNode <> n_centroid endNode ->
  ((exists p, aStar g startKey endKey = Ok (Some p)) <->
   (exists p c, route g p c /\ fromTo p startKey endKey)) /\
  (aStar g startKey endKey = Ok None <->
   ~ exists p c, route g p c /\ fromTo p startKey endKey).
Proof.
  intros Hpos Hempty Hs He Hc.
  pose proof (aStar_reach g startKey endKey startNode endNode Hpos Hempty
                Hs He Hc) as Hiff.
  split; [exact Hiff|]. split.
  - intros Hnull H. apply Hiff in H as (p & Hp). congruence.
  - intros Hno.
    destruct (aStar_total g startKey endKey) as ([q|] & Hrun & _);
      [|exact Hrun].
    exfalso. apply Hno. apply Hiff. eauto.
Qed.

Lemma aStar_path_is_simple_witness :
  aStar oneEdge "A" "B" = Ok (Some ["A"; "B"]) /\
  fromTo ["A"; "B"] "A" "B" /\ NoDup ["A"; "B"].
Proof.
  split; [exact oneEdge_run|].
  pose proof (aStar_path_is_simple oneEdge "A" "B" ["A"; "B"] oneEdge_run)
    as (_ & Hft & Hn & _).
  split; [exact Hft | exact Hn].
Defined.

Lemma aStar_finds_a_path_when_one_exists_witness :
  exists p, aStar oneEdge "A" "B" = Ok (Some p).
Proof.
  assert (Hpos : positiveWeights oneEdge).
  { intros u nu nb Hu Hnb. unfold oneEdge in Hu. cbn in Hu.
    destruct (String.eqb u "A").
    - injection Hu as <-. destruct Hnb as [<-|[]]. cbn.
      split; [lra | discriminate].
    - destruct (String.eqb u "B"); [|discriminate].
      injection Hu as <-. destruct Hnb. }
  assert (Hc : n_centroid (nodeAt "A" (0, 0) [mkNeighbor "B" "B" 0 1 false])
               <> n_centroid (nodeAt "B" (1, 0) [])).
  { cbn. intros [= H]. lra. }
  apply (proj1 (aStar_finds_a_path_when_one_exists oneEdge "A" "B" _ _
                  Hpos eq_refl eq_refl eq_refl Hc)).
  exists ["A"; "B"], (1 + 0). split; [|split; reflexivity].
  constructor; [|constructor].
  eexists. eexists. split; [reflexivity|]. split; [now left|].
  split; reflexivity.
Defined.


(** * Further properties of the path enhancer *)

(** ** Boundary points *)

Lemma boundaryCoords_rings (features : list feature) (coords : list coord) :
  boundaryCoords features = Ok coords ->
  exists rings,
    Forall2 (fun f ring => ringCoords (f_geometry f) = Some ring)
      features rings /\
    coords = List.concat rings.
Proof.
  unfold boundaryCoords.
  destruct (mapM _ features) as [rings| |] eqn:E; cbn; try discriminate.
  intros [= <-]. exists rings. split; [|reflexivity].
  apply mapM_Ok in E. induction E as [|f ring fs rs Hf _ IH]; constructor.
  - destruct (ringCoords (f_geometry f)); [now injection Hf as -> |
                                           discriminate].
  - exact IH.
Qed.

Lemma boundaryCoords_vertices (features : list feature)
  (coords : list coord) (c : coord) :
  boundaryCoords features = Ok coords ->
  In c coords <-> vertexOf features c.
Proof.
  intros H. apply boundaryCoords_rings in H as (rings & Hf & ->).
  unfold vertexOf. induction Hf as [|f ring fs rs Hr _ IH]; cbn [List.concat].
  - split; [intros [] | intros (f & ring & [] & _)].
  - rewrite in_app_iff, IH. split.
    + intros [H|(f' & ring' & Hin & Hr' & Hc)].
      * exists f, ring. split; [now left | auto].
      * exists f', ring'. split; [now right | auto].
    + intros (f' & ring' & [<-|Hin] & Hr' & Hc).
      * left. congruence.
      * right. eauto.
Qed.

Lemma closest_scan (target : coord) (l done p1 p2 : list coord)
  (best : coord) :
  done = p1 ++ best :: p2 ->
  (forall v, In v p1 -> distance best target < distance v target) ->
  (forall v, In v p2 -> distance best target <= distance v target) ->
  exists pre suf,
    done ++ l
    = pre ++
      fst (fold_left
             (fun (acc : coord * R) c =>
                let dist := distance c target in
                if Rltb dist (snd acc) then (c, dist) else acc)
             l (best, distance best target)) :: suf /\
    (forall v, In v pre ->
       distance
         (fst (fold_left
                 (fun (acc : coord * R) c =>
                    let dist := distance c target in
                    if Rltb dist (snd acc) then (c, dist) else acc)
                 l (best, distance best target))) target
       < distance v target) /\
    (forall v, In v suf ->
       distance
         (fst (fold_left
                 (fun (acc : coord * R) c =>
                    let dist := distance c target in
                    if Rltb dist (snd acc) then (c, dist) else acc)
                 l (best, distance best target))) target
       <= distance v target).
Proof.
  revert done p1 p2 best.
  induction l as [|c l IH]; intros done p1 p2 best Hdone H1 H2.
  - cbn. exists p1, p2. rewrite app_nil_r. auto.
  - cbn [fold_left]. cbv zeta. cbn [snd].
    replace (done ++ c :: l) with ((done ++ [c]) ++ l)
      by (rewrite <- app_assoc; reflexivity).
    destruct (Rltb (distance c target) (distance best target)) eqn:E.
    + apply Rltb_true in E. apply (IH (done ++ [c]) done []).
      * reflexivity.
      * intros v Hv. rewrite Hdone in Hv. apply in_app_or in Hv.
        destruct Hv as [Hv|[<-|Hv]].
        -- specialize (H1 v Hv). lra.
        -- exact E.
        -- specialize (H2 v Hv). lra.
      * intros v [].
    + apply Rltb_false in E. apply (IH (done ++ [c]) p1 (p2 ++ [c])).
      * rewrite Hdone, <- app_assoc. reflexivity.
      * exact H1.
      * intros v Hv. apply in_app_or in Hv.
        destruct Hv as [Hv|[<-|[]]]; [auto | lra].
Qed.

Lemma getRoomBoundaryPoints_closest_aux (features : list feature)
  (target : coord) :
  (forall coords, boundaryCoords features = Ok coords -> coords = [] ->
     getRoomBoundaryPoints features target = Ok None) /\
  (forall coords, boundaryCoords features = Ok coords -> coords <> [] ->
     exists c,
       getRoomBoundaryPoints features target = Ok (Some c) /\
       vertexOf features c).
Proof.
  split.
  - intros coords Hb ->. unfold getRoomBoundaryPoints. now rewrite Hb.
  - intros coords Hb Hne. unfold getRoomBoundaryPoints. rewrite Hb.
    cbn [bind]. destruct coords as [|c0 rest]; [contradiction|].
    cbn [fold_left]. cbv zeta. cbn [snd].
    assert (E : Rltb (distance c0 target) (distance c0 target) = false)
      by (apply Rltb_false; lra).
    rewrite E.
    destruct (closest_scan target rest [c0] [] [] c0 eq_refl)
      as (pre & suf & Hsplit & _); [intros v [] | intros v [] |].
    eexists. split; [reflexivity|].
    apply (boundaryCoords_vertices features (c0 :: rest) _ Hb).
    change (c0 :: rest) with ([c0] ++ rest). rewrite Hsplit.
    apply in_or_app. right. now left.
Qed.

(** X12: the boundary point of a room towards a target is [null] when the
    rings read from the features of the room have no vertex; otherwise
    it is the vertex closest to the target, and the first such vertex
    when several are equally close.  The scan throws exactly when one
    of the rings to read is missing. *)
Theorem getRoomBoundaryPoints_closest (features : list feature)
  (target : coord) :
  (getRoomBoundaryPoints features target = Throw <->
   exists f, In f features /\ ringCoords (f_geometry f) = None) /\
  forall coords,
    boundaryCoords features = Ok coords ->
    (forall c, In c coords <-> vertexOf features c) /\
    (coords = [] -> getRoomBoundaryPoints features target = Ok None) /\
    (coords <> [] ->
     exists c pre suf,
       getRoomBoundaryPoints features target = Ok (Some c) /\
       coords = pre ++ c :: suf /\
       (forall v, In v pre -> distance c target < distance v target) /\
       (forall v, In v suf -> distance c target <= distance v target)).
Proof.
  split.
  - split.
    + intros H.
      destruct (List.existsb
                  (fun f => match ringCoords (f_geometry f) with
                            | None => true
                            | Some _ => false
                            end) features) eqn:E.
      * apply existsb_exists in E as (f & Hf & Hr). exists f.
        split; [exact Hf|]. now destruct (ringCoords (f_geometry f)).
      * exfalso.
        destruct (getRoomBoundaryPoints_Ok features target) as [c Hc];
          [|congruence].
        intros f Hf Hr.
        assert (Hn : existsb
                       (fun f => match ringCoords (f_geometry f) with
                                 | None => true
                                 | Some _ => false
                                 end) features = true).
        { apply existsb_exists. exists f. split; [exact Hf|]. now rewrite Hr. }
        congruence.
    + intros (f & Hf & Hr). unfold getRoomBoundaryPoints, boundaryCoords.
      assert (Hm : mapM (fun f => match ringCoords (f_geometry f) with
                                  | Some ring => Ok ring
                                  | None => Throw
                                  end) features = Throw).
      { clear target. induction features as [|a fs IH]; [destruct Hf|].
        cbn [mapM]. destruct Hf as [->|Hf].
        - now rewrite Hr.
        - rewrite (IH Hf). now destruct (ringCoords (f_geometry a)). }
      now rewrite Hm.
  - intros coords Hb. split; [|split].
    + intros c. now apply boundaryCoords_vertices.
    + intros ->. unfold getRoomBoundaryPoints. now rewrite Hb.
    + intros Hne. unfold getRoomBoundaryPoints. rewrite Hb. cbn [bind].
      destruct coords as [|c0 rest]; [contradiction|].
      cbn [fold_left]. cbv zeta. cbn [snd].
      assert (E : Rltb (distance c0 target) (distance c0 target) = false)
        by (apply Rltb_false; lra).
      rewrite E.
      destruct (closest_scan target rest [c0] [] [] c0 eq_refl)
        as (pre & suf & Hsplit & Hpre & Hsuf);
        [intros v [] | intros v [] |].
      eexists. exists pre, suf. split; [reflexivity|]. auto.
Qed.


(** ** Points along a corridor *)

Lemma fromOneTo_In (n i : Z) :
  In i (fromOneTo n) <-> (1 <= i <= n)%Z.
Proof.
  unfold fromOneTo. rewrite in_map_iff. split.
  - intros (k & <- & Hk). apply in_seq in Hk. lia.
  - intros H. exists (Z.to_nat i). split; [lia|]. apply in_seq. lia.
Qed.

Lemma fromOneTo_nth (n : Z) (i : nat) :
  (i < Z.to_nat n)%nat -> nth i (fromOneTo n) 0%Z = Z.of_nat (i + 1).
Proof.
  intros H. unfold fromOneTo.
  rewrite (nth_indep _ 0%Z (Z.of_nat 0)) by now rewrite length_map, length_seq.
  rewrite map_nth, seq_nth by exact H. f_equal. lia.
Qed.

Lemma interpolate_inBox (west east south north : R) (a b : coord) (t : R) :
  inBox west east south north a -> inBox west east south north b ->
  0 <= t <= 1 -> inBox west east south north (interpolate a b t).
Proof.
  unfold inBox, interpolate. cbn [fst snd]. intros Ha Hb Ht.
  split; split; nra.
Qed.

Lemma step_fraction (n i : Z) :
  (1 <= i <= n)%Z -> 0 < IZR i / (IZR n + 1) < 1.
Proof.
  intros (H1 & H2). apply IZR_le in H1, H2.
  assert (Hn : 0 < IZR n + 1) by lra.
  split.
  - apply Rdiv_lt_0_compat; lra.
  - apply Rmult_lt_reg_r with (IZR n + 1); [exact Hn|].
    unfold Rdiv. rewrite Rmult_assoc, Rinv_l; lra.
Qed.

(** X13: a corridor whose rings have fewer than three vertices yields no
    path point.  Otherwise the path points are [numPoints] points, the
    [i]-th of them [i / (numPoints + 1)] of the way from the vertex
    closest to the point of entry to the vertex closest to the point of
    exit; they lie strictly between these two vertices and therefore in
    every box that holds the vertices of the corridor. *)
Theorem getCorridorPathPoints_spaced (features : list feature)
  (fromPoint toPoint : coord) (numPoints : Z) (coords : list coord) :
  boundaryCoords features = Ok coords ->
  ((List.length coords < 3)%nat ->
   getCorridorPathPoints features fromPoint toPoint numPoints = Ok []) /\
  ((3 <= List.length coords)%nat ->
   exists entry exit pts,
     getRoomBoundaryPoints features fromPoint = Ok (Some entry) /\
     getRoomBoundaryPoints features toPoint = Ok (Some exit) /\
     getCorridorPathPoints features fromPoint toPoint numPoints = Ok pts /\
     List.length pts = Z.to_nat numPoints /\
     (forall i, (i < List.length pts)%nat ->
        nth i pts (0, 0)
        = interpolate entry exit (INR (i + 1) / (IZR numPoints + 1)) /\
        0 < INR (i + 1) / (IZR numPoints + 1) < 1) /\
     (forall west east south north,
        (forall v, vertexOf features v -> inBox west east south north v) ->
        Forall (inBox west east south north) pts)).
Proof.
  intros Hb. split.
  - intros Hlt. unfold getCorridorPathPoints. rewrite Hb. cbn [bind].
    apply Nat.ltb_lt in Hlt. now rewrite Hlt.
  - intros Hge.
    destruct (proj2 (getRoomBoundaryPoints_closest_aux features fromPoint)
                coords Hb) as (entry & He & Hein);
      [destruct coords; [cbn in Hge; lia | discriminate]|].
    destruct (proj2 (getRoomBoundaryPoints_closest_aux features toPoint)
                coords Hb) as (exit & Hx & Hxin);
      [destruct coords; [cbn in Hge; lia | discriminate]|].
    exists entry, exit. eexists. split; [exact He|]. split; [exact Hx|].
    unfold getCorridorPathPoints. rewrite Hb. cbn [bind].
    assert (Hnlt : (List.length coords <? 3)%nat = false)
      by (apply Nat.ltb_ge; exact Hge).
    rewrite Hnlt, He, Hx. cbn [bind]. split; [reflexivity|].
    assert (Hlen : List.length
                     (map (fun i => interpolate entry exit
                                      (IZR i / (IZR numPoints + 1)))
                        (fromOneTo numPoints)) = Z.to_nat numPoints).
    { unfold fromOneTo. now rewrite !length_map, length_seq. }
    split; [exact Hlen|]. split.
    + intros i Hi. rewrite Hlen in Hi.
      assert (Hin : (1 <= Z.of_nat (i + 1) <= numPoints)%Z) by lia.
      rewrite (INR_IZR_INZ (i + 1)).
      split; [|now apply step_fraction].
      rewrite (nth_indep _ (0, 0)
                 (interpolate entry exit (IZR 0 / (IZR numPoints + 1))))
        by (unfold fromOneTo; rewrite !length_map, length_seq; exact Hi).
      rewrite (map_nth (fun i => interpolate entry exit
                                   (IZR i / (IZR numPoints + 1)))).
      now rewrite fromOneTo_nth.
    + intros west east south north Hbox. apply Forall_forall.
      intros p Hp. apply in_map_iff in Hp as (i & <- & Hi).
      apply fromOneTo_In in Hi. apply step_fraction in Hi.
      apply interpolate_inBox; [apply Hbox, Hein | apply Hbox, Hxin | lra].
Qed.

Lemma getCorridorPathPoints_spaced_witness :
  exists pts,
    getCorridorPathPoints straightHall (0, 0) (2, 0) 2 = Ok pts /\
    List.length pts = 2%nat.
Proof.
  destruct (proj2 (getCorridorPathPoints_spaced straightHall (0, 0) (2, 0) 2
                     _ eq_refl))
    as (entry & exit & pts & _ & _ & Hp & Hl & _).
  - cbn. lia.
  - exists pts. split; [exact Hp | exact Hl].
Defined.


(** ** The inserted waypoints *)

Lemma getCorridorPathPoints_length (features : list feature)
  (a b : coord) (n : Z) (pts : list coord) :
  getCorridorPathPoints features a b n = Ok pts ->
  pts = [] \/ List.length pts = Z.to_nat n.
Proof.
  unfold getCorridorPathPoints.
  destruct (boundaryCoords features) as [coords| |]; cbn [bind];
    try discriminate.
  destruct (List.length coords <? 3)%nat; [intros [= <-]; now left|].
  destruct (getRoomBoundaryPoints features a) as [[entry|]| |]; cbn [bind];
    try discriminate;
    (destruct (getRoomBoundaryPoints features b) as [[exit|]| |]; cbn [bind];
       try discriminate); intros [= <-]; auto.
  right. unfold fromOneTo. now rewrite !length_map, length_seq.
Qed.

Lemma waypointsAfter_shape (pathCoords : list routePoint) (i : nat)
  (current : routePoint) (w : list routePoint) :
  nth_error pathCoords i = Some current ->
  waypointsAfter pathCoords i = Ok w ->
  (List.length w <= 5)%nat /\
  Forall (fun q => rp_floor q = rp_floor current) w /\
  (forall next, nth_error pathCoords (i + 1) = Some next ->
     distance (rp_coords current) (rp_coords next) <= 0.008 -> w = []).
Proof.
  intros Hc. unfold waypointsAfter. rewrite Hc.
  destruct (nth_error pathCoords (i + 1)) as [next|];
    [|intros [= <-]; split; [cbn; lia|split; [constructor|discriminate]]].
  cbv zeta.
  destruct (Rltb 0.008 _) eqn:Ed.
  2: { intros [= <-]. split; [cbn; lia|split; [constructor|reflexivity]]. }
  apply Rltb_true in Ed.
  assert (Hfar : forall next',
             Some next = Some next' ->
             distance (rp_coords current) (rp_coords next') <= 0.008 ->
             w = []).
  { intros next' [= <-] H. lra. }
  destruct (negb (Bool.eqb _ _)).
  { destruct (if Pathfinding.isCorridor (rp_name current) then _ else _)
      as [[c|]| |]; cbn [bind]; try discriminate; intros [= <-];
      (split; [cbn; lia|]); (split; [|exact Hfar]); repeat constructor. }
  destruct (_ && _ && Rltb 0.015 _).
  { set (n := Z.min _ 5).
    assert (Hn : (Z.to_nat n <= 5)%nat) by (unfold n; lia).
    destruct (getCorridorPathPoints _ _ _ n) as [pts| |] eqn:Ep;
      cbn [bind]; try discriminate.
    apply getCorridorPathPoints_length in Ep.
    destruct pts as [|pt pts]; intros [= <-].
    - split; [unfold fromOneTo; rewrite !length_map, length_seq; exact Hn|].
      split; [|exact Hfar]. apply Forall_forall. intros q Hq.
      apply in_map_iff in Hq as (j & <- & _). reflexivity.
    - destruct Ep as [Ep|Ep]; [discriminate|].
      split; [rewrite <- Ep in Hn; cbn [map List.length] in *;
              rewrite ?length_map; exact Hn|].
      split; [|exact Hfar]. apply Forall_forall. intros q Hq.
      change (In q (map (fun point =>
                           waypoint point (rp_floor current)
                             (rp_name current) (rp_features current))
                      (pt :: pts))) in Hq.
      apply in_map_iff in Hq as (j & <- & _). reflexivity. }
  destruct (_ && _ && Rltb 0.012 _); intros [= <-];
    (split; [cbn; lia|]); (split; [|exact Hfar]); repeat constructor.
Qed.

Lemma nth_all_nil {A B : Type} (l : list A) (i : nat) :
  nth i (map (fun _ => @nil B) l) [] = [].
Proof.
  revert i. induction l as [|a l IH]; intros [|i]; cbn; auto.
Qed.

Lemma addCorridorWaypoints_interleave (pathCoords out : list routePoint) :
  addCorridorWaypoints pathCoords = Ok out ->
  exists inserted,
    List.length inserted = List.length pathCoords /\
    out = interleave pathCoords inserted /\
    forall i, (i < List.length pathCoords)%nat ->
      waypointsAfter pathCoords i = Ok (nth i inserted []).
Proof.
  unfold addCorridorWaypoints.
  destruct (List.length pathCoords <? 2)%nat eqn:El.
  - intros [= <-]. exists (map (fun _ => []) pathCoords).
    rewrite length_map, interleave_nothing. repeat split.
    intros i Hi. apply Nat.ltb_lt in El.
    rewrite nth_all_nil. apply waypointsAfter_last. lia.
  - destruct (mapM _ _) as [rounds| |] eqn:Em; cbn [bind]; try discriminate.
    intros [= <-].
    destruct (rounds_interleave pathCoords [] pathCoords rounds eq_refl Em)
      as (inserted & Hl & Hc & Hw).
    exists inserted. auto.
Qed.

Lemma interleave_cons (p : routePoint) (ps : list routePoint)
  (w : list routePoint) (ws : list (list routePoint)) :
  interleave (p :: ps) (w :: ws) = p :: w ++ interleave ps ws.
Proof. reflexivity. Qed.

Lemma addCorridorWaypoints_blocks (pathCoords out : list routePoint) :
  addCorridorWaypoints pathCoords = Ok out ->
  exists inserted,
    out = interleave pathCoords inserted /\
    Forall2 (fun p w =>
               (List.length w <= 5)%nat /\
               Forall (fun q => rp_floor q = rp_floor p) w)
      pathCoords inserted /\
    last inserted [] = [] /\
    forall i, (i < List.length pathCoords)%nat ->
      waypointsAfter pathCoords i = Ok (nth i inserted []).
Proof.
  intros H. apply addCorridorWaypoints_interleave in H
    as (inserted & Hl & Ho & Hw).
  exists inserted. split; [exact Ho|].
  split; [|split; [|exact Hw]].
  - assert (Hgen : forall pre suf ins,
               pathCoords = pre ++ suf ->
               List.length ins = List.length suf ->
               (forall j, (j < List.length suf)%nat ->
                  waypointsAfter pathCoords (List.length pre + j)
                  = Ok (nth j ins [])) ->
               Forall2 (fun p w =>
                          (List.length w <= 5)%nat /\
                          Forall (fun q => rp_floor q = rp_floor p) w)
                 suf ins).
    { intros pre suf. revert pre.
      induction suf as [|p suf IH]; intros pre ins Hp Hlen Hj;
        destruct ins as [|w ins]; try discriminate; constructor.
      - specialize (Hj 0%nat ltac:(cbn; lia)). rewrite Nat.add_0_r in Hj.
        cbn [nth] in Hj.
        destruct (waypointsAfter_shape pathCoords (List.length pre) p w)
          as (H5 & Hf & _); auto.
        rewrite Hp. apply nth_error_middle.
      - apply (IH (pre ++ [p])).
        + rewrite Hp, <- app_assoc. reflexivity.
        + cbn in Hlen. lia.
        + intros j Hlt. rewrite length_app. cbn [List.length].
          replace (List.length pre + 1 + j)%nat
            with (List.length pre + S j)%nat by lia.
          apply (Hj (S j)). cbn. lia. }
    apply (Hgen [] pathCoords inserted eq_refl Hl). exact Hw.
  - destruct pathCoords as [|p0 ps] using rev_ind.
    + destruct inserted; [reflexivity | discriminate].
    + clear IHps. rewrite length_app in Hl, Hw. cbn [List.length] in Hl, Hw.
      destruct inserted as [|w0 ws] using rev_ind;
        [rewrite Nat.add_comm in Hl; discriminate|].
      clear IHws. rewrite length_app in Hl. cbn [List.length] in Hl.
      rewrite last_last.
      specialize (Hw (List.length ps) ltac:(lia)).
      rewrite waypointsAfter_last in Hw
        by (rewrite length_app; cbn; lia).
      replace (List.length ps) with (List.length ws) in Hw by lia.
      rewrite nth_middle in Hw. now injection Hw as <-.
Qed.


(** ** Bounds on the enhanced path *)

Lemma interleave_length (ps : list routePoint)
  (ws : list (list routePoint)) :
  boundedBlocks ps ws -> last ws [] = [] -> ps <> [] ->
  (List.length ps <= List.length (interleave ps ws))%nat /\
  (List.length (interleave ps ws) + 5 <= 6 * List.length ps)%nat.
Proof.
  intros H. induction H as [|p w ps ws (H5 & _) Hrest IH]; intros Hl Hne;
    [contradiction|].
  rewrite interleave_cons. cbn [List.length]. rewrite length_app.
  destruct Hrest as [|p' w' ps' ws' Hp' Hrest'].
  - cbn in Hl. subst w. cbn. lia.
  - destruct IH as (IH1 & IH2); [exact Hl | discriminate|]. lia.
Qed.

Lemma interleave_floors (ps : list routePoint) (ws : list (list routePoint))
  (z : Z) :
  boundedBlocks ps ws ->
  In z (map rp_floor (interleave ps ws)) <-> In z (map rp_floor ps).
Proof.
  intros H. induction H as [|p w ps ws (_ & Hf) _ IH]; [reflexivity|].
  rewrite interleave_cons. cbn [map]. rewrite map_app. cbn [In].
  rewrite in_app_iff, IH. split; [|tauto].
  intros [H|[H|H]]; auto.
  apply in_map_iff in H as (q & <- & Hq). left. symmetry.
  now apply (proj1 (Forall_forall _ _) Hf).
Qed.

Lemma countChanges_cons (a b : routePoint) (l : list routePoint) :
  countChanges (a :: b :: l)
  = ((if Z.eqb (rp_floor b) (rp_floor a) then 0 else 1)
     + countChanges (b :: l))%nat.
Proof.
  unfold countChanges, pairs. cbn [tl combine filter fst snd].
  now destruct (Z.eqb (rp_floor b) (rp_floor a)).
Qed.

Lemma countChanges_head (a b : routePoint) (l : list routePoint) :
  rp_floor a = rp_floor b -> countChanges (a :: l) = countChanges (b :: l).
Proof.
  intros H. destruct l as [|c l]; [reflexivity|].
  now rewrite !countChanges_cons, H.
Qed.

Lemma countChanges_block (p : routePoint) (w l : list routePoint) :
  Forall (fun q => rp_floor q = rp_floor p) w ->
  countChanges (p :: w ++ l) = countChanges (p :: l).
Proof.
  revert p. induction w as [|x w IH]; intros p H; [reflexivity|].
  inversion H as [|? ? Hx Hw]; subst. cbn [app].
  rewrite countChanges_cons, Hx, Z.eqb_refl. cbn [Nat.add].
  rewrite IH.
  - now apply countChanges_head.
  - apply Forall_forall. intros q Hq. rewrite Hx.
    now apply (proj1 (Forall_forall _ _) Hw).
Qed.

Lemma interleave_changes (ps : list routePoint)
  (ws : list (list routePoint)) :
  boundedBlocks ps ws -> countChanges (interleave ps ws) = countChanges ps.
Proof.
  intros H. induction H as [|p w ps ws (_ & Hf) Hrest IH]; [reflexivity|].
  rewrite interleave_cons, countChanges_block by exact Hf.
  destruct Hrest as [|p' w' ps' ws' Hp' Hrest']; [reflexivity|].
  rewrite interleave_cons in *. now rewrite !countChanges_cons, IH.
Qed.

(** X14: the enhancer inserts at most five waypoints after a point of the
    path, all of them on the floor of that point, and none when the
    next point is no more than 0.008 away.  The enhanced path of a path
    of [n >= 1] points therefore has between [n] and [6 n - 5]
    points. *)
Theorem addCorridorWaypoints_bounds (pathCoords out : list routePoint) :
  addCorridorWaypoints pathCoords = Ok out ->
  exists inserted,
    out = interleave pathCoords inserted /\
    boundedBlocks pathCoords inserted /\
    (forall i current next,
       nth_error pathCoords i = Some current ->
       nth_error pathCoords (i + 1) = Some next ->
       distance (rp_coords current) (rp_coords next) <= 0.008 ->
       nth i inserted [] = []) /\
    (List.length pathCoords <= List.length out)%nat /\
    (pathCoords <> [] ->
     (List.length out + 5 <= 6 * List.length pathCoords)%nat).
Proof.
  intros H.
  destruct (addCorridorWaypoints_blocks pathCoords out H)
    as (inserted & -> & Hb & Hl & Hw).
  exists inserted. split; [reflexivity|]. split; [exact Hb|].
  split; [|split].
  - intros i current next Hc Hn Hd.
    assert (Hi : (i < List.length pathCoords)%nat)
      by (apply nth_error_Some; congruence).
    destruct (waypointsAfter_shape pathCoords i current _ Hc (Hw i Hi))
      as (_ & _ & Hnone).
    apply (Hnone next Hn Hd).
  - destruct pathCoords as [|p ps]; [cbn; lia|].
    apply (interleave_length (p :: ps) inserted Hb Hl). discriminate.
  - intros Hne. now apply interleave_length.
Qed.

Lemma twoRooms_rings : ringsPresent twoRooms.
Proof.
  intros p f Hp Hf. cbn in Hp. destruct Hp as [<-|[<-|[]]]; destruct Hf.
Qed.

Lemma addCorridorWaypoints_bounds_witness :
  exists out,
    addCorridorWaypoints twoRooms = Ok out /\
    (List.length out + 5 <= 6 * 2)%nat.
Proof.
  destruct (addCorridorWaypoints_returns twoRooms twoRooms_rings)
    as [out Hout].
  exists out. split; [exact Hout|].
  destruct (addCorridorWaypoints_bounds twoRooms out Hout)
    as (ins & _ & _ & _ & _ & H).
  apply H. discriminate.
Defined.


(** * Further properties of the route query *)

Lemma groupRoomsByName_rings (rooms : list feature) (groups : JsMap.t room) :
  groupRoomsByName rooms = Ok groups ->
  forall f, In f rooms -> ringCoords (f_geometry f) <> None.
Proof.
  intros H f Hf Hr.
  rewrite (groupRoomsByName_throws rooms f Hf Hr) in H. discriminate.
Qed.

Lemma roomKey_truthy (name : string) (fl : Z) :
  JsString.truthy (roomKey name fl) = true.
Proof. unfold roomKey. now destruct name. Qed.

Lemma graph_get (groups : JsMap.t room) (targetFloor : option Z)
  (k : string) (nd : node) :
  distinctRooms groups ->
  In (k, nd) (buildRoomGraph groups targetFloor) ->
  JsMap.get k (buildRoomGraph groups targetFloor) = Some nd /\
  exists r,
    In r (filterRooms (JsMap.values groups) targetFloor) /\
    k = roomKeyOf r /\
    nd = mkNode r
           (neighborsOf (filterRooms (JsMap.values groups) targetFloor) r)
           (room_centroid r) (Pathfinding.isCorridor (room_name r)).
Proof.
  intros Hd Hin.
  assert (Hget : JsMap.get k (buildRoomGraph groups targetFloor) = Some nd).
  { apply In_get_Some; [|exact Hin].
    apply (proj1 (proj2 (buildRoomGraph_nodes_aux groups targetFloor Hd))). }
  split; [exact Hget|].
  rewrite (buildRoomGraph_list groups targetFloor Hd) in Hget.
  apply get_map_node in Hget as (r & Hr & Hk & Hn). eauto.
Qed.

Lemma toRoutePoint_room (groups : JsMap.t room) (targetFloor : option Z)
  (k : string) (p : routePoint) :
  distinctRooms groups ->
  toRoutePoint (buildRoomGraph groups targetFloor) k = Ok p ->
  exists r,
    In r (filterRooms (JsMap.values groups) targetFloor) /\
    k = roomKeyOf r /\
    p = mkRoutePoint (room_centroid r) (room_floor r) (room_name r)
          (room_features r) (Some (Pathfinding.isCorridor (room_name r)))
          None.
Proof.
  intros Hd. unfold toRoutePoint.
  destruct (JsMap.get k _) as [nd|] eqn:E; [|discriminate].
  intros [= <-].
  rewrite (buildRoomGraph_list groups targetFloor Hd) in E.
  apply get_map_node in E as (r & Hr & Hk & ->). exists r. auto.
Qed.

(** What a call of [findRoute] that returns a route has gone through. *)
Lemma findRoute_Some (rooms : list feature) (startRoom endRoom : feature)
  (targetFloor : option Z) (path : list routePoint) :
  findRoute rooms startRoom endRoom targetFloor = Ok (Some path) ->
  exists groups sk ek keys pathCoords,
    groupRoomsByName rooms = Ok groups /\
    findKey (buildRoomGraph groups targetFloor)
      (JsString.toLowerCase (getRoomName startRoom)) = Some sk /\
    findKey (buildRoomGraph groups targetFloor)
      (JsString.toLowerCase (getRoomName endRoom)) = Some ek /\
    aStar (buildRoomGraph groups targetFloor) sk ek = Ok (Some keys) /\
    mapM (toRoutePoint (buildRoomGraph groups targetFloor)) keys
    = Ok pathCoords /\
    addCorridorWaypoints pathCoords = Ok path.
Proof.
  unfold findRoute. destruct (negb _ || negb _); [discriminate|].
  destruct (groupRoomsByName rooms) as [groups| |] eqn:Eg; cbn [bind];
    try discriminate.
  destruct (noKey _ || noKey _); [discriminate|].
  destruct (findKey _ (JsString.toLowerCase (getRoomName startRoom)))
    as [sk|] eqn:Es; [|discriminate].
  destruct (findKey _ (JsString.toLowerCase (getRoomName endRoom)))
    as [ek|] eqn:Ee; [|discriminate].
  destruct (aStar _ sk ek) as [[keys|]| |] eqn:Ea; cbn [bind];
    try discriminate.
  destruct (mapM _ keys) as [pathCoords| |] eqn:Em; cbn [bind];
    try discriminate.
  destruct (addCorridorWaypoints pathCoords) as [out| |] eqn:Ew; cbn [bind];
    try discriminate.
  intros [= <-]. exists groups, sk, ek, keys, pathCoords.
  repeat split; assumption.
Qed.

(** X17: with ASCII names throughout, a route between two features of
    the same name (in any letter case), and so a route from a room to
    itself, is never found: the two names resolve to one node, and the
    search from a node to itself answers [null]. *)
Theorem findRoute_same_name_is_null (rooms : list feature)
  (startRoom endRoom : feature) (targetFloor : option Z) :
  asciiNames (startRoom :: endRoom :: rooms) ->
  JsString.toLowerCase (getRoomName startRoom)
  = JsString.toLowerCase (getRoomName endRoom) ->
  (findRoute rooms startRoom endRoom targetFloor = Ok None \/
   findRoute rooms startRoom endRoom targetFloor = Throw) /\
  ((forall f, In f rooms -> ringCoords (f_geometry f) <> None) ->
   findRoute rooms startRoom endRoom targetFloor = Ok None).
Proof.
  intros _ Hsame.
  assert (Hrun : forall groups,
             groupRoomsByName rooms = Ok groups ->
             findRoute rooms startRoom endRoom targetFloor = Ok None).
  { intros groups Hg. unfold findRoute. rewrite Hsame, Hg. cbn [bind].
    destruct (negb _ || negb _); [reflexivity|].
    destruct (noKey _ || noKey _); [reflexivity|].
    destruct (findKey _ _) as [k|]; [|reflexivity].
    now rewrite aStar_same_key. }
  split.
  - destruct (groupRoomsByName rooms) as [groups| |] eqn:Eg.
    + left. now apply (Hrun groups).
    + unfold findRoute. rewrite Eg. cbn [bind].
      destruct (negb _ || negb _); auto.
    + exfalso. clear - Eg. unfold groupRoomsByName in Eg.
      induction (collectGroups rooms) as [|kv l IH]; [discriminate|].
      cbn [mapM] in Eg. unfold withCentroid in Eg at 1.
      destruct (mapM getCentroid (g_features (snd kv))) as [cs| |] eqn:Ec;
        cbn [bind] in Eg; try discriminate.
      * destruct (mapM _ l) as [x| |]; cbn [bind] in Eg; try discriminate.
        now apply IH.
      * clear - Ec. induction (g_features (snd kv)) as [|f fs IH];
          [discriminate|].
        cbn [mapM] in Ec. unfold getCentroid in Ec at 1.
        destruct (ringCoords (f_geometry f)) as [[|v ring]|]; cbn [bind] in Ec;
          try discriminate;
          (destruct (mapM getCentroid fs); cbn [bind] in Ec;
             try discriminate; now apply IH).
  - intros Hrings.
    destruct (groupRoomsByName_returns rooms Hrings) as [groups Hg].
    now apply (Hrun groups).
Qed.

Lemma findRoute_same_name_is_null_witness :
  findRoute threeFeatures (namedLine "a" None []) (namedLine "A" None [])
    None = Ok None.
Proof.
  apply (findRoute_same_name_is_null threeFeatures); [|reflexivity|].
  - intros f Hf. cbn in Hf.
    destruct Hf as [<-|[<-|[<-|[<-|[<-|[]]]]]]; reflexivity.
  - intros f Hf. cbn in Hf.
    destruct Hf as [<-|[<-|[<-|[]]]]; discriminate.
Defined.


(** ** The shape of a returned route *)

Lemma last_append {A : Type} (l1 l2 : list A) (d : A) :
  l2 <> [] -> last (l1 ++ l2) d = last l2 d.
Proof.
  intros Hne. induction l1 as [|a l1 IH]; [reflexivity|].
  cbn [app]. destruct (l1 ++ l2) eqn:E.
  - destruct l1; [cbn in E; contradiction | discriminate].
  - rewrite <- IH. reflexivity.
Qed.

Lemma Forall2_last {A B : Type} (R : A -> B -> Prop) (a da : A) (b db : B)
  (l : list A) (l' : list B) :
  Forall2 R (a :: l) (b :: l') ->
  R (last (a :: l) da) (last (b :: l') db).
Proof.
  revert a b l'. induction l as [|x l IH]; intros a b l' H;
    inversion H as [|? ? ? ? Hab Hl]; subst.
  - inversion Hl; subst. exact Hab.
  - inversion Hl as [|? y ? l0 Hxy Hl0]; subst.
    change (R (last (x :: l) da) (last (y :: l0) db)). now apply IH.
Qed.

Lemma interleave_last (ps : list routePoint) (ws : list (list routePoint))
  (d : routePoint) :
  List.length ws = List.length ps -> last ws [] = [] ->
  last (interleave ps ws) d = last ps d.
Proof.
  revert ws. induction ps as [|p ps IH]; intros [|w ws] Hl Hlast;
    try discriminate; [reflexivity|].
  rewrite interleave_cons. injection Hl as Hl.
  destruct ps as [|q ps].
  - destruct ws; [|discriminate]. cbn in Hlast. subst w. reflexivity.
  - destruct ws as [|w' ws]; [discriminate|].
    specialize (IH (w' :: ws) Hl Hlast). rewrite interleave_cons in *.
    change (last (p :: q :: ps) d) with (last (q :: ps) d).
    rewrite <- IH.
    change (p :: w ++ q :: w' ++ interleave ps ws)
      with ((p :: w) ++ q :: w' ++ interleave ps ws).
    now rewrite last_append by discriminate.
Qed.

Lemma interleave_In (ps : list routePoint) (ws : list (list routePoint))
  (x : routePoint) :
  In x (interleave ps ws) ->
  In x ps \/ exists i, (i < List.length ps)%nat /\ In x (nth i ws []).
Proof.
  revert ws. induction ps as [|p ps IH]; intros ws H;
    [destruct H|].
  destruct ws as [|w ws]; [destruct H|].
  rewrite interleave_cons in H. destruct H as [<-|H]; [left; now left|].
  apply in_app_or in H. destruct H as [H|H].
  - right. exists 0%nat. split; [cbn; lia | exact H].
  - destruct (IH ws H) as [H'|(i & Hi & H')]; [left; now right|].
    right. exists (S i). split; [cbn; lia | exact H'].
Qed.

Lemma mapM_toRoutePoint (groups : JsMap.t room) (targetFloor : option Z)
  (keys : list string) (pathCoords : list routePoint) :
  distinctRooms groups ->
  mapM (toRoutePoint (buildRoomGraph groups targetFloor)) keys
  = Ok pathCoords ->
  Forall2 (fun k p =>
             exists r,
               In r (filterRooms (JsMap.values groups) targetFloor) /\
               k = roomKeyOf r /\
               p = mkRoutePoint (room_centroid r) (room_floor r)
                     (room_name r) (room_features r)
                     (Some (Pathfinding.isCorridor (room_name r))) None)
    keys pathCoords.
Proof.
  intros Hd H. apply mapM_Ok in H.
  induction H as [|k p ks ps Hk _ IH]; constructor; [|exact IH].
  now apply (toRoutePoint_room groups targetFloor).
Qed.

Lemma findKey_name (groups : JsMap.t room) (targetFloor : option Z)
  (name k : string) (r : room) :
  distinctRooms groups ->
  findKey (buildRoomGraph groups targetFloor) name = Some k ->
  k = roomKeyOf r ->
  JsString.toLowerCase (room_name r) = name.
Proof.
  intros Hd Hf ->. apply findKey_Some in Hf as (nd & Hin & <-).
  destruct (graph_get groups targetFloor _ nd Hd Hin)
    as (_ & r' & _ & Hk & ->).
  apply roomKey_inj in Hk as (-> & _). reflexivity.
Qed.

(** X18: with ASCII names throughout, a route that [findRoute] returns
    has at least two points.  It begins with the point of a room whose
    name is the start name and ends with the point of a room whose name
    is the end name, in any letter case; each of its points is either
    the point of a navigable room of the index or an inserted waypoint;
    and when a target floor is given, all its points are on that
    floor. *)
Theorem findRoute_route_shape (rooms : list feature)
  (startRoom endRoom : feature) (targetFloor : option Z)
  (path : list routePoint) :
  asciiNames (startRoom :: endRoom :: rooms) ->
  findRoute rooms startRoom endRoom targetFloor = Ok (Some path) ->
  exists groups first final,
    groupRoomsByName rooms = Ok groups /\
    hd_error path = Some first /\ last path first = final /\
    (2 <= List.length path)%nat /\
    roomPoint groups targetFloor first /\
    roomPoint groups targetFloor final /\
    JsString.toLowerCase (rp_name first)
    = JsString.toLowerCase (getRoomName startRoom) /\
    JsString.toLowerCase (rp_name final)
    = JsString.toLowerCase (getRoomName endRoom) /\
    Forall (fun p => rp_isWaypoint p = Some true \/
                     roomPoint groups targetFloor p) path /\
    (forall fl, targetFloor = Some fl ->
       Forall (fun p => rp_floor p = fl) path).
Proof.
  intros _ H.
  destruct (findRoute_Some rooms startRoom endRoom targetFloor path H)
    as (groups & sk & ek & keys & pathCoords & Hg & Hs & He & Ha & Hm & Hw).
  pose proof (groupRoomsByName_distinct rooms groups Hg) as Hd.
  destruct (aStar_simple _ sk ek keys Ha) as (_ & (Hh & Hl) & _ & Hne).
  pose proof (mapM_toRoutePoint groups targetFloor keys pathCoords Hd Hm)
    as Hpts.
  destruct (addCorridorWaypoints_blocks pathCoords path Hw)
    as (inserted & -> & Hb & Hlast & Hafter).
  assert (Hlen : List.length inserted = List.length pathCoords)
    by (symmetry; apply (Forall2_length Hb)).
  destruct Hpts as [|k0 p0 ks ps Hp0 Hrest]; [discriminate|].
  injection Hh as ->.
  destruct inserted as [|w0 ws]; [discriminate|].
  exists groups, p0, (last (p0 :: ps) p0).
  assert (Hroom : forall p, In p (p0 :: ps) -> roomPoint groups targetFloor p).
  { intros p Hp.
    assert (Hall : Forall (roomPoint groups targetFloor) (p0 :: ps)).
    { clear - Hp0 Hrest. constructor.
      - destruct Hp0 as (r & Hr & _ & Hp). exists r. auto.
      - induction Hrest as [|k p ks ps (r & Hr & _ & Hp) _ IH];
          constructor; [exists r; auto | exact IH]. }
    now apply (proj1 (Forall_forall _ _) Hall). }
  assert (Hfinal : exists r,
             In r (filterRooms (JsMap.values groups) targetFloor) /\
             ek = roomKeyOf r /\
             last (p0 :: ps) p0
             = mkRoutePoint (room_centroid r) (room_floor r) (room_name r)
                 (room_features r)
                 (Some (Pathfinding.isCorridor (room_name r))) None).
  { rewrite <- Hl.
    apply (Forall2_last
             (fun k p =>
                exists r,
                  In r (filterRooms (JsMap.values groups) targetFloor) /\
                  k = roomKeyOf r /\
                  p = mkRoutePoint (room_centroid r) (room_floor r)
                        (room_name r) (room_features r)
                        (Some (Pathfinding.isCorridor (room_name r))) None)).
    now constructor. }
  split; [exact Hg|]. split; [reflexivity|].
  split; [now apply interleave_last|]. split.
  { pose proof (interleave_length (p0 :: ps) (w0 :: ws) Hb Hlast
                  ltac:(discriminate)) as (H1 & _).
    destruct ks as [|k1 ks].
    - cbn in Hl. congruence.
    - inversion Hrest; subst. cbn [List.length] in *. lia. }
  split; [apply Hroom; now left|].
  split.
  { destruct Hfinal as (r & Hr & _ & Hp). exists r. auto. }
  split.
  { destruct Hp0 as (r & Hr & Hk & ->). cbn [rp_name].
    now apply (findKey_name groups targetFloor _ sk r Hd Hs). }
  split.
  { destruct Hfinal as (r & Hr & Hk & ->). cbn [rp_name].
    now apply (findKey_name groups targetFloor _ ek r Hd He). }
  split.
  - apply Forall_forall. intros p Hp.
    apply interleave_In in Hp as [Hp|(i & Hi & Hp)]; [right; auto|].
    left. specialize (Hafter i Hi).
    apply waypointsAfter_flagged in Hafter.
    now apply (proj1 (Forall_forall _ _) Hafter).
  - intros fl ->. apply Forall_forall. intros p Hp.
    assert (Hz : In (rp_floor p) (map rp_floor (p0 :: ps))).
    { apply (interleave_floors (p0 :: ps) (w0 :: ws) _ Hb).
      now apply in_map. }
    apply in_map_iff in Hz as (q & Hq & Hin). rewrite <- Hq.
    destruct (Hroom q Hin) as (r & Hr & ->). cbn [rp_floor].
    apply filterRooms_In in Hr. now apply Hr.
Qed.


(** ** Routes between connected rooms *)

Lemma buildRoomGraph_positive (groups : JsMap.t room)
  (targetFloor : option Z) :
  distinctRooms groups ->
  positiveWeights (buildRoomGraph groups targetFloor).
Proof.
  intros Hd u nu nb Hu Hnb.
  destruct (graph_edge groups targetFloor u nu nb Hd Hu Hnb)
    as (r & o & Hr & Ho & -> & Hc & -> & Hgo).
  destruct (connect_fields r o nb Hc) as (Hk & _ & _ & _ & _ & _ & Hdist & Hw).
  split; [lra|]. rewrite Hk, Hgo. discriminate.
Qed.

Lemma findRoute_after_search (rooms : list feature)
  (startRoom endRoom : feature) (targetFloor : option Z)
  (groups : JsMap.t room) (sk ek : string) (r : option (list string)) :
  groupRoomsByName rooms = Ok groups ->
  getRoomName startRoom <> "" -> getRoomName endRoom <> "" ->
  findKey (buildRoomGraph groups targetFloor)
    (JsString.toLowerCase (getRoomName startRoom)) = Some sk ->
  findKey (buildRoomGraph groups targetFloor)
    (JsString.toLowerCase (getRoomName endRoom)) = Some ek ->
  aStar (buildRoomGraph groups targetFloor) sk ek = Ok r ->
  match r with
  | None => findRoute rooms startRoom endRoom targetFloor = Ok None
  | Some _ =>
      exists path,
        findRoute rooms startRoom endRoom targetFloor = Ok (Some path)
  end.
Proof.
  intros Hg Hs He Hsk Hek Ha.
  pose proof (groupRoomsByName_distinct rooms groups Hg) as Hd.
  pose proof (groupRoomsByName_rings rooms groups Hg) as Hrings.
  assert (Htruthy : forall name k,
             findKey (buildRoomGraph groups targetFloor) name = Some k ->
             noKey (Some k) = false).
  { intros name k Hk. apply findKey_Some in Hk as (nd & Hin & _).
    destruct (graph_get groups targetFloor k nd Hd Hin)
      as (_ & r' & _ & -> & _).
    unfold noKey, roomKeyOf. now rewrite roomKey_truthy. }
  unfold findRoute. rewrite !truthy_toLowerCase.
  destruct (getRoomName startRoom) as [|c1 s1] eqn:E1; [congruence|].
  destruct (getRoomName endRoom) as [|c2 s2] eqn:E2; [congruence|].
  cbn [JsString.truthy negb orb]. rewrite Hg. cbn [bind].
  rewrite Hsk, Hek, (Htruthy _ _ Hsk), (Htruthy _ _ Hek). cbn [orb].
  rewrite Ha. cbn [bind]. destruct r as [keys|]; [|reflexivity].
  destruct (aStar_total (buildRoomGraph groups targetFloor) sk ek)
    as (r' & Hr' & Hkeys).
  rewrite Ha in Hr'. injection Hr' as <-. specialize (Hkeys keys eq_refl).
  assert (Hpts : exists pathCoords,
             mapM (toRoutePoint (buildRoomGraph groups targetFloor)) keys
             = Ok pathCoords /\ ringsPresent pathCoords).
  { clear - Hkeys Hrings Hg. induction keys as [|k keys IH]; cbn.
    - exists []. split; [reflexivity|]. intros p f [].
    - destruct IH as (pts & -> & Hpts);
        [intros; apply Hkeys; now right|].
      unfold toRoutePoint at 1.
      destruct (JsMap.get k (buildRoomGraph groups targetFloor))
        as [nd|] eqn:Ek;
        [|exfalso; now apply (Hkeys k (or_introl eq_refl))].
      cbn. eexists. split; [reflexivity|].
      intros p f [<-|Hp] Hf; [|eapply Hpts; eauto].
      cbn [rp_features] in Hf. apply get_Some_In in Ek.
      apply graph_node_room in Ek.
      destruct (groupRoomsByName_members rooms groups _ Hg Ek) as (_ & Hmem).
      apply Hrings. now apply Hmem. }
  destruct Hpts as (pathCoords & -> & Hpresent). cbn [bind].
  destruct (addCorridorWaypoints_returns pathCoords Hpresent) as [out ->].
  cbn. eauto.
Qed.

(** X19: with ASCII names throughout, when the start name and the end
    name resolve to nodes of the graph, [findRoute] answers [null] if
    the two nodes have one centroid, and otherwise returns a route
    exactly when the graph joins the two nodes by a path: between rooms
    with different centroids, [null] means that the rooms are not
    connected. *)
Theorem findRoute_finds_connected_rooms (rooms : list feature)
  (startRoom endRoom : feature) (targetFloor : option Z)
  (groups : JsMap.t room) (sk ek : string) :
  asciiNames (startRoom :: endRoom :: rooms) ->
  groupRoomsByName rooms = Ok groups ->
  getRoomName startRoom <> "" -> getRoomName endRoom <> "" ->
  let g := buildRoomGraph groups targetFloor in
  findKey g (JsString.toLowerCase (getRoomName startRoom)) = Some sk ->
  findKey g (JsString.toLowerCase (getRoomName endRoom)) = Some ek ->
  exists startNode endNode,
    JsMap.get sk g = Some startNode /\ JsMap.get ek g = Some endNode /\
    (n_centroid startNode = n_centroid endNode ->
     findRoute rooms startRoom endRoom targetFloor = Ok None) /\
    (n_centroid startNode <> n_centroid endNode ->
     ((exists path,
         findRoute rooms startRoom endRoom targetFloor = Ok (Some path)) <->
      (exists p c, route g p c /\ fromTo p sk ek)) /\
     (findRoute rooms startRoom endRoom targetFloor = Ok None <->
      ~ exists p c, route g p c /\ fromTo p sk ek)).
Proof.
  intros _ Hg Hs He g Hsk Hek.
  pose proof (groupRoomsByName_distinct rooms groups Hg) as Hd.
  pose proof (findRoute_after_search rooms startRoom endRoom targetFloor
                groups sk ek) as Hafter.
  assert (Hnode : forall name k,
             findKey g name = Some k -> exists nd, JsMap.get k g = Some nd).
  { intros name k Hk. apply findKey_Some in Hk as (nd & Hin & _).
    exists nd. now apply (graph_get groups targetFloor k nd Hd). }
  destruct (Hnode _ _ Hsk) as (startNode & Hsn).
  destruct (Hnode _ _ Hek) as (endNode & Hen).
  exists startNode, endNode. split; [exact Hsn|]. split; [exact Hen|].
  split.
  - intros Hc.
    apply (Hafter None Hg Hs He Hsk Hek
             (aStar_coincident g sk ek startNode endNode Hsn Hen Hc)).
  - intros Hc.
    pose proof (aStar_reach g sk ek startNode endNode
                  (buildRoomGraph_positive groups targetFloor Hd)
                  (proj2 (proj2 (buildRoomGraph_nodes_aux groups targetFloor
                                   Hd)))
                  Hsn Hen Hc) as Hiff.
    destruct (aStar_total g sk ek) as (r & Hr & _).
    pose proof (Hafter r Hg Hs He Hsk Hek Hr) as Hres.
    assert (Hfirst :
              (exists path,
                 findRoute rooms startRoom endRoom targetFloor
                 = Ok (Some path)) <->
              (exists p c, route g p c /\ fromTo p sk ek)).
    { rewrite <- Hiff. split.
      - intros (path & Hpath). destruct r as [keys|]; [eauto|]. congruence.
      - intros (keys & Hkeys). rewrite Hkeys in Hr. injection Hr as <-.
        exact Hres. }
    split; [exact Hfirst|]. split.
    + intros Hnull Hex. apply Hfirst in Hex as (path & Hpath). congruence.
    + intros Hno. destruct r as [keys|]; [|exact Hres].
      exfalso. apply Hno. apply Hfirst. exact Hres.
Qed.


(** ** A route between two offices *)

Lemma twoOffices_ascii :
  asciiNames (namedLine "a" None [] :: namedLine "B" None [] :: twoOffices).
Proof.
  intros f Hf. cbn in Hf.
  destruct Hf as [<-|[<-|[<-|[<-|[]]]]]; reflexivity.
Qed.

Lemma twoOffices_groups : groupRoomsByName twoOffices = Ok officeIndex.
Proof.
  unfold groupRoomsByName, officeIndex. cbn.
  repeat (f_equal; try lra).
Qed.

Lemma rooms_edge (groups : JsMap.t room) (targetFloor : option Z)
  (r o : room) :
  distinctRooms groups ->
  In r (filterRooms (JsMap.values groups) targetFloor) ->
  In o (filterRooms (JsMap.values groups) targetFloor) ->
  room_floor r = room_floor o -> roomKeyOf r <> roomKeyOf o ->
  let dist := distance (room_centroid r) (room_centroid o) in
  let rule := sameFloorRule (Pathfinding.isCorridor (room_name r))
                (Pathfinding.isCorridor (room_name o)) in
  0 < dist < fst rule ->
  edge (buildRoomGraph groups targetFloor) (roomKeyOf r) (roomKeyOf o)
    (dist * snd rule).
Proof.
  intros Hd Hr Ho Hf Hk dist rule (H0 & H1).
  exists (mkNode r
            (neighborsOf (filterRooms (JsMap.values groups) targetFloor) r)
            (room_centroid r) (Pathfinding.isCorridor (room_name r))).
  exists (mkNeighbor (roomKeyOf o) (room_name o) (room_floor o)
            (dist * snd rule) (Pathfinding.isCorridor (room_name o))).
  split; [now apply graph_node|]. cbn [n_neighbors nb_key nb_distance].
  split; [|split; reflexivity].
  apply neighborsOf_In. exists o. split; [exact Ho|].
  rewrite connect_same_floor by assumption. cbv zeta. fold dist rule.
  apply Rltb_true in H0, H1. now rewrite H0, H1.
Qed.

Lemma officeIndex_distinct : distinctRooms officeIndex.
Proof. distinct_keys. Qed.

Lemma officeIndex_route :
  exists p c,
    route (buildRoomGraph officeIndex None) p c /\ fromTo p "A_F0" "B_F0".
Proof.
  exists ["A_F0"; "B_F0"]. eexists. split; [|split; reflexivity].
  constructor; [|constructor].
  apply (rooms_edge officeIndex None
           (mkRoom "A" 0 [namedLine "A" None [(0, 0)]] (0, 0))
           (mkRoom "B" 0 [namedLine "B" None [(0.01, 0)]] (0.01, 0))
           officeIndex_distinct).
  - in_all_floors.
  - in_all_floors.
  - reflexivity.
  - discriminate.
  - cbn [room_centroid room_name]. rewrite distance_horizontal.
    replace (Rabs (0 - 0.01)) with 0.01 by (rewrite Rabs_left; lra).
    replace (Pathfinding.isCorridor "A") with false by reflexivity.
    replace (Pathfinding.isCorridor "B") with false by reflexivity.
    cbn. lra.
Qed.

Lemma findRoute_finds_connected_rooms_witness :
  exists path,
    findRoute twoOffices (namedLine "a" None []) (namedLine "B" None [])
      None = Ok (Some path).
Proof.
  destruct (findRoute_finds_connected_rooms twoOffices
              (namedLine "a" None []) (namedLine "B" None []) None
              officeIndex "A_F0" "B_F0" twoOffices_ascii twoOffices_groups)
    as (startNode & endNode & Hs & He & _ & Hfar);
    [discriminate | discriminate | reflexivity | reflexivity |].
  apply Hfar; [|exact officeIndex_route].
  pose proof (graph_node officeIndex None
                (mkRoom "A" 0 [namedLine "A" None [(0, 0)]] (0, 0))
                officeIndex_distinct ltac:(in_all_floors)) as Ha.
  pose proof (graph_node officeIndex None
                (mkRoom "B" 0 [namedLine "B" None [(0.01, 0)]] (0.01, 0))
                officeIndex_distinct ltac:(in_all_floors)) as Hb.
  change (roomKeyOf (mkRoom "A" 0 [namedLine "A" None [(0, 0)]] (0, 0)))
    with "A_F0" in Ha.
  change (roomKeyOf (mkRoom "B" 0 [namedLine "B" None [(0.01, 0)]]
                       (0.01, 0)))
    with "B_F0" in Hb.
  rewrite Ha in Hs. rewrite Hb in He.
  injection Hs as <-. injection He as <-. cbn [n_centroid room_centroid].
  intros [= H]. lra.
Defined.

Lemma twoOffices_route :
  exists path,
    findRoute twoOffices (namedLine "a" None []) (namedLine "B" None [])
      None = Ok (Some path).
Proof.
  pose proof (graph_node officeIndex None
                (mkRoom "A" 0 [namedLine "A" None [(0, 0)]] (0, 0))
                officeIndex_distinct ltac:(in_all_floors)) as Ha.
  pose proof (graph_node officeIndex None
                (mkRoom "B" 0 [namedLine "B" None [(0.01, 0)]] (0.01, 0))
                officeIndex_distinct ltac:(in_all_floors)) as Hb.
  destruct (proj2 (aStar_reach (buildRoomGraph officeIndex None)
                     "A_F0" "B_F0" _ _
                     (buildRoomGraph_positive officeIndex None
                        officeIndex_distinct)
                     (proj2 (proj2 (buildRoomGraph_nodes_aux officeIndex None
                                      officeIndex_distinct)))
                     Ha Hb ltac:(cbn; intros [= H]; lra))
              officeIndex_route) as (keys & Hkeys).
  apply (findRoute_after_search twoOffices (namedLine "a" None [])
           (namedLine "B" None []) None officeIndex "A_F0" "B_F0"
           (Some keys) twoOffices_groups);
    [discriminate | discriminate | reflexivity | reflexivity | exact Hkeys].
Qed.

Lemma findRoute_route_shape_witness :
  exists path,
    findRoute twoOffices (namedLine "a" None []) (namedLine "B" None [])
      None = Ok (Some path) /\
    (2 <= List.length path)%nat.
Proof.
  destruct twoOffices_route as (path & Hpath).
  exists path. split; [exact Hpath|].
  destruct (findRoute_route_shape twoOffices _ _ None path twoOffices_ascii
              Hpath)
    as (groups & first & final & _ & _ & _ & Hlen & _).
  exact Hlen.
Defined.

(** ** A search between stacked rooms *)

Lemma rooms_edge_across (groups : JsMap.t room) (targetFloor : option Z)
  (r o : room) :
  distinctRooms groups ->
  In r (filterRooms (JsMap.values groups) targetFloor) ->
  In o (filterRooms (JsMap.values groups) targetFloor) ->
  Z.abs (room_floor r - room_floor o) = 1%Z ->
  isVerticalConnector (room_name r) || isVerticalConnector (room_name o)
  = true ->
  let dist := distance (room_centroid r) (room_centroid o) in
  0 < dist < 0.02 ->
  edge (buildRoomGraph groups targetFloor) (roomKeyOf r) (roomKeyOf o)
    (dist * 2).
Proof.
  intros Hd Hr Ho Hf Hv dist (H0 & H1).
  exists (mkNode r
            (neighborsOf (filterRooms (JsMap.values groups) targetFloor) r)
            (room_centroid r) (Pathfinding.isCorridor (room_name r))).
  exists (mkNeighbor (roomKeyOf o) (room_name o) (room_floor o)
            (dist * 2) (Pathfinding.isCorridor (room_name o))).
  split; [now apply graph_node|]. cbn [n_neighbors nb_key nb_distance].
  split; [|split; reflexivity].
  apply neighborsOf_In. exists o. split; [exact Ho|].
  rewrite connect_cross_floor by assumption. rewrite Hv. fold dist.
  apply Rltb_true in H0, H1. now rewrite H0, H1.
Qed.

Lemma consistent_without_corridors (groups : JsMap.t room)
  (targetFloor : option Z) :
  distinctRooms groups ->
  (forall r, In r (filterRooms (JsMap.values groups) targetFloor) ->
     Pathfinding.isCorridor (room_name r) = false) ->
  consistentWeights (buildRoomGraph groups targetFloor).
Proof.
  intros Hd Hno u nu nb Hu Hnb.
  destruct (graph_edge groups targetFloor u nu nb Hd Hu Hnb)
    as (r & o & Hr & Ho & -> & Hc & -> & Hgo).
  rewrite (connect_key r o nb Hc). eexists. split; [exact Hgo|].
  cbn [n_centroid]. apply connect_weight_without_corridor; auto.
Qed.

Lemma stackedRooms_distinct : distinctRooms stackedRooms.
Proof. distinct_keys. Qed.

(** C1, failing input: an office on floor 0, the archive right above
    it on floor 1 and the stairs of floor 0, 0.01 away.  Every edge of
    the graph that the builder makes weighs at least the distance
    between its ends (1.2 times on the floor, twice across floors),
    both keys are in the graph, and the office is joined to the archive
    by the path over the stairs, of weight 0.032.  The two rooms have
    one centroid, however, so that the f-score of the start is [0],
    which [fScore.get(key) || Infinity] reads as [Infinity]: no node is
    picked and the search returns [null]. *)
Theorem aStar_misses_path_between_stacked_rooms :
  let g := buildRoomGraph stackedRooms None in
  consistentWeights g /\
  JsMap.has "Office_F0" g = true /\ JsMap.has "Archive_F1" g = true /\
  route g ["Office_F0"; "Stairs_F0"; "Archive_F1"] (0.012 + (0.02 + 0)) /\
  fromTo ["Office_F0"; "Stairs_F0"; "Archive_F1"] "Office_F0" "Archive_F1" /\
  aStar g "Office_F0" "Archive_F1" = Ok None.
Proof.
  intros g.
  pose proof (graph_node stackedRooms None (roomAt "Office" 0 (0, 0))
                stackedRooms_distinct ltac:(in_all_floors)) as Ho.
  pose proof (graph_node stackedRooms None (roomAt "Archive" 1 (0, 0))
                stackedRooms_distinct ltac:(in_all_floors)) as Ha.
  change (roomKeyOf (roomAt "Office" 0 (0, 0))) with "Office_F0" in Ho.
  change (roomKeyOf (roomAt "Archive" 1 (0, 0))) with "Archive_F1" in Ha.
  fold g in Ho, Ha.
  assert (Hd : distance (0, 0) (0.01, 0) = 0.01).
  { rewrite distance_horizontal. rewrite Rabs_left; lra. }
  assert (Hd' : distance (0.01, 0) (0, 0) = 0.01).
  { rewrite distance_horizontal. rewrite Rabs_right; lra. }
  split; [|split; [|split; [|split; [|split]]]].
  - apply consistent_without_corridors; [exact stackedRooms_distinct|].
    intros r Hr. apply filterRooms_In in Hr as (Hr & _). cbn in Hr.
    destruct Hr as [<-|[<-|[<-|[]]]]; reflexivity.
  - unfold JsMap.has. now rewrite Ho.
  - unfold JsMap.has. now rewrite Ha.
  - constructor; [|constructor; [|constructor]].
    + pose proof (rooms_edge stackedRooms None (roomAt "Office" 0 (0, 0))
                    (roomAt "Stairs" 0 (0.01, 0)) stackedRooms_distinct
                    ltac:(in_all_floors) ltac:(in_all_floors) eq_refl
                    ltac:(discriminate)) as He.
      cbn [room_centroid room_name roomAt] in He. rewrite Hd in He.
      replace (Pathfinding.isCorridor "Office") with false in He
        by reflexivity.
      replace (Pathfinding.isCorridor "Stairs") with false in He
        by reflexivity.
      cbn [sameFloorRule andb orb fst snd] in He.
      replace 0.012 with (0.01 * 1.2) by lra. apply He. lra.
    + pose proof (rooms_edge_across stackedRooms None
                    (roomAt "Stairs" 0 (0.01, 0))
                    (roomAt "Archive" 1 (0, 0)) stackedRooms_distinct
                    ltac:(in_all_floors) ltac:(in_all_floors) eq_refl
                    eq_refl) as He.
      cbn [room_centroid roomAt] in He. rewrite Hd' in He.
      replace 0.02 with (0.01 * 2) by lra. apply He. lra.
  - split; reflexivity.
  - apply (aStar_coincident g "Office_F0" "Archive_F1" _ _ Ho Ha).
    reflexivity.
Qed.


(** * Further properties of the directions generator *)

(** ** The Haversine distance *)

Lemma half_angle_sin (x : R) : sin (x / 2) * sin (x / 2) = (1 - cos x) / 2.
Proof.
  pose proof (cos_2a_sin (x / 2)) as H.
  replace (2 * (x / 2)) with x in H by lra. lra.
Qed.

Lemma cosCentralAngle_bound (p q : coord) : -1 <= cosCentralAngle p q <= 1.
Proof.
  unfold cosCentralAngle. cbv zeta.
  set (phi1 := snd p * PI / 180). set (phi2 := snd q * PI / 180).
  set (k := cos ((fst q - fst p) * PI / 180)).
  pose proof (sin2_cos2 phi1) as H1. pose proof (sin2_cos2 phi2) as H2.
  pose proof (COS_bound ((fst q - fst p) * PI / 180)) as Hk. fold k in Hk.
  unfold Rsqr in H1, H2.
  set (s1 := sin phi1) in *. set (c1 := cos phi1) in *.
  set (s2 := sin phi2) in *. set (c2 := cos phi2) in *.
  assert (Hk2 : 0 <= c2 * c2 * (1 - k * k)).
  { apply Rmult_le_pos; [apply Rle_0_sqr | nra]. }
  pose proof (Rle_0_sqr (s1 - s2)) as A1.
  pose proof (Rle_0_sqr (c1 - c2 * k)) as A2.
  pose proof (Rle_0_sqr (s1 + s2)) as A3.
  pose proof (Rle_0_sqr (c1 + c2 * k)) as A4.
  unfold Rsqr in A1, A2, A3, A4. split; nra.
Qed.

Lemma haversine_term (p q : coord) :
  let phi1 := snd p * PI / 180 in
  let phi2 := snd q * PI / 180 in
  let dphi := (snd q - snd p) * PI / 180 in
  let dlambda := (fst q - fst p) * PI / 180 in
  sin (dphi / 2) * sin (dphi / 2) +
  cos phi1 * cos phi2 * sin (dlambda / 2) * sin (dlambda / 2)
  = (1 - cosCentralAngle p q) / 2.
Proof.
  cbv zeta. unfold cosCentralAngle. cbv zeta.
  rewrite Rmult_assoc, !half_angle_sin.
  replace ((snd q - snd p) * PI / 180)
    with (snd q * PI / 180 - snd p * PI / 180) by lra.
  rewrite cos_minus. lra.
Qed.

Lemma atan2_quarter (a : R) :
  0 <= a <= 1 ->
  0 <= atan2 (sqrt a) (sqrt (1 - a)) <= PI / 2 /\
  sin (atan2 (sqrt a) (sqrt (1 - a))) * sin (atan2 (sqrt a) (sqrt (1 - a)))
  = a.
Proof.
  intros Ha. pose proof PI2_RGT_0 as Hpi.
  destruct (Req_dec a 1) as [->|Hne].
  - replace (1 - 1) with 0 by lra. rewrite sqrt_0, sqrt_1.
    rewrite atan2_up by lra. rewrite sin_PI2. lra.
  - assert (Hx : 0 < sqrt (1 - a)) by (apply sqrt_lt_R0; lra).
    rewrite atan2_right by exact Hx.
    set (t := sqrt a / sqrt (1 - a)).
    assert (Ht : 0 <= t).
    { unfold t. apply Rmult_le_pos; [apply sqrt_pos|].
      left. now apply Rinv_0_lt_compat. }
    pose proof (atan_bound t) as Hb.
    assert (H0 : 0 <= atan t).
    { destruct Ht as [Ht|<-]; [|rewrite atan_0; lra].
      left. rewrite <- atan_0. now apply atan_increasing. }
    split; [lra|].
    assert (Hc : 0 < cos (atan t)) by (apply cos_gt_0; lra).
    pose proof (tan_atan t) as Htan. unfold tan in Htan.
    assert (Hs : sin (atan t) = t * cos (atan t)).
    { rewrite <- Htan at 2. field. lra. }
    pose proof (sin2_cos2 (atan t)) as H1. unfold Rsqr in H1.
    assert (Ht2 : t * t * (1 - a) = a).
    { pose proof (sqrt_def a (proj1 Ha)) as Hsa.
      pose proof (sqrt_def (1 - a) ltac:(lra)) as Hsb.
      assert (Htsb : t * sqrt (1 - a) = sqrt a) by (unfold t; field; lra).
      clear - Hsa Hsb Htsb.
      set (sa := sqrt a) in *. set (sb := sqrt (1 - a)) in *.
      replace (t * t * (1 - a)) with ((t * sb) * (t * sb))
        by (rewrite <- Hsb; ring).
      rewrite Htsb. exact Hsa. }
    rewrite Hs.
    assert (Hcc : cos (atan t) * cos (atan t) * (1 + t * t) = 1).
    { rewrite Hs in H1. lra. }
    assert (Hgoal : t * t * (cos (atan t) * cos (atan t)) * (1 - a)
                    = a * (cos (atan t) * cos (atan t))).
    { rewrite <- Ht2 at 2. ring. }
    assert (H1a : (1 - a) * (1 + t * t) = 1) by nra.
    nra.
Qed.

(** X20: the Haversine distance is the great-circle distance on a sphere of
    radius 6371000 metres: the radius times the angle between [0] and
    [PI] whose cosine the spherical law of cosines gives for the two
    positions.  It is therefore the same in both directions, [0] from a
    position to itself and at most half the circumference of the
    sphere. *)
Theorem calculateDistance_great_circle (p q : coord) :
  let sigma := calculateDistance p q / 6371000 in
  0 <= sigma <= PI /\
  cos sigma = cosCentralAngle p q /\
  calculateDistance p q = calculateDistance q p /\
  calculateDistance p p = 0 /\
  0 <= calculateDistance p q <= 6371000 * PI.
Proof.
  assert (Hgen : forall p q,
             0 <= calculateDistance p q / 6371000 <= PI /\
             cos (calculateDistance p q / 6371000) = cosCentralAngle p q).
  { clear p q. intros p q. unfold calculateDistance. cbv zeta.
    rewrite (haversine_term p q).
    pose proof (cosCentralAngle_bound p q) as Hb.
    set (a := (1 - cosCentralAngle p q) / 2).
    assert (Ha : 0 <= a <= 1) by (unfold a; lra).
    destruct (atan2_quarter a Ha) as (Hq & Hsin).
    replace (6371000 * (2 * atan2 (sqrt a) (sqrt (1 - a))) / 6371000)
      with (2 * atan2 (sqrt a) (sqrt (1 - a))) by field.
    split; [lra|]. rewrite cos_2a_sin. unfold a in *. lra. }
  assert (Hsym : forall p q, cosCentralAngle p q = cosCentralAngle q p).
  { clear. intros p q. unfold cosCentralAngle. cbv zeta.
    replace ((fst p - fst q) * PI / 180)
      with (- ((fst q - fst p) * PI / 180)) by lra.
    rewrite cos_neg. ring. }
  cbv zeta. destruct (Hgen p q) as (Hr & Hc).
  destruct (Hgen q p) as (Hr' & Hc').
  split; [exact Hr|]. split; [exact Hc|]. split; [|split].
  - assert (E : calculateDistance p q / 6371000
                = calculateDistance q p / 6371000).
    { apply cos_inj; auto. now rewrite Hc, Hc', Hsym. }
    lra.
  - destruct (Hgen p p) as (Hr0 & Hc0).
    assert (E : calculateDistance p p / 6371000 = 0).
    { apply cos_inj; [exact Hr0 | pose proof PI_RGT_0; lra|].
      rewrite Hc0, cos_0. unfold cosCentralAngle. cbv zeta.
      replace ((fst p - fst p) * PI / 180) with 0 by lra.
      rewrite cos_0. pose proof (sin2_cos2 (snd p * PI / 180)) as H.
      unfold Rsqr in H. lra. }
    lra.
  - lra.
Qed.

(** ** Statistics in terms of the Haversine formula *)

(** The distance that the code computes with [atan2] is the Haversine
    formula. *)
Lemma calculateDistance_haversine (p q : coord) :
  calculateDistance p q = haversine p q.
Proof.
  unfold calculateDistance, haversine. cbv zeta. unfold Rsqr.
  replace ((snd q * PI / 180 - snd p * PI / 180) / 2)
    with ((snd q - snd p) * PI / 180 / 2) by lra.
  rewrite <- (Rmult_assoc (cos (snd p * PI / 180) * cos (snd q * PI / 180))).
  set (a := sin _ * sin _ + _).
  assert (Ha : 0 <= a <= 1).
  { pose proof (haversine_term p q) as Ht. cbv zeta in Ht.
    fold a in Ht. pose proof (cosCentralAngle_bound p q). lra. }
  assert (E : atan2 (sqrt a) (sqrt (1 - a)) = asin (sqrt a)).
  { destruct (Req_dec a 1) as [->|Hne].
    - replace (1 - 1) with 0 by lra. rewrite sqrt_0, sqrt_1, asin_1.
      apply atan2_up. lra.
    - assert (Hx : 0 < sqrt (1 - a)) by (apply sqrt_lt_R0; lra).
      assert (Hs : 0 <= sqrt a < 1).
      { split; [apply sqrt_pos|]. rewrite <- sqrt_1.
        apply sqrt_lt_1_alt. lra. }
      rewrite atan2_right by exact Hx.
      rewrite asin_atan by lra. rewrite Rsqr_sqrt by lra. reflexivity. }
  rewrite E. ring.
Qed.

Lemma haversineLengths_segmentLengths (routePath : list routePoint) :
  haversineLengths routePath = segmentLengths routePath.
Proof.
  unfold haversineLengths, segmentLengths. apply map_ext.
  intros pq. now rewrite calculateDistance_haversine.
Qed.

(** C9: the distance between two positions is given by the Haversine
    formula on a sphere of radius 6371000 metres.  On a path of at least
    two points the statistics are the sum of the Haversine lengths of
    the legs, that sum over 1.4 plus 30 seconds per floor change, the
    number of consecutive pairs on different floors, and the floors of
    the path in ascending order without repetition.  Two points of one
    floor whose Haversine distance is 10 metres give 10/1.4 seconds
    (7.14 to two decimals), no floor change and that one floor. *)
Theorem calculateRouteStats_spec :
  (forall p q : coord, calculateDistance p q = haversine p q) /\
  (forall (a b : routePoint) (rest : list routePoint),
     let routePath := a :: b :: rest in
     let stats := calculateRouteStats routePath in
     totalDistance stats = total (haversineLengths routePath) /\
     estimatedTime stats
     = totalDistance stats / 1.4 + INR (floorChanges stats) * 30 /\
     floorChanges stats = countChanges routePath /\
     StronglySorted Z.lt (floors stats) /\
     (forall z, In z (floors stats) <-> In z (map rp_floor routePath))) /\
  (forall a b : routePoint,
     rp_floor a = rp_floor b ->
     haversine (rp_coords a) (rp_coords b) = 10 ->
     let stats := calculateRouteStats [a; b] in
     totalDistance stats = 10 /\
     estimatedTime stats = 10 / 1.4 /\
     Rabs (estimatedTime stats - 7.14) < 0.01 /\
     floorChanges stats = 0%nat /\
     floors stats = [rp_floor a]).
Proof.
  destruct calculateRouteStats_sums as (Hgen & Hten).
  split; [exact calculateDistance_haversine|]. split.
  - intros a b rest routePath stats.
    rewrite haversineLengths_segmentLengths. apply Hgen.
  - intros a b Hfl Hd stats.
    rewrite <- calculateDistance_haversine in Hd.
    destruct (Hten a b Hfl Hd) as (Ht & Habs & Hc & Hf).
    destruct (Hgen a b []) as (Htot & He & _).
    fold stats in Ht, Habs, Hc, Hf, Htot, He.
    repeat split; auto.
    rewrite He, Hc in Ht. cbn [INR] in Ht. lra.
Qed.

Lemma calculateRouteStats_spec_witness :
  haversine (0, 0) (0, degreesOfMetres 10) = 10 /\
  totalDistance (calculateRouteStats tenMetres) = 10 /\
  estimatedTime (calculateRouteStats tenMetres) = 10 / 1.4 /\
  floorChanges (calculateRouteStats tenMetres) = 0%nat /\
  floors (calculateRouteStats tenMetres) = [2%Z].
Proof.
  assert (Hd : haversine (0, 0) (0, degreesOfMetres 10) = 10).
  { rewrite <- calculateDistance_haversine.
    replace (degreesOfMetres 10) with (0 + degreesOfMetres 10) by lra.
    apply calculateDistance_north. lra. }
  split; [exact Hd|].
  destruct (proj2 (proj2 calculateRouteStats_spec)
              (mkRoutePoint (0, 0) 2 "A" [] None None)
              (mkRoutePoint (0, degreesOfMetres 10) 2 "B" [] None None)
              eq_refl Hd) as (Ht & He & _ & Hc & Hf).
  auto.
Defined.


(** ** Bearings *)

Lemma atan2_range (y x : R) : - PI < atan2 y x <= PI.
Proof.
  pose proof PI_RGT_0 as Hpi. pose proof (atan_bound (y / x)) as Hb.
  unfold atan2.
  destruct (Rlt_dec 0 x) as [Hx|Hx]; [lra|].
  destruct (Rlt_dec x 0) as [Hx'|Hx'].
  - assert (Hi : / x < 0) by now apply Rinv_lt_0_compat.
    destruct (Rle_dec 0 y) as [Hy|Hy].
    + assert (Ha : atan (y / x) <= 0).
      { destruct Hy as [Hy|<-].
        - left. rewrite <- atan_0. apply atan_increasing.
          unfold Rdiv. nra.
        - unfold Rdiv. rewrite Rmult_0_l, atan_0. lra. }
      lra.
    + assert (Ha : 0 < atan (y / x)).
      { rewrite <- atan_0. apply atan_increasing. unfold Rdiv. nra. }
      lra.
  - destruct (Rlt_dec 0 y); [lra|]. destruct (Rlt_dec y 0); lra.
Qed.

Lemma remainder_turn (b : R) :
  180 < b <= 540 ->
  (b < 360 -> remainder b 360 = b) /\
  (360 <= b -> remainder b 360 = b - 360).
Proof.
  intros Hb. unfold remainder. split; intros H.
  - rewrite (truncate_between (b / 360) 0); lra.
  - rewrite (truncate_between (b / 360) 1); lra.
Qed.

Lemma atan_polar (x y : R) :
  0 < x ->
  sqrt (x * x + y * y) * cos (atan (y / x)) = x /\
  sqrt (x * x + y * y) * sin (atan (y / x)) = y.
Proof.
  intros Hx. rewrite cos_atan, sin_atan. set (t := y / x).
  assert (Hpos : 0 < 1 + (Rsqr t)) by (unfold Rsqr; nra).
  assert (Hs : 0 < sqrt (1 + (Rsqr t))) by now apply sqrt_lt_R0.
  assert (Hr : sqrt (x * x + y * y) = x * sqrt (1 + (Rsqr t))).
  { assert (E : x * x + y * y = Rsqr x * (1 + Rsqr t)).
    { subst t. unfold Rsqr. field. lra. }
    rewrite E.
    rewrite sqrt_mult; [|apply Rle_0_sqr | lra].
    rewrite sqrt_Rsqr; lra. }
  rewrite Hr. split; [field; lra|].
  transitivity (x * t); [field; lra | subst t; field; lra].
Qed.

Lemma atan2_polar (y x : R) :
  sqrt (x * x + y * y) * cos (atan2 y x) = x /\
  sqrt (x * x + y * y) * sin (atan2 y x) = y.
Proof.
  unfold atan2.
  destruct (Rlt_dec 0 x) as [Hx|Hx]; [now apply atan_polar|].
  destruct (Rlt_dec x 0) as [Hx'|Hx'].
  - destruct (atan_polar (- x) (- y)) as (Hc & Hs); [lra|].
    replace (- x * - x + - y * - y) with (x * x + y * y) in Hc, Hs by ring.
    replace (- y / - x) with (y / x) in Hc, Hs by (field; lra).
    destruct (Rle_dec 0 y).
    + rewrite neg_cos, neg_sin. split; lra.
    + unfold Rminus. rewrite cos_plus, sin_plus, cos_neg, sin_neg.
      rewrite cos_PI, sin_PI. split; lra.
  - assert (E : x = 0) by lra. subst x.
    replace (0 * 0 + y * y) with (Rsqr y) by (unfold Rsqr; ring).
    destruct (Rlt_dec 0 y) as [Hy|Hy].
    + rewrite cos_PI2, sin_PI2, sqrt_Rsqr by lra. split; lra.
    + destruct (Rlt_dec y 0) as [Hy'|Hy'].
      * rewrite cos_neg, sin_neg, cos_PI2, sin_PI2.
        replace (Rsqr y) with (Rsqr (- y)) by (unfold Rsqr; ring).
        rewrite sqrt_Rsqr by lra. split; lra.
      * assert (E : y = 0) by lra. subst y.
        rewrite Rsqr_0, sqrt_0, cos_0, sin_0. split; lra.
Qed.

Lemma full_turn (a : R) :
  cos (a + 2 * PI) = cos a /\ sin (a + 2 * PI) = sin a.
Proof.
  rewrite cos_plus, sin_plus, cos_2PI, sin_2PI. split; ring.
Qed.

(** X21: a bearing is a number of degrees from [0] (included) to [360]
    (excluded): the angle [theta] that [atan2] gives for the two
    components [y] and [x] of the forward azimuth, between [-180] and
    [180], is kept when it is not negative and raised by [360]
    otherwise.  The bearing points along these components: scaled by
    their length, its cosine is [x] and its sine is [y].  The bearing
    from a position to itself is [0]. *)
Theorem calculateBearing_range (p q : coord) :
  let phi1 := snd p * PI / 180 in
  let phi2 := snd q * PI / 180 in
  let dlambda := (fst q - fst p) * PI / 180 in
  let y := sin dlambda * cos phi2 in
  let x := cos phi1 * sin phi2 - sin phi1 * cos phi2 * cos dlambda in
  let theta := atan2 y x * 180 / PI in
  0 <= calculateBearing p q < 360 /\
  - 180 < theta <= 180 /\
  (0 <= theta -> calculateBearing p q = theta) /\
  (theta < 0 -> calculateBearing p q = theta + 360) /\
  sqrt (x * x + y * y) * cos (calculateBearing p q * PI / 180) = x /\
  sqrt (x * x + y * y) * sin (calculateBearing p q * PI / 180) = y /\
  calculateBearing p p = 0.
Proof.
  intros phi1 phi2 dlambda y x theta.
  pose proof PI_RGT_0 as Hpi.
  pose proof (atan2_range y x) as Hr.
  assert (Hlo : - 180 < theta).
  { unfold theta. apply Rmult_lt_reg_r with PI; [exact Hpi|].
    unfold Rdiv. rewrite Rmult_assoc, Rinv_l; lra. }
  assert (Hhi : theta <= 180).
  { unfold theta. apply Rmult_le_reg_r with PI; [exact Hpi|].
    unfold Rdiv. rewrite Rmult_assoc, Rinv_l; lra. }
  assert (Hb : calculateBearing p q = remainder (theta + 360) 360)
    by reflexivity.
  destruct (remainder_turn (theta + 360)) as (H1 & H2); [lra|].
  assert (Hkeep : 0 <= theta -> calculateBearing p q = theta)
    by (intros H; rewrite Hb, H2; lra).
  assert (Hraise : theta < 0 -> calculateBearing p q = theta + 360)
    by (intros H; rewrite Hb, H1; lra).
  assert (Hrad : theta * PI / 180 = atan2 y x)
    by (unfold theta; field; lra).
  destruct (atan2_polar y x) as (Hc & Hs).
  assert (Hdir : cos (calculateBearing p q * PI / 180) = cos (atan2 y x) /\
                 sin (calculateBearing p q * PI / 180) = sin (atan2 y x)).
  { destruct (Rle_dec 0 theta) as [H|H].
    - rewrite Hkeep, Hrad by assumption. auto.
    - rewrite Hraise by lra.
      replace ((theta + 360) * PI / 180) with (atan2 y x + 2 * PI)
        by (rewrite <- Hrad; field).
      apply full_turn. }
  destruct Hdir as (Ec & Es). rewrite Ec, Es.
  split; [destruct (Rle_dec 0 theta); [rewrite Hkeep | rewrite Hraise]; lra|].
  repeat (split; [assumption || lra|]).
  unfold calculateBearing. cbv zeta.
  replace ((fst p - fst p) * PI / 180) with 0 by lra.
  rewrite sin_0, cos_0.
  replace (0 * cos (snd p * PI / 180)) with 0 by lra.
  replace (cos (snd p * PI / 180) * sin (snd p * PI / 180) -
           sin (snd p * PI / 180) * cos (snd p * PI / 180) * 1)
    with 0 by lra.
  assert (E : atan2 0 0 = 0).
  { unfold atan2. destruct (Rlt_dec 0 0); [lra | reflexivity]. }
  rewrite E. replace (0 * 180 / PI + 360) with 360 by (field; lra).
  apply remainder_360.
Qed.


(** ** Turns *)







(** ** The list of instructions *)

Lemma total_app (l1 l2 : list R) : total (l1 ++ l2) = total l1 + total l2.
Proof.
  unfold total. induction l1 as [|x l1 IH]; cbn; [lra|]. rewrite IH. lra.
Qed.

Lemma pairs_snoc (a : routePoint) (l : list routePoint) (x : routePoint) :
  pairs (a :: l ++ [x]) = pairs (a :: l) ++ [(last l a, x)].
Proof.
  unfold pairs. cbn [tl]. revert a.
  induction l as [|b l IH]; intros a; [reflexivity|].
  change (combine (a :: (b :: l) ++ [x]) ((b :: l) ++ [x]))
    with ((a, b) :: combine (b :: l ++ [x]) (l ++ [x])).
  rewrite IH.
  replace (last (b :: l) a) with (last l b)
    by (destruct l as [|c l']; [reflexivity
                               | exact (last_any_default c b a l')]).
  reflexivity.
Qed.

Lemma runningTotals_snoc (acc : R) (l : list R) (x : R) :
  runningTotals acc (l ++ [x])
  = runningTotals acc l ++ [acc + total l + x].
Proof.
  revert acc. induction l as [|y l IH]; intros acc; cbn [app runningTotals].
  - unfold total. cbn. f_equal. lra.
  - rewrite IH. do 3 f_equal. unfold total. cbn. lra.
Qed.

Lemma nth_error_last (a : routePoint) (l : list routePoint) :
  nth_error (a :: l) (List.length l) = Some (last l a).
Proof.
  revert a. induction l as [|b l IH]; intros a; [reflexivity|].
  cbn [List.length nth_error]. rewrite IH. f_equal.
  destruct l as [|c l']; [reflexivity | exact (last_any_default c b a l')].
Qed.

Lemma directionStep_invariant (first : routePoint)
  (done suf : list routePoint) (current : routePoint) (st : dstate) :
  directionsInvariant first done st ->
  directionsInvariant first (done ++ [current])
    (directionStep (first :: done ++ current :: suf) st
       (List.length done + 1)).
Proof.
  intros (middle & Hdirs & Hids & Htypes & Hlen & Hcum & Hsum & Htotal & Hfl).
  set (routePath := first :: done ++ current :: suf).
  set (previous := last done first).
  assert (Hc : nth_error routePath (List.length done + 1) = Some current).
  { unfold routePath. rewrite Nat.add_1_r. cbn [nth_error].
    apply nth_error_middle. }
  assert (Hp : nth_error routePath (List.length done + 1 - 1)
               = Some previous).
  { unfold routePath. rewrite Nat.add_sub.
    change (first :: done ++ current :: suf)
      with ((first :: done) ++ current :: suf).
    rewrite nth_error_app1 by (cbn; lia). apply nth_error_last. }
  destruct (directionStep_emits routePath st _ current previous Hc Hp)
    as (Ecum & Hcases).
  set (leg := calculateDistance (rp_coords previous) (rp_coords current))
    in *.
  set (st' := directionStep routePath st (List.length done + 1)) in *.
  assert (Hseg : segmentLengths (first :: done ++ [current])
                 = segmentLengths (first :: done) ++ [leg]).
  { unfold segmentLengths. rewrite pairs_snoc, map_app. reflexivity. }
  assert (Htotal' : cumulativeDistance st'
                    = total (segmentLengths (first :: done ++ [current]))).
  { rewrite Ecum, Hseg, total_app, Htotal. unfold total at 3. cbn. lra. }
  assert (Hmoves : floorMoves (first :: done ++ [current])
                   = floorMoves (first :: done) ++
                     (if Z.eqb (rp_floor current) (rp_floor previous)
                      then []
                      else [(rp_floor previous, Some (rp_floor current))])).
  { unfold floorMoves. rewrite pairs_snoc, filter_app, map_app.
    cbn [filter fst snd]. fold previous.
    now destruct (Z.eqb (rp_floor current) (rp_floor previous)). }
  destruct Hcases as [(Ed & Es & Ef) | (d & Ed & Es & Hid & Hdist & Hdc & Hkind)].
  - exists middle. rewrite Ed, Es.
    split; [exact Hdirs|]. split; [exact Hids|]. split; [exact Htypes|].
    split; [rewrite length_app; cbn; lia|]. split; [exact Hcum|].
    split; [rewrite Ecum; lra|]. split; [exact Htotal'|].
    rewrite Hmoves, Ef, Z.eqb_refl, app_nil_r. exact Hfl.
  - exists (middle ++ [d]). rewrite Ed, Es.
    split; [rewrite Hdirs; reflexivity|]. split; [|split; [|split]].
    + rewrite map_app, length_app, seq_app, Hids. cbn [map List.length seq].
      now rewrite Hid.
    + apply Forall_app. split; [exact Htypes|]. constructor; [|constructor].
      unfold betweenInstruction.
      destruct Hkind as [(_ & H & _) | (_ & [H|H] & _)]; auto.
    + rewrite !length_app. cbn. lia.
    + split; [|split; [|split; [exact Htotal'|]]].
      * rewrite !map_app. cbn [map]. rewrite runningTotals_snoc, Hcum.
        do 2 f_equal. lra.
      * rewrite map_app, total_app. cbn [map]. unfold total at 2. cbn.
        rewrite Ecum. lra.
      * rewrite filter_app, map_app, Hfl, Hmoves. f_equal.
        destruct Hkind as [(Hne & Ht & Hf & Htf) | (He & _ & Hnot)].
        -- apply Z.eqb_neq in Hne. rewrite Hne. cbn [filter].
           unfold isFloorChange. rewrite Ht. cbn.
           unfold floorsOfChange. now rewrite Hf, Htf.
        -- rewrite He, Z.eqb_refl. cbn [filter]. now rewrite Hnot.
Qed.

Lemma directions_fold (first : routePoint) (suf done : list routePoint)
  (st : dstate) :
  directionsInvariant first done st ->
  directionsInvariant first (done ++ suf)
    (fold_left (directionStep (first :: done ++ suf))
       (seq (List.length done + 1) (List.length suf)) st).
Proof.
  revert done st. induction suf as [|p suf IH]; intros done st Hinv.
  - cbn. now rewrite app_nil_r.
  - cbn [List.length seq fold_left].
    replace (done ++ p :: suf) with ((done ++ [p]) ++ suf)
      by (rewrite <- app_assoc; reflexivity).
    replace (S (List.length done + 1))
      with (List.length (done ++ [p]) + 1)%nat
      by (rewrite length_app; cbn; lia).
    apply IH.
    replace ((done ++ [p]) ++ suf) with (done ++ p :: suf)
      by (rewrite <- app_assoc; reflexivity).
    now apply directionStep_invariant.
Qed.

Lemma directions_initial (first : routePoint) :
  directionsInvariant first [] (mkDState [startDirection first] 0 None 0).
Proof.
  exists []. cbn [directions segmentDistance cumulativeDistance].
  repeat split; try reflexivity.
  - constructor.
  - cbn. f_equal. lra.
  - unfold total. cbn. lra.
Qed.

Lemma generateDirections_invariant (first second : routePoint)
  (rest : list routePoint) :
  let routePath := first :: second :: rest in
  exists st,
    directionsInvariant first (second :: rest) st /\
    generateDirections routePath
    = directions st ++
      [mkDirection (List.length (directions st)) "destination"
         ("Arrive at " ++ rp_name (last routePath first))%string
         (rp_floor (last routePath first)) None
         (segmentDistance st) (cumulativeDistance st)
         (rp_name (last routePath first))
         (rp_coords (last routePath first)) None (Some IconTarget)].
Proof.
  intros routePath. eexists. split; [|reflexivity].
  pose proof (directions_fold first (second :: rest) [] _
                (directions_initial first)) as H.
  cbn [app List.length Nat.add] in H.
  replace (List.length routePath - 1)%nat with (S (List.length rest))
    by (unfold routePath; cbn; lia).
  exact H.
Qed.

Lemma calculateRouteStats_fields (a b : routePoint)
  (rest : list routePoint) :
  let routePath := a :: b :: rest in
  totalDistance (calculateRouteStats routePath)
  = total (segmentLengths routePath) /\
  floorChanges (calculateRouteStats routePath) = countChanges routePath.
Proof.
  intros routePath.
  destruct (statsStep_fold routePath (b :: rest) [] a (mkSState 0 [] 0)
              eq_refl) as (Ht & Hc & _).
  cbn [List.length Nat.add] in Ht, Hc.
  cbn [s_total s_changes] in Ht, Hc.
  assert (Hlen : (List.length routePath - 1 = S (List.length rest))%nat)
    by (cbn; lia).
  unfold calculateRouteStats. subst routePath. cbv zeta. rewrite Hlen.
  cbn [totalDistance floorChanges]. rewrite Ht, Hc. split; [lra | lia].
Qed.

(** X23: a path of fewer than two points gives no instruction.  For a longer
    path the instructions are numbered 0, 1, 2, ... in the order of the
    list; the first is the start at the first point, the last is the
    arrival at the last point, the instructions between them are floor
    changes, turns and waypoints, at most one for each point after the
    first. *)
Theorem generateDirections_numbering :
  generateDirections [] = [] /\
  (forall a, generateDirections [a] = []) /\
  forall (first second : routePoint) (rest : list routePoint),
    let routePath := first :: second :: rest in
    let dirs := generateDirections routePath in
    map d_id dirs = seq 0 (List.length dirs) /\
    (List.length dirs <= List.length routePath + 1)%nat /\
    exists middle destination,
      dirs = startDirection first :: middle ++ [destination] /\
      Forall betweenInstruction middle /\
      d_type destination = "destination" /\
      d_location destination = rp_name (last routePath first) /\
      d_floor destination = rp_floor (last routePath first) /\
      d_coords destination = rp_coords (last routePath first).
Proof.
  split; [reflexivity|]. split; [reflexivity|].
  intros first second rest routePath dirs.
  destruct (generateDirections_invariant first second rest)
    as (st & (middle & Hdirs & Hids & Htypes & Hlen & _) & Hgen).
  fold routePath in Hgen. unfold dirs. rewrite Hgen.
  split; [|split].
  - rewrite map_app, length_app, seq_app, Hids. reflexivity.
  - rewrite length_app, Hdirs. unfold routePath. cbn [List.length] in *. lia.
  - exists middle. eexists. rewrite Hdirs.
    split; [reflexivity|]. split; [exact Htypes|]. cbn. auto.
Qed.

Lemma sum_total (l : list R) (x : R) : fold_left Rplus l x = x + total l.
Proof.
  revert x. induction l as [|y l IH]; intros x; cbn [fold_left].
  - unfold total. cbn. lra.
  - rewrite IH. unfold total. cbn. lra.
Qed.

Lemma legs_segmentLengths (suf pre : list routePoint) (a : routePoint) :
  map (legLength (pre ++ a :: suf))
    (seq (List.length pre + 1) (List.length suf))
  = segmentLengths (a :: suf).
Proof.
  revert pre a. induction suf as [|b suf IH]; intros pre a; [reflexivity|].
  cbn [List.length seq map].
  assert (Hb : nth_error (pre ++ a :: b :: suf) (List.length pre + 1)
               = Some b).
  { replace (pre ++ a :: b :: suf) with ((pre ++ [a]) ++ b :: suf)
      by now rewrite <- app_assoc.
    replace (List.length pre + 1)%nat with (List.length (pre ++ [a]))
      by (rewrite length_app; reflexivity).
    apply nth_error_middle. }
  assert (Ha : nth_error (pre ++ a :: b :: suf) (List.length pre + 1 - 1)
               = Some a)
    by (rewrite Nat.add_sub; apply nth_error_middle).
  unfold legLength at 1. rewrite Hb, Ha.
  specialize (IH (pre ++ [a]) b).
  rewrite length_app, <- app_assoc in IH. cbn [List.length app] in IH.
  replace (S (List.length pre + 1)) with (List.length pre + 1 + 1)%nat
    by lia.
  rewrite IH. reflexivity.
Qed.

Lemma walkedBetween_all (a b : routePoint) (rest : list routePoint) :
  let routePath := a :: b :: rest in
  walkedBetween routePath 0 (List.length routePath - 1)
  = total (segmentLengths routePath).
Proof.
  intros routePath. unfold walkedBetween. rewrite sum_total.
  rewrite Nat.sub_0_r.
  pose proof (legs_segmentLengths (b :: rest) [] a) as H.
  cbn [app List.length Nat.add] in H. unfold routePath.
  cbn [List.length Nat.sub Nat.add].
  cbn [List.length] in H. rewrite H. lra.
Qed.

(** The cumulative distance when a round begins is the length of the
    legs walked so far. *)
Lemma cumulative_before (first : routePoint) (rest : list routePoint)
  (i : nat) :
  let routePath := first :: rest in
  (1 <= i)%nat ->
  cumulativeDistance (stateBefore routePath i)
  = walkedBetween routePath 0 (i - 1).
Proof.
  intros routePath Hi. unfold walkedBetween.
  replace i with (S (i - 1)) by lia. generalize (i - 1)%nat as k. clear.
  induction k as [|k IH].
  - reflexivity.
  - destruct (stateBefore_next routePath (S k)) as [E|E];
      [lia | | discriminate].
    replace (S k + 1)%nat with (S (S k)) in E by lia. rewrite E.
    replace (S (S k) - 1 - 0)%nat with (S (S k - 1 - 0)) by lia.
    rewrite seq_S, map_app. cbn [map]. rewrite sum_snoc, <- IH.
    replace (0 + 1 + (S k - 1 - 0))%nat with (S k) by lia.
    destruct (nth_error routePath (S k)) as [current|] eqn:Hc;
      [destruct (nth_error routePath (S k - 1)) as [previous|] eqn:Hp|].
    + destruct (directionStep_emits routePath (stateBefore routePath (S k))
                  (S k) current previous Hc Hp) as (Hcum & _).
      rewrite Hcum. unfold legLength. now rewrite Hc, Hp.
    + unfold directionStep, legLength. rewrite Hc, Hp. lra.
    + unfold directionStep, legLength. rewrite Hc. lra.
Qed.

Lemma walkedBetween_next (routePath : list routePoint) (j i : nat) :
  (j < i)%nat ->
  walkedBetween routePath j i
  = walkedBetween routePath j (i - 1) + legLength routePath i.
Proof.
  intros Hji. unfold walkedBetween.
  replace (i - j)%nat with (S (i - 1 - j)) by lia.
  rewrite seq_S, map_app. cbn [map]. rewrite sum_snoc. do 2 f_equal. lia.
Qed.

(** The two distances of an instruction emitted by a round. *)
Lemma emitted_distances (first : routePoint) (rest : list routePoint)
  (i : nat) (d : direction) :
  let routePath := first :: rest in
  (1 <= i)%nat -> In d (emittedAt routePath i) ->
  d_cumulativeDistance d = walkedBetween routePath 0 i /\
  d_distance d = walkedSinceInstruction routePath i.
Proof.
  intros routePath Hi Hin.
  pose proof (directionStep_emitted routePath i) as Hem.
  pose proof (cumulative_before first rest i Hi) as Hcum.
  pose proof (walked_since_instruction first rest i Hi) as Hseg.
  cbv zeta in Hcum, Hseg. fold routePath in Hcum, Hseg.
  rewrite (walkedBetween_next routePath 0 i) by lia.
  destruct (nth_error routePath i) as [current|] eqn:Hc;
    [destruct (nth_error routePath (i - 1)) as [previous|] eqn:Hp|].
  - assert (Hleg : legLength routePath i
                   = calculateDistance (rp_coords previous)
                       (rp_coords current))
      by (unfold legLength; now rewrite Hc, Hp).
    destruct (directionStep_emits routePath (stateBefore routePath i)
                i current previous Hc Hp)
      as (_ & [(Hd & _)|(d' & Hd & _ & _ & Hdist & Hcd & _)]).
    + rewrite Hd in Hem. rewrite <- (app_nil_r (directions _)) in Hem at 1.
      apply app_inv_head in Hem. rewrite <- Hem in Hin. destruct Hin.
    + rewrite Hd in Hem. apply app_inv_head in Hem. rewrite <- Hem in Hin.
      destruct Hin as [<-|[]]. rewrite Hcd, Hdist, Hseg, Hcum, Hleg. auto.
  - exfalso. unfold directionStep in Hem. rewrite Hc, Hp in Hem.
    rewrite <- (app_nil_r (directions _)) in Hem at 1.
    apply app_inv_head in Hem. rewrite <- Hem in Hin. destruct Hin.
  - exfalso. unfold directionStep in Hem. rewrite Hc in Hem.
    rewrite <- (app_nil_r (directions _)) in Hem at 1.
    apply app_inv_head in Hem. rewrite <- Hem in Hin. destruct Hin.
Qed.

(** X24: the two distances of an instruction are sums of leg lengths
    taken in path order.  An instruction emitted at point [i] records
    as cumulative distance the legs from the first point to point [i]
    and as distance the legs walked since the instruction before it;
    the arrival records the legs of the whole path and the legs since
    the last instruction.  The cumulative distance of the arrival is
    the total distance that [calculateRouteStats] reports for the
    path. *)
Theorem generateDirections_distances (first second : routePoint)
  (rest : list routePoint) :
  let routePath := first :: second :: rest in
  let n := List.length routePath in
  (forall i d, (1 <= i)%nat -> In d (emittedAt routePath i) ->
     d_cumulativeDistance d = walkedBetween routePath 0 i /\
     d_distance d = walkedSinceInstruction routePath i) /\
  exists destination,
    generateDirections routePath
    = startDirection first ::
      List.concat (map (emittedAt routePath) (seq 1 (n - 1))) ++
      [destination] /\
    d_type destination = "destination" /\
    d_cumulativeDistance destination = walkedBetween routePath 0 (n - 1) /\
    d_distance destination
    = walkedBetween routePath (lastInstruction routePath n) (n - 1) /\
    totalDistance (calculateRouteStats routePath)
    = d_cumulativeDistance destination.
Proof.
  intros routePath n. split.
  - intros i d. apply emitted_distances.
  - pose proof (generateDirections_final first second rest) as Hfin.
    pose proof (directions_before first (second :: rest) (n - 1)) as Hd.
    cbv zeta in Hfin. fold routePath n in Hfin, Hd.
    replace (n - 1 + 1)%nat with n in Hd by (unfold n; cbn; lia).
    rewrite Hd in Hfin. eexists. split; [exact Hfin|].
    cbn [d_type d_cumulativeDistance d_distance].
    assert (Hn : (1 <= n)%nat) by (unfold n; cbn; lia).
    pose proof (cumulative_before first (second :: rest) n Hn) as Hcum.
    pose proof (segment_since_instruction first (second :: rest) n Hn)
      as Hseg.
    cbv zeta in Hcum, Hseg. fold routePath in Hcum, Hseg.
    split; [reflexivity|]. split; [exact Hcum|]. split; [exact Hseg|].
    destruct (calculateRouteStats_fields first second rest) as (Ht & _).
    cbv zeta in Ht. fold routePath in Ht. rewrite Ht, Hcum.
    symmetry. apply (walkedBetween_all first second rest).
Qed.

(** X25: the floor changes among the instructions are, in order, the
    consecutive pairs of points of the path whose floors differ: each
    names the floor it leaves and the floor it leads to, and there are
    as many of them as [calculateRouteStats] counts floor changes. *)
Theorem generateDirections_floor_changes (first second : routePoint)
  (rest : list routePoint) :
  let routePath := first :: second :: rest in
  let dirs := generateDirections routePath in
  map floorsOfChange (filter isFloorChange dirs) = floorMoves routePath /\
  List.length (filter isFloorChange dirs)
  = floorChanges (calculateRouteStats routePath).
Proof.
  intros routePath dirs.
  destruct (generateDirections_invariant first second rest)
    as (st & (middle & _ & _ & _ & _ & _ & _ & _ & Hfl) & Hgen).
  destruct (calculateRouteStats_fields first second rest) as (_ & Hc).
  cbv zeta in Hgen, Hc. subst dirs routePath.
  assert (Hmoves : map floorsOfChange
                     (filter isFloorChange
                        (generateDirections (first :: second :: rest)))
                   = floorMoves (first :: second :: rest)).
  { rewrite Hgen, filter_app. cbn [filter].
    unfold isFloorChange at 2. cbn. now rewrite app_nil_r. }
  split; [exact Hmoves|].
  rewrite Hc. unfold countChanges.
  rewrite <- (length_map floorsOfChange), Hmoves. unfold floorMoves.
  now rewrite length_map.
Qed.


(** ** Statistics of a route *)

Lemma sorted_same_members (l1 l2 : list Z) :
  StronglySorted Z.lt l1 -> StronglySorted Z.lt l2 ->
  (forall z, In z l1 <-> In z l2) -> l1 = l2.
Proof.
  intros H1. revert l2.
  induction H1 as [|a l1 Hs1 IH Ha]; intros l2 H2 Hin.
  - destruct l2 as [|b l2]; [reflexivity|].
    destruct (proj2 (Hin b) (or_introl eq_refl)).
  - destruct H2 as [|b l2 Hs2 Hb].
    { destruct (proj1 (Hin a) (or_introl eq_refl)). }
    rewrite Forall_forall in Ha, Hb.
    assert (a = b).
    { destruct (proj1 (Hin a) (or_introl eq_refl)) as [E|Hab]; [auto|].
      destruct (proj2 (Hin b) (or_introl eq_refl)) as [E|Hba]; [auto|].
      specialize (Ha b Hba). specialize (Hb a Hab). lia. }
    subst b. f_equal. apply IH; [exact Hs2|].
    intros z. split; intros Hz.
    + destruct (proj1 (Hin z) (or_intror Hz)) as [E|H]; [|exact H].
      specialize (Ha z Hz). lia.
    + destruct (proj2 (Hin z) (or_intror Hz)) as [E|H]; [|exact H].
      specialize (Hb z Hz). lia.
Qed.

Lemma calculateRouteStats_floors (a b : routePoint)
  (rest : list routePoint) :
  let routePath := a :: b :: rest in
  StronglySorted Z.lt (floors (calculateRouteStats routePath)) /\
  (forall z, In z (floors (calculateRouteStats routePath)) <->
             In z (map rp_floor routePath)).
Proof.
  intros routePath.
  destruct (statsStep_fold routePath (b :: rest) [] a (mkSState 0 [] 0)
              eq_refl) as (_ & _ & Hf).
  cbn [List.length Nat.add] in Hf. cbn [s_floors] in Hf.
  assert (Hlen : (List.length routePath - 1 = S (List.length rest))%nat)
    by (cbn; lia).
  unfold calculateRouteStats. subst routePath. cbv zeta. rewrite Hlen.
  cbn [floors]. rewrite Hf. split.
  - apply sortAscending_sorted, addFloor_NoDup, floors_fold_NoDup.
    constructor.
  - intros z. rewrite sortAscending_In, addFloor_In, floors_fold_In. cbn.
    intuition congruence.
Qed.

(** X26: the statistics of the enhanced path report the floors and the
    number of floor changes of the path it was made from: the waypoints
    that the enhancer inserts add neither a floor nor a floor change. *)
Theorem enhanced_route_statistics (first second : routePoint)
  (rest out : list routePoint) :
  addCorridorWaypoints (first :: second :: rest) = Ok out ->
  floors (calculateRouteStats out)
  = floors (calculateRouteStats (first :: second :: rest)) /\
  floorChanges (calculateRouteStats out)
  = floorChanges (calculateRouteStats (first :: second :: rest)).
Proof.
  intros H.
  destruct (addCorridorWaypoints_blocks _ out H)
    as (inserted & -> & Hb & Hl & _).
  pose proof (fun z => interleave_floors (first :: second :: rest)
                         inserted z Hb) as Hfloors.
  pose proof (interleave_changes (first :: second :: rest) inserted Hb)
    as Hchanges.
  pose proof (interleave_length (first :: second :: rest) inserted Hb Hl
                ltac:(discriminate)) as (Hlen & _).
  destruct (interleave (first :: second :: rest) inserted)
    as [|a [|b out]] eqn:E; cbn [List.length] in Hlen; try lia.
  destruct (calculateRouteStats_floors a b out) as (Hs1 & Hm1).
  destruct (calculateRouteStats_floors first second rest) as (Hs2 & Hm2).
  split.
  - apply sorted_same_members; [exact Hs1 | exact Hs2|].
    intros z. rewrite Hm1, Hm2. apply Hfloors.
  - rewrite (proj2 (calculateRouteStats_fields a b out)).
    rewrite (proj2 (calculateRouteStats_fields first second rest)).
    exact Hchanges.
Qed.

Lemma distinct_floors_bound (l : list routePoint) (a : routePoint) :
  (List.length (nodup Z.eq_dec (map rp_floor (a :: l)))
   <= countChanges (a :: l) + 1)%nat.
Proof.
  revert a. induction l as [|b l IH]; intros a; [cbn; lia|].
  rewrite countChanges_cons. specialize (IH b).
  change (map rp_floor (a :: b :: l))
    with (rp_floor a :: map rp_floor (b :: l)).
  set (fl := map rp_floor (b :: l)) in *. cbn [nodup].
  destruct (in_dec Z.eq_dec (rp_floor a) fl) as [Hin|Hnot].
  - destruct (Z.eqb (rp_floor b) (rp_floor a)); lia.
  - cbn [List.length].
    destruct (Z.eqb (rp_floor b) (rp_floor a)) eqn:E; [|lia].
    apply Z.eqb_eq in E. exfalso. apply Hnot. unfold fl. left. exact E.
Qed.

(** X27: a route visits at most one floor more than it changes floor, and
    it changes floor at most once for each leg; a route that never
    changes floor visits one floor. *)
Theorem calculateRouteStats_floor_counts (first second : routePoint)
  (rest : list routePoint) :
  let stats := calculateRouteStats (first :: second :: rest) in
  (1 <= List.length (floors stats) <= floorChanges stats + 1)%nat /\
  (floorChanges stats <= List.length rest + 1)%nat /\
  (floorChanges stats = 0%nat -> floors stats = [rp_floor first]) /\
  0 <= INR (floorChanges stats) * 30 <= estimatedTime stats.
Proof.
  intros stats.
  destruct (calculateRouteStats_floors first second rest) as (Hs & Hm).
  destruct (calculateRouteStats_fields first second rest) as (Ht & Hc).
  fold stats in Hs, Hm, Ht, Hc.
  assert (Hnd : NoDup (floors stats)).
  { clear - Hs. induction Hs as [|a l Hs IH Ha]; constructor; [|exact IH].
    intros Hin. rewrite Forall_forall in Ha. specialize (Ha a Hin). lia. }
  assert (Hlen : List.length (floors stats)
                 = List.length
                     (nodup Z.eq_dec
                        (map rp_floor (first :: second :: rest)))).
  { apply Permutation_length, NoDup_Permutation;
      [exact Hnd | apply NoDup_nodup|].
    intros z. rewrite Hm, nodup_In. reflexivity. }
  assert (Hone : (1 <= List.length (floors stats))%nat).
  { destruct (floors stats) as [|z l] eqn:E; [|cbn; lia].
    destruct (proj2 (Hm (rp_floor first)) (or_introl eq_refl)). }
  pose proof (distinct_floors_bound (second :: rest) first) as Hb.
  split; [rewrite Hc; lia|]. split; [|split].
  - rewrite Hc. unfold countChanges.
    etransitivity; [apply filter_length_le|].
    unfold pairs. rewrite length_combine. cbn [tl List.length]. lia.
  - intros H0.
    assert (H1 : List.length (floors stats) = 1%nat) by lia.
    destruct (floors stats) as [|z [|z' l]] eqn:E; try discriminate.
    f_equal. destruct (proj2 (Hm (rp_floor first)) (or_introl eq_refl))
      as [E'|[]]. exact E'.
  - assert (He : estimatedTime stats
                 = totalDistance stats / 1.4
                   + INR (floorChanges stats) * 30).
    { unfold stats, calculateRouteStats. reflexivity. }
    rewrite He, Ht.
    pose proof (pos_INR (floorChanges stats)).
    assert (Hnn : 0 <= total (segmentLengths (first :: second :: rest))).
    { clear. unfold segmentLengths.
      induction (pairs (first :: second :: rest)) as [|pq l IH];
        [unfold total; cbn; lra|].
      cbn [map]. unfold total in *. cbn [fold_right].
      pose proof (calculateDistance_nonneg (rp_coords (fst pq))
                    (rp_coords (snd pq))). lra. }
    lra.
Qed.

Lemma enhanced_route_statistics_witness :
  exists out,
    addCorridorWaypoints twoRooms = Ok out /\
    floorChanges (calculateRouteStats out)
    = floorChanges (calculateRouteStats twoRooms).
Proof.
  destruct (addCorridorWaypoints_returns twoRooms twoRooms_rings)
    as [out Hout].
  exists out. split; [exact Hout|].
  exact (proj2 (enhanced_route_statistics (pointAt "A" (0, 0))
                  (pointAt "B" (0.02, 0)) [] out Hout)).
Defined.


(** ** Resolving the names of a query *)

Lemma findKey_snoc (g : graph) (k : string) (nd : node) (name : string) :
  findKey (g ++ [(k, nd)]) name
  = if String.eqb (JsString.toLowerCase (room_name (n_room nd))) name
    then Some k else findKey g name.
Proof. unfold findKey. now rewrite fold_left_app. Qed.

Lemma findKey_None (g : graph) (name : string) :
  findKey g name = None <->
  forall k nd, In (k, nd) g ->
    JsString.toLowerCase (room_name (n_room nd)) <> name.
Proof.
  induction g as [|[k nd] g IH] using rev_ind.
  - split; [intros _ k nd [] | reflexivity].
  - rewrite findKey_snoc.
    destruct (String.eqb _ name) eqn:E.
    + apply String.eqb_eq in E. split; [discriminate|].
      intros H. exfalso. apply (H k nd); [|exact E].
      apply in_or_app. right. now left.
    + apply String.eqb_neq in E. rewrite IH. split.
      * intros H k' nd' Hin. apply in_app_or in Hin.
        destruct Hin as [Hin|[[= <- <-]|[]]]; [now apply (H k')|exact E].
      * intros H k' nd' Hin. apply (H k'). apply in_or_app. now left.
Qed.

Lemma findKey_last (g : graph) (name k : string) :
  findKey g name = Some k <->
  exists l1 nd l2,
    g = l1 ++ (k, nd) :: l2 /\
    JsString.toLowerCase (room_name (n_room nd)) = name /\
    forall k' nd', In (k', nd') l2 ->
      JsString.toLowerCase (room_name (n_room nd')) <> name.
Proof.
  induction g as [|[k0 nd0] g IH] using rev_ind.
  - split; [discriminate|]. intros (l1 & nd & l2 & H & _).
    destruct l1; discriminate.
  - rewrite findKey_snoc.
    destruct (String.eqb _ name) eqn:E.
    + apply String.eqb_eq in E. split.
      * intros [= <-]. exists g, nd0, []. split; [reflexivity|].
        split; [exact E|]. intros k' nd' [].
      * intros (l1 & nd & l2 & Hg & Hn & Hl2).
        destruct l2 as [|kv l2] using rev_ind.
        -- apply app_inj_tail in Hg as (_ & [= -> _]). reflexivity.
        -- exfalso. clear IHl2.
           rewrite app_comm_cons, app_assoc in Hg.
           apply app_inj_tail in Hg as (_ & <-).
           apply (Hl2 k0 nd0); [|exact E].
           apply in_or_app. right. now left.
    + apply String.eqb_neq in E. rewrite IH. split.
      * intros (l1 & nd & l2 & -> & Hn & Hl2).
        exists l1, nd, (l2 ++ [(k0, nd0)]). rewrite <- app_assoc.
        split; [reflexivity|]. split; [exact Hn|].
        intros k' nd' Hin. apply in_app_or in Hin.
        destruct Hin as [Hin|[[= <- <-]|[]]]; [now apply (Hl2 k')|exact E].
      * intros (l1 & nd & l2 & Hg & Hn & Hl2).
        destruct l2 as [|kv l2] using rev_ind.
        -- apply app_inj_tail in Hg as (_ & [= _ <-]). contradiction.
        -- clear IHl2. rewrite app_comm_cons, app_assoc in Hg.
           apply app_inj_tail in Hg as (-> & <-).
           exists l1, nd, l2. split; [reflexivity|]. split; [exact Hn|].
           intros k' nd' Hin. apply (Hl2 k'). apply in_or_app. now left.
Qed.

(** X28: with ASCII names throughout, the start and the end of a query
    are resolved by name only: a name resolves to the last node of the
    graph, in the order of the room index, whose lower-cased room name
    it equals, and to no node when there is none.  The floor and the
    geometry of the two features given to [findRoute] play no part: two
    queries whose start names and end names agree in lower case have
    the same outcome. *)
Theorem findRoute_resolves_last_match (g : graph) (name : string) :
  asciiNodes g ->
  (findKey g name = None <->
   forall k nd, In (k, nd) g ->
     JsString.toLowerCase (room_name (n_room nd)) <> name) /\
  (forall k,
     findKey g name = Some k <->
     exists l1 nd l2,
       g = l1 ++ (k, nd) :: l2 /\
       JsString.toLowerCase (room_name (n_room nd)) = name /\
       forall k' nd', In (k', nd') l2 ->
         JsString.toLowerCase (room_name (n_room nd')) <> name) /\
  (forall rooms startRoom endRoom startRoom' endRoom' targetFloor,
     asciiNames (startRoom :: endRoom :: startRoom' :: endRoom' :: rooms) ->
     JsString.toLowerCase (getRoomName startRoom)
     = JsString.toLowerCase (getRoomName startRoom') ->
     JsString.toLowerCase (getRoomName endRoom)
     = JsString.toLowerCase (getRoomName endRoom') ->
     findRoute rooms startRoom endRoom targetFloor
     = findRoute rooms startRoom' endRoom' targetFloor).
Proof.
  intros _.
  split; [apply findKey_None|]. split; [intros k; apply findKey_last|].
  intros rooms s e s' e' tf _ Hs He. unfold findRoute. now rewrite Hs, He.
Qed.

Lemma findRoute_resolves_last_match_witness :
  asciiNodes oneEdge /\ findKey oneEdge "c" = None.
Proof.
  assert (Ha : asciiNodes oneEdge).
  { intros k nd [[= <- <-]|[[= <- <-]|[]]]; reflexivity. }
  split; [exact Ha|].
  apply (proj1 (findRoute_resolves_last_match oneEdge "c" Ha)).
  intros k nd [[= <- <-]|[[= <- <-]|[]]]; discriminate.
Defined.


(** * The search on weights below the distance *)

Section Bounded.

Variable eps : R.
Variable g : graph.
Variable startKey : string.
Variable endNode : node.
Hypothesis Heps : 1 <= eps.
Hypothesis Hscaled : scaledWeights eps g.

Lemma edge_nonneg (u v : string) (w : R) : edge g u v w -> 0 <= w.
Proof.
  intros (nu & nb & Hu & Hnb & _ & <-).
  destruct (Hscaled u nu nb Hu Hnb) as (nv & _ & Hd).
  pose proof (distance_nonneg (n_centroid nu) (n_centroid nv)). nra.
Qed.

Lemma route_nonneg_scaled (p : list string) (c : R) : route g p c -> 0 <= c.
Proof.
  induction 1 as [k|u v rest w c He Hr IH]; [lra|].
  pose proof (edge_nonneg u v w He). lra.
Qed.

(** A route weighs at least the distance between its ends divided by
    [eps]. *)
Lemma route_distance_scaled (p : list string) (c : R) :
  route g p c ->
  forall u t nu nt,
    fromTo p u t -> JsMap.get u g = Some nu -> JsMap.get t g = Some nt ->
    distance (n_centroid nu) (n_centroid nt) <= eps * c.
Proof.
  induction 1 as [k|a v rest w c He Hr IH];
    intros u t nu nt (Hhd & Hlast) Hu Ht.
  - cbn in Hhd, Hlast. injection Hhd as <-. subst t.
    rewrite Hu in Ht. injection Ht as <-. rewrite distance_self. lra.
  - cbn in Hhd. injection Hhd as <-.
    destruct He as (na & nb & Ha & Hnb & Hk & <-).
    rewrite Hu in Ha. injection Ha as <-.
    destruct (Hscaled a nu nb Hu Hnb) as (nv & Hv & Hd). rewrite Hk in Hv.
    assert (Hrest : distance (n_centroid nv) (n_centroid nt) <= eps * c).
    { apply (IH v t nv nt); auto. split; [reflexivity|].
      rewrite (last_any_default v v a). exact Hlast. }
    pose proof (distance_triangle (n_centroid nu) (n_centroid nv)
                  (n_centroid nt)). lra.
Qed.

(** A route from the start that ends at a node that is not closed
    passes through an open node whose score is at most [eps] times the
    weight of the route up to it. *)
Lemma frontier_scaled (st : astate) (p : list string) (c : R) :
  boundedInvariant eps g startKey endNode settled st ->
  route g p c ->
  forall u t p0 c0,
    fromTo p u t -> In u (closedSet st) ->
    route g p0 c0 -> fromTo p0 startKey u -> ~ In t (closedSet st) ->
    exists x gx c1 c2 p2,
      In x (openSet st) /\ JsMap.get x (gScore st) = Some gx /\
      gx <= eps * (c0 + c1) /\ c = c1 + c2 /\ route g p2 c2 /\
      fromTo p2 x t.
Proof.
  intros Hinv.
  destruct Hinv as (_ & _ & _ & _ & _ & _ & Hclosedg & Hreal & _ & Hopt
                    & Hedges).
  induction 1 as [k|a v rest w c He Hr IH];
    intros u t p0 c0 (Hhd & Hlast) Hu Hp0 Hf0 Ht.
  - cbn in Hhd, Hlast. injection Hhd as <-. subst t. tauto.
  - cbn in Hhd. injection Hhd as <-.
    pose proof He as (na & nb & Ha & Hnb & Hk & Hw).
    destruct (Hclosedg a Hu) as (gu & Hgu).
    assert (Hft : fromTo (v :: rest) v t).
    { split; [reflexivity|]. rewrite (last_any_default v v a). exact Hlast. }
    pose proof (edge_nonneg a v w He) as Hw0.
    pose proof (route_nonneg_scaled p0 c0 Hp0) as Hc0.
    destruct (Hedges a na nb gu Hu Ha Hnb Hgu)
      as [[]|[Hclosed|(gv & Hgv & Hle)]]; rewrite Hk, ?Hw in *.
    + destruct (route_snoc g p0 c0 startKey a v w Hp0 Hf0 He) as (Hp1 & Hf1).
      destruct (IH v t _ _ Hft Hclosed Hp1 Hf1 Ht)
        as (x & gx & c1 & c2 & p2 & Hx & Hgx & Hle' & Hc & Hr2 & Hf2).
      exists x, gx, (w + c1), c2, p2.
      repeat split; auto; try lra; apply Hf2.
    + destruct (Hreal v gv Hgv) as (_ & [Hopen|Hclosed] & _).
      * pose proof (Hopt a gu Hu Hgu p0 c0 Hp0 Hf0) as Hbound.
        exists v, gv, w, c, (v :: rest).
        repeat split; auto; try lra; try apply Hft. nra.
      * destruct (route_snoc g p0 c0 startKey a v w Hp0 Hf0 He)
          as (Hp1 & Hf1).
        destruct (IH v t _ _ Hft Hclosed Hp1 Hf1 Ht)
          as (x & gx & c1 & c2 & p2 & Hx & Hgx & Hle' & Hc & Hr2 & Hf2).
        exists x, gx, (w + c1), c2, p2.
        repeat split; auto; try lra; apply Hf2.
Qed.

(** The score of the node picked by the scan of the open set is at
    most [eps] times the weight of any route to it from the start. *)
Lemma picked_is_bounded (st : astate) (current : string) (r : R) :
  boundedInvariant eps g startKey endNode settled st ->
  In current (openSet st) ->
  fOrInfinity (fScore st) current = Fin r ->
  (forall k, In k (openSet st) ->
     ext_ltb (fOrInfinity (fScore st) k) (Fin r) = false) ->
  exists gcur,
    JsMap.get current (gScore st) = Some gcur /\
    forall p c, route g p c -> fromTo p startKey current -> gcur <= eps * c.
Proof.
  intros Hinv Hcur Hf Hmin.
  pose proof Hinv as (Hsearch & Hg0 & _ & Hstart & Hpos & Hopen & _ & Hreal
                      & _ & _ & _).
  destruct (Hopen current Hcur) as (ncur & gcur & Hncur & Hgcur & Hfcur).
  apply fOrInfinity_Fin in Hf. destruct Hf as (Hf & Hr0).
  rewrite Hfcur in Hf. injection Hf as Hr.
  exists gcur. split; [exact Hgcur|]. intros p c Hroute Hft.
  pose proof (route_nonneg_scaled p c Hroute) as Hc0.
  destruct (String.eqb current startKey) eqn:Es.
  - apply String.eqb_eq in Es. subst current.
    rewrite Hg0 in Hgcur. injection Hgcur as <-. nra.
  - apply String.eqb_neq in Es.
    destruct Hstart as [Hsc|Hso];
      [|rewrite Hso in Hcur; destruct Hcur as [?|[]]; congruence].
    destruct Hsearch as (Hoc & _ & Hcg & _).
    destruct (Hoc current Hcur) as (_ & Hnc).
    destruct (frontier_scaled st p c Hinv Hroute startKey current
                [startKey] 0 Hft Hsc (route_one g startKey)
                (conj eq_refl eq_refl) Hnc)
      as (x & gx & c1 & c2 & p2 & Hx & Hgx & Hle & Hc & Hr2 & Hf2).
    destruct (Hopen x Hx) as (nx & gx' & Hnx & Hgx' & Hfx).
    rewrite Hgx in Hgx'. injection Hgx' as <-.
    destruct (JsMap.get startKey g) as [ns|] eqn:Ens;
      [|now apply Hcg in Hsc].
    specialize (Hpos Hsc ns eq_refl).
    destruct (Hreal x gx Hgx) as ((px & Hpx & Hfpx) & _ & _).
    pose proof (route_distance_scaled px gx Hpx startKey x ns nx Hfpx Ens Hnx)
      as Hdx.
    pose proof (route_nonneg_scaled px gx Hpx) as Hgx0.
    pose proof (distance_triangle (n_centroid ns) (n_centroid nx)
                  (n_centroid endNode)) as Htri.
    pose proof (distance_nonneg (n_centroid nx) (n_centroid endNode)) as Hhx.
    unfold heuristic in *.
    assert (Hfx' : fOrInfinity (fScore st) x
                   = Fin (gx + distance (n_centroid nx) (n_centroid endNode))).
    { apply fOrInfinity_Fin. split; [exact Hfx|]. nra. }
    specialize (Hmin x Hx). rewrite Hfx' in Hmin. cbn in Hmin.
    apply Rltb_false in Hmin.
    pose proof (route_distance_scaled p2 c2 Hr2 x current nx ncur Hf2 Hnx
                  Hncur) as Hd2.
    pose proof (distance_triangle (n_centroid nx) (n_centroid ncur)
                  (n_centroid endNode)) as Htri2.
    nra.
Qed.

Lemma closeCurrent_bounded (st : astate) (current : string) (r : R)
  (currentNode : node) :
  boundedInvariant eps g startKey endNode settled st ->
  In current (openSet st) ->
  fOrInfinity (fScore st) current = Fin r ->
  (forall k, In k (openSet st) ->
     ext_ltb (fOrInfinity (fScore st) k) (Fin r) = false) ->
  JsMap.get current g = Some currentNode ->
  boundedInvariant eps g startKey endNode
    (pendingOf current (n_neighbors currentNode))
    (closeCurrent st current) /\
  In startKey (closedSet (closeCurrent st current)) /\
  In current (closedSet (closeCurrent st current)) /\
  exists gcur,
    gOrInfinity (gScore (closeCurrent st current)) current = Fin gcur.
Proof.
  intros Hinv Hcur Hf Hmin Hnode.
  destruct (picked_is_bounded st current r Hinv Hcur Hf Hmin)
    as (gcur & Hgcur & Hbest).
  pose proof Hinv as (Hs & Hg0 & Hc0 & Hstart & Hpos & Hopen & Hclosedg
                      & Hreal & Hcf & Hopt & Hedges).
  destruct (closeCurrent_invariant g st current Hs Hcur) as (Hs' & Ec).
  assert (Hnc : ~ In current (closedSet st))
    by (destruct Hs as (Hoc & _); now apply Hoc).
  assert (Hsc : In startKey (closedSet st ++ [current])).
  { destruct Hstart as [?|Ho]; [apply in_or_app; now left|].
    rewrite Ho in Hcur. destruct Hcur as [->|[]].
    apply in_or_app. right. now left. }
  split; [|split; [|split]].
  - unfold boundedInvariant. rewrite Ec.
    cbn [closeCurrent openSet gScore fScore cameFrom].
    split; [exact Hs'|]. split; [exact Hg0|]. split; [exact Hc0|].
    split; [now left|]. split; [|split; [|split; [|split; [|split; [|split]]]]].
    + intros Hin ns Hns. apply in_app_or in Hin as [Hin|[E|[]]]; [eauto|].
      subst current.
      destruct (Hopen startKey Hcur) as (ns' & gs & Hns' & Hgs & Hfs).
      rewrite Hns in Hns'. injection Hns' as <-.
      rewrite Hg0 in Hgs. injection Hgs as <-.
      apply fOrInfinity_Fin in Hf. rewrite Hfs in Hf.
      destruct Hf as ([= Hr] & Hr0).
      pose proof (distance_nonneg (n_centroid ns) (n_centroid endNode)).
      unfold heuristic in *. lra.
    + intros x Hx. apply set_delete_In in Hx. now apply Hopen.
    + intros u Hu. apply in_app_or in Hu as [Hu|[<-|[]]]; eauto.
    + intros x gx Hgx. destruct (Hreal x gx Hgx) as (Hp & Hwhere & Hfrom).
      split; [exact Hp|]. split; [|exact Hfrom].
      destruct (String.eqb x current) eqn:E.
      * apply String.eqb_eq in E. subst x. right. apply in_or_app.
        right. now left.
      * apply String.eqb_neq in E. destruct Hwhere as [Ho|Hc].
        -- left. now apply set_delete_In.
        -- right. apply in_or_app. now left.
    + exact Hcf.
    + intros u gu Hu Hgu p c Hp Hft. apply in_app_or in Hu as [Hu|[<-|[]]].
      * exact (Hopt u gu Hu Hgu p c Hp Hft).
      * rewrite Hgcur in Hgu. injection Hgu as <-.
        exact (Hbest p c Hp Hft).
    + intros u nu nb gu Hu Hnu Hnb Hgu. apply in_app_or in Hu as [Hu|[<-|[]]].
      * destruct (Hedges u nu nb gu Hu Hnu Hnb Hgu) as [[]|[H|H]].
        -- right. left. apply in_or_app. now left.
        -- right. now right.
      * left. split; [reflexivity|]. rewrite Hnode in Hnu.
        now injection Hnu as <-.
  - now rewrite Ec.
  - rewrite Ec. apply in_or_app. right. now left.
  - exists gcur. unfold gOrInfinity. cbn [closeCurrent gScore].
    now rewrite Hgcur.
Qed.

Lemma relax_bounded (st : astate) (current : string) (currentNode : node)
  (gcur : R) (nb : neighbor) (rest : list neighbor) :
  boundedInvariant eps g startKey endNode (pendingOf current (nb :: rest))
    st ->
  In startKey (closedSet st) ->
  In current (closedSet st) ->
  JsMap.get current (gScore st) = Some gcur ->
  JsMap.get current g = Some currentNode ->
  In nb (n_neighbors currentNode) ->
  let st' := relax g endNode current (Fin gcur) st nb in
  boundedInvariant eps g startKey endNode (pendingOf current rest) st' /\
  closedSet st' = closedSet st /\
  JsMap.get current (gScore st') = Some gcur.
Proof.
  intros Hinv Hsc Hcc Hgcur Hnode Hnb st'.
  pose proof Hinv as (Hs & Hg0 & Hc0 & Hstart & Hpos & Hopen & Hclosedg
                      & Hreal & Hcf & Hopt & Hedges).
  assert (Hedge : edge g current (nb_key nb) (nb_distance nb))
    by (exists currentNode, nb; auto).
  destruct (Hscaled current currentNode nb Hnode Hnb) as (nn & Hnn & _).
  destruct (Hreal current gcur Hgcur) as ((pc & Hpc & Hfc) & _ & _).
  destruct (route_snoc g pc gcur startKey current (nb_key nb)
              (nb_distance nb) Hpc Hfc Hedge) as (Hpv & Hfv).
  pose proof (relax_invariant g endNode current (Fin gcur) st nb Hs Hcc)
    as Hs'.
  fold st' in Hs'.
  destruct (relax_cases g endNode current (Fin gcur) st nb)
    as (Ec & [(E & Hwhy) |
              (c & Hfin & Hnc & Hlt & Ecf & Eg & Hrest)]);
    fold st' in Ec.
  - fold st' in E. rewrite E. split; [|auto].
    unfold boundedInvariant.
    repeat (split; [assumption|]).
    intros u nu nb' gu Hu Hnu Hnb' Hgu.
    destruct (Hedges u nu nb' gu Hu Hnu Hnb' Hgu)
      as [(-> & [<-|Hin])|Hdone]; [|left; now split|now right].
    right. rewrite Hgcur in Hgu. injection Hgu as <-.
    destruct Hwhy as [Hclosed|[Hinf|(c & [= <-] & Hnlt)]];
      [now left | discriminate |].
    right. unfold gOrInfinity in Hnlt.
    destruct (JsMap.get (nb_key nb) (gScore st)) as [gv|];
      [|discriminate].
    exists gv. split; [reflexivity|]. cbn in Hnlt.
    apply Rltb_false in Hnlt. lra.
  - injection Hfin as <-.
    destruct Hrest as [(Hnone & _)|(nn' & Hnn' & Eo & Ef)]; [congruence|].
    rewrite Hnn in Hnn'. injection Hnn' as <-.
    fold st' in Ecf, Eg, Eo, Ef.
    assert (Hvc : nb_key nb <> current) by congruence.
    assert (Hvs : nb_key nb <> startKey) by congruence.
    assert (Hkeep : forall u, In u (closedSet st) ->
              JsMap.get u (gScore st') = JsMap.get u (gScore st)).
    { intros u Hu. rewrite Eg. apply get_set_other. congruence. }
    split; [|split; [exact Ec | now rewrite Hkeep]].
    unfold boundedInvariant. rewrite Ec.
    split; [exact Hs'|].
    split; [now rewrite Hkeep|].
    split; [rewrite Ecf; now rewrite get_set_other|].
    split; [now left|]. split; [exact Hpos|].
    split; [|split; [|split; [|split; [|split]]]].
    + intros x Hx. rewrite Eo in Hx. apply set_add_In in Hx.
      destruct (String.eqb (nb_key nb) x) eqn:E.
      * apply String.eqb_eq in E. subst x.
        exists nn, (gcur + nb_distance nb).
        rewrite Eg, Ef, !get_set_same. auto.
      * apply String.eqb_neq in E. destruct Hx as [->|Hx]; [congruence|].
        destruct (Hopen x Hx) as (nx & gx & ? & ? & ?).
        exists nx, gx. rewrite Eg, Ef, !get_set_other by assumption. auto.
    + intros u Hu. rewrite Hkeep by assumption. now apply Hclosedg.
    + intros x gx Hgx. rewrite Eg in Hgx.
      destruct (String.eqb (nb_key nb) x) eqn:E.
      * apply String.eqb_eq in E. subst x. rewrite get_set_same in Hgx.
        injection Hgx as <-. split; [eauto|]. split.
        -- left. rewrite Eo. apply set_add_In. now left.
        -- right. exists current. rewrite Ecf. apply get_set_same.
      * apply String.eqb_neq in E. rewrite get_set_other in Hgx by assumption.
        destruct (Hreal x gx Hgx) as (Hp & Hwhere & Hfrom).
        split; [exact Hp|]. split.
        -- destruct Hwhere as [Ho|?]; [left|now right].
           rewrite Eo. apply set_add_In. now right.
        -- rewrite Ecf, get_set_other by assumption. exact Hfrom.
    + intros v u Hv. rewrite Ecf in Hv.
      destruct (String.eqb (nb_key nb) v) eqn:E.
      * apply String.eqb_eq in E. subst v. rewrite get_set_same in Hv.
        injection Hv as <-.
        exists gcur, (gcur + nb_distance nb), (nb_distance nb).
        rewrite Hkeep by assumption. rewrite Eg, get_set_same. auto.
      * apply String.eqb_neq in E. rewrite get_set_other in Hv by assumption.
        destruct (Hcf v u Hv) as (gu & gv & w & Hgu & Hgv & He & Hsum).
        exists gu, gv, w. rewrite Hkeep.
        -- rewrite Eg, get_set_other by assumption. auto.
        -- destruct Hs as (_ & _ & _ & Hcfc). now apply (Hcfc v u).
    + intros u gu Hu Hgu. rewrite Hkeep in Hgu by assumption.
      now apply Hopt.
    + intros u nu nb' gu Hu Hnu Hnb' Hgu.
      rewrite Hkeep in Hgu by assumption.
      assert (Hlower : forall gv,
                JsMap.get (nb_key nb') (gScore st) = Some gv ->
                gv <= gu + nb_distance nb' ->
                exists gv',
                  JsMap.get (nb_key nb') (gScore st') = Some gv' /\
                  gv' <= gu + nb_distance nb').
      { intros gv Hgv Hle. rewrite Eg.
        destruct (String.eqb (nb_key nb) (nb_key nb')) eqn:E.
        - apply String.eqb_eq in E. rewrite <- E, get_set_same.
          exists (gcur + nb_distance nb). split; [reflexivity|].
          rewrite <- E in Hgv. unfold gOrInfinity in Hlt.
          rewrite Hgv in Hlt. cbn in Hlt. apply Rltb_true in Hlt. lra.
        - apply String.eqb_neq in E. rewrite get_set_other by assumption.
          eauto. }
      destruct (Hedges u nu nb' gu Hu Hnu Hnb' Hgu)
        as [(-> & [<-|Hin])|[Hclosed|(gv & Hgv & Hle)]].
      * right. right. rewrite Hgcur in Hgu. injection Hgu as <-.
        exists (gcur + nb_distance nb). rewrite Eg, get_set_same.
        split; [reflexivity | lra].
      * left. now split.
      * right. now left.
      * right. right. now apply (Hlower gv).
Qed.

Lemma relax_fold_bounded (current : string) (currentNode : node) (gcur : R)
  (nbs : list neighbor) (st : astate) :
  boundedInvariant eps g startKey endNode (pendingOf current nbs) st ->
  In startKey (closedSet st) ->
  In current (closedSet st) ->
  JsMap.get current (gScore st) = Some gcur ->
  JsMap.get current g = Some currentNode ->
  (forall nb, In nb nbs -> In nb (n_neighbors currentNode)) ->
  boundedInvariant eps g startKey endNode (pendingOf current [])
    (fold_left (relax g endNode current (Fin gcur)) nbs st).
Proof.
  revert st. induction nbs as [|nb nbs IH];
    intros st Hinv Hsc Hcc Hgcur Hnode Hsub; cbn [fold_left].
  - exact Hinv.
  - destruct (relax_bounded st current currentNode gcur nb nbs Hinv Hsc Hcc
                Hgcur Hnode (Hsub nb (or_introl eq_refl)))
      as (Hinv' & Ec & Hg').
    apply IH; auto.
    + now rewrite Ec.
    + now rewrite Ec.
    + intros nb' Hin. apply Hsub. now right.
Qed.

Lemma pending_none_bounded (current : string) (st : astate) :
  boundedInvariant eps g startKey endNode (pendingOf current []) st ->
  boundedInvariant eps g startKey endNode settled st.
Proof.
  intros Hinv. unfold boundedInvariant in *.
  repeat (destruct Hinv as (? & Hinv); split; [assumption|]).
  intros u nu nb gu Hu Hnu Hnb Hgu.
  destruct (Hinv u nu nb gu Hu Hnu Hnb Hgu) as [(_ & [])|?]. now right.
Qed.

Lemma expand_bounded (st : astate) (current : string) (r : R) :
  boundedInvariant eps g startKey endNode settled st ->
  In current (openSet st) ->
  fOrInfinity (fScore st) current = Fin r ->
  (forall k, In k (openSet st) ->
     ext_ltb (fOrInfinity (fScore st) k) (Fin r) = false) ->
  boundedInvariant eps g startKey endNode settled
    (expand g endNode st current).
Proof.
  intros Hinv Hcur Hf Hmin.
  pose proof Hinv as (_ & _ & _ & _ & _ & Hopen & _).
  destruct (Hopen current Hcur) as (nd & _ & Hnd & _).
  destruct (closeCurrent_bounded st current r nd Hinv Hcur Hf Hmin Hnd)
    as (Hinv' & Hsc & Hcc & gcur & Hgcur).
  unfold expand. cbv zeta. rewrite Hnd, Hgcur.
  apply (pending_none_bounded current).
  apply (relax_fold_bounded current nd gcur); auto.
  unfold gOrInfinity in Hgcur.
  destruct (JsMap.get current (gScore (closeCurrent st current)));
    congruence.
Qed.

Lemma reconstruct_route_bounded (st : astate) :
  boundedInvariant eps g startKey endNode settled st ->
  forall (n : nat) (v : string) (rest : list string) (cp gv gt : R)
         (t : string) (p : list string),
    JsMap.get v (gScore st) = Some gv ->
    route g (v :: rest) cp -> gv + cp = gt ->
    last (v :: rest) startKey = t ->
    reconstruct n (cameFrom st) v (v :: rest) = Ok p ->
    route g p gt /\ fromTo p startKey t.
Proof.
  intros (_ & Hg0 & Hc0 & _ & _ & _ & _ & Hreal & Hcf & _).
  induction n as [|n IH]; intros v rest cp gv gt t p Hgv Hroute Hsum Hlast Hrec.
  - cbn in Hrec. destruct (JsMap.get v (cameFrom st)) as [u|] eqn:Hv;
      [discriminate|].
    injection Hrec as <-.
    destruct (Hreal v gv Hgv) as (_ & _ & [->|(u & Hu)]); [|congruence].
    rewrite Hg0 in Hgv. injection Hgv as <-.
    replace gt with cp by lra. split; [exact Hroute|].
    split; [reflexivity | exact Hlast].
  - cbn [reconstruct] in Hrec.
    destruct (JsMap.get v (cameFrom st)) as [u|] eqn:Hv.
    + destruct (Hcf v u Hv) as (gu & gv' & w & Hgu & Hgv' & He & Hw).
      rewrite Hgv in Hgv'. injection Hgv' as <-.
      apply (IH u (v :: rest) (w + cp) gu gt t p); auto;
        first [ now constructor
              | lra
              | rewrite <- Hlast; apply last_any_default ].
    + injection Hrec as <-.
      destruct (Hreal v gv Hgv) as (_ & _ & [->|(u & Hu)]); [|congruence].
      rewrite Hg0 in Hgv. injection Hgv as <-.
      replace gt with cp by lra. split; [exact Hroute|].
      split; [reflexivity | exact Hlast].
Qed.

Lemma aStarLoop_bounded (endKey : string) :
  forall (fuel : nat) (st : astate) (p : list string),
    boundedInvariant eps g startKey endNode settled st ->
    aStarLoop fuel g endKey endNode st = Ok (Some p) ->
    exists c,
      route g p c /\ fromTo p startKey endKey /\
      forall p' c',
        route g p' c' -> fromTo p' startKey endKey -> c <= eps * c'.
Proof.
  induction fuel as [|fuel IH]; intros st p Hinv Hrun; [discriminate|].
  cbn [aStarLoop] in Hrun.
  destruct (openSet st) as [|o os] eqn:Eo; [discriminate|].
  rewrite <- Eo in Hrun.
  pose proof (pickLowest_spec (fScore st) (openSet st)) as Hpick.
  destruct (pickLowest (fScore st) (openSet st)) as [[current|] low];
    cbn [fst] in Hrun; [|discriminate].
  destruct Hpick as (Hcur & Hlow & (r & Hr) & Hmin).
  rewrite Hr in Hlow, Hmin. symmetry in Hlow.
  destruct (negb (JsString.truthy current)); [discriminate|].
  destruct (String.eqb current endKey) eqn:Ee.
  - apply String.eqb_eq in Ee. subst current.
    destruct (picked_is_bounded st endKey r Hinv Hcur Hlow Hmin)
      as (gend & Hgend & Hbest).
    destruct (reconstruct _ _ _ _) as [path| |] eqn:Hrec; cbn in Hrun;
      try discriminate.
    injection Hrun as <-.
    destruct (reconstruct_route_bounded st Hinv
                (S (List.length (closedSet st))) endKey [] 0 gend gend
                endKey path Hgend (route_one g endKey))
      as (Hroute & Hft); [lra | reflexivity | exact Hrec |].
    exists gend. auto.
  - assert (Hstep : match JsMap.get current g with
                    | Some currentNode =>
                        aStarLoop fuel g endKey endNode
                          (fold_left
                             (relax g endNode current
                                (gOrInfinity
                                   (gScore (closeCurrent st current))
                                   current))
                             (n_neighbors currentNode)
                             (closeCurrent st current))
                    | None =>
                        aStarLoop fuel g endKey endNode
                          (closeCurrent st current)
                    end
                    = aStarLoop fuel g endKey endNode
                        (expand g endNode st current)).
    { unfold expand. cbv zeta. now destruct (JsMap.get current g). }
    unfold closeCurrent in Hstep at 1 2 3. cbn [gScore] in Hstep.
    cbn [gScore] in Hrun. rewrite Hstep in Hrun.
    apply (IH _ p (expand_bounded st current r Hinv Hcur Hlow Hmin) Hrun).
Qed.

End Bounded.

Lemma initial_bounded (eps : R) (g : graph) (startKey : string)
  (startNode endNode : node) :
  JsMap.get startKey g = Some startNode ->
  boundedInvariant eps g startKey endNode settled
    (mkState [startKey] [] [] [(startKey, 0)]
       [(startKey, distance (n_centroid startNode) (n_centroid endNode))]).
Proof.
  intros Hs. unfold boundedInvariant, searchInvariant.
  cbn [openSet closedSet cameFrom gScore fScore JsMap.get In].
  rewrite String.eqb_refl.
  assert (Hx : forall (x : string) (gx : R),
             (if String.eqb x startKey then Some 0 else None) = Some gx ->
             x = startKey /\ gx = 0).
  { intros x gx H. destruct (String.eqb x startKey) eqn:E; [|discriminate].
    apply String.eqb_eq in E. injection H as <-. auto. }
  split.
  { split; [|split; [constructor|split; [tauto|discriminate]]].
    intros x [<-|[]]. split; [congruence | tauto]. }
  split; [reflexivity|]. split; [reflexivity|]. split; [now right|].
  split; [tauto|]. split; [|split; [tauto|split]].
  3: { split; [discriminate|]. split; [tauto|]. intros; tauto. }
  - intros x [<-|[]]. exists startNode, 0. rewrite String.eqb_refl.
    repeat split; auto. unfold heuristic. f_equal. lra.
  - intros x gx H. destruct (Hx x gx H) as (-> & ->). split; [|split].
    + exists [startKey]. split; [constructor | split; reflexivity].
    + left. now left.
    + now left.
Qed.

Lemma aStar_bounded (eps : R) (g : graph) (startKey endKey : string)
  (p : list string) :
  1 <= eps -> scaledWeights eps g ->
  aStar g startKey endKey = Ok (Some p) ->
  exists c,
    route g p c /\ fromTo p startKey endKey /\
    forall p' c', route g p' c' -> fromTo p' startKey endKey -> c <= eps * c'.
Proof.
  intros Heps Hsc Hrun. unfold aStar in Hrun.
  destruct (JsMap.get startKey g) as [startNode|] eqn:Es; [|discriminate].
  destruct (JsMap.get endKey g) as [endNode|] eqn:Ee; [|discriminate].
  cbv zeta in Hrun.
  apply (aStarLoop_bounded eps g startKey endNode Heps Hsc endKey _ _ p
           (initial_bounded eps g startKey startNode endNode Es) Hrun).
Qed.

(** X29: on the graph that the builder makes, whose edges weigh from 0.8 to
    2 times the centroid distance of their rooms, a path that the
    search returns weighs at most 1.25 times the weight of any path
    from the start to the end: the corridor discounts cost the search
    its optimality, but no more than a quarter of the least weight. *)
Theorem search_is_within_a_quarter_of_optimal (groups : JsMap.t room)
  (targetFloor : option Z) :
  distinctRooms groups ->
  let g := buildRoomGraph groups targetFloor in
  scaledWeights 1.25 g /\
  forall startKey endKey p,
    aStar g startKey endKey = Ok (Some p) ->
    exists c,
      route g p c /\ fromTo p startKey endKey /\
      forall p' c',
        route g p' c' -> fromTo p' startKey endKey -> c <= 1.25 * c'.
Proof.
  intros Hd g.
  assert (Hsc : scaledWeights 1.25 g).
  { intros u nu nb Hu Hnb.
    destruct (graph_edge groups targetFloor u nu nb Hd Hu Hnb)
      as (r & o & Hr & Ho & -> & Hc & -> & Hgo).
    destruct (connect_fields r o nb Hc)
      as (Hk & _ & _ & _ & _ & _ & _ & Hw).
    rewrite Hk. eexists. split; [exact Hgo|]. cbn [n_centroid]. lra. }
  split; [exact Hsc|]. intros s e p.
  apply aStar_bounded; [lra | exact Hsc].
Qed.

Lemma search_is_within_a_quarter_of_optimal_witness :
  scaledWeights 1.25 (buildRoomGraph adjacentRooms None).
Proof.
  apply (search_is_within_a_quarter_of_optimal adjacentRooms None).
  distinct_keys.
Defined.
